(** * Node processing engine of SCIP (src/scip/solve.c): shallow embedding

    The functions of solve.c are translated to Rocq functions over records
    that mirror the C structs (only the fields solve.c reads or writes).
    Plug-ins and the LP kernel are callbacks in the C code; here they are
    functions on the solver state passed as arguments or section variables.

    Conventions
    - [SCIP_Real] (a C double) is modelled by the rationals [Q]; rounding is
      not modelled, except in the tests of line 1806, whose outcome depends
      on it: the test on the number of fractional candidates, whose operands
      are [int]s converted to [double], is computed in IEEE 754 binary64
      ([Double]), and the literal [1e-04] is the nearest double.
    - [int] and [SCIP_Longint] counters are modelled by [Z].
    - Callees whose code is not in solve.c are assumed to return [SCIP_OKAY];
      the return codes produced by solve.c itself are modelled. *)

From Stdlib Require Import ZArith QArith Qminmax Qabs Bool List Lia.
From Stdlib Require SpecFloat.
From stdpp Require Import base option list gmap.

Close Scope Q_scope.
Open Scope Z_scope.

(** ** Shared enumerations (scip/type_result.h, type_lp.h, type_stat.h, type_set.h) *)

Inductive SCIP_RESULT :=
| SCIP_DIDNOTRUN | SCIP_DELAYED | SCIP_DIDNOTFIND | SCIP_FEASIBLE
| SCIP_INFEASIBLE | SCIP_UNBOUNDED | SCIP_CUTOFF | SCIP_SEPARATED
| SCIP_REDUCEDDOM | SCIP_CONSADDED | SCIP_CONSCHANGED | SCIP_BRANCHED
| SCIP_SOLVELP | SCIP_FOUNDSOL | SCIP_SUSPENDED | SCIP_SUCCESS.

Inductive SCIP_RETCODE :=
| SCIP_OKAY | SCIP_LPERROR | SCIP_INVALIDRESULT.

Inductive SCIP_LPSOLSTAT :=
| SCIP_LPSOLSTAT_NOTSOLVED | SCIP_LPSOLSTAT_OPTIMAL | SCIP_LPSOLSTAT_INFEASIBLE
| SCIP_LPSOLSTAT_UNBOUNDEDRAY | SCIP_LPSOLSTAT_OBJLIMIT | SCIP_LPSOLSTAT_ITERLIMIT
| SCIP_LPSOLSTAT_TIMELIMIT | SCIP_LPSOLSTAT_ERROR.

Inductive SCIP_STATUS :=
| SCIP_STATUS_UNKNOWN | SCIP_STATUS_USERINTERRUPT | SCIP_STATUS_NODELIMIT
| SCIP_STATUS_STALLNODELIMIT | SCIP_STATUS_TIMELIMIT | SCIP_STATUS_MEMLIMIT
| SCIP_STATUS_GAPLIMIT | SCIP_STATUS_SOLLIMIT | SCIP_STATUS_BESTSOLLIMIT
| SCIP_STATUS_OPTIMAL | SCIP_STATUS_INFEASIBLE | SCIP_STATUS_UNBOUNDED
| SCIP_STATUS_INFORUNBD.

Inductive SCIP_STAGE :=
| SCIP_STAGE_INIT | SCIP_STAGE_PROBLEM | SCIP_STAGE_TRANSFORMING
| SCIP_STAGE_TRANSFORMED | SCIP_STAGE_PRESOLVING | SCIP_STAGE_PRESOLVED
| SCIP_STAGE_INITSOLVE | SCIP_STAGE_SOLVING | SCIP_STAGE_SOLVED
| SCIP_STAGE_FREESOLVE | SCIP_STAGE_FREETRANS.

#[global] Instance SCIP_RESULT_eq_dec : EqDecision SCIP_RESULT.
Proof. solve_decision. Defined.
#[global] Instance SCIP_RETCODE_eq_dec : EqDecision SCIP_RETCODE.
Proof. solve_decision. Defined.
#[global] Instance SCIP_LPSOLSTAT_eq_dec : EqDecision SCIP_LPSOLSTAT.
Proof. solve_decision. Defined.
#[global] Instance SCIP_STATUS_eq_dec : EqDecision SCIP_STATUS.
Proof. solve_decision. Defined.

(** Position of a stage in the enum, for the [>=] tests on [set->stage]. *)
Definition stage_rank (s : SCIP_STAGE) : Z :=
  match s with
  | SCIP_STAGE_INIT => 0 | SCIP_STAGE_PROBLEM => 1 | SCIP_STAGE_TRANSFORMING => 2
  | SCIP_STAGE_TRANSFORMED => 3 | SCIP_STAGE_PRESOLVING => 4 | SCIP_STAGE_PRESOLVED => 5
  | SCIP_STAGE_INITSOLVE => 6 | SCIP_STAGE_SOLVING => 7 | SCIP_STAGE_SOLVED => 8
  | SCIP_STAGE_FREESOLVE => 9 | SCIP_STAGE_FREETRANS => 10
  end.

Definition stage_ge (a b : SCIP_STAGE) : bool := stage_rank b <=? stage_rank a.

Definition SCIP_Real := Q.

(** [a >= b] on doubles. *)
Definition Rge_bool (a b : SCIP_Real) : bool := Qle_bool b a.
(** [a > b] and [a < b] on doubles. *)
Definition Rgt_bool (a b : SCIP_Real) : bool := negb (Qle_bool a b).
Definition Rlt_bool (a b : SCIP_Real) : bool := negb (Qle_bool b a).

(** The [MIN] macro of scip/def.h on doubles. *)
Definition MIN (x y : Q) : Q := if Qle_bool x y then x else y.

Definition INT_MAX : Z := 2147483647.

(** Two's complement wrap-around of a 32 bit [int] sum. *)
Definition int_wrap (x : Z) : Z := (x + 2^31) mod 2^32 - 2^31.
Definition int_add (a b : Z) : Z := int_wrap (a + b).

(** The [MAX] macro of scip/def.h on doubles. *)
Definition MAX (x y : Q) : Q := if Qle_bool y x then x else y.

(** Two's complement wrap-around of a 64 bit [SCIP_Longint] sum. *)
Definition longint_wrap (x : Z) : Z := (x + 2^63) mod 2^64 - 2^63.
Definition longint_add (a b : Z) : Z := longint_wrap (a + b).

(** Tolerance comparisons of scip/set.c with feasibility-independent epsilon
    [eps]; solve.c only calls them, so the functions of this file take the
    comparison as an argument and these are used to run them. *)
Definition EPSLE (eps x y : SCIP_Real) : bool := Qle_bool (x - y) eps.
Definition EPSLT (eps x y : SCIP_Real) : bool := negb (Qle_bool (- eps) (x - y)).
Definition EPSGE (eps x y : SCIP_Real) : bool := Qle_bool (- eps) (x - y).
Definition EPSGT (eps x y : SCIP_Real) : bool := negb (Qle_bool (x - y) eps).
Definition EPSEQ (eps x y : SCIP_Real) : bool := Qle_bool (Qabs (x - y)) eps.

(** ** Arithmetic on [double]

    IEEE 754 binary64 with rounding to nearest, ties to even, as the
    operations [-], [*] and [<=] of C on [double] and the conversion of an
    [int]; the literals [0.9] and [0.1] are the nearest doubles,
    [0x1.ccccccccccccdp-1] and [0x1.999999999999ap-4]. *)
Module Double.

Definition prec : Z := 53.
Definition emax : Z := 1024.
Definition double : Type := SpecFloat.spec_float.

Definition of_int (z : Z) : double := SpecFloat.binary_normalize prec emax z 0 false.
Definition sub (x y : double) : double := SpecFloat.SFsub prec emax x y.
Definition mul (x y : double) : double := SpecFloat.SFmul prec emax x y.
Definition leb (x y : double) : bool := SpecFloat.SFleb x y.

Definition d0_9 : double := SpecFloat.S754_finite false 0x1ccccccccccccd (-53).
Definition d0_1 : double := SpecFloat.S754_finite false 0x1999999999999a (-56).

(** The literal [1e-04] is the nearest double, [0x1.a36e2eb1c432dp-14]; this
    is its value, 7378697629483821 / 2^66, which is above 1/10000. *)
Definition val_1e_4 : SCIP_Real := (7378697629483821 # 73786976294838206464)%Q.

End Double.

(** ** Stop/status monitor: [SCIPsolveIsStopped] (solve.c 64-118) *)

Module Stop.

Record SCIP_SET := mkSet {
  stage : SCIP_STAGE;
  limitchanged : bool;
  limit_time : SCIP_Real;
  limit_memory : SCIP_Real;
  limit_gap : SCIP_Real;
  limit_absgap : SCIP_Real;
  limit_solutions : Z;
  limit_bestsol : Z;
  limit_nodes : Z;
  limit_stallnodes : Z
}.

Record SCIP_STAT := mkStat {
  status : SCIP_STATUS;
  userinterrupt : bool;
  nnodes : Z;
  bestsolnode : Z
}.

(** Values read through [set->scip], the clock and the interrupt handler
    during one call. *)
Record Readings := mkReadings {
  SCIPinterrupted : bool;
  SCIPclockGetTime : SCIP_Real;
  SCIPgetMemUsed : Z;
  SCIPgetUpperbound : SCIP_Real;
  SCIPgetLowerbound : SCIP_Real;
  SCIPgetGap : SCIP_Real;
  SCIPgetNSolsFound : Z;
  SCIPgetNBestSolsFound : Z
}.

Definition set_status (stat : SCIP_STAT) (s : SCIP_STATUS) : SCIP_STAT :=
  mkStat s (userinterrupt stat) (nnodes stat) (bestsolnode stat).

Definition clear_userinterrupt (stat : SCIP_STAT) : SCIP_STAT :=
  mkStat (status stat) false (nnodes stat) (bestsolnode stat).

Definition clear_limitchanged (set : SCIP_SET) : SCIP_SET :=
  mkSet (stage set) false (limit_time set) (limit_memory set) (limit_gap set)
    (limit_absgap set) (limit_solutions set) (limit_bestsol set) (limit_nodes set)
    (limit_stallnodes set).

Section IsStopped.

(** [SCIPsetIsLE(set, a, b)] and [SCIPsetIsLT(set, a, b)] of scip/set.c read
    only the tolerances of [set], which solve.c never writes. *)
Variable SCIPsetIsLE : SCIP_Real -> SCIP_Real -> bool.
Variable SCIPsetIsLT : SCIP_Real -> SCIP_Real -> bool.

(** The early exit of line 76. *)
Definition bounds_closed (set : SCIP_SET) (r : Readings) : bool :=
  stage_ge (stage set) SCIP_STAGE_SOLVING
  && SCIPsetIsLE (SCIPgetUpperbound r) (SCIPgetLowerbound r).

(** Lines 80-84. *)
Definition reset_if_limitchanged (set : SCIP_SET) (stat : SCIP_STAT) : SCIP_SET * SCIP_STAT :=
  if limitchanged set
  then (clear_limitchanged set, set_status stat SCIP_STATUS_UNKNOWN)
  else (set, stat).

(** Lines 86-109: the [if / else if] chain. *)
Definition update_status (set : SCIP_SET) (stat : SCIP_STAT) (r : Readings)
    (checknodelimits : bool) : SCIP_STAT :=
  if SCIPinterrupted r || userinterrupt stat then
    clear_userinterrupt (set_status stat SCIP_STATUS_USERINTERRUPT)
  else if Rge_bool (SCIPclockGetTime r) (limit_time set) then
    set_status stat SCIP_STATUS_TIMELIMIT
  else if Rge_bool (inject_Z (SCIPgetMemUsed r)) (limit_memory set * 1048576)%Q then
    set_status stat SCIP_STATUS_MEMLIMIT
  else if stage_ge (stage set) SCIP_STAGE_SOLVING
          && SCIPsetIsLT (SCIPgetGap r) (limit_gap set) then
    set_status stat SCIP_STATUS_GAPLIMIT
  else if stage_ge (stage set) SCIP_STAGE_SOLVING
          && SCIPsetIsLT (SCIPgetUpperbound r - SCIPgetLowerbound r)%Q (limit_absgap set) then
    set_status stat SCIP_STATUS_GAPLIMIT
  else if (0 <=? limit_solutions set) && stage_ge (stage set) SCIP_STAGE_PRESOLVED
          && (limit_solutions set <=? SCIPgetNSolsFound r) then
    set_status stat SCIP_STATUS_SOLLIMIT
  else if (0 <=? limit_bestsol set) && stage_ge (stage set) SCIP_STAGE_PRESOLVED
          && (limit_bestsol set <=? SCIPgetNBestSolsFound r) then
    set_status stat SCIP_STATUS_BESTSOLLIMIT
  else if checknodelimits && (0 <=? limit_nodes set)
          && (limit_nodes set <=? nnodes stat) then
    set_status stat SCIP_STATUS_NODELIMIT
  else if checknodelimits && (0 <=? limit_stallnodes set)
          && (longint_add (bestsolnode stat) (limit_stallnodes set) <=? nnodes stat) then
    set_status stat SCIP_STATUS_STALLNODELIMIT
  else stat.

Definition status_ne (a b : SCIP_STATUS) : bool := negb (bool_decide (a = b)).

(** Lines 114-117. *)
Definition stop_answer (stat : SCIP_STAT) (checknodelimits : bool) : bool :=
  if negb checknodelimits then
    status_ne (status stat) SCIP_STATUS_UNKNOWN
    && status_ne (status stat) SCIP_STATUS_NODELIMIT
    && status_ne (status stat) SCIP_STATUS_STALLNODELIMIT
  else status_ne (status stat) SCIP_STATUS_UNKNOWN.

Definition SCIPsolveIsStopped (set : SCIP_SET) (stat : SCIP_STAT) (r : Readings)
    (checknodelimits : bool) : bool * SCIP_SET * SCIP_STAT :=
  if bounds_closed set r then (false, set, stat)
  else
    let '(set1, stat1) := reset_if_limitchanged set stat in
    let stat2 := update_status set1 stat1 r checknodelimits in
    (stop_answer stat2 checknodelimits, set1, stat2).

(** *** The contract as the specification words it

    A limit is a pair of a test and the status it yields; the limits are
    listed in priority order and the first one that matches wins. *)
Definition limits_in_priority_order (set : SCIP_SET) (stat : SCIP_STAT) (r : Readings)
    (checknodelimits : bool) : list (bool * SCIP_STATUS) :=
  [ (SCIPinterrupted r || userinterrupt stat, SCIP_STATUS_USERINTERRUPT);
    (Rge_bool (SCIPclockGetTime r) (limit_time set), SCIP_STATUS_TIMELIMIT);
    (Rge_bool (inject_Z (SCIPgetMemUsed r)) (limit_memory set * 1048576)%Q, SCIP_STATUS_MEMLIMIT);
    (stage_ge (stage set) SCIP_STAGE_SOLVING
       && SCIPsetIsLT (SCIPgetGap r) (limit_gap set), SCIP_STATUS_GAPLIMIT);
    (stage_ge (stage set) SCIP_STAGE_SOLVING
       && SCIPsetIsLT (SCIPgetUpperbound r - SCIPgetLowerbound r)%Q (limit_absgap set),
     SCIP_STATUS_GAPLIMIT);
    ((0 <=? limit_solutions set) && stage_ge (stage set) SCIP_STAGE_PRESOLVED
       && (limit_solutions set <=? SCIPgetNSolsFound r), SCIP_STATUS_SOLLIMIT);
    ((0 <=? limit_bestsol set) && stage_ge (stage set) SCIP_STAGE_PRESOLVED
       && (limit_bestsol set <=? SCIPgetNBestSolsFound r), SCIP_STATUS_BESTSOLLIMIT);
    (checknodelimits && (0 <=? limit_nodes set)
       && (limit_nodes set <=? nnodes stat), SCIP_STATUS_NODELIMIT);
    (checknodelimits && (0 <=? limit_stallnodes set)
       && (longint_add (bestsolnode stat) (limit_stallnodes set) <=? nnodes stat),
     SCIP_STATUS_STALLNODELIMIT) ].

Fixpoint first_matching (ls : list (bool * SCIP_STATUS)) : option SCIP_STATUS :=
  match ls with
  | [] => None
  | (true, s) :: _ => Some s
  | (false, _) :: rest => first_matching rest
  end.

(** The status the claim expects after the call: the first matching limit,
    or the previous status (after the [limitchanged] reset) when none matches. *)
Definition expected_status (set : SCIP_SET) (stat : SCIP_STAT) (r : Readings)
    (checknodelimits : bool) : SCIP_STATUS :=
  let stat1 := (reset_if_limitchanged set stat).2 in
  default (status stat1)
    (first_matching (limits_in_priority_order set stat1 r checknodelimits)).

Definition expected_answer (s : SCIP_STATUS) (checknodelimits : bool) : bool :=
  match s with
  | SCIP_STATUS_UNKNOWN => false
  | SCIP_STATUS_NODELIMIT | SCIP_STATUS_STALLNODELIMIT => checknodelimits
  | _ => true
  end.

(** The claim, as a property of one call. *)
Definition stop_contract (set : SCIP_SET) (stat : SCIP_STAT) (r : Readings)
    (checknodelimits : bool) : Prop :=
  let '(answer, _, stat') := SCIPsolveIsStopped set stat r checknodelimits in
  status stat' = expected_status set stat r checknodelimits
  /\ answer = expected_answer (status stat') checknodelimits.

End IsStopped.

End Stop.

(** *** A concrete call used to run the monitor *)

Module StopRun.
Import Stop.

Definition eps : SCIP_Real := (1 # 1000000000)%Q.
Definition IsLE := EPSLE eps.
Definition IsLT := EPSLT eps.

(** Solving stage, time limit of 10 seconds, no other limit active. *)
Definition set0 : SCIP_SET :=
  mkSet SCIP_STAGE_SOLVING false 10%Q 100000%Q 0%Q 0%Q (-1) (-1) (-1) (-1).

Definition stat0 : SCIP_STAT := mkStat SCIP_STATUS_UNKNOWN false 7 3.

(** The clock shows 20 seconds and the bounds have met: upper = lower = 5. *)
Definition closed_after_timeout : Readings := mkReadings false 20%Q 1000 5%Q 5%Q 0%Q 1 1.

(** The clock shows 20 seconds and the gap is still open: upper = 9, lower = 5. *)
Definition open_after_timeout : Readings := mkReadings false 20%Q 1000 9%Q 5%Q (4 # 5)%Q 1 1.

End StopRun.

(** ** The node engine: state and collaborators *)

(** Result of a function that can fail with a return code ([SCIP_CALL]
    propagates it) or, for the unbounded [while] loops, run out of the fuel
    of the model. *)
Inductive Res (A : Type) :=
| Ok (a : A)
| Err (rc : SCIP_RETCODE)
| OutOfFuel.
Arguments Ok {A} a.
Arguments Err {A} rc.
Arguments OutOfFuel {A}.

#[global] Instance Res_bind : MBind Res := fun A B f m =>
  match m with
  | Ok a => f a
  | Err rc => Err rc
  | OutOfFuel => OutOfFuel
  end.
#[global] Instance Res_ret : MRet Res := fun A a => Ok a.

Module Solve.

(** The focus node (scip/struct_tree.h). *)
Record SCIP_NODE := mkNode {
  node_lowerbound : SCIP_Real;
  node_depth : Z;
  node_reprop : bool
}.

Record SCIP_TREE := mkTree {
  focusnode : SCIP_NODE;
  focusnodehaslp : bool;
  cutoffdepth : Z;
  nchildren : Z
}.

Record SCIP_LP := mkLP {
  flushed : bool;
  solved : bool;
  lpsolstat : SCIP_LPSOLSTAT;
  lp_cutoffbound : SCIP_Real;
  resolvelperror : bool;
  installing : bool;
  isrelax : bool
}.

Record SCIP_STAT := mkStat {
  nnodes : Z;
  nruns : Z;
  nlps : Z;
  nlpiterations : Z;
  lpcount : Z;
  domchgcount : Z;
  nboundchgs : Z;
  npricerounds : Z;
  nseparounds : Z;
  ninitlps : Z;
  ninitlpiterations : Z;
  nnodelps : Z;
  nnodelpiterations : Z;
  nrootlpiterations : Z;
  userrestart : bool;
  nrootintfixingsrun : Z;
  prevrunnvars : Z
}.

Record SCIP_PROB := mkProb {
  nvars : Z;
  ncolvars : Z;
  ncontvars : Z
}.

(** The whole solver state.  [ext] stands for everything solve.c never looks
    into: the LP kernel, the open nodes, the stores' contents and the private
    data of the plug-ins. *)
Record Solver (E : Type) := mkSolver {
  stat : SCIP_STAT;
  tree : SCIP_TREE;
  lp : SCIP_LP;
  prob : SCIP_PROB;
  primal_cutoffbound : SCIP_Real;
  sepastore_ncuts : nat;
  pricestore_nvars : Z;
  ext : E
}.
Arguments mkSolver {E}.
Arguments stat {E}.
Arguments tree {E}.
Arguments lp {E}.
Arguments prob {E}.
Arguments primal_cutoffbound {E}.
Arguments sepastore_ncuts {E}.
Arguments pricestore_nvars {E}.
Arguments ext {E}.

Section Setters.
Context {E : Type}.
Implicit Types (s : Solver E).

Definition with_stat (f : SCIP_STAT -> SCIP_STAT) s : Solver E :=
  mkSolver (f (stat s)) (tree s) (lp s) (prob s) (primal_cutoffbound s)
    (sepastore_ncuts s) (pricestore_nvars s) (ext s).

Definition with_tree (f : SCIP_TREE -> SCIP_TREE) s : Solver E :=
  mkSolver (stat s) (f (tree s)) (lp s) (prob s) (primal_cutoffbound s)
    (sepastore_ncuts s) (pricestore_nvars s) (ext s).

Definition with_lp (f : SCIP_LP -> SCIP_LP) s : Solver E :=
  mkSolver (stat s) (tree s) (f (lp s)) (prob s) (primal_cutoffbound s)
    (sepastore_ncuts s) (pricestore_nvars s) (ext s).

(** [SCIPtreeHasFocusNodeLP] and [SCIPtreeSetFocusNodeLP]. *)
Definition SCIPtreeHasFocusNodeLP s : bool := focusnodehaslp (tree s).
Definition SCIPtreeSetFocusNodeLP (b : bool) s : Solver E :=
  with_tree (fun t => mkTree (focusnode t) b (cutoffdepth t) (nchildren t)) s.

Definition SCIPlpGetSolstat s : SCIP_LPSOLSTAT := lpsolstat (lp s).
Definition SCIPlpIsRelax s : bool := isrelax (lp s).
Definition SCIPlpSetIsRelax (b : bool) s : Solver E :=
  with_lp (fun l => mkLP (flushed l) (solved l) (lpsolstat l) (lp_cutoffbound l)
                      (resolvelperror l) (installing l) b) s.
Definition set_installing (b : bool) s : Solver E :=
  with_lp (fun l => mkLP (flushed l) (solved l) (lpsolstat l) (lp_cutoffbound l)
                      (resolvelperror l) b (isrelax l)) s.
Definition set_solved (b : bool) s : Solver E :=
  with_lp (fun l => mkLP (flushed l) b (lpsolstat l) (lp_cutoffbound l)
                      (resolvelperror l) (installing l) (isrelax l)) s.
Definition set_lp_cutoffbound (c : SCIP_Real) s : Solver E :=
  with_lp (fun l => mkLP (flushed l) (solved l) (lpsolstat l) c
                      (resolvelperror l) (installing l) (isrelax l)) s.

Definition solstat_is (x : SCIP_LPSOLSTAT) s : bool := bool_decide (SCIPlpGetSolstat s = x).

Definition SCIPsepastoreGetNCuts s : nat := sepastore_ncuts s.
Definition SCIPpricestoreGetNVars s : Z := pricestore_nvars s.

Definition SCIPnodeGetLowerbound s : SCIP_Real := node_lowerbound (focusnode (tree s)).
Definition SCIPnodeGetDepth s : Z := node_depth (focusnode (tree s)).
Definition SCIPnodeIsPropagatedAgain s : bool := node_reprop (focusnode (tree s)).

(** Modelled from the spec: [SCIPnodeUpdateLowerbound] of scip/tree.c is not
    part of solve.c; the specification describes it as raising the node's
    lower bound to the maximum of the current and the new bound. *)
Definition SCIPnodeUpdateLowerbound (newbound : SCIP_Real) s : Solver E :=
  with_tree (fun t =>
    let n := focusnode t in
    mkTree (mkNode (if Rgt_bool newbound (node_lowerbound n)
                    then newbound else node_lowerbound n)
                   (node_depth n) (node_reprop n))
           (focusnodehaslp t) (cutoffdepth t) (nchildren t)) s.

Definition set_npricerounds (v : Z) s : Solver E :=
  with_stat (fun t => mkStat (nnodes t) (nruns t) (nlps t) (nlpiterations t) (lpcount t)
    (domchgcount t) (nboundchgs t) v (nseparounds t) (ninitlps t)
    (ninitlpiterations t) (nnodelps t) (nnodelpiterations t) (nrootlpiterations t)
    (userrestart t) (nrootintfixingsrun t) (prevrunnvars t)) s.

Definition set_nseparounds (v : Z) s : Solver E :=
  with_stat (fun t => mkStat (nnodes t) (nruns t) (nlps t) (nlpiterations t) (lpcount t)
    (domchgcount t) (nboundchgs t) (npricerounds t) v (ninitlps t)
    (ninitlpiterations t) (nnodelps t) (nnodelpiterations t) (nrootlpiterations t)
    (userrestart t) (nrootintfixingsrun t) (prevrunnvars t)) s.

(** The LP iteration counters updated by [solveNodeLP]. *)
Definition add_initlps (dlps dits : Z) s : Solver E :=
  with_stat (fun t => mkStat (nnodes t) (nruns t) (nlps t) (nlpiterations t) (lpcount t)
    (domchgcount t) (nboundchgs t) (npricerounds t) (nseparounds t) (ninitlps t + dlps)
    (ninitlpiterations t + dits) (nnodelps t) (nnodelpiterations t) (nrootlpiterations t)
    (userrestart t) (nrootintfixingsrun t) (prevrunnvars t)) s.

Definition add_nodelps (dlps dits : Z) s : Solver E :=
  with_stat (fun t => mkStat (nnodes t) (nruns t) (nlps t) (nlpiterations t) (lpcount t)
    (domchgcount t) (nboundchgs t) (npricerounds t) (nseparounds t) (ninitlps t)
    (ninitlpiterations t) (nnodelps t + dlps) (nnodelpiterations t + dits) (nrootlpiterations t)
    (userrestart t) (nrootintfixingsrun t) (prevrunnvars t)) s.

Definition add_rootlpiterations (dits : Z) s : Solver E :=
  with_stat (fun t => mkStat (nnodes t) (nruns t) (nlps t) (nlpiterations t) (lpcount t)
    (domchgcount t) (nboundchgs t) (npricerounds t) (nseparounds t) (ninitlps t)
    (ninitlpiterations t) (nnodelps t) (nnodelpiterations t) (nrootlpiterations t + dits)
    (userrestart t) (nrootintfixingsrun t) (prevrunnvars t)) s.

Definition set_sepastore_ncuts (n : nat) s : Solver E :=
  mkSolver (stat s) (tree s) (lp s) (prob s) (primal_cutoffbound s) n
    (pricestore_nvars s) (ext s).

Definition set_pricestore_nvars (n : Z) s : Solver E :=
  mkSolver (stat s) (tree s) (lp s) (prob s) (primal_cutoffbound s)
    (sepastore_ncuts s) n (ext s).

Definition set_ext (e : E) s : Solver E :=
  mkSolver (stat s) (tree s) (lp s) (prob s) (primal_cutoffbound s)
    (sepastore_ncuts s) (pricestore_nvars s) e.

End Setters.

(** *** Plug-ins and settings (scip/struct_set.h) *)

Inductive SCIP_HEURTIMING :=
| SCIP_HEURTIMING_BEFORENODE | SCIP_HEURTIMING_DURINGLPLOOP
| SCIP_HEURTIMING_AFTERLPLOOP | SCIP_HEURTIMING_AFTERLPLOOP_AFTERNODE
| SCIP_HEURTIMING_DURINGPRICINGLOOP | SCIP_HEURTIMING_AFTERPROPLOOP.

(** A pricer with its [SCIPpricerExec] callback, which yields the pricer's
    lower bound and result. *)
Record Pricer (E : Type) := mkPricer {
  pricer_priority : Z;
  pricer_active : bool;
  SCIPpricerExec : Solver E -> Solver E * (SCIP_Real * SCIP_RESULT)
}.
Arguments mkPricer {E}.
Arguments pricer_priority {E}.
Arguments pricer_active {E}.
Arguments SCIPpricerExec {E}.

(** A separator; [SCIPsepaExecLP] takes the depth, the bound distance and
    the [onlydelayed] flag. *)
Record Sepa (E : Type) := mkSepa {
  sepa_priority : Z;
  SCIPsepaWasLPDelayed : Solver E -> bool;
  SCIPsepaExecLP : Z -> SCIP_Real -> bool -> Solver E -> Solver E * SCIP_RESULT
}.
Arguments mkSepa {E}.
Arguments sepa_priority {E}.
Arguments SCIPsepaWasLPDelayed {E}.
Arguments SCIPsepaExecLP {E}.

(** A constraint handler: LP separation (depth, onlydelayed), LP enforcement
    (solinfeasible) and pseudo enforcement (solinfeasible, objinfeasible,
    forced). *)
Record Conshdlr (E : Type) := mkConshdlr {
  SCIPconshdlrWasLPSeparationDelayed : Solver E -> bool;
  SCIPconshdlrSeparateLP : Z -> bool -> Solver E -> Solver E * SCIP_RESULT;
  SCIPconshdlrEnforceLPSol : bool -> Solver E -> Solver E * SCIP_RESULT;
  SCIPconshdlrEnforcePseudoSol : bool -> bool -> bool -> Solver E -> Solver E * SCIP_RESULT
}.
Arguments mkConshdlr {E}.
Arguments SCIPconshdlrWasLPSeparationDelayed {E}.
Arguments SCIPconshdlrSeparateLP {E}.
Arguments SCIPconshdlrEnforceLPSol {E}.
Arguments SCIPconshdlrEnforcePseudoSol {E}.

(** A relaxator; [SCIPrelaxExec] takes the depth and yields lower bound and
    result. *)
Record Relax (E : Type) := mkRelax {
  relax_priority : Z;
  SCIPrelaxIsSolved : Solver E -> bool;
  SCIPrelaxMarkUnsolved : Solver E -> Solver E;
  SCIPrelaxExec : Z -> Solver E -> Solver E * (SCIP_Real * SCIP_RESULT)
}.
Arguments mkRelax {E}.
Arguments relax_priority {E}.
Arguments SCIPrelaxIsSolved {E}.
Arguments SCIPrelaxMarkUnsolved {E}.
Arguments SCIPrelaxExec {E}.

Record SCIP_SET (E : Type) := mkSet {
  conshdlrs_sepa : list (Conshdlr E);
  conshdlrs_enfo : list (Conshdlr E);
  sepas : list (Sepa E);
  relaxs : list (Relax E);
  pricers : list (Pricer E);
  num_infinity : SCIP_Real;
  misc_exactsolve : bool;
  lp_solvedepth : Z;
  lp_solvefreq : Z;
  price_maxvars : Z;
  price_maxvarsroot : Z;
  sepa_maxbounddist : SCIP_Real;
  sepa_maxruns : Z;
  sepa_maxrounds : Z;
  sepa_maxroundsroot : Z;
  sepa_maxroundsrootsubrun : Z;
  sepa_maxaddrounds : Z;
  sepa_maxstallrounds : Z;
  sepa_maxcuts : Z;
  sepa_maxcutsroot : Z;
  sepa_poolfreq : Z;
  presol_maxrestarts : Z;
  presol_restartfac : SCIP_Real;
  presol_immrestartfac : SCIP_Real;
  presol_subrestartfac : SCIP_Real;
  presol_restartminred : SCIP_Real
}.
Arguments mkSet {E}.
Arguments conshdlrs_sepa {E}.
Arguments conshdlrs_enfo {E}.
Arguments sepas {E}.
Arguments relaxs {E}.
Arguments pricers {E}.
Arguments num_infinity {E}.
Arguments misc_exactsolve {E}.
Arguments lp_solvedepth {E}.
Arguments lp_solvefreq {E}.
Arguments price_maxvars {E}.
Arguments price_maxvarsroot {E}.
Arguments sepa_maxbounddist {E}.
Arguments sepa_maxruns {E}.
Arguments sepa_maxrounds {E}.
Arguments sepa_maxroundsroot {E}.
Arguments sepa_maxroundsrootsubrun {E}.
Arguments sepa_maxaddrounds {E}.
Arguments sepa_maxstallrounds {E}.
Arguments sepa_maxcuts {E}.
Arguments sepa_maxcutsroot {E}.
Arguments sepa_poolfreq {E}.
Arguments presol_maxrestarts {E}.
Arguments presol_restartfac {E}.
Arguments presol_immrestartfac {E}.
Arguments presol_subrestartfac {E}.
Arguments presol_restartminred {E}.

(** The functions of other compilation units that solve.c calls, and six
    functions of solve.c itself that the node engine reaches through this
    interface.  The bodies of the six are translated in [Stop],
    [Heuristics], [Propagate], [Estimate] and [InitialLP]; [Drivers] says
    when a collaborator is one of them.  Output parameters are returned. *)
Class Collaborators (E : Type) := {
  (* scip/set.c: comparisons with tolerance *)
  SCIPsetIsLT : SCIP_Real -> SCIP_Real -> bool;
  SCIPsetIsLE : SCIP_Real -> SCIP_Real -> bool;
  SCIPsetIsGT : SCIP_Real -> SCIP_Real -> bool;
  SCIPsetIsGE : SCIP_Real -> SCIP_Real -> bool;
  (* scip/misc.c and scip/def.h *)
  SCIPrelDiff : SCIP_Real -> SCIP_Real -> SCIP_Real;
  SCIP_REAL_MIN : SCIP_Real;
  (* scip/lp.c; SCIPlpSolveAndEval takes the two flags after the iteration
     limit and yields [lperror] *)
  SCIPlpSolveAndEval : bool -> bool -> Solver E -> Solver E * bool;
  SCIPlpFlush : Solver E -> Solver E;
  SCIPlpRemoveRedundantRows : Solver E -> Solver E;
  SCIPlpGetObjval : Solver E -> SCIP_Real;
  SCIPlpGetPseudoObjval : Solver E -> SCIP_Real;
  SCIPlpiInfinity : Solver E -> SCIP_Real;
  (* scip/tree.c *)
  SCIPtreeGetLowerbound : Solver E -> SCIP_Real;
  SCIPtreeGetNNodes : Solver E -> Z;
  SCIPtreeGetCurrentDepth : Solver E -> Z;
  SCIPtreeProbing : Solver E -> bool;
  SCIPnodeUpdateLowerboundLP : Solver E -> Solver E;
  SCIPnodeCreateChild : Solver E -> Solver E;
  (* scip/sepastore.c, pricestore.c, cutpool.c, branch.c, prob.c *)
  SCIPsepastoreClearCuts : Solver E -> Solver E;
  SCIPsepastoreApplyCuts : bool -> Solver E -> Solver E * bool;
  SCIPsepastoreStartForceCuts : Solver E -> Solver E;
  SCIPsepastoreEndForceCuts : Solver E -> Solver E;
  SCIPpricestoreAddProbVars : Solver E -> Solver E;
  SCIPpricestoreApplyVars : Solver E -> Solver E;
  SCIPpricestoreResetBounds : Solver E -> Solver E;
  SCIPcutpoolSeparate : bool -> Solver E -> Solver E * SCIP_RESULT;
  SCIPbranchcandGetLPCands : Solver E -> Solver E * Z;
  SCIPbranchcandClearExternCands : Solver E -> Solver E;
  SCIPbranchcandGetNExternCands : Solver E -> Z;
  SCIPbranchcandGetNPseudoCands : Solver E -> Z;
  SCIPbranchExecLP : Solver E -> Solver E * SCIP_RESULT;
  SCIPbranchExecExtern : Solver E -> Solver E * SCIP_RESULT;
  SCIPbranchExecPseudo : Solver E -> Solver E * SCIP_RESULT;
  SCIPprobAllColsInLP : Solver E -> bool;
  SCIPprobStoreRootSol : bool -> Solver E -> Solver E;
  (* scip/conflict.c, event.c, relax.c, primal.c and sol.c *)
  SCIPconflictAnalyzePseudo : Solver E -> Solver E;
  SCIPconflictAnalyzeLP : Solver E -> Solver E;
  SCIPconflictFlushConss : Solver E -> Solver E;
  process_LPSOLVED_event : Solver E -> Solver E;
  SCIPrelaxationSetSolValid : bool -> Solver E -> Solver E;
  try_LP_solution : bool -> Solver E -> Solver E * bool;
  try_current_solution : Solver E -> Solver E * bool;
  (* functions of solve.c, see [Drivers] *)
  SCIPsolveIsStopped : bool -> Solver E -> Solver E * bool;
  SCIPprimalHeuristics : SCIP_HEURTIMING -> Solver E -> Solver E * bool;
  propagateDomains : Z -> Z -> bool -> Solver E -> Solver E * bool;
  updateEstimate : Solver E -> Solver E;
  initConssLP : bool -> Solver E -> Solver E * bool;
  solveNodeInitialLP : Solver E -> Solver E * (bool * bool)
}.

(** *** Sorting the plug-in arrays

    Modelled from the spec: [SCIPsetSortPricers], [SCIPsetSortSepas] and
    [SCIPsetSortRelaxs] of scip/set.c are not part of solve.c; the
    specification says that they sort the plug-ins by priority (active
    pricers first).  [before y x] tells that [y] has to precede [x]. *)
Fixpoint insert_sorted {A} (before : A -> A -> bool) (x : A) (l : list A) : list A :=
  match l with
  | [] => [x]
  | y :: l' => if before y x then y :: insert_sorted before x l' else x :: l
  end.

Definition sort_by {A} (before : A -> A -> bool) (l : list A) : list A :=
  foldr (insert_sorted before) [] l.

Section Engine.
Context {E : Type} {ops : Collaborators E}.
Implicit Types (s : Solver E) (set : SCIP_SET E).

Definition SCIPsetInfinity set : SCIP_Real := num_infinity set.
Definition SCIPsetIsInfinity set (val : SCIP_Real) : bool := Rge_bool val (num_infinity set).
Definition SCIPsetGetPriceMaxvars set (root : bool) : Z :=
  if root then price_maxvarsroot set else price_maxvars set.
Definition SCIPsetGetSepaMaxcuts set (root : bool) : Z :=
  if root then sepa_maxcutsroot set else sepa_maxcuts set.

Definition pricer_before (y x : Pricer E) : bool :=
  (pricer_active y && negb (pricer_active x))
  || (eqb (pricer_active y) (pricer_active x) && (pricer_priority x <? pricer_priority y)).
Definition SCIPsetSortPricers set : list (Pricer E) := sort_by pricer_before (pricers set).
Definition nactivepricers set : nat :=
  length (filter (fun p => pricer_active p = true) (pricers set)).
Definition SCIPsetSortSepas set : list (Sepa E) :=
  sort_by (fun y x => sepa_priority x <? sepa_priority y) (sepas set).
Definition SCIPsetSortRelaxs set : list (Relax E) :=
  sort_by (fun y x => relax_priority x <? relax_priority y) (relaxs set).

(** *** [applyBounding] (solve.c 1883-1932) *)
Definition applyBounding set (cutoff : bool) s : Solver E * bool :=
  if negb cutoff then
    let pseudoobjval := SCIPlpGetPseudoObjval s in
    let s := SCIPnodeUpdateLowerbound pseudoobjval s in
    if (misc_exactsolve set && Rge_bool (SCIPnodeGetLowerbound s) (primal_cutoffbound s))
       || (negb (misc_exactsolve set)
           && SCIPsetIsGE (SCIPnodeGetLowerbound s) (primal_cutoffbound s))
    then
      let s := SCIPnodeUpdateLowerbound (SCIPsetInfinity set) s in
      let s := if Rge_bool pseudoobjval (primal_cutoffbound s)
                  && negb (SCIPsetIsInfinity set (- pseudoobjval)%Q)
               then SCIPconflictAnalyzePseudo s else s in
      (s, true)
    else (s, cutoff)
  else (s, cutoff).

(** *** [markRelaxsUnsolved] (solve.c 2185-2199) *)
Definition markRelaxsUnsolved set s : Solver E :=
  foldl (fun s r => SCIPrelaxMarkUnsolved r s) (SCIPrelaxationSetSolValid false s) (relaxs set).

(** *** [solveNodeRelax] (solve.c 2095-2181) *)

(** The flags of the node loop that the callees receive by pointer. *)
Record LoopFlags := mkFlags {
  fl_cutoff : bool;
  fl_propagateagain : bool;
  fl_solvelpagain : bool;
  fl_solverelaxagain : bool
}.

Definition relax_verdict (result : SCIP_RESULT) (f : LoopFlags) : Res LoopFlags :=
  match result with
  | SCIP_CUTOFF =>
      Ok (mkFlags true (fl_propagateagain f) (fl_solvelpagain f) (fl_solverelaxagain f))
  | SCIP_CONSADDED | SCIP_REDUCEDDOM =>
      Ok (mkFlags (fl_cutoff f) true true (fl_solverelaxagain f))
  | SCIP_SEPARATED =>
      Ok (mkFlags (fl_cutoff f) (fl_propagateagain f) true (fl_solverelaxagain f))
  | SCIP_SUSPENDED =>
      Ok (mkFlags (fl_cutoff f) (fl_propagateagain f) (fl_solvelpagain f) true)
  | SCIP_SUCCESS | SCIP_DIDNOTRUN => Ok f
  | _ => Err SCIP_INVALIDRESULT
  end.

Definition updates_relax_bound (result : SCIP_RESULT) : bool :=
  match result with
  | SCIP_CUTOFF | SCIP_DIDNOTRUN | SCIP_SUSPENDED => false
  | _ => true
  end.

Fixpoint relax_loop (depth : Z) (beforelp : bool) (rs : list (Relax E)) s (f : LoopFlags)
    : Res (Solver E * LoopFlags) :=
  match rs with
  | [] => Ok (s, f)
  | r :: rs' =>
      if fl_cutoff f then Ok (s, f)
      else if negb (eqb beforelp (0 <=? relax_priority r)) then relax_loop depth beforelp rs' s f
      else
        let '(s1, (lowerbound, result)) := SCIPrelaxExec r depth s in
        f1 ← relax_verdict result f;
        let s2 := if updates_relax_bound result
                  then SCIPnodeUpdateLowerbound lowerbound s1 else s1 in
        relax_loop depth beforelp rs' s2 f1
  end.

Definition solveNodeRelax set (depth : Z) (beforelp : bool) s (f : LoopFlags)
    : Res (Solver E * LoopFlags) :=
  relax_loop depth beforelp (SCIPsetSortRelaxs set) s f.

(** *** [applyCuts] (solve.c 2414-2451) *)
Definition applyCuts (root : bool) s (f : LoopFlags) : Solver E * LoopFlags :=
  if fl_cutoff f then (SCIPsepastoreClearCuts s, f)
  else if (0 <? SCIPsepastoreGetNCuts s)%nat then
    let olddomchgcount := domchgcount (stat s) in
    let '(s1, cutoff) := SCIPsepastoreApplyCuts root s in
    (s1, mkFlags cutoff
           (fl_propagateagain f || negb (domchgcount (stat s1) =? olddomchgcount))
           true (fl_solverelaxagain f))
  else (s, f).

(** *** [updateLoopStatus] (solve.c 2455-2494) *)
Definition updateLoopStatus set (depth : Z) s (f : LoopFlags) : LoopFlags :=
  let cutoff := fl_cutoff f || (cutoffdepth (tree s) <=? depth) in
  if nchildren (tree s) =? 0 then
    mkFlags cutoff
      (fl_propagateagain f || SCIPnodeIsPropagatedAgain s)
      (fl_solvelpagain f)
      (foldl (fun (again : bool) (r : Relax E) => if again then again else negb (SCIPrelaxIsSolved r s))
         (fl_solverelaxagain f) (relaxs set))
  else mkFlags cutoff false (fl_solvelpagain f) false.

(** *** [enforceConstraints] (solve.c 2203-2410) *)

(** The six flags the function receives by pointer. *)
Record EnfoFlags := mkEnfo {
  branched : bool;
  cutoff : bool;
  infeasible : bool;
  propagateagain : bool;
  solvelpagain : bool;
  solverelaxagain : bool
}.

(** The [switch] on the handler's result (lines 2295-2380): new state, flags
    and [resolved]. *)
Definition enforce_verdict set (result : SCIP_RESULT) s (f : EnfoFlags) (resolved : bool)
    : Res (Solver E * EnfoFlags * bool) :=
  match result with
  | SCIP_CUTOFF =>
      Ok (s, mkEnfo (branched f) true true (propagateagain f) (solvelpagain f)
               (solverelaxagain f), true)
  | SCIP_CONSADDED | SCIP_REDUCEDDOM =>
      Ok (markRelaxsUnsolved set s, mkEnfo (branched f) (cutoff f) true true true true, true)
  | SCIP_SEPARATED =>
      Ok (markRelaxsUnsolved set s,
          mkEnfo (branched f) (cutoff f) true (propagateagain f) true true, true)
  | SCIP_BRANCHED =>
      Ok (s, mkEnfo true (cutoff f) true (propagateagain f) (solvelpagain f)
               (solverelaxagain f), true)
  | SCIP_SOLVELP =>
      Ok (SCIPtreeSetFocusNodeLP true s,
          mkEnfo (branched f) (cutoff f) true (propagateagain f) true (solverelaxagain f), true)
  | SCIP_INFEASIBLE | SCIP_DIDNOTRUN =>
      Ok (s, mkEnfo (branched f) (cutoff f) true (propagateagain f) (solvelpagain f)
               (solverelaxagain f), resolved)
  | SCIP_FEASIBLE => Ok (s, f, resolved)
  | _ => Err SCIP_INVALIDRESULT
  end.

(** Lines 2385-2391: the LP may have run into the objective limit. *)
Definition lp_hit_objlimit s : bool :=
  SCIPtreeHasFocusNodeLP s && solstat_is SCIP_LPSOLSTAT_OBJLIMIT s.

(** What one handler did: its result and whether the objective limit test
    fired after it.  The list of these records is returned next to the
    outputs of the C function; it does not influence them. *)
Definition EnfoEvent : Type := SCIP_RESULT * bool.

(** One pass of the loop body for handler [h]. *)
Definition enforce_handler set (objinfeasible forced : bool) (h : Conshdlr E)
    s (f : EnfoFlags) (resolved : bool) : Res (Solver E * EnfoFlags * bool * EnfoEvent) :=
  '(s1, result) ←
     (if SCIPtreeHasFocusNodeLP s then
        Ok (SCIPconshdlrEnforceLPSol h (infeasible f) s)
      else
        let '(s1, result) :=
          SCIPconshdlrEnforcePseudoSol h (infeasible f) objinfeasible forced s in
        if negb (SCIPsepastoreGetNCuts s1 =? 0)%nat then Err SCIP_INVALIDRESULT
        else Ok (s1, result));
  '(s2, f2, resolved2) ← enforce_verdict set result s1 f resolved;
  if lp_hit_objlimit s2 then
    Ok (s2, mkEnfo (branched f2) true true (propagateagain f2) (solvelpagain f2)
              (solverelaxagain f2), true, (result, true))
  else Ok (s2, f2, resolved2, (result, false)).

(** The loop [for( h = 0; h < set->nconshdlrs && !resolved; ++h )]. *)
Fixpoint enforce_loop set (objinfeasible forced : bool) (hs : list (Conshdlr E))
    s (f : EnfoFlags) (resolved : bool) (trace : list EnfoEvent)
    : Res (Solver E * EnfoFlags * bool * list EnfoEvent) :=
  match hs with
  | [] => Ok (s, f, resolved, trace)
  | h :: hs' =>
      if resolved then Ok (s, f, resolved, trace)
      else
        '(s1, f1, resolved1, ev) ← enforce_handler set objinfeasible forced h s f resolved;
        enforce_loop set objinfeasible forced hs' s1 f1 resolved1 (trace ++ [ev])
  end.

Definition enforceConstraints set s (f : EnfoFlags) (forced : bool)
    : Res (Solver E * EnfoFlags * list EnfoEvent) :=
  let f := mkEnfo false (cutoff f) (infeasible f) (propagateagain f) (solvelpagain f)
             (solverelaxagain f) in
  let objinfeasible :=
    if SCIPtreeHasFocusNodeLP s then false
    else SCIPsetIsLT (SCIPlpGetPseudoObjval s) (SCIPnodeGetLowerbound s) in
  let s := SCIPsepastoreStartForceCuts s in
  '(s1, f1, _, trace) ← enforce_loop set objinfeasible forced (conshdlrs_enfo set) s f false [];
  Ok (SCIPsepastoreEndForceCuts s1, f1, trace).

(** The entry assertions of lines 2237-2240. *)
Definition enforce_entry (f : EnfoFlags) : Prop :=
  cutoff f = false /\ propagateagain f = false /\ solvelpagain f = false
  /\ solverelaxagain f = false.

(** Results with which a handler resolves the infeasibility. *)
Definition resolving (result : SCIP_RESULT) : bool :=
  match result with
  | SCIP_CUTOFF | SCIP_CONSADDED | SCIP_REDUCEDDOM | SCIP_SEPARATED
  | SCIP_BRANCHED | SCIP_SOLVELP => true
  | _ => false
  end.

Definition infeasible_or_feasible (result : SCIP_RESULT) : bool :=
  match result with
  | SCIP_INFEASIBLE | SCIP_FEASIBLE => true
  | _ => false
  end.

Definition raises_infeasible (result : SCIP_RESULT) : bool :=
  match result with
  | SCIP_FEASIBLE => false
  | _ => true
  end.

Definition count_set (f : EnfoFlags) : nat :=
  (if branched f then 1 else 0) + (if cutoff f then 1 else 0)
  + (if solvelpagain f then 1 else 0) + (if propagateagain f then 1 else 0).

(** The invariant as the specification words it: exactly one of the four
    flags is set, unless the handlers returned only INFEASIBLE or FEASIBLE
    verdicts, in which case none is set and [infeasible] is raised. *)
Definition exactly_one_flag_invariant (f : EnfoFlags) (trace : list EnfoEvent) : Prop :=
  if forallb (fun ev => infeasible_or_feasible ev.1) trace
  then count_set f = 0%nat /\ infeasible f = true
  else count_set f = 1%nat.

(** The four flags of the invariant. *)
Definition four_flags (f : EnfoFlags) : bool * bool * bool * bool :=
  (branched f, cutoff f, solvelpagain f, propagateagain f).

(** The rows of the verdict table for a result [v] after which the objective
    limit test gave [o]. *)
Definition verdict_row (v : SCIP_RESULT) (o : bool) : bool * bool * bool * bool :=
  (bool_decide (v = SCIP_BRANCHED),
   bool_decide (v = SCIP_CUTOFF) || o,
   bool_decide (v = SCIP_CONSADDED) || bool_decide (v = SCIP_REDUCEDDOM)
     || bool_decide (v = SCIP_SEPARATED) || bool_decide (v = SCIP_SOLVELP),
   bool_decide (v = SCIP_CONSADDED) || bool_decide (v = SCIP_REDUCEDDOM)).

Definition resolves (ev : EnfoEvent) : bool := resolving ev.1 || ev.2.

(** The combination the assertions of lines 2393-2397 exclude: the objective
    limit test fires after a handler has resolved the infeasibility other
    than by a cutoff. *)
Definition objlimit_after_resolution (ev : EnfoEvent) : bool :=
  ev.2 && resolving ev.1 && negb (bool_decide (ev.1 = SCIP_CUTOFF)).

Definition adds_constraint_or_reduces (ev : EnfoEvent) : bool :=
  bool_decide (ev.1 = SCIP_CONSADDED) || bool_decide (ev.1 = SCIP_REDUCEDDOM).

(** *** [SCIPpriceLoop] (solve.c 1278-1450) *)

(** One call of [SCIPpricerExec] as seen by the loop: the number of variables
    in the pricing store before and after it, and the pricer's lower bound
    and result.  These records are returned next to the outputs of the C
    function and do not influence them. *)
Record PricerCall := mkCall {
  call_nvars_before : Z;
  call_lb : SCIP_Real;
  call_result : SCIP_RESULT;
  call_nvars_after : Z
}.

(** The [for] loop over the active pricers (lines 1373-1382); [maxvars] is
    [SCIPsetGetPriceMaxvars(set, pretendroot)]. *)
Fixpoint call_pricers (maxvars : Z) (ps : list (Pricer E)) s
    (enoughvars aborted : bool) (lowerbound : SCIP_Real) (calls : list PricerCall)
    : Solver E * (bool * bool * SCIP_Real) * list PricerCall :=
  match ps with
  | [] => (s, (enoughvars, aborted, lowerbound), calls)
  | p :: ps' =>
      if enoughvars then (s, (enoughvars, aborted, lowerbound), calls)
      else
        let '(s1, (lb, result)) := SCIPpricerExec p s in
        let enoughvars :=
          enoughvars || (int_add maxvars 1 ÷ 2 <=? SCIPpricestoreGetNVars s1) in
        let aborted := aborted || bool_decide (result = SCIP_DIDNOTRUN) in
        let lowerbound := MAX lowerbound lb in
        call_pricers maxvars ps' s1 enoughvars aborted lowerbound
          (calls ++ [mkCall (SCIPpricestoreGetNVars s) lb result (SCIPpricestoreGetNVars s1)])
  end.

(** Lines 1368-1382: sort the pricers, compute [enoughvars] and call the
    active pricers. *)
Definition external_pricing set (pretendroot : bool) s (aborted : bool)
    (lowerbound : SCIP_Real) : Solver E * (bool * bool * SCIP_Real) * list PricerCall :=
  let sorted := SCIPsetSortPricers set in
  let maxvars := SCIPsetGetPriceMaxvars set pretendroot in
  let enoughvars := maxvars ÷ 2 + 1 <=? SCIPpricestoreGetNVars s in
  call_pricers maxvars (take (nactivepricers set) sorted) s enoughvars aborted lowerbound [].

(** The locals and output parameters carried around the pricing loop. *)
Record PriceVars := mkPrice {
  npricedcolvars : Z;
  mustsepa : bool;
  lowerbound : SCIP_Real;
  lperror : bool;
  aborted : bool;
  mustprice : bool;
  price_rounds_done : Z
}.

(** What happened in one pass of the loop: either the stop test fired, or
    the round was carried out with the listed pricer calls. *)
Inductive PriceRound :=
| RoundStopped
| RoundDone (calls : list PricerCall).

Definition lp_can_be_priced s : bool :=
  solstat_is SCIP_LPSOLSTAT_OPTIMAL s || solstat_is SCIP_LPSOLSTAT_INFEASIBLE s
  || solstat_is SCIP_LPSOLSTAT_OBJLIMIT s.

(** Lines 1355-1437: one pricing round after the stop test. *)
Definition price_round set (pretendroot : bool) s (v : PriceVars)
    : Solver E * PriceVars * list PricerCall :=
  let '(s, _) := SCIPprimalHeuristics SCIP_HEURTIMING_DURINGPRICINGLOOP s in
  let s := SCIPpricestoreAddProbVars s in
  let npriced := ncolvars (prob s) in
  let '(s, (_, aborted, lowerbound), calls) :=
    external_pricing set pretendroot s (aborted v) (lowerbound v) in
  let s := SCIPpricestoreApplyVars s in
  let mustprice := negb (flushed (lp s)) || negb (ncolvars (prob s) =? npriced) in
  let mustsepa := mustsepa v || negb (flushed (lp s)) in
  let '(s, _) := SCIPlpSolveAndEval true false s in
  let s := SCIPpricestoreResetBounds s in
  let '(s, _) := initConssLP pretendroot s in
  let mustprice := mustprice || negb (flushed (lp s)) || negb (ncolvars (prob s) =? npriced) in
  let mustsepa := mustsepa || negb (flushed (lp s)) in
  let '(s, lperror) := SCIPlpSolveAndEval false false s in
  let s := set_npricerounds (npricerounds (stat s) + 1) s in
  let rounds := price_rounds_done v + 1 in
  let mustprice := mustprice && lp_can_be_priced s in
  (s, mkPrice npriced mustsepa lowerbound lperror aborted mustprice rounds, calls).

(** The [while] loop of lines 1335-1439. *)
Fixpoint price_rounds (fuel : nat) set (pretendroot : bool) (maxpricerounds : Z)
    s (v : PriceVars) (trace : list PriceRound)
    : Res (Solver E * PriceVars * list PriceRound) :=
  if negb (lperror v) && mustprice v && (price_rounds_done v <? maxpricerounds) then
    match fuel with
    | O => OutOfFuel
    | S fuel' =>
        let '(s1, stopped) := SCIPsolveIsStopped false s in
        if stopped then
          Ok (s1, mkPrice (npricedcolvars v) (mustsepa v) (lowerbound v) (lperror v) true
                    (mustprice v) (price_rounds_done v), trace ++ [RoundStopped])
        else
          let '(s2, v2, calls) := price_round set pretendroot s1 v in
          price_rounds fuel' set pretendroot maxpricerounds s2 v2 (trace ++ [RoundDone calls])
    end
  else Ok (s, v, trace).

(** [-1] stands for no limit (lines 1330-1331). *)
Definition effective_maxpricerounds (maxpricerounds : Z) : Z :=
  if maxpricerounds =? -1 then INT_MAX else maxpricerounds.

(** [mustsepa] and [lowerbound] are in/out parameters; the other outputs are
    initialised by the function. *)
Definition SCIPpriceLoop (fuel : nat) set (pretendroot displayinfo : bool)
    (maxpricerounds : Z) s (mustsepa0 : bool) (lowerbound0 : SCIP_Real)
    : Res (Solver E * PriceVars * list PriceRound) :=
  let mustprice0 := lp_can_be_priced s && negb (SCIPprobAllColsInLP s) in
  let maxpricerounds := effective_maxpricerounds maxpricerounds in
  let v := mkPrice (ncolvars (prob s)) mustsepa0 lowerbound0 false false mustprice0 0 in
  '(s1, v1, trace) ← price_rounds fuel set pretendroot maxpricerounds s v [];
  let aborted :=
    aborted v1 || lperror v1 || solstat_is SCIP_LPSOLSTAT_NOTSOLVED s1
    || solstat_is SCIP_LPSOLSTAT_ERROR s1 || (price_rounds_done v1 =? maxpricerounds) in
  Ok (SCIPlpSetIsRelax (negb aborted) s1,
      mkPrice (npricedcolvars v1) (mustsepa v1) (lowerbound v1) (lperror v1) aborted
        (mustprice v1) (price_rounds_done v1),
      trace).

(** Readings of the trace. *)
Definition round_stopped (r : PriceRound) : bool :=
  match r with RoundStopped => true | RoundDone _ => false end.

Definition round_calls (r : PriceRound) : list PricerCall :=
  match r with RoundStopped => [] | RoundDone calls => calls end.

Definition did_not_run (c : PricerCall) : bool := bool_decide (call_result c = SCIP_DIDNOTRUN).

Definition some_pricer_did_not_run (trace : list PriceRound) : bool :=
  existsb (fun r => existsb did_not_run (round_calls r)) trace.

Definition executed_rounds (trace : list PriceRound) : Z :=
  Z.of_nat (length (filter (fun r => round_stopped r = false) trace)).

(** *** [separationRoundResolveLP] and [separationRoundLP] (solve.c 864-1084) *)

(** The flags the separation round shares with its caller, and its local
    [consadded]. *)
Record SepaVars := mkSepaVars {
  sr_delayed : bool;
  sr_enoughcuts : bool;
  sr_cutoff : bool;
  sr_lperror : bool;
  sr_mustsepa : bool;
  sr_mustprice : bool;
  sr_consadded : bool
}.

Definition separationRoundResolveLP s (v : SepaVars) : Solver E * SepaVars :=
  if negb (sr_cutoff v) && negb (flushed (lp s)) then
    let '(s1, lperror) := SCIPlpSolveAndEval true false s in
    (s1, mkSepaVars (sr_delayed v) (sr_enoughcuts v) (sr_cutoff v) lperror true true
           (sr_consadded v))
  else (s, v).

Definition lp_optimal_or_unbounded s : bool :=
  solstat_is SCIP_LPSOLSTAT_OPTIMAL s || solstat_is SCIP_LPSOLSTAT_UNBOUNDEDRAY s.

(** The condition shared by the four [for] loops. *)
Definition sepa_guard s (v : SepaVars) : bool :=
  negb (sr_cutoff v) && negb (sr_lperror v) && negb (sr_enoughcuts v)
  && flushed (lp s) && solved (lp s) && lp_optimal_or_unbounded s.

Definition enough_cuts set (root : bool) s : bool :=
  2 * SCIPsetGetSepaMaxcuts set root <=? Z.of_nat (SCIPsepastoreGetNCuts s).

Definition found_cut (result : SCIP_RESULT) : bool :=
  match result with
  | SCIP_CONSADDED | SCIP_REDUCEDDOM | SCIP_SEPARATED => true
  | _ => false
  end.

(** A separator or constraint handler as the loops see it: whether it is
    skipped ([continue]) and its separation call. *)
Record SepaCall := mkSepaCall {
  sepa_skip : Solver E -> bool;
  sepa_exec : Solver E -> Solver E * SCIP_RESULT
}.

(** The body of the loops after the [continue] tests; [stop_on_cut] is
    [onlydelayed] in the first three loops.  The last component tells that
    the function returns. *)
Definition sepa_call_body set (root stop_on_cut : bool) (c : SepaCall) s (v : SepaVars)
    : Solver E * SepaVars * bool :=
  let '(s1, result) := sepa_exec c s in
  let v1 := mkSepaVars
              (sr_delayed v || bool_decide (result = SCIP_DELAYED))
              (sr_enoughcuts v || enough_cuts set root s1)
              (sr_cutoff v || bool_decide (result = SCIP_CUTOFF))
              (sr_lperror v) (sr_mustsepa v) (sr_mustprice v)
              (sr_consadded v || bool_decide (result = SCIP_CONSADDED)) in
  let '(s2, v2) := separationRoundResolveLP s1 v1 in
  if stop_on_cut && found_cut result then
    (s2, mkSepaVars true (sr_enoughcuts v2) (sr_cutoff v2) (sr_lperror v2) (sr_mustsepa v2)
           (sr_mustprice v2) (sr_consadded v2), true)
  else (s2, v2, false).

Fixpoint sepa_loop set (root stop_on_cut : bool) (cs : list SepaCall) s (v : SepaVars)
    : Solver E * SepaVars * bool :=
  match cs with
  | [] => (s, v, false)
  | c :: cs' =>
      if negb (sepa_guard s v) then (s, v, false)
      else if sepa_skip c s then sepa_loop set root stop_on_cut cs' s v
      else
        let '(s1, v1, returned) := sepa_call_body set root stop_on_cut c s v in
        if returned then (s1, v1, true) else sepa_loop set root stop_on_cut cs' s1 v1
  end.

Definition sepa_calls set (nonneg : bool) (actdepth : Z) (bounddist : SCIP_Real)
    (onlydelayed : bool) : list SepaCall :=
  (fun sp : Sepa E =>
     mkSepaCall
       (fun s => (if nonneg then sepa_priority sp <? 0 else 0 <=? sepa_priority sp)
                 || (onlydelayed && negb (SCIPsepaWasLPDelayed sp s)))
       (SCIPsepaExecLP sp actdepth bounddist onlydelayed))
  <$> SCIPsetSortSepas set.

Definition conshdlr_calls set (actdepth : Z) (onlydelayed check_delayed : bool)
    : list SepaCall :=
  (fun h : Conshdlr E =>
     mkSepaCall
       (fun s => check_delayed && onlydelayed
                 && negb (SCIPconshdlrWasLPSeparationDelayed h s))
       (SCIPconshdlrSeparateLP h actdepth onlydelayed))
  <$> conshdlrs_sepa set.

(** The [while( consadded )] loop of lines 1052-1078. *)
Fixpoint consadded_loop (fuel : nat) set (root : bool) (actdepth : Z) (onlydelayed : bool)
    s (v : SepaVars) : Res (Solver E * SepaVars) :=
  if sr_consadded v then
    match fuel with
    | O => OutOfFuel
    | S fuel' =>
        let v0 := mkSepaVars (sr_delayed v) (sr_enoughcuts v) (sr_cutoff v) (sr_lperror v)
                    (sr_mustsepa v) (sr_mustprice v) false in
        let '(s1, v1, _) :=
          sepa_loop set root false (conshdlr_calls set actdepth onlydelayed false) s v0 in
        consadded_loop fuel' set root actdepth onlydelayed s1 v1
    end
  else Ok (s, v).

(** [cutoff], [mustsepa] and [mustprice] are in/out parameters; [delayed],
    [enoughcuts] and [lperror] are initialised by the function. *)
Definition separationRoundLP (fuel : nat) set (actdepth : Z) (bounddist : SCIP_Real)
    (onlydelayed : bool) s (cutoff0 mustsepa0 mustprice0 : bool)
    : Res (Solver E * SepaVars) :=
  let root := actdepth =? 0 in
  let v := mkSepaVars false (enough_cuts set root s) cutoff0 false mustsepa0 mustprice0 false in
  let '(s1, v1, returned) :=
    sepa_loop set root onlydelayed (sepa_calls set true actdepth bounddist onlydelayed) s v in
  if returned then Ok (s1, v1) else
  let '(s2, v2, returned) :=
    sepa_loop set root onlydelayed (conshdlr_calls set actdepth onlydelayed true) s1 v1 in
  if returned then Ok (s2, v2) else
  let '(s3, v3, returned) :=
    sepa_loop set root onlydelayed (sepa_calls set false actdepth bounddist onlydelayed) s2 v2 in
  if returned then Ok (s3, v3) else
  consadded_loop fuel set root actdepth onlydelayed s3 v3.

(** *** [priceAndCutLoop] (solve.c 1454-1877) *)

(** Values fixed before the loop starts (lines 1511-1535). *)
Record CutLoopConsts := mkConsts {
  actdepth : Z;
  root : bool;
  bounddist : SCIP_Real;
  separate : bool;
  maxseparounds : Z;
  maxnsepastallrounds : Z
}.

(** The locals and output parameters carried around the loop. *)
Record CutLoopVars := mkCut {
  cl_cutoff : bool;
  cl_lperror : bool;
  cl_pricingaborted : bool;
  cl_mustprice : bool;
  cl_mustsepa : bool;
  cl_delayedsepa : bool;
  nsepastallrounds : Z;
  stalllpobjval : SCIP_Real;
  stallnfracs : Z;
  cl_npricedcolvars : Z
}.

(** The stall accounting of one separation round in which the LP was solved
    again to optimality: the relative objective difference, the number of
    fractional candidates, and the counter and reference count before and
    the counter after the update. *)
Record StallEvent := mkStall {
  st_objreldiff : SCIP_Real;
  st_nfracs : Z;
  st_rounds_before : Z;
  st_stallnfracs : Z;
  st_rounds_after : Z
}.

(** One pass through the separation block: whether it was entered for the
    delayed separators only, how often [separationRoundLP] was called, and
    the stall accounting if it took place.  The list of these records is
    returned next to the outputs of the C function and does not influence
    them. *)
Record SepaRoundEvent := mkRound {
  round_delayed : bool;
  round_calls_of_separationRoundLP : nat;
  round_stall : option StallEvent
}.

Definition cutloop_consts set (initiallpsolved : bool) s : CutLoopConsts :=
  let actdepth := SCIPnodeGetDepth s in
  let root := actdepth =? 0 in
  let loclowerbound := SCIPnodeGetLowerbound s in
  let glblowerbound := SCIPtreeGetLowerbound s in
  let bounddist :=
    ((loclowerbound - glblowerbound) / (primal_cutoffbound s - glblowerbound))%Q in
  let separate :=
    SCIPsetIsLE bounddist (sepa_maxbounddist set)
    && ((sepa_maxruns set =? -1) || (nruns (stat s) <=? sepa_maxruns set)) in
  let m0 := if root then sepa_maxroundsroot set else sepa_maxrounds set in
  let m1 := if m0 =? -1 then INT_MAX else m0 in
  let m2 := if (1 <? nruns (stat s)) && root && (0 <=? sepa_maxroundsrootsubrun set)
            then Z.min m1 (sepa_maxroundsrootsubrun set) else m1 in
  let m3 := if initiallpsolved && (0 <=? sepa_maxaddrounds set)
            then Z.min m2 (int_add (nseparounds (stat s)) (sepa_maxaddrounds set)) else m2 in
  let stall := if sepa_maxstallrounds set =? -1 then INT_MAX else sepa_maxstallrounds set in
  mkConsts actdepth root bounddist separate m3 stall.

(** Lines 1563-1648: one pass of the inner pricing loop. *)
Definition pricing_pass (fuel : nat) set (k : CutLoopConsts) s (v : CutLoopVars)
    : Res (Solver E * CutLoopVars) :=
  let oldlowerbound := SCIPtreeGetLowerbound s in
  let pricerlowerbound := (- SCIPsetInfinity set)%Q in
  '(s, p, _) ← SCIPpriceLoop fuel set (root k) (root k) (-1) s (cl_mustsepa v) pricerlowerbound;
  let s := SCIPnodeUpdateLowerbound (lowerbound p) s in
  let s := if negb (lperror p) && negb (aborted p)
           then updateEstimate (SCIPnodeUpdateLowerboundLP s) else s in
  let '(s, cutoff, lperror1, mustprice1) :=
    if negb (lperror p) then
      let newlowerbound := SCIPtreeGetLowerbound s in
      if SCIPsetIsGT newlowerbound oldlowerbound
         && SCIPsetIsLT (SCIPnodeGetLowerbound s) (primal_cutoffbound s)
      then
        let '(s, cutoff) := propagateDomains (SCIPtreeGetCurrentDepth s) 0 false s in
        if negb (flushed (lp s)) && negb cutoff then
          let s := if root k then SCIPlpRemoveRedundantRows (SCIPlpFlush s) else s in
          let '(s, lperror1) := SCIPlpSolveAndEval true false s in
          (s, cutoff, lperror1, true)
        else (s, cutoff, lperror p, false)
      else (s, cl_cutoff v, lperror p, false)
    else (s, cl_cutoff v, lperror p, false) in
  let '(s, lperror2) :=
    if solstat_is SCIP_LPSOLSTAT_OPTIMAL s then
      let '(s, _) := SCIPprimalHeuristics SCIP_HEURTIMING_DURINGLPLOOP s in
      (s, lperror1 || resolvelperror (lp s))
    else (s, lperror1) in
  Ok (s, mkCut cutoff lperror2 (aborted p) mustprice1 (mustsepa p) (cl_delayedsepa v)
           (nsepastallrounds v) (stalllpobjval v) (stallnfracs v) (npricedcolvars p)).

(** The inner loop of line 1561, which runs while [mustprice] holds and no LP
    error occurred. *)
Fixpoint pricing_passes (fuel budget : nat) set (k : CutLoopConsts) s (v : CutLoopVars)
    : Res (Solver E * CutLoopVars) :=
  if cl_mustprice v && negb (cl_lperror v) then
    match fuel with
    | O => OutOfFuel
    | S fuel' =>
        '(s1, v1) ← pricing_pass budget set k s v;
        pricing_passes fuel' budget set k s1 v1
    end
  else Ok (s, v).

(** Lines 1653-1677: is a separation round due? *)
Definition separation_decision set (k : CutLoopConsts) s (v : CutLoopVars)
    : Solver E * CutLoopVars :=
  let mustsepa1 :=
    cl_mustsepa v && (nseparounds (stat s) <? maxseparounds k)
    && (nsepastallrounds v <? maxnsepastallrounds k) && negb (cl_cutoff v) in
  let delayedsepa1 := cl_delayedsepa v && negb mustsepa1 && negb (cl_cutoff v) in
  let mustsepa2 := mustsepa1 || delayedsepa1 in
  let '(s, off) :=
    if mustsepa2 then
      if negb (separate k) || negb (lp_optimal_or_unbounded s)
         || SCIPsetIsGE (SCIPnodeGetLowerbound s) (primal_cutoffbound s)
      then (s, true)
      else if root k then SCIPsolveIsStopped false s else (s, false)
    else (s, false) in
  (s, mkCut (cl_cutoff v) (cl_lperror v) (cl_pricingaborted v) (cl_mustprice v)
        (if off then false else mustsepa2) (if off then false else delayedsepa1)
        (nsepastallrounds v) (stalllpobjval v) (stallnfracs v) (cl_npricedcolvars v)).

(** The second test of line 1806,
    [nfracs <= (0.9 - 0.1 * nsepastallrounds) * stallnfracs], on three [int]s:
    the right-hand side is computed in [double], and [nfracs] is converted
    to [double] for the comparison. *)
Definition fracs_dropped (nfracs nsepastallrounds stallnfracs : Z) : bool :=
  Double.leb (Double.of_int nfracs)
    (Double.mul
       (Double.sub Double.d0_9 (Double.mul Double.d0_1 (Double.of_int nsepastallrounds)))
       (Double.of_int stallnfracs)).

(** Lines 1806-1817: the stall accounting proper.  [objreldiff], the value
    that [SCIPrelDiff] returned, is compared with the literal [1e-04].
    Yields the counter, the reference objective value and fractional count,
    and whether the LP is told that it is installing. *)
Definition stall_update (maxstall : Z) (installing0 : bool) (objreldiff lpobjval : SCIP_Real)
    (nfracs : Z) (rounds : Z) (stallobj : SCIP_Real) (stallfracs : Z)
    : Z * SCIP_Real * Z * bool :=
  let '(rounds1, stallobj1, stallfracs1, installing1) :=
    if Rgt_bool objreldiff Double.val_1e_4 || fracs_dropped nfracs rounds stallfracs
    then (0, lpobjval, nfracs, false)
    else (rounds + 1, stallobj, stallfracs, installing0) in
  (rounds1, stallobj1, stallfracs1,
   if maxstall - 2 <=? rounds1 then true else installing1).

Definition poolfreq_matches set (k : CutLoopConsts) : bool :=
  ((sepa_poolfreq set =? 0) && (actdepth k =? 0))
  || ((0 <? sepa_poolfreq set) && (Z.rem (actdepth k) (sepa_poolfreq set) =? 0)).

Definition lp_stops_separation s : bool :=
  solstat_is SCIP_LPSOLSTAT_INFEASIBLE s || solstat_is SCIP_LPSOLSTAT_OBJLIMIT s
  || solstat_is SCIP_LPSOLSTAT_ITERLIMIT s || solstat_is SCIP_LPSOLSTAT_TIMELIMIT s.

(** Lines 1696-1738: cut pool separation and the one or two calls of
    [separationRoundLP]; yields the flags and the number of calls. *)
Definition separation_calls (fuel : nat) set (k : CutLoopConsts) s (v : CutLoopVars)
    : Res (Solver E * SepaVars * nat) :=
  let enoughcuts0 := SCIPsetGetSepaMaxcuts set (root k) =? 0 in
  let '(s, cutoff1, enoughcuts1) :=
    if negb enoughcuts0 && negb (cl_delayedsepa v) && poolfreq_matches set k then
      let '(s, result) := SCIPcutpoolSeparate (root k) s in
      (s, cl_cutoff v || bool_decide (result = SCIP_CUTOFF),
       enoughcuts0 || enough_cuts set (root k) s)
    else (s, cl_cutoff v, enoughcuts0) in
  if negb cutoff1 && negb (cl_lperror v) && negb enoughcuts1 && solved (lp s)
     && lp_optimal_or_unbounded s
  then
    '(s, sv) ← separationRoundLP fuel set (actdepth k) (bounddist k) (cl_delayedsepa v) s
                 cutoff1 false (cl_mustprice v);
    if negb (sr_cutoff sv) && negb (sr_lperror sv) && negb (sr_enoughcuts sv)
       && solved (lp s) && lp_optimal_or_unbounded s
       && (maxnsepastallrounds k - 1 <=? nsepastallrounds v) && sr_delayed sv
    then
      '(s, sv2) ← separationRoundLP fuel set (actdepth k) (bounddist k) (sr_delayed sv) s
                    (sr_cutoff sv) (sr_mustsepa sv) (sr_mustprice sv);
      Ok (s, sv2, 2%nat)
    else Ok (s, sv, 1%nat)
  else
    Ok (s, mkSepaVars (cl_delayedsepa v) enoughcuts1 cutoff1 (cl_lperror v) false
             (cl_mustprice v) false, 0%nat).

(** Lines 1748-1822: clear or apply the cuts, solve the LP again and do the
    stall accounting. *)
Definition apply_separation set (k : CutLoopConsts) (olddomchgcount : Z) s (v : CutLoopVars)
    (sv : SepaVars) : Solver E * CutLoopVars * option StallEvent :=
  let keep cutoff lperror mustprice mustsepa :=
    mkCut cutoff lperror (cl_pricingaborted v) mustprice mustsepa (sr_delayed sv)
      (nsepastallrounds v) (stalllpobjval v) (stallnfracs v) (cl_npricedcolvars v) in
  if sr_cutoff sv || sr_lperror sv || lp_stops_separation s then
    (SCIPsepastoreClearCuts s,
     keep (sr_cutoff sv) (sr_lperror sv) (sr_mustprice sv) (sr_mustsepa sv), None)
  else
    let '(s, cutoff2) := SCIPsepastoreApplyCuts (root k) s in
    if cutoff2 then (s, keep cutoff2 (sr_lperror sv) (sr_mustprice sv) (sr_mustsepa sv), None)
    else
      let mustprice1 :=
        sr_mustprice sv || negb (flushed (lp s))
        || negb (ncolvars (prob s) =? cl_npricedcolvars v) in
      let mustsepa1 := sr_mustsepa sv || negb (flushed (lp s)) in
      let '(s, cutoff3) :=
        if negb (domchgcount (stat s) =? olddomchgcount) then
          let '(s, c) := propagateDomains (SCIPtreeGetCurrentDepth s) 0 false s in
          (if root k then SCIPlpRemoveRedundantRows (SCIPlpFlush s) else s, c)
        else (s, cutoff2) in
      if cutoff3 then (s, keep cutoff3 (sr_lperror sv) mustprice1 mustsepa1, None)
      else
        let '(s, lperror1) := SCIPlpSolveAndEval true false s in
        if negb lperror1 && solstat_is SCIP_LPSOLSTAT_OPTIMAL s then
          let '(s, nfracs) := SCIPbranchcandGetLPCands s in
          let lpobjval := SCIPlpGetObjval s in
          let objreldiff := SCIPrelDiff lpobjval (stalllpobjval v) in
          let '(rounds1, stallobj1, stallfracs1, installing1) :=
            stall_update (maxnsepastallrounds k) (installing (lp s)) objreldiff lpobjval
              nfracs (nsepastallrounds v) (stalllpobjval v) (stallnfracs v) in
          (set_installing installing1 s,
           mkCut cutoff3 lperror1 (cl_pricingaborted v) mustprice1 mustsepa1 (sr_delayed sv)
             rounds1 stallobj1 stallfracs1 (cl_npricedcolvars v),
           Some (mkStall objreldiff nfracs (nsepastallrounds v) (stallnfracs v) rounds1))
        else (s, keep cutoff3 lperror1 mustprice1 mustsepa1, None).

(** Lines 1682-1830: the separation block of one loop pass, ending with the
    increment of [stat->nseparounds]. *)
Definition separation_block (fuel : nat) set (k : CutLoopConsts) s (v : CutLoopVars)
    : Res (Solver E * CutLoopVars * SepaRoundEvent) :=
  let olddomchgcount := domchgcount (stat s) in
  '(s1, sv, ncalls) ← separation_calls fuel set k s v;
  let '(s2, v2, stall) := apply_separation set k olddomchgcount s1 v sv in
  Ok (set_nseparounds (nseparounds (stat s2) + 1) s2, v2,
      mkRound (cl_delayedsepa v) ncalls stall).

(** The loop of line 1554. *)
Fixpoint cut_loop (fuel budget : nat) set (k : CutLoopConsts) s (v : CutLoopVars)
    (trace : list SepaRoundEvent) : Res (Solver E * CutLoopVars * list SepaRoundEvent) :=
  if negb (cl_cutoff v) && negb (cl_lperror v)
     && (cl_mustprice v || cl_mustsepa v || cl_delayedsepa v)
  then
    match fuel with
    | O => OutOfFuel
    | S fuel' =>
        '(s1, v1) ← pricing_passes budget budget set k s v;
        let '(s2, v2) := separation_decision set k s1 v1 in
        if negb (cl_cutoff v2) && negb (cl_lperror v2) && cl_mustsepa v2 then
          '(s3, v3, ev) ← separation_block budget set k s2 v2;
          cut_loop fuel' budget set k s3 v3 (trace ++ [ev])
        else cut_loop fuel' budget set k s2 v2 trace
    end
  else Ok (s, v, trace).

(** Lines 1833-1870: the bound update and the events after the loop; yields
    [unbounded]. *)
Definition cutloop_exit set (k : CutLoopConsts) s (v : CutLoopVars) : Solver E * bool :=
  let '(s, unbounded) :=
    if cl_cutoff v then (SCIPnodeUpdateLowerbound (SCIPsetInfinity set) s, false)
    else if negb (cl_lperror v) then
      let s := updateEstimate (SCIPnodeUpdateLowerboundLP s) in
      let s := if negb (solstat_is SCIP_LPSOLSTAT_ITERLIMIT s)
                  && negb (solstat_is SCIP_LPSOLSTAT_TIMELIMIT s)
               then process_LPSOLVED_event s else s in
      let s := if negb (misc_exactsolve set) && negb (root k) && SCIPlpIsRelax s
                  && (solstat_is SCIP_LPSOLSTAT_INFEASIBLE s
                      || solstat_is SCIP_LPSOLSTAT_OBJLIMIT s)
               then SCIPconflictAnalyzeLP s else s in
      (s, solstat_is SCIP_LPSOLSTAT_UNBOUNDEDRAY s)
    else (s, false) in
  (set_installing false s, unbounded).

(** [pricingaborted0] is the value the caller's variable holds on entry; the
    function writes it only through [SCIPpriceLoop].  The result is the
    state, the loop variables (with [cutoff], [lperror], [pricingaborted]),
    [unbounded] and the log of separation rounds. *)
Definition priceAndCutLoop (fuel : nat) set (initiallpsolved : bool) s (pricingaborted0 : bool)
    : Res (Solver E * CutLoopVars * bool * list SepaRoundEvent) :=
  let k := cutloop_consts set initiallpsolved s in
  let '(s, lperror0) := SCIPlpSolveAndEval true false s in
  let v := mkCut false lperror0 pricingaborted0 true (separate k) false 0 SCIP_REAL_MIN INT_MAX
             (ncolvars (prob s)) in
  let s := set_installing false s in
  '(s1, v1, trace) ← cut_loop fuel fuel set k s v [];
  let '(s2, unbounded) := cutloop_exit set k s1 v1 in
  Ok (s2, v1, unbounded, trace).







(** *** The separation round counter

    [stat->nseparounds] is written by [solveNode] (reset) and by
    [priceAndCutLoop] (increment) only; the callees of the price-and-cut loop
    read it at most.  [nsr s] is the counter in state [s]. *)
Definition nsr s : Z := nseparounds (stat s).

Definition framed_call (c : SepaCall) : Prop := forall s, nsr (sepa_exec c s).1 = nsr s.

(** The calls of [separationRoundLP] in a run of the loop. *)
Definition separationRoundLP_calls (trace : list SepaRoundEvent) : nat :=
  foldr (fun ev n => (round_calls_of_separationRoundLP ev + n)%nat) 0%nat trace.

(** The counting claim of the specification for a finished loop that went
    from [s] to [s'], a round being a call of the round function
    [separationRoundLP], as a test. *)
Definition rounds_claim s s' (trace : list SepaRoundEvent) : bool :=
  nsr s' =? nsr s + Z.of_nat (separationRoundLP_calls trace).

(** *** [solveNodeLP] (solve.c 1936-2091) *)

(** The four flags the function shares with [solveNode]. *)
Record NodeLPFlags := mkNodeLP {
  nl_cutoff : bool;
  nl_unbounded : bool;
  nl_lperror : bool;
  nl_pricingaborted : bool
}.

(** Lines 1974-2036: load and solve the initial LP, and at the root try its
    solution. *)
Definition initial_lp_phase set (nlps0 nlpiterations0 : Z) s (f : NodeLPFlags)
    : Solver E * NodeLPFlags :=
  let '(s, (cutoff, lperror)) := solveNodeInitialLP s in
  let s := add_initlps (nlps (stat s) - nlps0) (nlpiterations (stat s) - nlpiterations0) s in
  if (SCIPtreeGetCurrentDepth s =? 0) && negb cutoff && negb lperror
     && lp_optimal_or_unbounded s
  then
    let '(s, stopped) := SCIPsolveIsStopped false s in
    if negb stopped then
      let checklprows := negb (solstat_is SCIP_LPSOLSTAT_UNBOUNDEDRAY s) in
      let '(s, stored) := try_LP_solution checklprows s in
      let '(s, cutoff) :=
        if stored && SCIPprobAllColsInLP s
        then applyBounding set cutoff (SCIPnodeUpdateLowerboundLP s)
        else (s, cutoff) in
      (s, mkNodeLP cutoff (nl_unbounded f || solstat_is SCIP_LPSOLSTAT_UNBOUNDEDRAY s)
            lperror (nl_pricingaborted f))
    else (s, mkNodeLP cutoff (nl_unbounded f) lperror (nl_pricingaborted f))
  else (s, mkNodeLP cutoff (nl_unbounded f) lperror (nl_pricingaborted f)).

(** Lines 2052-2077: the LP is solved again without its cutoff bound. *)
Definition resolve_without_cutoffbound s (f : NodeLPFlags) : Solver E * NodeLPFlags :=
  let tmpcutoff := lp_cutoffbound (lp s) in
  let s := set_lp_cutoffbound (SCIPlpiInfinity s) s in
  let s := set_solved false s in
  let '(s, lperror) := SCIPlpSolveAndEval false false s in
  let s := set_lp_cutoffbound tmpcutoff s in
  (s, mkNodeLP (nl_cutoff f || solstat_is SCIP_LPSOLSTAT_INFEASIBLE s) (nl_unbounded f)
        lperror (nl_pricingaborted f)).

Definition must_resolve_without_cutoffbound s (f : NodeLPFlags) : bool :=
  nl_pricingaborted f && solstat_is SCIP_LPSOLSTAT_OBJLIMIT s && negb (nl_cutoff f).

Definition solveNodeLP (fuel : nat) set (initiallpsolved : bool) s (f : NodeLPFlags)
    : Res (Solver E * NodeLPFlags) :=
  let nlps0 := nlps (stat s) in
  let nlpiterations0 := nlpiterations (stat s) in
  let '(s, f) :=
    if negb initiallpsolved then initial_lp_phase set nlps0 nlpiterations0 s f
    else (s, f) in
  '(s, f) ←
    (if negb (nl_cutoff f) && negb (nl_lperror f) then
       '(s, v, unbounded, _) ← priceAndCutLoop fuel set initiallpsolved s (nl_pricingaborted f);
       Ok (s, mkNodeLP (cl_cutoff v) unbounded (cl_lperror v) (cl_pricingaborted v))
     else Ok (s, f));
  let '(s, f) :=
    if must_resolve_without_cutoffbound s f then resolve_without_cutoffbound s f
    else (s, f) in
  let s := add_nodelps (nlps (stat s) - nlps0) (nlpiterations (stat s) - nlpiterations0) s in
  let s := if SCIPnodeGetDepth s =? 0
           then add_rootlpiterations (nlpiterations (stat s) - nlpiterations0) s else s in
  Ok (s, f).

(** The assertion of line 2078. *)
Definition aborted_pricing_settled s (f : NodeLPFlags) : bool :=
  negb (nl_pricingaborted f) || solstat_is SCIP_LPSOLSTAT_OPTIMAL s || nl_cutoff f.

(** *** [solveNode] (solve.c 2498-3104) *)

(** The output parameters and the locals of [solveNode]; the last six are
    declared inside the loop. *)
Record NodeVars := mkNV {
  n_cutoff : bool;
  n_unbounded : bool;
  n_infeasible : bool;
  n_restart : bool;
  n_afternodeheur : bool;
  n_pricingaborted : bool;
  n_foundsol : bool;
  n_lastdomchgcount : Z;
  n_lastlpcount : Z;
  n_initiallpsolved : bool;
  n_nlperrors : Z;
  n_solverelaxagain : bool;
  n_solvelpagain : bool;
  n_propagateagain : bool;
  n_fullpropagation : bool;
  n_forcedlpsolve : bool;
  n_nloops : Z;
  n_lperror : bool;
  n_solverelax : bool;
  n_solvelp : bool;
  n_propagate : bool;
  n_forcedenforcement : bool;
  n_branched : bool
}.

Definition set_n_cutoff (x : bool) (v : NodeVars) : NodeVars :=
  mkNV x (n_unbounded v) (n_infeasible v) (n_restart v) (n_afternodeheur v)
    (n_pricingaborted v) (n_foundsol v) (n_lastdomchgcount v) (n_lastlpcount v)
    (n_initiallpsolved v) (n_nlperrors v) (n_solverelaxagain v) (n_solvelpagain v)
    (n_propagateagain v) (n_fullpropagation v) (n_forcedlpsolve v) (n_nloops v) (n_lperror
    v) (n_solverelax v) (n_solvelp v) (n_propagate v) (n_forcedenforcement v) (n_branched v).
Definition set_n_unbounded (x : bool) (v : NodeVars) : NodeVars :=
  mkNV (n_cutoff v) x (n_infeasible v) (n_restart v) (n_afternodeheur v) (n_pricingaborted
    v) (n_foundsol v) (n_lastdomchgcount v) (n_lastlpcount v) (n_initiallpsolved v)
    (n_nlperrors v) (n_solverelaxagain v) (n_solvelpagain v) (n_propagateagain v)
    (n_fullpropagation v) (n_forcedlpsolve v) (n_nloops v) (n_lperror v) (n_solverelax v)
    (n_solvelp v) (n_propagate v) (n_forcedenforcement v) (n_branched v).
Definition set_n_infeasible (x : bool) (v : NodeVars) : NodeVars :=
  mkNV (n_cutoff v) (n_unbounded v) x (n_restart v) (n_afternodeheur v) (n_pricingaborted v)
    (n_foundsol v) (n_lastdomchgcount v) (n_lastlpcount v) (n_initiallpsolved v)
    (n_nlperrors v) (n_solverelaxagain v) (n_solvelpagain v) (n_propagateagain v)
    (n_fullpropagation v) (n_forcedlpsolve v) (n_nloops v) (n_lperror v) (n_solverelax v)
    (n_solvelp v) (n_propagate v) (n_forcedenforcement v) (n_branched v).
Definition set_n_restart (x : bool) (v : NodeVars) : NodeVars :=
  mkNV (n_cutoff v) (n_unbounded v) (n_infeasible v) x (n_afternodeheur v) (n_pricingaborted
    v) (n_foundsol v) (n_lastdomchgcount v) (n_lastlpcount v) (n_initiallpsolved v)
    (n_nlperrors v) (n_solverelaxagain v) (n_solvelpagain v) (n_propagateagain v)
    (n_fullpropagation v) (n_forcedlpsolve v) (n_nloops v) (n_lperror v) (n_solverelax v)
    (n_solvelp v) (n_propagate v) (n_forcedenforcement v) (n_branched v).
Definition set_n_afternodeheur (x : bool) (v : NodeVars) : NodeVars :=
  mkNV (n_cutoff v) (n_unbounded v) (n_infeasible v) (n_restart v) x (n_pricingaborted v)
    (n_foundsol v) (n_lastdomchgcount v) (n_lastlpcount v) (n_initiallpsolved v)
    (n_nlperrors v) (n_solverelaxagain v) (n_solvelpagain v) (n_propagateagain v)
    (n_fullpropagation v) (n_forcedlpsolve v) (n_nloops v) (n_lperror v) (n_solverelax v)
    (n_solvelp v) (n_propagate v) (n_forcedenforcement v) (n_branched v).
Definition set_n_pricingaborted (x : bool) (v : NodeVars) : NodeVars :=
  mkNV (n_cutoff v) (n_unbounded v) (n_infeasible v) (n_restart v) (n_afternodeheur v) x
    (n_foundsol v) (n_lastdomchgcount v) (n_lastlpcount v) (n_initiallpsolved v)
    (n_nlperrors v) (n_solverelaxagain v) (n_solvelpagain v) (n_propagateagain v)
    (n_fullpropagation v) (n_forcedlpsolve v) (n_nloops v) (n_lperror v) (n_solverelax v)
    (n_solvelp v) (n_propagate v) (n_forcedenforcement v) (n_branched v).
Definition set_n_foundsol (x : bool) (v : NodeVars) : NodeVars :=
  mkNV (n_cutoff v) (n_unbounded v) (n_infeasible v) (n_restart v) (n_afternodeheur v)
    (n_pricingaborted v) x (n_lastdomchgcount v) (n_lastlpcount v) (n_initiallpsolved v)
    (n_nlperrors v) (n_solverelaxagain v) (n_solvelpagain v) (n_propagateagain v)
    (n_fullpropagation v) (n_forcedlpsolve v) (n_nloops v) (n_lperror v) (n_solverelax v)
    (n_solvelp v) (n_propagate v) (n_forcedenforcement v) (n_branched v).
Definition set_n_lastdomchgcount (x : Z) (v : NodeVars) : NodeVars :=
  mkNV (n_cutoff v) (n_unbounded v) (n_infeasible v) (n_restart v) (n_afternodeheur v)
    (n_pricingaborted v) (n_foundsol v) x (n_lastlpcount v) (n_initiallpsolved v)
    (n_nlperrors v) (n_solverelaxagain v) (n_solvelpagain v) (n_propagateagain v)
    (n_fullpropagation v) (n_forcedlpsolve v) (n_nloops v) (n_lperror v) (n_solverelax v)
    (n_solvelp v) (n_propagate v) (n_forcedenforcement v) (n_branched v).
Definition set_n_lastlpcount (x : Z) (v : NodeVars) : NodeVars :=
  mkNV (n_cutoff v) (n_unbounded v) (n_infeasible v) (n_restart v) (n_afternodeheur v)
    (n_pricingaborted v) (n_foundsol v) (n_lastdomchgcount v) x (n_initiallpsolved v)
    (n_nlperrors v) (n_solverelaxagain v) (n_solvelpagain v) (n_propagateagain v)
    (n_fullpropagation v) (n_forcedlpsolve v) (n_nloops v) (n_lperror v) (n_solverelax v)
    (n_solvelp v) (n_propagate v) (n_forcedenforcement v) (n_branched v).
Definition set_n_initiallpsolved (x : bool) (v : NodeVars) : NodeVars :=
  mkNV (n_cutoff v) (n_unbounded v) (n_infeasible v) (n_restart v) (n_afternodeheur v)
    (n_pricingaborted v) (n_foundsol v) (n_lastdomchgcount v) (n_lastlpcount v) x
    (n_nlperrors v) (n_solverelaxagain v) (n_solvelpagain v) (n_propagateagain v)
    (n_fullpropagation v) (n_forcedlpsolve v) (n_nloops v) (n_lperror v) (n_solverelax v)
    (n_solvelp v) (n_propagate v) (n_forcedenforcement v) (n_branched v).
Definition set_n_nlperrors (x : Z) (v : NodeVars) : NodeVars :=
  mkNV (n_cutoff v) (n_unbounded v) (n_infeasible v) (n_restart v) (n_afternodeheur v)
    (n_pricingaborted v) (n_foundsol v) (n_lastdomchgcount v) (n_lastlpcount v)
    (n_initiallpsolved v) x (n_solverelaxagain v) (n_solvelpagain v) (n_propagateagain v)
    (n_fullpropagation v) (n_forcedlpsolve v) (n_nloops v) (n_lperror v) (n_solverelax v)
    (n_solvelp v) (n_propagate v) (n_forcedenforcement v) (n_branched v).
Definition set_n_solverelaxagain (x : bool) (v : NodeVars) : NodeVars :=
  mkNV (n_cutoff v) (n_unbounded v) (n_infeasible v) (n_restart v) (n_afternodeheur v)
    (n_pricingaborted v) (n_foundsol v) (n_lastdomchgcount v) (n_lastlpcount v)
    (n_initiallpsolved v) (n_nlperrors v) x (n_solvelpagain v) (n_propagateagain v)
    (n_fullpropagation v) (n_forcedlpsolve v) (n_nloops v) (n_lperror v) (n_solverelax v)
    (n_solvelp v) (n_propagate v) (n_forcedenforcement v) (n_branched v).
Definition set_n_solvelpagain (x : bool) (v : NodeVars) : NodeVars :=
  mkNV (n_cutoff v) (n_unbounded v) (n_infeasible v) (n_restart v) (n_afternodeheur v)
    (n_pricingaborted v) (n_foundsol v) (n_lastdomchgcount v) (n_lastlpcount v)
    (n_initiallpsolved v) (n_nlperrors v) (n_solverelaxagain v) x (n_propagateagain v)
    (n_fullpropagation v) (n_forcedlpsolve v) (n_nloops v) (n_lperror v) (n_solverelax v)
    (n_solvelp v) (n_propagate v) (n_forcedenforcement v) (n_branched v).
Definition set_n_propagateagain (x : bool) (v : NodeVars) : NodeVars :=
  mkNV (n_cutoff v) (n_unbounded v) (n_infeasible v) (n_restart v) (n_afternodeheur v)
    (n_pricingaborted v) (n_foundsol v) (n_lastdomchgcount v) (n_lastlpcount v)
    (n_initiallpsolved v) (n_nlperrors v) (n_solverelaxagain v) (n_solvelpagain v) x
    (n_fullpropagation v) (n_forcedlpsolve v) (n_nloops v) (n_lperror v) (n_solverelax v)
    (n_solvelp v) (n_propagate v) (n_forcedenforcement v) (n_branched v).
Definition set_n_fullpropagation (x : bool) (v : NodeVars) : NodeVars :=
  mkNV (n_cutoff v) (n_unbounded v) (n_infeasible v) (n_restart v) (n_afternodeheur v)
    (n_pricingaborted v) (n_foundsol v) (n_lastdomchgcount v) (n_lastlpcount v)
    (n_initiallpsolved v) (n_nlperrors v) (n_solverelaxagain v) (n_solvelpagain v)
    (n_propagateagain v) x (n_forcedlpsolve v) (n_nloops v) (n_lperror v) (n_solverelax v)
    (n_solvelp v) (n_propagate v) (n_forcedenforcement v) (n_branched v).
Definition set_n_forcedlpsolve (x : bool) (v : NodeVars) : NodeVars :=
  mkNV (n_cutoff v) (n_unbounded v) (n_infeasible v) (n_restart v) (n_afternodeheur v)
    (n_pricingaborted v) (n_foundsol v) (n_lastdomchgcount v) (n_lastlpcount v)
    (n_initiallpsolved v) (n_nlperrors v) (n_solverelaxagain v) (n_solvelpagain v)
    (n_propagateagain v) (n_fullpropagation v) x (n_nloops v) (n_lperror v) (n_solverelax v)
    (n_solvelp v) (n_propagate v) (n_forcedenforcement v) (n_branched v).
Definition set_n_nloops (x : Z) (v : NodeVars) : NodeVars :=
  mkNV (n_cutoff v) (n_unbounded v) (n_infeasible v) (n_restart v) (n_afternodeheur v)
    (n_pricingaborted v) (n_foundsol v) (n_lastdomchgcount v) (n_lastlpcount v)
    (n_initiallpsolved v) (n_nlperrors v) (n_solverelaxagain v) (n_solvelpagain v)
    (n_propagateagain v) (n_fullpropagation v) (n_forcedlpsolve v) x (n_lperror v)
    (n_solverelax v) (n_solvelp v) (n_propagate v) (n_forcedenforcement v) (n_branched v).
Definition set_n_lperror (x : bool) (v : NodeVars) : NodeVars :=
  mkNV (n_cutoff v) (n_unbounded v) (n_infeasible v) (n_restart v) (n_afternodeheur v)
    (n_pricingaborted v) (n_foundsol v) (n_lastdomchgcount v) (n_lastlpcount v)
    (n_initiallpsolved v) (n_nlperrors v) (n_solverelaxagain v) (n_solvelpagain v)
    (n_propagateagain v) (n_fullpropagation v) (n_forcedlpsolve v) (n_nloops v) x
    (n_solverelax v) (n_solvelp v) (n_propagate v) (n_forcedenforcement v) (n_branched v).
Definition set_n_solverelax (x : bool) (v : NodeVars) : NodeVars :=
  mkNV (n_cutoff v) (n_unbounded v) (n_infeasible v) (n_restart v) (n_afternodeheur v)
    (n_pricingaborted v) (n_foundsol v) (n_lastdomchgcount v) (n_lastlpcount v)
    (n_initiallpsolved v) (n_nlperrors v) (n_solverelaxagain v) (n_solvelpagain v)
    (n_propagateagain v) (n_fullpropagation v) (n_forcedlpsolve v) (n_nloops v) (n_lperror
    v) x (n_solvelp v) (n_propagate v) (n_forcedenforcement v) (n_branched v).
Definition set_n_solvelp (x : bool) (v : NodeVars) : NodeVars :=
  mkNV (n_cutoff v) (n_unbounded v) (n_infeasible v) (n_restart v) (n_afternodeheur v)
    (n_pricingaborted v) (n_foundsol v) (n_lastdomchgcount v) (n_lastlpcount v)
    (n_initiallpsolved v) (n_nlperrors v) (n_solverelaxagain v) (n_solvelpagain v)
    (n_propagateagain v) (n_fullpropagation v) (n_forcedlpsolve v) (n_nloops v) (n_lperror
    v) (n_solverelax v) x (n_propagate v) (n_forcedenforcement v) (n_branched v).
Definition set_n_propagate (x : bool) (v : NodeVars) : NodeVars :=
  mkNV (n_cutoff v) (n_unbounded v) (n_infeasible v) (n_restart v) (n_afternodeheur v)
    (n_pricingaborted v) (n_foundsol v) (n_lastdomchgcount v) (n_lastlpcount v)
    (n_initiallpsolved v) (n_nlperrors v) (n_solverelaxagain v) (n_solvelpagain v)
    (n_propagateagain v) (n_fullpropagation v) (n_forcedlpsolve v) (n_nloops v) (n_lperror
    v) (n_solverelax v) (n_solvelp v) x (n_forcedenforcement v) (n_branched v).
Definition set_n_forcedenforcement (x : bool) (v : NodeVars) : NodeVars :=
  mkNV (n_cutoff v) (n_unbounded v) (n_infeasible v) (n_restart v) (n_afternodeheur v)
    (n_pricingaborted v) (n_foundsol v) (n_lastdomchgcount v) (n_lastlpcount v)
    (n_initiallpsolved v) (n_nlperrors v) (n_solverelaxagain v) (n_solvelpagain v)
    (n_propagateagain v) (n_fullpropagation v) (n_forcedlpsolve v) (n_nloops v) (n_lperror
    v) (n_solverelax v) (n_solvelp v) (n_propagate v) x (n_branched v).
Definition set_n_branched (x : bool) (v : NodeVars) : NodeVars :=
  mkNV (n_cutoff v) (n_unbounded v) (n_infeasible v) (n_restart v) (n_afternodeheur v)
    (n_pricingaborted v) (n_foundsol v) (n_lastdomchgcount v) (n_lastlpcount v)
    (n_initiallpsolved v) (n_nlperrors v) (n_solverelaxagain v) (n_solvelpagain v)
    (n_propagateagain v) (n_fullpropagation v) (n_forcedlpsolve v) (n_nloops v) (n_lperror
    v) (n_solverelax v) (n_solvelp v) (n_propagate v) (n_forcedenforcement v) x.

Definition MAXNLPERRORS : Z := 10.

Definition flags_of (v : NodeVars) : LoopFlags :=
  mkFlags (n_cutoff v) (n_propagateagain v) (n_solvelpagain v) (n_solverelaxagain v).

Definition with_flags (f : LoopFlags) (v : NodeVars) : NodeVars :=
  set_n_solverelaxagain (fl_solverelaxagain f)
    (set_n_solvelpagain (fl_solvelpagain f)
       (set_n_propagateagain (fl_propagateagain f) (set_n_cutoff (fl_cutoff f) v))).

Definition all_again (v : NodeVars) : NodeVars :=
  set_n_solverelaxagain true (set_n_solvelpagain true (set_n_propagateagain true v)).

(** [applyBounding] on the [cutoff] of the node loop. *)
Definition bound set s (v : NodeVars) : Solver E * NodeVars :=
  let '(s, c) := applyBounding set (n_cutoff v) s in (s, set_n_cutoff c v).

(** The sequence [applyCuts], [applyBounding], [updateLoopStatus] that
    follows enforcement and branching. *)
Definition cuts_bound_status set (depth : Z) s (v : NodeVars) : Solver E * NodeVars :=
  let '(s, f) := applyCuts (depth =? 0) s (flags_of v) in
  let '(s, v) := bound set s (with_flags f v) in
  (s, with_flags (updateLoopStatus set depth s (flags_of v)) v).

(** Lines 2626-2664: start of a pass, bounding and domain propagation. *)
Definition node_propagation set (depth : Z) s (v : NodeVars) : Solver E * NodeVars :=
  let v := set_n_nloops (n_nloops v + 1) v in
  let v := set_n_lperror false v in
  let v := set_n_solverelaxagain false (set_n_solverelax (n_solverelaxagain v) v) in
  let v := set_n_solvelpagain false (set_n_solvelp (n_solvelpagain v) v) in
  let v := set_n_propagateagain false (set_n_propagate (n_propagateagain v) v) in
  let v := set_n_forcedenforcement false v in
  let '(s, v) := bound set s v in
  if n_propagate v && negb (n_cutoff v) then
    let lpwasflushed := flushed (lp s) in
    let oldnboundchgs := nboundchgs (stat s) in
    let '(s1, c) := propagateDomains (SCIPtreeGetCurrentDepth s) 0 (n_fullpropagation v) s in
    let v := set_n_fullpropagation false v in
    let v := set_n_cutoff (c || (cutoffdepth (tree s1) <=? depth)) v in
    let v := set_n_solvelp (n_solvelp v || (lpwasflushed && negb (flushed (lp s1)))) v in
    let v := set_n_solverelax (n_solverelax v || (oldnboundchgs <? nboundchgs (stat s1))) v in
    bound set s1 v
  else (s, v).

(** Lines 2667-2673. *)
Definition node_heur_afterprop s (v : NodeVars) : Solver E * NodeVars :=
  if negb (n_cutoff v) && negb (SCIPtreeProbing s) then
    let '(s, found) := SCIPprimalHeuristics SCIP_HEURTIMING_AFTERPROPLOOP s in
    (s, set_n_propagateagain found v)
  else (s, v).

(** Lines 2675-2693 ([beforelp]) and 2763-2778: the external relaxators. *)
Definition node_relax set (depth : Z) (beforelp : bool) s (v : NodeVars)
    : Res (Solver E * NodeVars) :=
  if n_solverelax v && negb (n_cutoff v) then
    let s := if beforelp then SCIPbranchcandClearExternCands s else s in
    '(s, f) ← solveNodeRelax set depth beforelp s (flags_of v);
    let f := mkFlags (fl_cutoff f || (cutoffdepth (tree s) <=? depth)) (fl_propagateagain f)
               (fl_solvelpagain f) (fl_solverelaxagain f) in
    let '(s, f) := applyCuts (depth =? 0) s f in
    Ok (bound set s (with_flags f v))
  else Ok (s, v).

(** Lines 2713-2726 and 2808-2821: an LP error is fatal under a forced LP
    solve; otherwise the node goes on with the pseudo solution and the error
    is counted. *)
Definition lp_error_fallback s (v : NodeVars) : Res (Solver E * NodeVars) :=
  if n_forcedlpsolve v then Err SCIP_LPERROR
  else Ok (SCIPtreeSetFocusNodeLP false s, set_n_nlperrors (n_nlperrors v + 1) v).

(** The test of line 2697. *)
Definition node_solves_lp s (v : NodeVars) : bool :=
  n_solvelp v && negb (n_cutoff v) && SCIPtreeHasFocusNodeLP s.

(** Lines 2700-2755: the LP of the node is solved and its failures are
    handled.  [solveLP] is [solveNodeLP]. *)
Definition node_lp_solve
    (solveLP : bool -> Solver E -> NodeLPFlags -> Res (Solver E * NodeLPFlags))
    set (depth : Z) s (v : NodeVars) : Res (Solver E * NodeVars) :=
  '(s, f) ← solveLP (n_initiallpsolved v) s
              (mkNodeLP (n_cutoff v) (n_unbounded v) (n_lperror v) (n_pricingaborted v));
  let v := set_n_pricingaborted (nl_pricingaborted f)
             (set_n_lperror (nl_lperror f)
                (set_n_unbounded (nl_unbounded f) (set_n_cutoff (nl_cutoff f) v))) in
  let v := set_n_initiallpsolved true v in
  let v := set_n_cutoff (n_cutoff v || (cutoffdepth (tree s) <=? depth)) v in
  '(s, v) ← (if n_lperror v then lp_error_fallback s v else Ok (s, v));
  let '(s, v) :=
    if solstat_is SCIP_LPSOLSTAT_TIMELIMIT s || solstat_is SCIP_LPSOLSTAT_ITERLIMIT s
    then (SCIPtreeSetFocusNodeLP false s, set_n_forcedenforcement true v)
    else (s, v) in
  if negb (n_cutoff v) && negb (n_lperror v) && misc_exactsolve set
     && solstat_is SCIP_LPSOLSTAT_INFEASIBLE s
     && Rlt_bool (SCIPnodeGetLowerbound s) (primal_cutoffbound s)
  then
    if (SCIPbranchcandGetNPseudoCands s =? 0) && (0 <? ncontvars (prob s))
    then Err SCIP_LPERROR
    else Ok (SCIPtreeSetFocusNodeLP false s, v)
  else Ok (s, v).

(** Lines 2696-2759: the LP phase of a pass. *)
Definition node_lp (solveLP : bool -> Solver E -> NodeLPFlags -> Res (Solver E * NodeLPFlags))
    set (depth : Z) s (v : NodeVars) : Res (Solver E * NodeVars) :=
  if node_solves_lp s v then
    '(s, v) ← node_lp_solve solveLP set depth s v;
    Ok (bound set s v)
  else Ok (s, v).

(** Lines 2781-2805: loop status and the heuristics after the LP loop. *)
Definition node_heur_afterlp set (depth : Z) s (v : NodeVars) : Solver E * NodeVars :=
  let v := with_flags (updateLoopStatus set depth s (flags_of v)) v in
  if negb (n_cutoff v) || (0 <? SCIPtreeGetNNodes s) then
    let '(s, found, v) :=
      if (depth =? 0) && (nruns (stat s) =? 1) && (n_nloops v =? 1) then
        let '(s, found) := SCIPprimalHeuristics SCIP_HEURTIMING_AFTERLPLOOP_AFTERNODE s in
        (s, found, set_n_afternodeheur true v)
      else
        let '(s, found) := SCIPprimalHeuristics SCIP_HEURTIMING_AFTERLPLOOP s in
        (s, found, v) in
    bound set s (set_n_foundsol found v)
  else (s, v).

(** Lines 2808-2830: an LP left invalid by the heuristics, and a new
    solution. *)
Definition node_after_heur set s (v : NodeVars) : Res (Solver E * NodeVars) :=
  '(s, v) ← (if resolvelperror (lp s) then lp_error_fallback s v else Ok (s, v));
  if n_foundsol v then Ok (markRelaxsUnsolved set s, all_again v) else Ok (s, v).

(** Lines 2833-2869: constraint enforcement. *)
Definition node_enforce set (depth : Z) s (v : NodeVars) : Res (Solver E * NodeVars) :=
  let v := set_n_branched false v in
  if negb (n_cutoff v) && negb (n_solverelaxagain v) && negb (n_solvelpagain v)
     && negb (n_propagateagain v)
  then
    let v :=
      if negb (n_lastdomchgcount v =? domchgcount (stat s))
         || negb (n_lastlpcount v =? lpcount (stat s))
      then set_n_infeasible false
             (set_n_lastlpcount (lpcount (stat s))
                (set_n_lastdomchgcount (domchgcount (stat s)) v))
      else v in
    '(s, ef, _) ←
      enforceConstraints set s
        (mkEnfo (n_branched v) (n_cutoff v) (n_infeasible v) (n_propagateagain v)
           (n_solvelpagain v) (n_solverelaxagain v))
        (n_forcedenforcement v);
    let v := set_n_branched (branched ef)
               (set_n_infeasible (infeasible ef)
                  (with_flags (mkFlags (cutoff ef) (propagateagain ef) (solvelpagain ef)
                                 (solverelaxagain ef)) v)) in
    Ok (cuts_bound_status set depth s v)
  else Ok (s, v).

(** Lines 2877-2886: pricing was aborted and enforcement found nothing. *)
Definition node_aborted_pricing s (v : NodeVars) : Solver E * NodeVars :=
  if n_pricingaborted v && negb (n_infeasible v) && negb (n_cutoff v) then
    let '(s, _) := try_current_solution s in (s, set_n_infeasible true v)
  else (s, v).

(** Lines 2904-2944: the branching rules are asked in turn. *)
Definition node_branching_result s : Solver E * Z * SCIP_RESULT :=
  let '(s, nlpcands) :=
    if SCIPtreeHasFocusNodeLP s then SCIPbranchcandGetLPCands s else (s, 0) in
  if 0 <? nlpcands then
    let '(s, result) := SCIPbranchExecLP s in (s, nlpcands, result)
  else
    let '(s, result) :=
      if 0 <? SCIPbranchcandGetNExternCands s then SCIPbranchExecExtern s
      else (s, SCIP_DIDNOTRUN) in
    let '(s, result) :=
      if bool_decide (result = SCIP_DIDNOTRUN) then SCIPbranchExecPseudo s
      else (s, result) in
    (s, nlpcands, result).

(** Lines 2984-3034: no branching rule ran. *)
Definition node_branching_didnotrun set s (v : NodeVars) : Res (Solver E * NodeVars) :=
  if (ncontvars (prob s) =? 0) && (nactivepricers set =? 0)%nat then
    Ok (s, set_n_cutoff true v)
  else
    let '(s, stop) :=
      if solstat_is SCIP_LPSOLSTAT_TIMELIMIT s || solstat_is SCIP_LPSOLSTAT_ITERLIMIT s
      then (s, true) else SCIPsolveIsStopped false s in
    if stop then Ok (SCIPnodeCreateChild s, set_n_branched true v)
    else if n_pricingaborted v then Err SCIP_INVALIDRESULT
    else Ok (SCIPtreeSetFocusNodeLP true s,
             set_n_forcedlpsolve true (set_n_solvelpagain true v)).

(** Lines 2898-3055: branching. *)
Definition node_branch set (depth : Z) s (v : NodeVars) : Res (Solver E * NodeVars) :=
  let v := set_n_forcedlpsolve false v in
  if n_infeasible v && negb (n_cutoff v) && negb (n_unbounded v)
     && negb (n_solverelaxagain v) && negb (n_solvelpagain v) && negb (n_propagateagain v)
     && negb (n_branched v)
  then
    let '(s, nlpcands, result) := node_branching_result s in
    '(s, v) ←
      match result with
      | SCIP_CUTOFF => Ok (s, set_n_cutoff true v)
      | SCIP_CONSADDED =>
          if 0 <? nlpcands then Err SCIP_INVALIDRESULT
          else Ok (markRelaxsUnsolved set s, all_again v)
      | SCIP_REDUCEDDOM => Ok (markRelaxsUnsolved set s, all_again v)
      | SCIP_SEPARATED =>
          Ok (markRelaxsUnsolved set s,
              set_n_solverelaxagain true (set_n_solvelpagain true v))
      | SCIP_BRANCHED => Ok (s, set_n_branched true v)
      | SCIP_DIDNOTRUN => node_branching_didnotrun set s v
      | _ => Err SCIP_INVALIDRESULT
      end;
    Ok (cuts_bound_status set depth s v)
  else Ok (s, v).

(** The restart test shared by lines 3058-3062 and 3084-3088. *)
Definition restart_due set (fac : SCIP_Real) s : bool :=
  ((presol_maxrestarts set =? -1) || (nruns (stat s) <=? presol_maxrestarts set))
  && (nactivepricers set =? 0)%nat
  && (userrestart (stat s)
      || (Rgt_bool (inject_Z (nrootintfixingsrun (stat s)))
            (fac * inject_Z (nvars (prob s) - ncontvars (prob s)))%Q
          && ((nruns (stat s) =? 1)
              || Qle_bool (inject_Z (nvars (prob s)))
                   ((1 - presol_restartminred set) * inject_Z (prevrunnvars (stat s)))%Q))).

(** Lines 2618-2693: the phases of a pass that precede the LP. *)
Definition node_before_lp set (depth : Z) s (v : NodeVars) : Res (Solver E * NodeVars) :=
  let '(s, v) := node_propagation set depth s v in
  let '(s, v) := node_heur_afterprop s v in
  node_relax set depth true s v.

(** Lines 2762-3062: the phases of a pass that follow the LP. *)
Definition node_after_lp set (depth : Z) s (v : NodeVars) : Res (Solver E * NodeVars) :=
  '(s, v) ← node_relax set depth false s v;
  let '(s, v) := node_heur_afterlp set depth s v in
  '(s, v) ← node_after_heur set s v;
  '(s, v) ← node_enforce set depth s v;
  let '(s, v) := node_aborted_pricing s v in
  '(s, v) ← node_branch set depth s v;
  Ok (s, set_n_restart
           (n_restart v || ((depth =? 0) && restart_due set (presol_immrestartfac set) s)) v).

(** Lines 2617-3066: one pass of the loop. *)
Definition node_pass (solveLP : bool -> Solver E -> NodeLPFlags -> Res (Solver E * NodeLPFlags))
    set (depth : Z) s (v : NodeVars) : Res (Solver E * NodeVars) :=
  '(s, v) ← node_before_lp set depth s v;
  '(s, v) ← node_lp solveLP set depth s v;
  node_after_lp set depth s v.

Definition node_loop_continues (v : NodeVars) : bool :=
  negb (n_cutoff v)
  && (n_solverelaxagain v || n_solvelpagain v || n_propagateagain v)
  && (n_nlperrors v <? MAXNLPERRORS) && negb (n_restart v).

(** The loop of line 2616. *)
Fixpoint node_loop (fuel : nat)
    (solveLP : bool -> Solver E -> NodeLPFlags -> Res (Solver E * NodeLPFlags))
    set (depth : Z) s (v : NodeVars) : Res (Solver E * NodeVars) :=
  if node_loop_continues v then
    match fuel with
    | O => OutOfFuel
    | S fuel' =>
        '(s1, v1) ← node_pass solveLP set depth s v;
        node_loop fuel' solveLP set depth s1 v1
    end
  else Ok (s, v).

(** Lines 2552-2615: everything before the loop. *)
Definition node_entry set s : Solver E * NodeVars :=
  let depth := SCIPnodeGetDepth s in
  let s := SCIPrelaxationSetSolValid false s in
  let s := SCIPbranchcandClearExternCands s in
  let haslp :=
    (((lp_solvedepth set =? -1) || (depth <=? lp_solvedepth set))
     && ((1 <=? lp_solvefreq set) && (Z.rem depth (lp_solvefreq set) =? 0))
     || ((depth =? 0) && (lp_solvefreq set =? 0)))
    && SCIPsetIsLT (SCIPlpGetPseudoObjval s) (primal_cutoffbound s) in
  let s := SCIPtreeSetFocusNodeLP haslp s in
  let '(s, foundsol) := SCIPprimalHeuristics SCIP_HEURTIMING_BEFORENODE s in
  let s := if resolvelperror (lp s) then SCIPtreeSetFocusNodeLP false s else s in
  let lastdomchgcount := domchgcount (stat s) in
  let lastlpcount := lpcount (stat s) in
  let s := set_nseparounds 0 (set_npricerounds 0 s) in
  (s, mkNV false false false false false false foundsol lastdomchgcount lastlpcount false 0
        true true true true false 0 false false false false false false).

(** Lines 3070-3104: everything after the loop. *)
Definition node_exit set (depth : Z) s (v : NodeVars) : Res (Solver E * NodeVars) :=
  let s := SCIPconflictFlushConss s in
  if MAXNLPERRORS <=? n_nlperrors v then Err SCIP_LPERROR
  else
    let restartfac :=
      if depth =? 0 then MIN (presol_subrestartfac set) (presol_restartfac set)
      else presol_subrestartfac set in
    let v := set_n_restart (n_restart v || restart_due set restartfac s) v in
    let s := if (depth =? 0) && negb (n_cutoff v) && negb (n_unbounded v)
             then SCIPprobStoreRootSol (SCIPtreeHasFocusNodeLP s) s else s in
    if n_cutoff v then
      Ok (SCIPnodeUpdateLowerbound (SCIPsetInfinity set) s,
          set_n_restart false (set_n_infeasible true v))
    else Ok (s, v).

(** [solveNode] with the LP of the node solved by [solveLP]. *)
Definition solveNode_with (fuel : nat)
    (solveLP : bool -> Solver E -> NodeLPFlags -> Res (Solver E * NodeLPFlags))
    set s : Res (Solver E * NodeVars) :=
  let depth := SCIPnodeGetDepth s in
  let '(s, v) := node_entry set s in
  '(s, v) ← node_loop fuel solveLP set depth s v;
  node_exit set depth s v.

Definition solveNode (fuel : nat) set s : Res (Solver E * NodeVars) :=
  solveNode_with fuel (solveNodeLP fuel set) set s.

(** *** Readings of the node loop for the LP errors *)






(** *** The separation store around the node loop

    The assertions [SCIPsepastoreGetNCuts(sepastore) == 0] of
    [priceAndCutLoop], [solveNodeLP] and [solveNode] (lines 1703, 2037, 2544,
    2624, 2665, 2694, 2760, 2779, 2870, 3067) rest on what the callees do to
    the store: clearing or applying the cuts empties it, and the callees
    that are not followed by one of the two leave an empty store empty.
    Separators, the cut pool, constraint handlers, relaxators and branching
    rules may fill the store: [solve.c] applies or clears the cuts after
    them. *)
Definition keeps_empty {A} (f : Solver E -> Solver E * A) : Prop :=
  forall s, SCIPsepastoreGetNCuts s = 0%nat -> SCIPsepastoreGetNCuts (f s).1 = 0%nat.

Definition keeps_empty_ (f : Solver E -> Solver E) : Prop :=
  keeps_empty (fun s => (f s, tt)).

End Engine.

End Solve.

(** ** A small executable world

    The plug-in private data is a counter of LP solves; the LP kernel is
    scripted by two functions of that counter.  The stores behave like
    counters: applying or clearing the cuts empties the separation store and
    applying the priced variables moves them into the LP. *)

Module Run.
Import Solve.

Definition eps : SCIP_Real := (1 # 1000000000)%Q.
Definition infinity : SCIP_Real := 100000000000000000000%Q.

Definition lp0 : SCIP_LP := mkLP true true SCIP_LPSOLSTAT_OPTIMAL infinity false false true.
Definition stat0 : SCIP_STAT := mkStat 1 1 0 0 0 0 0 0 0 0 0 0 0 0 false 0 0.
Definition tree0 : SCIP_TREE := mkTree (mkNode 0%Q 1 false) true INT_MAX 0.
Definition prob0 : SCIP_PROB := mkProb 10 10 0.

(** A focus node at depth 1 with a solved, optimal LP and empty stores. *)
Definition solver0 : Solver nat := mkSolver stat0 tree0 lp0 prob0 infinity 0%nat 0 0%nat.

Definition set_lp_result (st : SCIP_LPSOLSTAT) (lperror : bool) (s : Solver nat) : Solver nat :=
  with_lp (fun l => mkLP true (negb lperror) st (lp_cutoffbound l) (resolvelperror l)
                      (installing l) (isrelax l)) s.

Definition set_flushed (b : bool) (s : Solver nat) : Solver nat :=
  with_lp (fun l => mkLP b (solved l && b) (lpsolstat l) (lp_cutoffbound l)
                      (resolvelperror l) (installing l) (isrelax l)) s.

(** The LP loses its flushed and solved marks when [pending] edits exist. *)
Definition unflush_if (pending : bool) (s : Solver nat) : Solver nat :=
  with_lp (fun l => mkLP (flushed l && negb pending) (solved l && negb pending)
                      (lpsolstat l) (lp_cutoffbound l) (resolvelperror l) (installing l)
                      (isrelax l)) s.

Definition add_colvars (n : Z) (s : Solver nat) : Solver nat :=
  mkSolver (stat s) (tree s) (lp s)
    (mkProb (nvars (prob s) + n) (ncolvars (prob s) + n) (ncontvars (prob s)))
    (primal_cutoffbound s) (sepastore_ncuts s) (pricestore_nvars s) (ext s).

(** The scripted world: [lpsolve n] is the status and error flag of the
    [n]-th LP solve, [objval n] the objective value after [n] solves,
    [stopped] the answer of the stop monitor, [allcols] whether all columns
    are in the LP, [nlpcands] the number of fractional candidates and
    [branch] the verdict of the branching rules. *)
Definition world (lpsolve : nat -> SCIP_LPSOLSTAT * bool) (objval : nat -> SCIP_Real)
    (stopped : Solver nat -> bool) (allcols : bool)
    (nlpcands : Solver nat -> Z) (branch : SCIP_RESULT) : Collaborators nat := {|
  SCIPsetIsLT := EPSLT eps;
  SCIPsetIsLE := EPSLE eps;
  SCIPsetIsGT := EPSGT eps;
  SCIPsetIsGE := EPSGE eps;
  SCIPrelDiff := fun val1 val2 =>
    ((val1 - val2) / MAX (MAX 1 (Qabs val1)) (Qabs val2))%Q;
  SCIP_REAL_MIN := (- (2 ^ 1024))%Q;
  SCIPlpSolveAndEval := fun _ _ s =>
    let '(st, lperror) := lpsolve (ext s) in
    (set_ext (S (ext s)) (set_lp_result st lperror s), lperror);
  SCIPlpFlush := set_flushed true;
  SCIPlpRemoveRedundantRows := fun s => s;
  SCIPlpGetObjval := fun s => objval (ext s);
  SCIPlpGetPseudoObjval := fun _ => 0%Q;
  SCIPlpiInfinity := fun _ => infinity;
  SCIPtreeGetLowerbound := fun s => SCIPnodeGetLowerbound s;
  SCIPtreeGetNNodes := fun s => nchildren (tree s);
  SCIPtreeGetCurrentDepth := fun s => SCIPnodeGetDepth s;
  SCIPtreeProbing := fun _ => false;
  SCIPnodeUpdateLowerboundLP := fun s => SCIPnodeUpdateLowerbound (objval (ext s)) s;
  SCIPnodeCreateChild := fun s =>
    with_tree (fun t => mkTree (focusnode t) (focusnodehaslp t) (cutoffdepth t)
                          (nchildren t + 1)) s;
  SCIPsepastoreClearCuts := set_sepastore_ncuts 0;
  SCIPsepastoreApplyCuts := fun _ s =>
    (set_sepastore_ncuts 0 (unflush_if (0 <? sepastore_ncuts s)%nat s), false);
  SCIPsepastoreStartForceCuts := fun s => s;
  SCIPsepastoreEndForceCuts := fun s => s;
  SCIPpricestoreAddProbVars := fun s => s;
  SCIPpricestoreApplyVars := fun s =>
    set_pricestore_nvars 0
      (unflush_if (0 <? pricestore_nvars s) (add_colvars (pricestore_nvars s) s));
  SCIPpricestoreResetBounds := fun s => s;
  SCIPcutpoolSeparate := fun _ s => (s, SCIP_DIDNOTFIND);
  SCIPbranchcandGetLPCands := fun s => (s, nlpcands s);
  SCIPbranchcandClearExternCands := fun s => s;
  SCIPbranchcandGetNExternCands := fun _ => 0;
  SCIPbranchcandGetNPseudoCands := fun _ => 0;
  SCIPbranchExecLP := fun s => (s, branch);
  SCIPbranchExecExtern := fun s => (s, branch);
  SCIPbranchExecPseudo := fun s => (s, branch);
  SCIPprobAllColsInLP := fun _ => allcols;
  SCIPprobStoreRootSol := fun _ s => s;
  SCIPconflictAnalyzePseudo := fun s => s;
  SCIPconflictAnalyzeLP := fun s => s;
  SCIPconflictFlushConss := fun s => s;
  process_LPSOLVED_event := fun s => s;
  SCIPrelaxationSetSolValid := fun _ s => s;
  try_LP_solution := fun _ s => (s, false);
  try_current_solution := fun s => (s, false);
  SCIPsolveIsStopped := fun _ s => (s, stopped s);
  SCIPprimalHeuristics := fun _ s => (s, false);
  propagateDomains := fun _ _ _ s => (s, false);
  updateEstimate := fun s => s;
  initConssLP := fun _ s => (s, false);
  solveNodeInitialLP := fun s => (s, (false, false))
|}.

(** Every LP solve is optimal with objective value 0. *)
Definition calm : Collaborators nat :=
  world (fun _ => (SCIP_LPSOLSTAT_OPTIMAL, false)) (fun _ => 0%Q) (fun _ => false) true
    (fun _ => 0) SCIP_BRANCHED.

(** A constraint handler that always answers [v] and neither separates nor
    touches the state. *)
Definition answering (v : SCIP_RESULT) : Conshdlr nat :=
  mkConshdlr (fun _ => false) (fun _ _ s => (s, SCIP_DIDNOTFIND))
    (fun _ s => (s, v)) (fun _ _ _ s => (s, v)).

Definition settings (enfo : list (Conshdlr nat)) (prs : list (Pricer nat)) : SCIP_SET nat :=
  mkSet enfo enfo [] [] prs infinity false (-1) 1 100 2000 1%Q (-1) 5 (-1) 1 1 5 100 2000 0
    (-1) (1 # 4)%Q (9 # 10)%Q 1%Q (1 # 10)%Q.

(** Settings for separation: the separators and the stall round limit. *)
Definition sepa_settings (sps : list (Sepa nat)) (maxstall : Z) : SCIP_SET nat :=
  mkSet [] [] sps [] [] infinity false (-1) 1 100 2000 1%Q (-1) 5 (-1) 1 1 maxstall 100 2000 0
    (-1) (1 # 4)%Q (9 # 10)%Q 1%Q (1 # 10)%Q.

(** A separator that adds one cut in every call. *)
Definition cutter : Sepa nat :=
  mkSepa 10 (fun _ => false)
    (fun _ _ _ s => (set_sepastore_ncuts (S (sepastore_ncuts s)) s, SCIP_SEPARATED)).

(** The LP objective is 10 up to the second solve and 5 afterwards; three
    candidates are fractional throughout. *)
Definition sinking : Collaborators nat :=
  world (fun _ => (SCIP_LPSOLSTAT_OPTIMAL, false))
    (fun n => if (n <=? 2)%nat then 10%Q else 5%Q) (fun _ => false) true
    (fun _ => 3) SCIP_BRANCHED.

(** Every LP solve finds the LP infeasible, with objective value
    [infinity]. *)
Definition infeasible_lp : Collaborators nat :=
  world (fun _ => (SCIP_LPSOLSTAT_INFEASIBLE, false)) (fun _ => infinity) (fun _ => false) true
    (fun _ => 0) SCIP_BRANCHED.

(** The default value of a failed run, to name the outputs of a run. *)
Definition value {A} (d : A) (r : Res A) : A :=
  match r with Ok a => a | _ => d end.

Definition cut0 : CutLoopVars := mkCut false false false false false false 0 0%Q 0 0.


(** A separator that asks to be delayed in the ordinary rounds and, called as
    a delayed separator, adds a cut as long as fewer than six LPs were
    solved. *)
Definition late : Sepa nat :=
  mkSepa 5 (fun _ => true)
    (fun _ _ onlydelayed s =>
       if onlydelayed then
         if (ext s <? 6)%nat
         then (set_sepastore_ncuts (S (sepastore_ncuts s)) s, SCIP_SEPARATED)
         else (s, SCIP_DIDNOTFIND)
       else (s, SCIP_DELAYED)).

(** The LP objective stays at 10 and three candidates stay fractional. *)
Definition flat : Collaborators nat :=
  world (fun _ => (SCIP_LPSOLSTAT_OPTIMAL, false)) (fun _ => 10%Q) (fun _ => false) true
    (fun _ => 3) SCIP_BRANCHED.

Definition delayed_run :=
  priceAndCutLoop (ops := flat) 20 (sepa_settings [cutter; late] 1) false solver0 false.
Definition delayed_out : Solver nat * CutLoopVars * bool * list SepaRoundEvent :=
  Eval vm_compute in value (solver0, cut0, false, []) delayed_run.

Definition flags0 : EnfoFlags := mkEnfo false false false false false false.

(** The variables of the node solver before it starts. *)
Definition nodevars0 : NodeVars :=
  mkNV false false false false false false false 0 0 false 0 false false false false false 0
    false false false false false false.






(** The LP of the node is infeasible, columns are missing from the LP, and
    the stop monitor answers yes, so that pricing is given up at once. *)
Definition stopping : Collaborators nat :=
  world (fun _ => (SCIP_LPSOLSTAT_INFEASIBLE, false)) (fun _ => 0%Q) (fun _ => true) false
    (fun _ => 0) SCIP_BRANCHED.
Definition idle_pricer : Pricer nat := mkPricer 0 true (fun s => (s, (0%Q, SCIP_SUCCESS))).
Definition nodelp0 : NodeLPFlags := mkNodeLP false false false false.
Definition abort_run :=
  solveNodeLP (ops := stopping) 10 (settings [] [idle_pricer]) false solver0 nodelp0.
Definition abort_out : Solver nat * NodeLPFlags :=
  Eval vm_compute in value (solver0, nodelp0) abort_run.

(** Two active pricers: the first in priority order leaves 50 variables in
    the pricing store, the second would add 10 more.  [price_maxvars] is
    100. *)
Definition pricer_of_50 : Pricer nat :=
  mkPricer 10 true
    (fun s => (set_pricestore_nvars (pricestore_nvars s + 50) s, (3%Q, SCIP_SUCCESS))).
Definition pricer_of_10 : Pricer nat :=
  mkPricer 5 true
    (fun s => (set_pricestore_nvars (pricestore_nvars s + 10) s, (7%Q, SCIP_SUCCESS))).
Definition pricing_settings : SCIP_SET nat := settings [] [pricer_of_10; pricer_of_50].
Definition pricing_out :=
  Eval vm_compute in
    external_pricing pricing_settings false solver0 false (- infinity)%Q.

(** Columns are missing from the LP and the only pricer does not run; at
    most three pricing rounds are allowed. *)
Definition missing_columns : Collaborators nat :=
  world (fun _ => (SCIP_LPSOLSTAT_OPTIMAL, false)) (fun _ => 0%Q) (fun _ => false) false
    (fun _ => 0) SCIP_BRANCHED.
Definition resting_pricer : Pricer nat :=
  mkPricer 0 true (fun s => (s, (5%Q, SCIP_DIDNOTRUN))).
Definition price0 : PriceVars := mkPrice 0 false 0%Q false false false 0.
Definition price_run :=
  SCIPpriceLoop (ops := missing_columns) 5 (settings [] [resting_pricer]) false false 3
    solver0 false (- infinity)%Q.
Definition price_out : Solver nat * PriceVars * list PriceRound :=
  Eval vm_compute in value (solver0, price0, []) price_run.

End Run.

(** * Pseudo cost update ([updatePseudocost], solve.c 445-610)

    The variables are objects behind pointers: several bound changes may
    name the same variable, and the marks that the function leaves in
    [var->pseudocostflag] are read back through those pointers.  The store
    of variables is a finite map from addresses to variable records. *)

Module Pseudocost.

Inductive PSEUDOCOSTFLAG := PSEUDOCOST_NONE | PSEUDOCOST_IGNORE | PSEUDOCOST_UPDATE.
Inductive SCIP_BOUNDCHGTYPE :=
| SCIP_BOUNDCHGTYPE_BRANCHING | SCIP_BOUNDCHGTYPE_CONSINFER | SCIP_BOUNDCHGTYPE_PROPINFER.

#[global] Instance PSEUDOCOSTFLAG_eq_dec : EqDecision PSEUDOCOSTFLAG.
Proof. solve_decision. Defined.
#[global] Instance SCIP_BOUNDCHGTYPE_eq_dec : EqDecision SCIP_BOUNDCHGTYPE.
Proof. solve_decision. Defined.

(** The fields of [SCIP_VAR] that the update reads or writes: the local
    bounds, the LP solution value, the mark, and the pseudo cost
    accumulators of the two branching directions. *)
Record SCIP_VAR := mkVar {
  lb_local : SCIP_Real;
  ub_local : SCIP_Real;
  lpsol : SCIP_Real;
  pseudocostflag : PSEUDOCOSTFLAG;
  pscost_down : SCIP_Real;
  pscost_up : SCIP_Real
}.

Definition set_pseudocostflag (f : PSEUDOCOSTFLAG) (v : SCIP_VAR) : SCIP_VAR :=
  mkVar (lb_local v) (ub_local v) (lpsol v) f (pscost_down v) (pscost_up v).

(** A bound change: its origin, the address of its variable and, for a
    branching, the LP solution value of the variable in the parent
    ([data.branchingdata.lpsolval]). *)
Record SCIP_BOUNDCHG := mkBoundchg {
  boundchgtype : SCIP_BOUNDCHGTYPE;
  bc_var : positive;
  bc_lpsolval : SCIP_Real
}.

Record SCIP_NODE := mkNode {
  node_depth : nat;
  node_lowerbound : SCIP_Real;
  domchg : option (list SCIP_BOUNDCHG)
}.

Record SCIP_TREE := mkTree {
  path : list SCIP_NODE;
  actdepth : nat;
  focuslpstatefork : option SCIP_NODE
}.

Record SCIP_LP := mkLP {
  solved : bool;
  lpsolstat : SCIP_LPSOLSTAT;
  lp_objval : SCIP_Real
}.

Abbreviation Vars := (gmap positive SCIP_VAR).

Definition SCIP_INVALID : SCIP_Real := (10 ^ 99)%Q.

(** Modelled from the spec: [SCIPvarUpdatePseudocost] of scip/var.c is not
    part of solve.c; the specification has the gain attributed to the
    variable's pseudo cost on the side moved, with accumulators up and
    down.  The side is up when the LP value did not go down. *)
Definition SCIPvarUpdatePseudocost (v : SCIP_VAR) (solvaldelta objdelta weight : SCIP_Real)
    : SCIP_VAR :=
  if Qle_bool 0 solvaldelta
  then mkVar (lb_local v) (ub_local v) (lpsol v) (pseudocostflag v) (pscost_down v)
         (pscost_up v + objdelta)%Q
  else mkVar (lb_local v) (ub_local v) (lpsol v) (pseudocostflag v)
         (pscost_down v + objdelta)%Q (pscost_up v).

Section Update.
(** The tolerant comparisons of scip/set.c. *)
Variables SCIPsetIsLT SCIPsetIsGT SCIPsetIsEQ : SCIP_Real -> SCIP_Real -> bool.

(** Lines 445-476. *)
Definition isPseudocostUpdateValid (v : SCIP_VAR) (oldlpsolval : SCIP_Real) : bool :=
  if Rge_bool oldlpsolval SCIP_INVALID then false
  else if SCIPsetIsLT oldlpsolval (lb_local v) then SCIPsetIsEQ (lpsol v) (lb_local v)
  else if SCIPsetIsGT oldlpsolval (ub_local v) then SCIPsetIsEQ (lpsol v) (ub_local v)
  else false.

(** The state of the first loop: the variables, the collected bound changes
    [updates] and [nvalidupdates]. *)
Definition Collected : Type := Vars * list SCIP_BOUNDCHG * Z.

(** Lines 545-565: the body of the loop over the bound changes of a node.  A
    bound change whose variable is not in the store is passed over. *)
Definition collect_boundchg (st : Collected) (b : SCIP_BOUNDCHG) : Collected :=
  let '(vars, updates, nvalidupdates) := st in
  if bool_decide (boundchgtype b = SCIP_BOUNDCHGTYPE_BRANCHING) then
    match vars !! bc_var b with
    | Some v =>
        if bool_decide (pseudocostflag v = PSEUDOCOST_NONE) then
          if isPseudocostUpdateValid v (bc_lpsolval b)
          then (<[bc_var b := set_pseudocostflag PSEUDOCOST_UPDATE v]> vars,
                updates ++ [b], nvalidupdates + 1)
          else (<[bc_var b := set_pseudocostflag PSEUDOCOST_IGNORE v]> vars,
                updates ++ [b], nvalidupdates)
        else st
    | None => st
    end
  else st.

(** Lines 531-567: the nodes of the path below the fork, down to the focus
    node. *)
Definition collect_node (tree : SCIP_TREE) (st : Collected) (d : nat) : Collected :=
  match path tree !! d with
  | Some node =>
      match domchg node with
      | Some boundchgs => foldl collect_boundchg st boundchgs
      | None => st
      end
  | None => st
  end.

Definition collect (tree : SCIP_TREE) (fork : SCIP_NODE) (vars : Vars) : Collected :=
  foldl (collect_node tree) (vars, [], 0)
    (seq (node_depth fork + 1) (actdepth tree - node_depth fork)).

(** Lines 572-574. *)
Definition update_weight (nvalidupdates : Z) : SCIP_Real :=
  if 0 <? nvalidupdates then (1 / inject_Z nvalidupdates)%Q else 1%Q.
Definition update_lpgain (lp : SCIP_LP) (fork : SCIP_NODE) (weight : SCIP_Real) : SCIP_Real :=
  MAX ((lp_objval lp - node_lowerbound fork) * weight)%Q 0%Q.

(** Lines 575-590: the body of the second loop, first on the variable of the
    bound change, then on the store. *)
Definition updated_var (lpgain weight : SCIP_Real) (b : SCIP_BOUNDCHG) (v : SCIP_VAR)
    : SCIP_VAR :=
  let v1 :=
    if bool_decide (pseudocostflag v = PSEUDOCOST_UPDATE)
    then SCIPvarUpdatePseudocost v (lpsol v - bc_lpsolval b)%Q lpgain weight
    else v in
  set_pseudocostflag PSEUDOCOST_NONE v1.

Definition apply_update (lpgain weight : SCIP_Real) (vars : Vars) (b : SCIP_BOUNDCHG) : Vars :=
  match vars !! bc_var b with
  | Some v => <[bc_var b := updated_var lpgain weight b v]> vars
  | None => vars
  end.

Definition updatePseudocost (tree : SCIP_TREE) (lp : SCIP_LP) (vars : Vars) : Vars :=
  match focuslpstatefork tree with
  | Some fork =>
      if solved lp && bool_decide (lpsolstat lp = SCIP_LPSOLSTAT_OPTIMAL) then
        let '(vars1, updates, nvalidupdates) := collect tree fork vars in
        let weight := update_weight nvalidupdates in
        let lpgain := update_lpgain lp fork weight in
        foldl (apply_update lpgain weight) vars1 updates
      else vars
  | None => vars
  end.

(** *** Readings *)

(** The bound changes that the first loop collects and the ones among them
    that it marks [PSEUDOCOST_UPDATE]. *)
Definition collected_updates (tree : SCIP_TREE) (fork : SCIP_NODE) (vars : Vars)
    : list SCIP_BOUNDCHG := (collect tree fork vars).1.2.
Definition marked_update (vars : Vars) (b : SCIP_BOUNDCHG) : bool :=
  match vars !! bc_var b with
  | Some v => isPseudocostUpdateValid v (bc_lpsolval b)
  | None => false
  end.
Definition N_valid (tree : SCIP_TREE) (fork : SCIP_NODE) (vars : Vars) : Z :=
  Z.of_nat (length (filter (fun b => marked_update vars b = true)
                      (collected_updates tree fork vars))).

(** The side on which the LP value of the variable moved, and the pseudo
    cost of a side. *)
Definition moved_up (v : SCIP_VAR) (b : SCIP_BOUNDCHG) : bool :=
  Qle_bool 0 (lpsol v - bc_lpsolval b)%Q.
Definition pscost (up : bool) (v : SCIP_VAR) : SCIP_Real :=
  if up then pscost_up v else pscost_down v.

(** What the first loop maintains, with [vars0] the variables on entry: no
    variable is collected twice, the variables that were not collected are
    as on entry, a collected bound change is a branching on a variable that
    was unmarked on entry and now carries its mark, and [nvalidupdates]
    counts the marks [PSEUDOCOST_UPDATE]. *)
Definition mark_of (v : SCIP_VAR) (b : SCIP_BOUNDCHG) : PSEUDOCOSTFLAG :=
  if isPseudocostUpdateValid v (bc_lpsolval b) then PSEUDOCOST_UPDATE else PSEUDOCOST_IGNORE.

Record collect_inv (vars0 : Vars) (st : Collected) : Prop := {
  inv_nodup : NoDup (bc_var <$> st.1.2);
  inv_frame : forall i, i ∉ bc_var <$> st.1.2 -> st.1.1 !! i = vars0 !! i;
  inv_marked : forall b, b ∈ st.1.2 ->
    boundchgtype b = SCIP_BOUNDCHGTYPE_BRANCHING /\
    exists v0, vars0 !! bc_var b = Some v0 /\ pseudocostflag v0 = PSEUDOCOST_NONE /\
               st.1.1 !! bc_var b = Some (set_pseudocostflag (mark_of v0 b) v0);
  inv_count :
    st.2 = Z.of_nat (length (filter (fun b => marked_update vars0 b = true) st.1.2))
}.

End Update.

End Pseudocost.

(** ** A small path for the pseudo cost update

    The fork is the root with lower bound 10; the focus node at depth 2 has
    an LP objective value of 14.  Variable 1 was branched up at depth 1 (old
    LP value 1/2, now at its lower bound 1), variable 2 was branched down at
    depth 2 but its LP value 3/2 is not at the new upper bound 2, variable 3
    was changed by propagation, variable 4 was branched down (old LP value
    7/2, now at its upper bound 3), and variable 1 is branched once more at
    depth 2. *)
Module PseudocostRun.
Import Pseudocost.
Local Open Scope Q_scope.

Definition eps : SCIP_Real := (1 # 1000000000)%Q.

Definition var1 : SCIP_VAR := mkVar 1 1 1 PSEUDOCOST_NONE 0 0.
Definition var2 : SCIP_VAR := mkVar 0 2 (3 # 2) PSEUDOCOST_NONE 0 0.
Definition var3 : SCIP_VAR := mkVar 0 5 4 PSEUDOCOST_NONE 0 0.
Definition var4 : SCIP_VAR := mkVar 0 3 3 PSEUDOCOST_NONE 1 0.
Definition vars0 : Vars := {[ 1%positive := var1; 2%positive := var2; 3%positive := var3;
                              4%positive := var4 ]}.

Definition up1 : SCIP_BOUNDCHG := mkBoundchg SCIP_BOUNDCHGTYPE_BRANCHING 1%positive (1 # 2).
Definition down2 : SCIP_BOUNDCHG := mkBoundchg SCIP_BOUNDCHGTYPE_BRANCHING 2%positive (5 # 2).
Definition prop3 : SCIP_BOUNDCHG := mkBoundchg SCIP_BOUNDCHGTYPE_PROPINFER 3%positive (9 # 2).
Definition down4 : SCIP_BOUNDCHG := mkBoundchg SCIP_BOUNDCHGTYPE_BRANCHING 4%positive (7 # 2).
Definition again1 : SCIP_BOUNDCHG := mkBoundchg SCIP_BOUNDCHGTYPE_BRANCHING 1%positive (3 # 4).

Definition fork0 : SCIP_NODE := mkNode 0%nat 10 None.
Definition tree0 : SCIP_TREE :=
  mkTree [fork0; mkNode 1%nat 12 (Some [up1]);
          mkNode 2%nat 12 (Some [down2; prop3; down4; again1])]
    2%nat (Some fork0).
Definition lp0 : SCIP_LP := mkLP true SCIP_LPSOLSTAT_OPTIMAL 14.

Definition run : Vars :=
  updatePseudocost (EPSLT eps) (EPSGT eps) (EPSEQ eps) tree0 lp0 vars0.

End PseudocostRun.

(** * Further readings of the node solver *)

Module SolveMore.
Import Solve.

(** The results for which the [switch] of [enforceConstraints] (lines
    2295-2380) has a case. *)
Definition enforce_result_known (result : SCIP_RESULT) : bool :=
  match result with
  | SCIP_CUTOFF | SCIP_CONSADDED | SCIP_REDUCEDDOM | SCIP_SEPARATED | SCIP_BRANCHED
  | SCIP_SOLVELP | SCIP_INFEASIBLE | SCIP_FEASIBLE | SCIP_DIDNOTRUN => true
  | _ => false
  end.

Section Enforcement.
Context {E : Type} {ops : Collaborators E}.

(** [objinfeasible] as lines 2249-2255 of [enforceConstraints] compute it. *)
Definition enforce_objinfeasible (s : Solver E) : bool :=
  if SCIPtreeHasFocusNodeLP s then false
  else SCIPsetIsLT (SCIPlpGetPseudoObjval s) (SCIPnodeGetLowerbound s).

(** The call of handler [h] in lines 2269-2285, in state [s0] and with
    [*infeasible] at [i]. *)
Definition enforce_call (objinfeasible forced : bool) (h : Conshdlr E) (i : bool)
    (s0 : Solver E) : Solver E * SCIP_RESULT :=
  if SCIPtreeHasFocusNodeLP s0 then SCIPconshdlrEnforceLPSol h i s0
  else SCIPconshdlrEnforcePseudoSol h i objinfeasible forced s0.

(** The entry [ev] of the log has the result of a call of handler [h]. *)
Definition answer_of (objinfeasible forced : bool) (h : Conshdlr E) (ev : EnfoEvent) : Prop :=
  exists i s0, ev.1 = (enforce_call objinfeasible forced h i s0).2.

(** A call of handler [h] that makes the enforcement fail: its result is
    none of those of the [switch], or its pseudo enforcement leaves cuts in
    the separation store (line 2280). *)
Definition failing_call (objinfeasible forced : bool) (h : Conshdlr E) : Prop :=
  exists i s0,
    enforce_result_known (enforce_call objinfeasible forced h i s0).2 = false
    \/ (SCIPtreeHasFocusNodeLP s0 = false
        /\ SCIPsepastoreGetNCuts (enforce_call objinfeasible forced h i s0).1 <> 0%nat).

End Enforcement.

(** A flag that is set stays set. *)
Definition raised (before after : bool) : Prop := before = true -> after = true.

(** What a separation loop keeps of the flags of [separationRoundLP]: they
    are only raised, and nothing happens once [cutoff] is set. *)
Definition sepa_kept {E} (s : Solver E) (v : SepaVars) (s' : Solver E) (v' : SepaVars)
    : Prop :=
  raised (sr_cutoff v) (sr_cutoff v') /\
  raised (sr_mustsepa v) (sr_mustsepa v') /\
  raised (sr_mustprice v) (sr_mustprice v') /\
  (sr_cutoff v = true -> s' = s /\ sr_delayed v' = sr_delayed v).

End SolveMore.

(** * Domain propagation ([propagationRound], [propagateDomains],
      [SCIPpropagateDomains]; solve.c 239-440) *)

#[global] Instance SCIP_STAGE_eq_dec : EqDecision SCIP_STAGE.
Proof. solve_decision. Defined.

Module Propagate.
Import Solve.

(** A propagator with its [SCIPpropExec] callback, which takes the depth and
    [onlydelayed]. *)
Record SCIP_PROP (E : Type) := mkProp {
  prop_priority : Z;
  SCIPpropWasDelayed : Solver E -> bool;
  SCIPpropExec : Z -> bool -> Solver E -> Solver E * SCIP_RESULT
}.
Arguments mkProp {E}.
Arguments prop_priority {E}.
Arguments SCIPpropWasDelayed {E}.
Arguments SCIPpropExec {E}.

(** The propagation side of a constraint handler; [SCIPconshdlrPropagate]
    takes the depth, [fullpropagation] and [onlydelayed]. *)
Record SCIP_CONSHDLR (E : Type) := mkPropConshdlr {
  SCIPconshdlrWasPropagationDelayed : Solver E -> bool;
  SCIPconshdlrPropagate : Z -> bool -> bool -> Solver E -> Solver E * SCIP_RESULT
}.
Arguments mkPropConshdlr {E}.
Arguments SCIPconshdlrWasPropagationDelayed {E}.
Arguments SCIPconshdlrPropagate {E}.

(** The settings that the propagation reads. *)
Record PROP_SET (E : Type) := mkPropSet {
  props : list (SCIP_PROP E);
  conshdlrs : list (SCIP_CONSHDLR E);
  prop_abortoncutoff : bool;
  prop_maxrounds : Z;
  prop_maxroundsroot : Z;
  stage : SCIP_STAGE
}.
Arguments mkPropSet {E}.
Arguments props {E}.
Arguments conshdlrs {E}.
Arguments prop_abortoncutoff {E}.
Arguments prop_maxrounds {E}.
Arguments prop_maxroundsroot {E}.
Arguments stage {E}.

(** The three output flags of a round. *)
Record RoundFlags := mkRoundFlags {
  rf_delayed : bool;
  rf_propagain : bool;
  rf_cutoff : bool
}.

(** A propagator or constraint handler as the loops of a round see it:
    whether it is passed over ([continue]) and its call. *)
Record PropCall (E : Type) := mkPropCall {
  pc_skip : Solver E -> bool;
  pc_exec : Solver E -> Solver E * SCIP_RESULT
}.
Arguments mkPropCall {E}.
Arguments pc_skip {E}.
Arguments pc_exec {E}.

Section Rounds.
Context {E : Type} {ops : Collaborators E}.
(** [SCIPnodeMarkPropagated] of scip/tree.c, on the current node. *)
Variable SCIPnodeMarkPropagated : Solver E -> Solver E.
Implicit Types (s : Solver E) (set : PROP_SET E).

(** Modelled from the spec: [SCIPsetSortProps] of scip/set.c is not part of
    solve.c; the specification has the propagators sorted by priority. *)
Definition SCIPsetSortProps set : list (SCIP_PROP E) :=
  sort_by (fun y x => prop_priority x <? prop_priority y) (props set).

(** One of the three [for] loops of [propagationRound].  The results of the
    calls are logged; the last component tells that the function returns
    from inside the loop. *)
Fixpoint prop_loop (abortoncutoff onlydelayed : bool) (cs : list (PropCall E)) s
    (v : RoundFlags) (results : list SCIP_RESULT)
    : Solver E * RoundFlags * list SCIP_RESULT * bool :=
  match cs with
  | [] => (s, v, results, false)
  | c :: cs' =>
      if negb (negb (rf_cutoff v) || negb abortoncutoff) then (s, v, results, false)
      else if pc_skip c s then prop_loop abortoncutoff onlydelayed cs' s v results
      else
        let '(s1, result) := pc_exec c s in
        let v1 := mkRoundFlags
                    (rf_delayed v || bool_decide (result = SCIP_DELAYED))
                    (rf_propagain v || bool_decide (result = SCIP_REDUCEDDOM))
                    (rf_cutoff v || bool_decide (result = SCIP_CUTOFF)) in
        if onlydelayed && bool_decide (result = SCIP_REDUCEDDOM) then
          (s1, mkRoundFlags true (rf_propagain v1) (rf_cutoff v1), results ++ [result], true)
        else prop_loop abortoncutoff onlydelayed cs' s1 v1 (results ++ [result])
  end.

Definition prop_calls set (nonneg : bool) (depth : Z) (onlydelayed : bool)
    : list (PropCall E) :=
  (fun p : SCIP_PROP E =>
     mkPropCall
       (fun s => (if nonneg then prop_priority p <? 0 else 0 <=? prop_priority p)
                 || (onlydelayed && negb (SCIPpropWasDelayed p s)))
       (SCIPpropExec p depth onlydelayed))
  <$> SCIPsetSortProps set.

Definition conshdlr_prop_calls set (depth : Z) (fullpropagation onlydelayed : bool)
    : list (PropCall E) :=
  (fun h : SCIP_CONSHDLR E =>
     mkPropCall
       (fun s => onlydelayed && negb (SCIPconshdlrWasPropagationDelayed h s))
       (SCIPconshdlrPropagate h depth fullpropagation onlydelayed))
  <$> conshdlrs set.

Definition abortoncutoff set : bool :=
  prop_abortoncutoff set || negb (bool_decide (stage set = SCIP_STAGE_SOLVING)).

(** Lines 239-352.  [cutoff] is an in/out parameter; [delayed] and
    [propagain] are initialised by the function. *)
Definition propagationRound set (depth : Z) (fullpropagation onlydelayed : bool) s
    (cutoff0 : bool) : Solver E * RoundFlags * list SCIP_RESULT :=
  let v := mkRoundFlags false false cutoff0 in
  let abort := abortoncutoff set in
  let '(s1, v1, r1, returned) :=
    prop_loop abort onlydelayed (prop_calls set true depth onlydelayed) s v [] in
  if returned then (s1, v1, r1) else
  let '(s2, v2, r2, returned) :=
    prop_loop abort onlydelayed (conshdlr_prop_calls set depth fullpropagation onlydelayed)
      s1 v1 r1 in
  if returned then (s2, v2, r2) else
  let '(s3, v3, r3, _) :=
    prop_loop abort onlydelayed (prop_calls set false depth onlydelayed) s2 v2 r2 in
  (s3, v3, r3).

(** Lines 381-384. *)
Definition effective_maxproprounds set (depth maxproprounds : Z) : Z :=
  let m := if maxproprounds =? 0
           then (if depth =? 0 then prop_maxroundsroot set else prop_maxrounds set)
           else maxproprounds in
  if m =? -1 then INT_MAX else m.

(** A round of the log of [propagateDomains]: whether it was run for the
    delayed propagators only, and the results of its calls. *)
Record PropRound := mkPropRound {
  pr_onlydelayed : bool;
  pr_results : list SCIP_RESULT
}.

(** The inner loop of lines 401-405. *)
Fixpoint delayed_prop_rounds (fuel : nat) set (depth : Z) (fullpropagation : bool)
    (maxproprounds propround : Z) s (v : RoundFlags) (trace : list PropRound)
    : Res (Solver E * RoundFlags * list PropRound) :=
  if rf_delayed v && (negb (rf_propagain v) || (maxproprounds <=? propround))
     && negb (rf_cutoff v)
  then
    match fuel with
    | O => OutOfFuel
    | S fuel' =>
        let '(s1, v1, results) :=
          propagationRound set depth fullpropagation true s (rf_cutoff v) in
        delayed_prop_rounds fuel' set depth fullpropagation maxproprounds propround s1 v1
          (trace ++ [mkPropRound true results])
    end
  else Ok (s, v, trace).

(** What the outer loop hands on: the state, [propagain], [cutoff],
    [propround], the log, and whether the stop test ended the loop. *)
Record PropLoop := mkPropLoop {
  pl_propagain : bool;
  pl_cutoff : bool;
  pl_propround : Z;
  pl_trace : list PropRound;
  pl_stopped : bool
}.

(** The loop of lines 392-411. *)
Fixpoint prop_rounds (fuel budget : nat) set (depth : Z) (fullpropagation : bool)
    (maxproprounds : Z) s (l : PropLoop) : Res (Solver E * PropLoop) :=
  if pl_propagain l && negb (pl_cutoff l) && (pl_propround l <? maxproprounds) then
    match fuel with
    | O => OutOfFuel
    | S fuel' =>
        let '(s0, stopped) := SCIPsolveIsStopped false s in
        if stopped then
          Ok (s0, mkPropLoop (pl_propagain l) (pl_cutoff l) (pl_propround l) (pl_trace l) true)
        else
          let propround := pl_propround l + 1 in
          let '(s1, v1, results) :=
            propagationRound set depth fullpropagation false s0 (pl_cutoff l) in
          '(s2, v2, trace2) ←
            delayed_prop_rounds budget set depth fullpropagation maxproprounds propround
              s1 v1 (pl_trace l ++ [mkPropRound false results]);
          prop_rounds fuel' budget set depth true maxproprounds s2
            (mkPropLoop (rf_propagain v2) (rf_cutoff v2) propround trace2 false)
    end
  else Ok (s, l).

(** Lines 356-421.  The result is the state, [cutoff], and the log with the
    mark of the stop test. *)
Definition propagateDomains (fuel : nat) set (depth maxproprounds : Z)
    (fullpropagation : bool) s : Res (Solver E * bool * PropLoop) :=
  let maxproprounds := effective_maxproprounds set depth maxproprounds in
  '(s1, l) ← prop_rounds fuel fuel set depth fullpropagation maxproprounds s
               (mkPropLoop true false 0 [] false);
  Ok (SCIPnodeMarkPropagated s1, pl_cutoff l, l).

(** Lines 425-440. *)
Definition SCIPpropagateDomains (fuel : nat) set (depth maxproprounds : Z) s
    : Res (Solver E * bool * PropLoop) :=
  '(s1, cutoff, l) ← propagateDomains fuel set depth maxproprounds true s;
  Ok (SCIPconflictFlushConss s1, cutoff, l).

(** *** Readings of the logs *)

Definition is_result (x : SCIP_RESULT) (result : SCIP_RESULT) : bool :=
  bool_decide (result = x).

(** A result occurs in the log as its last entry at most. *)
Definition only_last (x : SCIP_RESULT) (results : list SCIP_RESULT) : Prop :=
  forall pre post, results = pre ++ x :: post -> post = [].

Definition ordinary_rounds (trace : list PropRound) : Z :=
  Z.of_nat (length (filter (fun r => pr_onlydelayed r = false) trace)).

Definition found_reduction (r : PropRound) : bool :=
  existsb (is_result SCIP_REDUCEDDOM) (pr_results r).
Definition found_cutoff (r : PropRound) : bool :=
  existsb (is_result SCIP_CUTOFF) (pr_results r).

(** What the loops of a round keep, with [cutoff0] the value of [cutoff] on
    entry of [propagationRound] and [returned] telling that the function
    returned from inside a loop. *)
Definition round_inv (cutoff0 abort onlydelayed : bool) (v : RoundFlags)
    (results : list SCIP_RESULT) (returned : bool) : Prop :=
  rf_propagain v = existsb (is_result SCIP_REDUCEDDOM) results /\
  rf_cutoff v = cutoff0 || existsb (is_result SCIP_CUTOFF) results /\
  rf_delayed v = existsb (is_result SCIP_DELAYED) results
                 || (onlydelayed && existsb (is_result SCIP_REDUCEDDOM) results) /\
  returned = onlydelayed && existsb (is_result SCIP_REDUCEDDOM) results /\
  (onlydelayed = true -> only_last SCIP_REDUCEDDOM results) /\
  (abort = true -> if cutoff0 then results = [] else only_last SCIP_CUTOFF results).

Definition found_delay (r : PropRound) : bool :=
  existsb (is_result SCIP_DELAYED) (pr_results r).

(** The value of [delayed] after a round. *)
Definition round_delayed (r : PropRound) : bool :=
  found_delay r || (pr_onlydelayed r && found_reduction r).

(** What the loop of [propagateDomains] keeps at its head: [propround]
    counts the ordinary rounds, [propagain] and [cutoff] are those of the
    last round, and a round that left [delayed] set without a cutoff is
    followed by another one. *)
Definition rounds_inv (maxproprounds : Z) (l : PropLoop) : Prop :=
  pl_propround l = ordinary_rounds (pl_trace l) /\
  match last (pl_trace l) with
  | None => pl_propagain l = true /\ pl_cutoff l = false
  | Some r =>
      pl_propagain l = found_reduction r /\ pl_cutoff l = found_cutoff r /\
      pl_propround l <= maxproprounds /\
      (round_delayed r = true ->
       pl_cutoff l = true \/ (pl_propagain l = true /\ pl_propround l < maxproprounds))
  end.

End Rounds.

End Propagate.

(** ** Further runs of the small executable world *)

Module RunMore.
Import Solve.

(** A focus node with lower bound -5 under a cutoff bound of -1; the pseudo
    objective value of the world is 0. *)
Definition low_node : Solver nat :=
  mkSolver Run.stat0 (mkTree (mkNode (-5)%Q 1 false) true INT_MAX 0) Run.lp0 Run.prob0
    (-1)%Q 0%nat 0 0%nat.
Definition bounding_out : Solver nat * bool :=
  Eval vm_compute in applyBounding (ops := Run.calm) (Run.settings [] []) false low_node.

(** A relaxator that reports a reduced domain and a bound of 3. *)
Definition tightening : Relax nat :=
  mkRelax 10 (fun _ => true) (fun s => s) (fun _ s => (s, (3%Q, SCIP_REDUCEDDOM))).
Definition relax_settings (rs : list (Relax nat)) : SCIP_SET nat :=
  mkSet [] [] [] rs [] Run.infinity false (-1) 1 100 2000 1%Q (-1) 5 (-1) 1 1 5 100 2000 0
    (-1) (1 # 4)%Q (9 # 10)%Q 1%Q (1 # 10)%Q.
Definition relax_flags0 : LoopFlags := mkFlags false false false true.
Definition relax_run :=
  solveNodeRelax (relax_settings [tightening]) 1 true Run.solver0 relax_flags0.
Definition relax_out : Solver nat * LoopFlags :=
  Eval vm_compute in Run.value (Run.solver0, relax_flags0) relax_run.

(** The price-and-cut loop with a separator that finds the cutoff. *)
Definition axe : Sepa nat := mkSepa 10 (fun _ => false) (fun _ _ _ s => (s, SCIP_CUTOFF)).
Definition axe_run :=
  priceAndCutLoop (ops := Run.flat) 10 (Run.sepa_settings [axe] 1) false Run.solver0 false.
Definition axe_out : Solver nat * CutLoopVars * bool * list SepaRoundEvent :=
  Eval vm_compute in Run.value (Run.solver0, Run.cut0, false, []) axe_run.

(** A separation round for a node that is cut off already. *)
Definition sepa0 : SepaVars := mkSepaVars false false false false false false false.
Definition cutoff_round :=
  separationRoundLP (ops := Run.calm) 5 (Run.sepa_settings [Run.cutter] 1) 1 1%Q false
    Run.solver0 true true false.
Definition cutoff_round_out : Solver nat * SepaVars :=
  Eval vm_compute in Run.value (Run.solver0, sepa0) cutoff_round.

End RunMore.

(** ** Runs of the domain propagation *)

Module PropagateRun.
Import Solve Propagate.

(** A propagator that reduces a domain in its first two calls, counted in
    the private data, a constraint handler that asks to be delayed in the
    ordinary rounds, and a propagator of negative priority that finds the
    cutoff. *)
Definition shrinking : SCIP_PROP nat :=
  mkProp 10 (fun _ => false)
    (fun _ _ s => if (ext s <? 2)%nat then (set_ext (S (ext s)) s, SCIP_REDUCEDDOM)
                  else (s, SCIP_DIDNOTFIND)).
Definition waiting : SCIP_CONSHDLR nat :=
  mkPropConshdlr (fun _ => true)
    (fun _ _ onlydelayed s => (s, if onlydelayed then SCIP_DIDNOTFIND else SCIP_DELAYED)).
Definition closing : SCIP_PROP nat :=
  mkProp (-5) (fun _ => false) (fun _ _ s => (s, SCIP_CUTOFF)).

Definition round_set : PROP_SET nat :=
  mkPropSet [closing; shrinking] [waiting] true 100 100 SCIP_STAGE_SOLVING.
Definition round_out : Solver nat * RoundFlags * list SCIP_RESULT :=
  Eval vm_compute in propagationRound round_set 1 true false Run.solver0 false.

Definition SCIPnodeMarkPropagated (s : Solver nat) : Solver nat := s.
Definition loop_set : PROP_SET nat :=
  mkPropSet [shrinking] [waiting] true 100 100 SCIP_STAGE_SOLVING.
Definition loop0 : PropLoop := mkPropLoop true false 0 [] false.
Definition loop_run :=
  propagateDomains (ops := Run.calm) SCIPnodeMarkPropagated 10 loop_set 1 0 false Run.solver0.
Definition loop_out : Solver nat * bool * PropLoop :=
  Eval vm_compute in Run.value (Run.solver0, false, loop0) loop_run.
Definition public_run :=
  SCIPpropagateDomains (ops := Run.calm) SCIPnodeMarkPropagated 10 loop_set 1 0 Run.solver0.
Definition public_out : Solver nat * bool * PropLoop :=
  Eval vm_compute in Run.value (Run.solver0, false, loop0) public_run.

End PropagateRun.

(** ** A later call of the stop monitor *)

Module StopRunMore.
Import Stop.



End StopRunMore.

(** * Estimate of the focus node ([updateEstimate], solve.c 612-656) *)

Module Estimate.
Import Solve.

Section UpdateEstimate.
Context {E : Type}.

(** The variables, and the callees: [SCIPbranchcandGetLPCands] of
    scip/branch.c with its output arrays [lpcands] and [lpcandsfrac], the
    fractional variables with their fractionalities; [SCIPvarGetPseudocost]
    of scip/var.c, which reads the statistics in [stat]: the pseudo cost of
    a variable for a change of its solution value; [SCIPnodeSetEstimate] of
    scip/tree.c on the focus node. *)
Variable VAR : Type.
Variable SCIPbranchcandGetLPCands : Solver E -> Solver E * list (VAR * SCIP_Real).
Variable SCIPvarGetPseudocost : Solver E -> VAR -> SCIP_Real -> SCIP_Real.
Variable SCIPnodeSetEstimate : SCIP_Real -> Solver E -> Solver E.
Implicit Types (s : Solver E).

(** The summand of a candidate (lines 644-646). *)
Definition estimate_gain s (c : VAR * SCIP_Real) : SCIP_Real :=
  let pscdown := SCIPvarGetPseudocost s c.1 (0 - c.2)%Q in
  let pscup := SCIPvarGetPseudocost s c.1 (1 - c.2)%Q in
  MIN pscdown pscup.

(** Lines 639-647: the estimate for the candidates [lpcands], computed in
    the state [s] that [SCIPbranchcandGetLPCands] leaves. *)
Definition new_estimate s (lpcands : list (VAR * SCIP_Real)) : SCIP_Real :=
  foldl (fun (estimate : SCIP_Real) c => (estimate + estimate_gain s c)%Q)
    (SCIPnodeGetLowerbound s) lpcands.

Definition updateEstimate s : Solver E :=
  if negb (solstat_is SCIP_LPSOLSTAT_OPTIMAL s) || negb (SCIPlpIsRelax s)
  then s
  else
    let '(s1, lpcands) := SCIPbranchcandGetLPCands s in
    SCIPnodeSetEstimate (new_estimate s1 lpcands) s1.

(** The pseudo costs that the estimate reads are not negative. *)
Definition pseudocosts_nonnegative s (lpcands : list (VAR * SCIP_Real)) : Prop :=
  Forall (fun c : VAR * SCIP_Real =>
            (0 <= SCIPvarGetPseudocost s c.1 (0 - c.2))%Q
            /\ (0 <= SCIPvarGetPseudocost s c.1 (1 - c.2))%Q) lpcands.

(** The cost of rounding every candidate down. *)
Definition rounding_down_cost s (lpcands : list (VAR * SCIP_Real)) : SCIP_Real :=
  foldl (fun (sum : SCIP_Real) (c : VAR * SCIP_Real) =>
           (sum + SCIPvarGetPseudocost s c.1 (0 - c.2))%Q) 0%Q lpcands.

End UpdateEstimate.

End Estimate.

Module EstimateRun.
Import Solve Estimate.

(** The private data of this world is the estimate of the focus node.  Two
    variables are fractional, named by numbers; the pseudo cost of a
    variable is its number per unit of change.  The focus node has the
    lower bound 10 and an optimal LP that is a relaxation. *)
Definition pseudocost (s : Solver SCIP_Real) (var : Z) (solvaldelta : SCIP_Real) : SCIP_Real :=
  (inject_Z var * Qabs solvaldelta)%Q.
Definition GetLPCands (s : Solver SCIP_Real) : Solver SCIP_Real * list (Z * SCIP_Real) :=
  (s, [(2, (1 # 4)%Q); (4, (1 # 2)%Q)]).
Definition SetEstimate (newestimate : SCIP_Real) (s : Solver SCIP_Real) : Solver SCIP_Real :=
  set_ext newestimate s.
Definition state0 : Solver SCIP_Real :=
  mkSolver Run.stat0 (mkTree (mkNode 10%Q 1 false) true INT_MAX 0) Run.lp0 Run.prob0
    Run.infinity 0%nat 0 0%Q.
Definition state1 : Solver SCIP_Real :=
  Eval vm_compute in updateEstimate Z GetLPCands pseudocost SetEstimate state0.

End EstimateRun.

(** * Separation of a primal solution ([separationRoundSol],
      [SCIPseparationRound]; solve.c 1086-1275) *)

Module SeparateSol.
Import Solve.

Section Sol.
Context {E : Type} {ops : Collaborators E}.

(** The solutions, and the callbacks of the separators and constraint
    handlers for a solution (scip/sepa.c, scip/cons.c); the execution calls
    take the solution, the depth and [onlydelayed]. *)
Variable SOL : Type.
Variable SCIPsepaWasSolDelayed : Sepa E -> Solver E -> bool.
Variable SCIPsepaExecSol : Sepa E -> SOL -> Z -> bool -> Solver E -> Solver E * SCIP_RESULT.
Variable SCIPconshdlrWasSolSeparationDelayed : Conshdlr E -> Solver E -> bool.
Variable SCIPconshdlrSeparateSol :
  Conshdlr E -> SOL -> Z -> bool -> Solver E -> Solver E * SCIP_RESULT.
Implicit Types (s : Solver E) (set : SCIP_SET E).

(** The output flags of the round and its local [consadded]. *)
Record SolVars := mkSolVars {
  so_delayed : bool;
  so_enoughcuts : bool;
  so_cutoff : bool;
  so_consadded : bool
}.

(** One of the four [for] loops of [separationRoundSol]; [stop_on_cut] is
    [onlydelayed] in the first three.  The results of the calls are logged;
    the last component tells that the function returns from inside the
    loop. *)
Fixpoint sol_loop set (root stop_on_cut : bool) (cs : list (SepaCall (E := E))) s
    (v : SolVars) (log : list SCIP_RESULT)
    : Solver E * SolVars * list SCIP_RESULT * bool :=
  match cs with
  | [] => (s, v, log, false)
  | c :: cs' =>
      if so_cutoff v || so_enoughcuts v then (s, v, log, false)
      else
        let '(s0, stopped) := SCIPsolveIsStopped false s in
        if stopped then (s0, v, log, false)
        else if sepa_skip c s0 then sol_loop set root stop_on_cut cs' s0 v log
        else
          let '(s1, result) := sepa_exec c s0 in
          let v1 := mkSolVars
                      (so_delayed v || bool_decide (result = SCIP_DELAYED))
                      (so_enoughcuts v || enough_cuts set root s1)
                      (so_cutoff v || bool_decide (result = SCIP_CUTOFF))
                      (so_consadded v || bool_decide (result = SCIP_CONSADDED)) in
          if stop_on_cut && found_cut result then
            (s1, mkSolVars true (so_enoughcuts v1) (so_cutoff v1) (so_consadded v1),
             log ++ [result], true)
          else sol_loop set root stop_on_cut cs' s1 v1 (log ++ [result])
  end.

Definition sol_sepa_calls set (nonneg : bool) (sol : SOL) (actdepth : Z) (onlydelayed : bool)
    : list SepaCall :=
  (fun sp : Sepa E =>
     mkSepaCall
       (fun s => (if nonneg then sepa_priority sp <? 0 else 0 <=? sepa_priority sp)
                 || (onlydelayed && negb (SCIPsepaWasSolDelayed sp s)))
       (SCIPsepaExecSol sp sol actdepth onlydelayed))
  <$> SCIPsetSortSepas set.

Definition sol_conshdlr_calls set (sol : SOL) (actdepth : Z) (onlydelayed check_delayed : bool)
    : list SepaCall :=
  (fun h : Conshdlr E =>
     mkSepaCall
       (fun s => check_delayed && onlydelayed
                 && negb (SCIPconshdlrWasSolSeparationDelayed h s))
       (SCIPconshdlrSeparateSol h sol actdepth onlydelayed))
  <$> conshdlrs_sepa set.

(** The [while( consadded )] loop of lines 1203-1222. *)
Fixpoint sol_consadded_loop (fuel : nat) set (root : bool) (sol : SOL) (actdepth : Z)
    (onlydelayed : bool) s (v : SolVars) (log : list SCIP_RESULT)
    : Res (Solver E * SolVars * list SCIP_RESULT) :=
  if so_consadded v then
    match fuel with
    | O => OutOfFuel
    | S fuel' =>
        let v0 := mkSolVars (so_delayed v) (so_enoughcuts v) (so_cutoff v) false in
        let '(s1, v1, log1, _) :=
          sol_loop set root false (sol_conshdlr_calls set sol actdepth onlydelayed false)
            s v0 log in
        sol_consadded_loop fuel' set root sol actdepth onlydelayed s1 v1 log1
    end
  else Ok (s, v, log).

(** Lines 1088-1228.  [cutoff] is an in/out parameter; [delayed] and
    [enoughcuts] are initialised by the function. *)
Definition separationRoundSol (fuel : nat) set (sol : SOL) (actdepth : Z)
    (onlydelayed : bool) s (cutoff0 : bool) : Res (Solver E * SolVars * list SCIP_RESULT) :=
  let root := actdepth =? 0 in
  let v := mkSolVars false false cutoff0 false in
  let '(s1, v1, log1, returned) :=
    sol_loop set root onlydelayed (sol_sepa_calls set true sol actdepth onlydelayed) s v [] in
  if returned then Ok (s1, v1, log1) else
  let '(s2, v2, log2, returned) :=
    sol_loop set root onlydelayed (sol_conshdlr_calls set sol actdepth onlydelayed true)
      s1 v1 log1 in
  if returned then Ok (s2, v2, log2) else
  let '(s3, v3, log3, returned) :=
    sol_loop set root onlydelayed (sol_sepa_calls set false sol actdepth onlydelayed)
      s2 v2 log2 in
  if returned then Ok (s3, v3, log3) else
  sol_consadded_loop fuel set root sol actdepth onlydelayed s3 v3 log3.

(** Lines 1230-1275: [sol] is [None] for the LP solution.  The result is the
    state, [delayed], [cutoff] and, for a primal solution, the log of the
    results of the calls. *)
Definition SCIPseparationRound (fuel : nat) set (sol : option SOL) (actdepth : Z)
    (onlydelayed : bool) s : Res (Solver E * bool * bool * list SCIP_RESULT) :=
  match sol with
  | None =>
      '(s1, v) ← separationRoundLP fuel set actdepth 0%Q onlydelayed s false false false;
      Ok (s1, sr_delayed v, sr_cutoff v, [])
  | Some sol =>
      '(s1, v, log) ← separationRoundSol fuel set sol actdepth onlydelayed s false;
      Ok (s1, so_delayed v, so_cutoff v, log)
  end.

(** *** Readings of the log *)

Definition is_cutoff (result : SCIP_RESULT) : bool := bool_decide (result = SCIP_CUTOFF).
Definition is_delayed (result : SCIP_RESULT) : bool := bool_decide (result = SCIP_DELAYED).
Definition is_consadded (result : SCIP_RESULT) : bool :=
  bool_decide (result = SCIP_CONSADDED).

(** A result with the property [P] is the last entry of the log. *)
Definition last_only (P : SCIP_RESULT -> bool) (log : list SCIP_RESULT) : Prop :=
  forall pre x post, log = pre ++ x :: post -> P x = true -> post = [].

(** What the loops of the round keep, with [cutoff0] the value of [cutoff]
    on entry and [returned] telling that the function returned from inside
    a loop. *)
Definition sol_inv (cutoff0 onlydelayed : bool) (v : SolVars) (log : list SCIP_RESULT)
    (returned : bool) : Prop :=
  so_cutoff v = cutoff0 || existsb is_cutoff log /\
  so_delayed v = existsb is_delayed log || (onlydelayed && existsb found_cut log) /\
  returned = onlydelayed && existsb found_cut log /\
  (so_consadded v = true -> existsb is_consadded log = true) /\
  (onlydelayed = true -> last_only found_cut log) /\
  (if cutoff0 then log = [] else last_only is_cutoff log).

End Sol.

End SeparateSol.

Module SeparateSolRun.
Import Solve SeparateSol.

(** Solutions are named by numbers.  On a solution, a separator of
    priority below 0 finds the cutoff and the others ask to be delayed;
    the constraint handlers separate. *)
Definition WasSolDelayed (sp : Sepa nat) (s : Solver nat) : bool := false.
Definition ExecSol (sp : Sepa nat) (sol : nat) (actdepth : Z) (onlydelayed : bool)
    (s : Solver nat) : Solver nat * SCIP_RESULT :=
  (s, if sepa_priority sp <? 0 then SCIP_CUTOFF else SCIP_DELAYED).
Definition WasSolSeparationDelayed (h : Conshdlr nat) (s : Solver nat) : bool := false.
Definition SeparateSol (h : Conshdlr nat) (sol : nat) (actdepth : Z) (onlydelayed : bool)
    (s : Solver nat) : Solver nat * SCIP_RESULT :=
  (s, SCIP_SEPARATED).

Definition low : Sepa nat := mkSepa (-1) (fun _ => false) (fun _ _ _ s => (s, SCIP_DIDNOTRUN)).
Definition sol_settings : SCIP_SET nat :=
  mkSet [Run.answering SCIP_FEASIBLE] [] [low; Run.cutter] [] [] Run.infinity false (-1) 1
    100 2000 1%Q (-1) 5 (-1) 1 1 5 100 2000 0 (-1) (1 # 4)%Q (9 # 10)%Q 1%Q (1 # 10)%Q.

Definition sol_run :=
  SCIPseparationRound (ops := Run.calm) nat WasSolDelayed ExecSol WasSolSeparationDelayed
    SeparateSol 5 sol_settings (Some 7%nat) 1 false Run.solver0.
Definition sol_out : Solver nat * bool * bool * list SCIP_RESULT :=
  Eval vm_compute in Run.value (Run.solver0, false, false, []) sol_run.

End SeparateSolRun.

(** * Primal heuristics ([SCIPprimalHeuristics], solve.c 120-236) *)

Module Heuristics.

(** The node types that solve.c names. *)
Inductive SCIP_NODETYPE :=
| SCIP_NODETYPE_FOCUSNODE | SCIP_NODETYPE_PROBINGNODE | SCIP_NODETYPE_SIBLING
| SCIP_NODETYPE_CHILD | SCIP_NODETYPE_LEAF | SCIP_NODETYPE_REFOCUSNODE.

#[global] Instance SCIP_NODETYPE_eq_dec : EqDecision SCIP_NODETYPE.
Proof. solve_decision. Defined.

Section Heur.

(** The state behind [set], [stat], [primal], [tree] and [lp], with what the
    function reads of it, and the heuristics with [SCIPheurExec], which
    takes the depth, the depth of the LP state fork, the timing and
    [ndelayedheurs] and yields the new [ndelayedheurs] and a result. *)
Variable W : Type.
Variable HEUR : Type.
Variable resolvelperror : W -> bool.
Variable nbestsolsfound : W -> Z.
Variable SCIPtreeHasFocusNodeLP : W -> bool.
Variable SCIPtreeGetCurrentDepth : W -> Z.
Variable SCIPtreeGetFocusDepth : W -> Z.
(** [SCIPnodeGetDepth(tree->focuslpstatefork)], if there is such a fork. *)
Variable focuslpstatefork_depth : W -> option Z.
Variable SCIPheurExec : HEUR -> Z -> Z -> Z -> Z -> W -> W * Z * SCIP_RESULT.
(** [SCIPsetSortHeurs] of scip/set.c, as the order it leaves in
    [set->heurs]. *)
Variable SCIPsetSortHeurs : list HEUR -> list HEUR.

(** The bit flags of [SCIP_HEURTIMING] (scip/type_timing.h), an
    [unsigned int]. *)
Variables
  SCIP_HEURTIMING_BEFOREPRESOL SCIP_HEURTIMING_DURINGPRESOLLOOP
  SCIP_HEURTIMING_AFTERNODE
  SCIP_HEURTIMING_AFTERLPNODE SCIP_HEURTIMING_AFTERPSEUDONODE
  SCIP_HEURTIMING_AFTERLPPLUNGE SCIP_HEURTIMING_AFTERPSEUDOPLUNGE : Z.

(** Lines 159-187.  On a timing below 2^32, [Z.land t (Z.lnot m)] is the
    [t & ~m] of [unsigned int]. *)
Definition specialize_timing (w : W) (nextnode : option SCIP_NODETYPE) (heurtiming : Z) : Z :=
  if Z.land heurtiming SCIP_HEURTIMING_AFTERNODE =? SCIP_HEURTIMING_AFTERNODE then
    let heurtiming := Z.land heurtiming (Z.lnot SCIP_HEURTIMING_AFTERNODE) in
    let plunging :=
      match nextnode with
      | Some type => negb (bool_decide (type = SCIP_NODETYPE_LEAF))
      | None => false
      end in
    let pseudonode := negb (SCIPtreeHasFocusNodeLP w) in
    if plunging && (0 <? SCIPtreeGetCurrentDepth w) then
      if negb pseudonode then Z.lor heurtiming SCIP_HEURTIMING_AFTERLPNODE
      else Z.lor heurtiming SCIP_HEURTIMING_AFTERPSEUDONODE
    else
      if negb pseudonode
      then Z.lor heurtiming
             (Z.lor SCIP_HEURTIMING_AFTERLPPLUNGE SCIP_HEURTIMING_AFTERLPNODE)
      else Z.lor heurtiming
             (Z.lor SCIP_HEURTIMING_AFTERPSEUDOPLUNGE SCIP_HEURTIMING_AFTERPSEUDONODE)
  else heurtiming.

(** A call of a heuristic as the log has it. *)
Record HeurCall := mkHeurCall {
  hc_heur : HEUR;
  hc_depth : Z;
  hc_lpstateforkdepth : Z;
  hc_timing : Z;
  hc_resolvelperror : bool
}.

(** The loop of lines 207-222; [lp] tells that the LP data is given.  The
    log has the heuristics called with their arguments and the value of
    [lp->resolvelperror] before the call. *)
Fixpoint heur_loop (lp : bool) (depth lpstateforkdepth heurtiming : Z) (hs : list HEUR)
    (w : W) (ndelayedheurs : Z) (log : list HeurCall) : W * Z * list HeurCall :=
  match hs with
  | [] => (w, ndelayedheurs, log)
  | h :: hs' =>
      if lp && resolvelperror w then (w, ndelayedheurs, log)
      else
        let '(w1, ndelayedheurs1, _) :=
          SCIPheurExec h depth lpstateforkdepth heurtiming ndelayedheurs w in
        heur_loop lp depth lpstateforkdepth heurtiming hs' w1 ndelayedheurs1
          (log ++ [mkHeurCall h depth lpstateforkdepth heurtiming (resolvelperror w)])
  end.

(** Lines 121-236: [lp] tells whether the LP data is given, [nextnode] is
    the type of the next node, if there is one.  The result is the state,
    [foundsol] and the log of the calls. *)
Definition SCIPprimalHeuristics (heurs : list HEUR) (lp : bool)
    (nextnode : option SCIP_NODETYPE) (heurtiming : Z) (w : W)
    : W * bool * list HeurCall :=
  if (Z.of_nat (length heurs) =? 0)
     || ((heurtiming =? SCIP_HEURTIMING_AFTERNODE) && bool_decide (nextnode = None))
  then (w, false, [])
  else
    let hs := SCIPsetSortHeurs heurs in
    let heurtiming := specialize_timing w nextnode heurtiming in
    let '(depth, lpstateforkdepth) :=
      if (heurtiming =? SCIP_HEURTIMING_BEFOREPRESOL)
         || (heurtiming =? SCIP_HEURTIMING_DURINGPRESOLLOOP)
      then (-1, -1)
      else (SCIPtreeGetFocusDepth w, default (-1) (focuslpstatefork_depth w)) in
    let oldnbestsolsfound := nbestsolsfound w in
    let '(w1, _, log) := heur_loop lp depth lpstateforkdepth heurtiming hs w 0 [] in
    (w1, oldnbestsolsfound <? nbestsolsfound w1, log).

(** *** Readings *)

(** The relations between the flags that the specialisation of the timing
    relies on: [AFTERNODE] is the union of its two flavours, and the flavours
    and the plunge flags are pairwise disjoint. *)
Record timing_flags : Prop := {
  afternode_flavours :
    SCIP_HEURTIMING_AFTERNODE
    = Z.lor SCIP_HEURTIMING_AFTERLPNODE SCIP_HEURTIMING_AFTERPSEUDONODE;
  lpnode_pseudonode : Z.land SCIP_HEURTIMING_AFTERLPNODE SCIP_HEURTIMING_AFTERPSEUDONODE = 0;
  lpnode_lpplunge : Z.land SCIP_HEURTIMING_AFTERLPNODE SCIP_HEURTIMING_AFTERLPPLUNGE = 0;
  lpnode_pseudoplunge :
    Z.land SCIP_HEURTIMING_AFTERLPNODE SCIP_HEURTIMING_AFTERPSEUDOPLUNGE = 0;
  pseudonode_lpplunge :
    Z.land SCIP_HEURTIMING_AFTERPSEUDONODE SCIP_HEURTIMING_AFTERLPPLUNGE = 0;
  pseudonode_pseudoplunge :
    Z.land SCIP_HEURTIMING_AFTERPSEUDONODE SCIP_HEURTIMING_AFTERPSEUDOPLUNGE = 0;
  lpplunge_pseudoplunge :
    Z.land SCIP_HEURTIMING_AFTERLPPLUNGE SCIP_HEURTIMING_AFTERPSEUDOPLUNGE = 0
}.

(** The next node continues a plunge below the root. *)
Definition plunging_below_root (w : W) (nextnode : option SCIP_NODETYPE) : bool :=
  match nextnode with
  | Some type => negb (bool_decide (type = SCIP_NODETYPE_LEAF))
  | None => false
  end && (0 <? SCIPtreeGetCurrentDepth w).

End Heur.

End Heuristics.

Module HeuristicsRun.
Import Heuristics.

(** The state is [lp->resolvelperror] and [primal->nbestsolsfound];
    heuristics are named by numbers and stay in the order given.
    Heuristic 2 dives: it finds a best solution and leaves
    [lp->resolvelperror] set.  The focus node has an LP and lies at depth 2,
    with an LP state fork at depth 1. *)
Definition World : Type := bool * Z.
Definition exec (h depth lpstateforkdepth heurtiming ndelayedheurs : Z) (w : World)
    : World * Z * SCIP_RESULT :=
  if h =? 2 then ((true, w.2 + 1), ndelayedheurs, SCIP_FOUNDSOL)
  else (w, ndelayedheurs, SCIP_DIDNOTFIND).

(** Distinct bits for the flags; [AFTERNODE] is the union of its two
    flavours. *)
Definition BEFOREPRESOL : Z := 256.
Definition DURINGPRESOLLOOP : Z := 512.
Definition AFTERLPLOOP : Z := 4.
Definition AFTERLPNODE : Z := 8.
Definition AFTERPSEUDONODE : Z := 16.
Definition AFTERLPPLUNGE : Z := 32.
Definition AFTERPSEUDOPLUNGE : Z := 64.
Definition AFTERNODE : Z := Z.lor AFTERLPNODE AFTERPSEUDONODE.

Definition primalHeuristics :=
  SCIPprimalHeuristics World Z fst snd (fun _ => true) (fun _ => 2) (fun _ => 2)
    (fun _ => Some 1) exec (fun hs => hs) BEFOREPRESOL DURINGPRESOLLOOP AFTERNODE
    AFTERLPNODE AFTERPSEUDONODE AFTERLPPLUNGE AFTERPSEUDOPLUNGE.

(** Three heuristics after the LP loop of a node whose next node is a
    child. *)
Definition dive_out : World * bool * list (HeurCall Z) :=
  Eval vm_compute in
    primalHeuristics [1; 2; 3] true (Some SCIP_NODETYPE_CHILD) (Z.lor AFTERLPLOOP AFTERNODE)
      (false, 0).

End HeuristicsRun.

(** * The initial LP of a node ([initConssLP], [initLP],
      [SCIPconstructCurrentLP], [solveNodeInitialLP]; solve.c 658-861) *)

Module InitialLP.

(** The calls that the four functions make, in the log of a run. *)
Inductive Call (VAR CONSHDLR : Type) :=
| TreeLoadLP
| PricestoreStartInitialLP
| PricestoreAddVar (var : VAR)
| PricestoreApplyVars
| PricestoreEndInitialLP
| SepastoreStartInitialLP
| ConshdlrInitLP (h : CONSHDLR)
| SepastoreApplyCuts (root : bool)
| SepastoreEndInitialLP
| TreeLoadLPState
| LpSolveAndEval
| EventFirstLPSolved
| UpdatePseudocost.
Arguments TreeLoadLP {VAR CONSHDLR}.
Arguments PricestoreStartInitialLP {VAR CONSHDLR}.
Arguments PricestoreAddVar {VAR CONSHDLR}.
Arguments PricestoreApplyVars {VAR CONSHDLR}.
Arguments PricestoreEndInitialLP {VAR CONSHDLR}.
Arguments SepastoreStartInitialLP {VAR CONSHDLR}.
Arguments ConshdlrInitLP {VAR CONSHDLR}.
Arguments SepastoreApplyCuts {VAR CONSHDLR}.
Arguments SepastoreEndInitialLP {VAR CONSHDLR}.
Arguments TreeLoadLPState {VAR CONSHDLR}.
Arguments LpSolveAndEval {VAR CONSHDLR}.
Arguments EventFirstLPSolved {VAR CONSHDLR}.
Arguments UpdatePseudocost {VAR CONSHDLR}.

Section Initial.

(** The state behind the pointers, the variables and the constraint
    handlers, and the callees of scip/tree.c, scip/pricestore.c,
    scip/sepastore.c, scip/cons.c, scip/lp.c and scip/event.c.
    [SCIPtreeLoadLP] yields [initroot], [SCIPsepastoreApplyCuts] takes
    [root] and yields [cutoff], [SCIPlpSolveAndEval] yields [lperror]. *)
Variable W : Type.
Variable VAR : Type.
Variable CONSHDLR : Type.
Variable conshdlrs : list CONSHDLR.
Variable prob_vars : W -> list VAR.
Variable SCIPvarIsInitial : VAR -> bool.
Variable SCIPtreeIsFocusNodeLPConstructed : W -> bool.
Variable SCIPtreeLoadLP : W -> W * bool.
Variable SCIPpricestoreStartInitialLP : W -> W.
Variable SCIPpricestoreAddVar : VAR -> W -> W.
Variable SCIPpricestoreApplyVars : W -> W.
Variable SCIPpricestoreEndInitialLP : W -> W.
Variable SCIPsepastoreStartInitialLP : W -> W.
Variable SCIPconshdlrInitLP : CONSHDLR -> W -> W.
Variable SCIPsepastoreApplyCuts : bool -> W -> W * bool.
Variable SCIPsepastoreEndInitialLP : W -> W.
Variable SCIPtreeLoadLPState : W -> W.
Variable SCIPlpSolveAndEval : W -> W * bool.
Variable SCIPlpGetSolstat : W -> SCIP_LPSOLSTAT.
(** The three event calls of lines 848-850. *)
Variable process_FIRSTLPSOLVED_event : W -> W.
(** [updatePseudocost] of lines 494-610, on this state. *)
Variable updatePseudocost : W -> W.

Abbreviation Log := (list (Call VAR CONSHDLR)).

(** Lines 659-694. *)
Definition initConssLP (root : bool) (w : W) : W * bool * Log :=
  let w := SCIPsepastoreStartInitialLP w in
  let w := foldl (fun w h => SCIPconshdlrInitLP h w) w conshdlrs in
  let '(w, cutoff) := SCIPsepastoreApplyCuts root w in
  let w := SCIPsepastoreEndInitialLP w in
  (w, cutoff,
   [SepastoreStartInitialLP] ++ (ConshdlrInitLP <$> conshdlrs)
   ++ [SepastoreApplyCuts root; SepastoreEndInitialLP]).

(** Lines 698-757.  The pricing store does not touch [prob->vars]: the
    variables are those of the problem when the loop starts. *)
Definition initLP (root : bool) (w : W) : W * bool * Log :=
  let '(w, log) :=
    if root then
      let w := SCIPpricestoreStartInitialLP w in
      let vars := filter (fun var => SCIPvarIsInitial var = true) (prob_vars w) in
      let w := foldl (fun w var => SCIPpricestoreAddVar var w) w vars in
      let w := SCIPpricestoreApplyVars w in
      let w := SCIPpricestoreEndInitialLP w in
      (w, [PricestoreStartInitialLP] ++ (PricestoreAddVar <$> vars)
          ++ [PricestoreApplyVars; PricestoreEndInitialLP])
    else (w, []) in
  let '(w, cutoff, log2) := initConssLP root w in
  (w, cutoff, log ++ log2).

(** Lines 761-797. *)
Definition SCIPconstructCurrentLP (w : W) : W * bool * Log :=
  if negb (SCIPtreeIsFocusNodeLPConstructed w) then
    let '(w, initroot) := SCIPtreeLoadLP w in
    let '(w, cutoff, log) := initLP initroot w in
    (w, cutoff, TreeLoadLP :: log)
  else (w, false, []).

Definition solstat_limit (w : W) : bool :=
  bool_decide (SCIPlpGetSolstat w = SCIP_LPSOLSTAT_ITERLIMIT)
  || bool_decide (SCIPlpGetSolstat w = SCIP_LPSOLSTAT_TIMELIMIT).

(** Lines 801-861.  The result is the state, [cutoff], [lperror] and the
    log of the calls. *)
Definition solveNodeInitialLP (w : W) : W * bool * bool * Log :=
  let '(w, cutoff, log) := SCIPconstructCurrentLP w in
  if cutoff then (w, cutoff, false, log)
  else
    let w := SCIPtreeLoadLPState w in
    let '(w, lperror) := SCIPlpSolveAndEval w in
    let log := log ++ [TreeLoadLPState; LpSolveAndEval] in
    if negb lperror then
      let '(w, log) :=
        if negb (solstat_limit w)
        then (process_FIRSTLPSOLVED_event w, log ++ [EventFirstLPSolved])
        else (w, log) in
      (updatePseudocost w, cutoff, lperror, log ++ [UpdatePseudocost])
    else (w, cutoff, lperror, log).

(** *** Readings of the log *)

(** The calls that build the LP. *)
Definition builds_lp (c : Call VAR CONSHDLR) : bool :=
  match c with
  | TreeLoadLPState | LpSolveAndEval | EventFirstLPSolved | UpdatePseudocost => false
  | _ => true
  end.

(** The calls that fill the pricing store with the initial columns. *)
Definition adds_columns (c : Call VAR CONSHDLR) : bool :=
  match c with
  | PricestoreStartInitialLP | PricestoreAddVar _ | PricestoreApplyVars
  | PricestoreEndInitialLP => true
  | _ => false
  end.

Definition is_solve (c : Call VAR CONSHDLR) : bool :=
  match c with LpSolveAndEval => true | _ => false end.
Definition is_pseudocost_update (c : Call VAR CONSHDLR) : bool :=
  match c with UpdatePseudocost => true | _ => false end.
Definition is_event (c : Call VAR CONSHDLR) : bool :=
  match c with EventFirstLPSolved => true | _ => false end.
Definition adds_initial_var (c : Call VAR CONSHDLR) : bool :=
  match c with PricestoreAddVar var => SCIPvarIsInitial var | _ => true end.

(** What holds of every call that builds the LP, for a given [initroot]. *)
Definition build_call (initroot : bool) (c : Call VAR CONSHDLR) : Prop :=
  builds_lp c = true /\ adds_initial_var c = true
  /\ (adds_columns c = true -> initroot = true).

End Initial.

Arguments builds_lp {VAR CONSHDLR}.
Arguments adds_columns {VAR CONSHDLR}.
Arguments is_solve {VAR CONSHDLR}.
Arguments is_pseudocost_update {VAR CONSHDLR}.
Arguments is_event {VAR CONSHDLR}.
Arguments adds_initial_var {VAR CONSHDLR}.
Arguments build_call {VAR CONSHDLR}.

End InitialLP.

Module InitialLPRun.
Import InitialLP.

(** The root node of a problem with the variables 1, 2 and 3, of which the
    odd ones are initial, and two constraint handlers; the state counts the
    calls that change it, the LP is not constructed yet and is solved to
    optimality without error. *)
Definition solveNodeInitialLP :=
  InitialLP.solveNodeInitialLP nat Z Z [1; 2] (fun _ => [1; 2; 3]) Z.odd (fun _ => false)
    (fun w => (S w, true)) S (fun _ => S) S S S (fun _ => S) (fun _ w => (S w, false)) S S
    (fun w => (S w, false)) (fun _ => SCIP_LPSOLSTAT_OPTIMAL) S S.
Definition root_out : nat * bool * bool * list (Call Z Z) :=
  Eval vm_compute in solveNodeInitialLP 0%nat.

End InitialLPRun.

(** * The functions of solve.c behind the collaborators

    The node engine calls [SCIPsolveIsStopped], [SCIPprimalHeuristics],
    [propagateDomains], [updateEstimate], [initConssLP] and
    [solveNodeInitialLP] as collaborators.  Here the six are put on the
    solver state of the engine, over their own callees, and
    [solve_c_drivers] says of a set of collaborators that these six of its
    members are the functions of solve.c. *)

Module Drivers.
Import Solve.

(** A primal heuristic with its [SCIPheurExec] callback, which takes the
    depth, the depth of the LP state fork, the timing and [ndelayedheurs]
    and yields the new [ndelayedheurs] and a result. *)
Record Heur (E : Type) := mkHeur {
  SCIPheurExec : Z -> Z -> Z -> Z -> Solver E -> Solver E * Z * SCIP_RESULT
}.
Arguments mkHeur {E}.
Arguments SCIPheurExec {E}.

(** The bit flags of [SCIP_HEURTIMING] (scip/type_timing.h). *)
Record Timing := mkTiming {
  BEFORENODE : Z;
  DURINGLPLOOP : Z;
  AFTERLPLOOP : Z;
  AFTERNODE : Z;
  DURINGPRICINGLOOP : Z;
  BEFOREPRESOL : Z;
  DURINGPRESOLLOOP : Z;
  AFTERPROPLOOP : Z;
  AFTERLPNODE : Z;
  AFTERPSEUDONODE : Z;
  AFTERLPPLUNGE : Z;
  AFTERPSEUDOPLUNGE : Z
}.

(** What the six functions use beyond the collaborators of the node engine:
    the plug-ins and settings of [set] that concern them, their callees in
    scip/tree.c, scip/pricestore.c, scip/sepastore.c, scip/cons.c,
    scip/var.c and scip/event.c, and where the data of [SCIPsolveIsStopped]
    and [updatePseudocost] lies in the solver state.  Variables are named
    by their addresses. *)
Record Surroundings (E : Type) := mkSurroundings {
  (* [SCIPsolveIsStopped]: the parts of [set] and [stat] that it reads and
     writes, the values of its callees, and the store of the parts written,
     which are not among the fields of [Solver] *)
  stop_set : Solver E -> Stop.SCIP_SET;
  stop_stat : Solver E -> Stop.SCIP_STAT;
  stop_readings : Solver E -> Stop.Readings;
  stop_store : Stop.SCIP_SET -> Stop.SCIP_STAT -> E -> E;
  (* [SCIPprimalHeuristics] *)
  heurs : list (Heur E);
  SCIPsetSortHeurs : list (Heur E) -> list (Heur E);
  nbestsolsfound : Solver E -> Z;
  SCIPtreeGetFocusDepth : Solver E -> Z;
  focuslpstatefork_depth : Solver E -> option Z;
  timing : Timing;
  (* [propagateDomains] *)
  prop_set : Propagate.PROP_SET E;
  SCIPnodeMarkPropagated : Solver E -> Solver E;
  (* [updateEstimate]: the arrays that [SCIPbranchcandGetLPCands] yields in
     the state it leaves *)
  lpcands : Solver E -> list (positive * SCIP_Real);
  SCIPvarGetPseudocost : Solver E -> positive -> SCIP_Real -> SCIP_Real;
  SCIPnodeSetEstimate : SCIP_Real -> Solver E -> Solver E;
  (* [initConssLP], [initLP], [SCIPconstructCurrentLP], [solveNodeInitialLP] *)
  conshdlrs : list (Conshdlr E);
  SCIPconshdlrInitLP : Conshdlr E -> Solver E -> Solver E;
  prob_vars : Solver E -> list positive;
  SCIPvarIsInitial : positive -> bool;
  SCIPtreeIsFocusNodeLPConstructed : Solver E -> bool;
  SCIPtreeLoadLP : Solver E -> Solver E * bool;
  SCIPpricestoreStartInitialLP : Solver E -> Solver E;
  SCIPpricestoreAddVar : positive -> Solver E -> Solver E;
  SCIPpricestoreEndInitialLP : Solver E -> Solver E;
  SCIPsepastoreStartInitialLP : Solver E -> Solver E;
  SCIPsepastoreEndInitialLP : Solver E -> Solver E;
  SCIPtreeLoadLPState : Solver E -> Solver E;
  process_FIRSTLPSOLVED_event : Solver E -> Solver E;
  (* [updatePseudocost]: the path, the LP and the variables that it works
     on, and the store of the variables, which are not among the fields of
     [Solver] *)
  SCIPsetIsEQ : SCIP_Real -> SCIP_Real -> bool;
  pseudocost_tree : Solver E -> Pseudocost.SCIP_TREE;
  pseudocost_lp : Solver E -> Pseudocost.SCIP_LP;
  pseudocost_vars : Solver E -> Pseudocost.Vars;
  pseudocost_store : Pseudocost.Vars -> E -> E
}.
Arguments stop_set {E}.
Arguments stop_stat {E}.
Arguments stop_readings {E}.
Arguments stop_store {E}.
Arguments heurs {E}.
Arguments SCIPsetSortHeurs {E}.
Arguments nbestsolsfound {E}.
Arguments SCIPtreeGetFocusDepth {E}.
Arguments focuslpstatefork_depth {E}.
Arguments timing {E}.
Arguments prop_set {E}.
Arguments SCIPnodeMarkPropagated {E}.
Arguments lpcands {E}.
Arguments SCIPvarGetPseudocost {E}.
Arguments SCIPnodeSetEstimate {E}.
Arguments conshdlrs {E}.
Arguments SCIPconshdlrInitLP {E}.
Arguments prob_vars {E}.
Arguments SCIPvarIsInitial {E}.
Arguments SCIPtreeIsFocusNodeLPConstructed {E}.
Arguments SCIPtreeLoadLP {E}.
Arguments SCIPpricestoreStartInitialLP {E}.
Arguments SCIPpricestoreAddVar {E}.
Arguments SCIPpricestoreEndInitialLP {E}.
Arguments SCIPsepastoreStartInitialLP {E}.
Arguments SCIPsepastoreEndInitialLP {E}.
Arguments SCIPtreeLoadLPState {E}.
Arguments process_FIRSTLPSOLVED_event {E}.
Arguments SCIPsetIsEQ {E}.
Arguments pseudocost_tree {E}.
Arguments pseudocost_lp {E}.
Arguments pseudocost_vars {E}.
Arguments pseudocost_store {E}.

Section Functions.
Context {E : Type} {ops : Collaborators E}.
Variable env : Surroundings E.
Implicit Types (s : Solver E) (set : SCIP_SET E).

(** [SCIPsolveIsStopped] (lines 64-118) writes [set->limitchanged],
    [stat->status] and [stat->userinterrupt] and nothing else. *)
Definition SCIPsolveIsStopped (checknodelimits : bool) s : Solver E * bool :=
  let '(answer, set1, stat1) :=
    Stop.SCIPsolveIsStopped Solve.SCIPsetIsLE Solve.SCIPsetIsLT
      (stop_set env s) (stop_stat env s) (stop_readings env s) checknodelimits in
  (set_ext (stop_store env set1 stat1 (ext s)) s, answer).

(** The timings that the node engine passes (lines 1356, 1644, 2588, 2671,
    2793 and 2799). *)
Definition heurtiming_bits (t : SCIP_HEURTIMING) : Z :=
  match t with
  | SCIP_HEURTIMING_BEFORENODE => BEFORENODE (timing env)
  | SCIP_HEURTIMING_DURINGLPLOOP => DURINGLPLOOP (timing env)
  | SCIP_HEURTIMING_AFTERLPLOOP => AFTERLPLOOP (timing env)
  | SCIP_HEURTIMING_AFTERLPLOOP_AFTERNODE =>
      Z.lor (AFTERLPLOOP (timing env)) (AFTERNODE (timing env))
  | SCIP_HEURTIMING_DURINGPRICINGLOOP => DURINGPRICINGLOOP (timing env)
  | SCIP_HEURTIMING_AFTERPROPLOOP => AFTERPROPLOOP (timing env)
  end.

(** The call after the propagation loop passes no LP (line 2671). *)
Definition heur_with_lp (t : SCIP_HEURTIMING) : bool :=
  match t with
  | SCIP_HEURTIMING_AFTERPROPLOOP => false
  | _ => true
  end.

(** [SCIPprimalHeuristics] (lines 121-236) as the node engine calls it,
    with [nextnode == NULL]. *)
Definition SCIPprimalHeuristics (t : SCIP_HEURTIMING) s : Solver E * bool :=
  let '(s1, foundsol, _) :=
    Heuristics.SCIPprimalHeuristics (Solver E) (Heur E)
      (fun s => resolvelperror (lp s)) (nbestsolsfound env) SCIPtreeHasFocusNodeLP
      Solve.SCIPtreeGetCurrentDepth (SCIPtreeGetFocusDepth env) (focuslpstatefork_depth env)
      SCIPheurExec (SCIPsetSortHeurs env)
      (BEFOREPRESOL (timing env)) (DURINGPRESOLLOOP (timing env)) (AFTERNODE (timing env))
      (AFTERLPNODE (timing env)) (AFTERPSEUDONODE (timing env))
      (AFTERLPPLUNGE (timing env)) (AFTERPSEUDOPLUNGE (timing env))
      (heurs env) (heur_with_lp t) None (heurtiming_bits t) s in
  (s1, foundsol).

(** [updateEstimate] (lines 614-656). *)
Definition updateEstimate s : Solver E :=
  Estimate.updateEstimate positive
    (fun s => let '(s1, _) := Solve.SCIPbranchcandGetLPCands s in (s1, lpcands env s1))
    (SCIPvarGetPseudocost env) (SCIPnodeSetEstimate env) s.

(** [updatePseudocost] (lines 494-610) writes the variables and nothing
    else. *)
Definition updatePseudocost s : Solver E :=
  set_ext
    (pseudocost_store env
       (Pseudocost.updatePseudocost Solve.SCIPsetIsLT Solve.SCIPsetIsGT (SCIPsetIsEQ env)
          (pseudocost_tree env s) (pseudocost_lp env s) (pseudocost_vars env s))
       (ext s))
    s.

(** [initConssLP] (lines 659-694). *)
Definition initConssLP (root : bool) s : Solver E * bool :=
  let '(s1, cutoff, _) :=
    InitialLP.initConssLP (Solver E) positive (Conshdlr E) (conshdlrs env)
      (SCIPsepastoreStartInitialLP env) (SCIPconshdlrInitLP env)
      Solve.SCIPsepastoreApplyCuts (SCIPsepastoreEndInitialLP env) root s in
  (s1, cutoff).

(** [solveNodeInitialLP] (lines 801-861) with [SCIPconstructCurrentLP],
    [initLP] and [initConssLP]; the LP is solved with [fastmip] and without
    [fromscratch] (line 836). *)
Definition solveNodeInitialLP s : Solver E * (bool * bool) :=
  let '(s1, cutoff, lperror, _) :=
    InitialLP.solveNodeInitialLP (Solver E) positive (Conshdlr E) (conshdlrs env)
      (prob_vars env) (SCIPvarIsInitial env) (SCIPtreeIsFocusNodeLPConstructed env)
      (SCIPtreeLoadLP env) (SCIPpricestoreStartInitialLP env) (SCIPpricestoreAddVar env)
      Solve.SCIPpricestoreApplyVars (SCIPpricestoreEndInitialLP env)
      (SCIPsepastoreStartInitialLP env) (SCIPconshdlrInitLP env)
      Solve.SCIPsepastoreApplyCuts (SCIPsepastoreEndInitialLP env)
      (SCIPtreeLoadLPState env) (Solve.SCIPlpSolveAndEval true false) SCIPlpGetSolstat
      (process_FIRSTLPSOLVED_event env) updatePseudocost s in
  (s1, (cutoff, lperror)).

(** [SCIPconstructCurrentLP] (lines 761-797) with [initLP] and
    [initConssLP], as [solveNodeInitialLP] calls it. *)
Definition SCIPconstructCurrentLP s : Solver E * bool :=
  let '(s1, cutoff, _) :=
    InitialLP.SCIPconstructCurrentLP (Solver E) positive (Conshdlr E) (conshdlrs env)
      (prob_vars env) (SCIPvarIsInitial env) (SCIPtreeIsFocusNodeLPConstructed env)
      (SCIPtreeLoadLP env) (SCIPpricestoreStartInitialLP env) (SCIPpricestoreAddVar env)
      Solve.SCIPpricestoreApplyVars (SCIPpricestoreEndInitialLP env)
      (SCIPsepastoreStartInitialLP env) (SCIPconshdlrInitLP env)
      Solve.SCIPsepastoreApplyCuts (SCIPsepastoreEndInitialLP env) s in
  (s1, cutoff).

(** The six collaborators are the functions of solve.c.  The loops of
    [propagateDomains] go on as long as the plug-ins make them: the
    collaborator gives what the function returns. *)
Record solve_c_drivers : Prop := {
  is_SCIPsolveIsStopped :
    forall c s, Solve.SCIPsolveIsStopped c s = SCIPsolveIsStopped c s;
  is_SCIPprimalHeuristics :
    forall t s, Solve.SCIPprimalHeuristics t s = SCIPprimalHeuristics t s;
  is_propagateDomains :
    forall d m f s, exists fuel l,
      Propagate.propagateDomains (SCIPnodeMarkPropagated env) fuel (prop_set env) d m f s
      = Ok ((Solve.propagateDomains d m f s).1, (Solve.propagateDomains d m f s).2, l);
  is_updateEstimate : forall s, Solve.updateEstimate s = updateEstimate s;
  is_initConssLP : forall r s, Solve.initConssLP r s = initConssLP r s;
  is_solveNodeInitialLP : forall s, Solve.solveNodeInitialLP s = solveNodeInitialLP s
}.

(** *** The separation store

    Clearing or applying the cuts empties the store, and the callees that
    solve.c does not follow by one of the two leave an empty store empty.
    Separators, the cut pool, constraint handlers (also in
    [SCIPconshdlrInitLP]), relaxators and branching rules may fill the
    store: solve.c applies or clears the cuts after them.  This is said of
    the functions of other compilation units and of the callbacks of the
    plug-ins only. *)
Definition heur_keeps_empty (h : Heur E) : Prop :=
  forall d l t n s,
    SCIPsepastoreGetNCuts s = 0%nat ->
    SCIPsepastoreGetNCuts (SCIPheurExec h d l t n s).1.1 = 0%nat.

Record sepastore_discipline set : Prop := {
  cuts_cleared : forall s, SCIPsepastoreGetNCuts (SCIPsepastoreClearCuts s) = 0%nat;
  cuts_applied : forall r s, SCIPsepastoreGetNCuts (SCIPsepastoreApplyCuts r s).1 = 0%nat;
  empty_SCIPrelaxationSetSolValid : forall b, keeps_empty_ (SCIPrelaxationSetSolValid b);
  empty_SCIPbranchcandClearExternCands : keeps_empty_ SCIPbranchcandClearExternCands;
  empty_SCIPconflictAnalyzePseudo : keeps_empty_ SCIPconflictAnalyzePseudo;
  empty_SCIPconflictAnalyzeLP : keeps_empty_ SCIPconflictAnalyzeLP;
  empty_SCIPconflictFlushConss : keeps_empty_ SCIPconflictFlushConss;
  empty_try_current_solution : keeps_empty try_current_solution;
  empty_try_LP_solution : forall b, keeps_empty (try_LP_solution b);
  empty_SCIPprobStoreRootSol : forall b, keeps_empty_ (SCIPprobStoreRootSol b);
  empty_SCIPlpSolveAndEval : forall a b, keeps_empty (SCIPlpSolveAndEval a b);
  empty_SCIPlpFlush : keeps_empty_ SCIPlpFlush;
  empty_SCIPlpRemoveRedundantRows : keeps_empty_ SCIPlpRemoveRedundantRows;
  empty_SCIPnodeUpdateLowerboundLP : keeps_empty_ SCIPnodeUpdateLowerboundLP;
  empty_process_LPSOLVED_event : keeps_empty_ process_LPSOLVED_event;
  empty_SCIPpricestoreAddProbVars : keeps_empty_ SCIPpricestoreAddProbVars;
  empty_SCIPpricestoreApplyVars : keeps_empty_ SCIPpricestoreApplyVars;
  empty_SCIPpricestoreResetBounds : keeps_empty_ SCIPpricestoreResetBounds;
  empty_SCIPbranchcandGetLPCands : keeps_empty SCIPbranchcandGetLPCands;
  empty_SCIPpricerExec : Forall (fun p => keeps_empty (SCIPpricerExec p)) (pricers set);
  empty_SCIPrelaxMarkUnsolved :
    Forall (fun r => keeps_empty_ (SCIPrelaxMarkUnsolved r)) (relaxs set);
  empty_SCIPheurExec : Forall heur_keeps_empty (SCIPsetSortHeurs env (heurs env));
  empty_SCIPpropExec :
    Forall (fun p => forall d o, keeps_empty (Propagate.SCIPpropExec p d o))
      (Propagate.props (prop_set env));
  empty_SCIPconshdlrPropagate :
    Forall (fun h => forall d f o, keeps_empty (Propagate.SCIPconshdlrPropagate h d f o))
      (Propagate.conshdlrs (prop_set env));
  empty_SCIPnodeMarkPropagated : keeps_empty_ (SCIPnodeMarkPropagated env);
  empty_SCIPnodeSetEstimate : forall e, keeps_empty_ (SCIPnodeSetEstimate env e);
  empty_SCIPsepastoreEndInitialLP : keeps_empty_ (SCIPsepastoreEndInitialLP env);
  empty_SCIPtreeLoadLPState : keeps_empty_ (SCIPtreeLoadLPState env);
  empty_process_FIRSTLPSOLVED_event : keeps_empty_ (process_FIRSTLPSOLVED_event env)
}.

(** *** The separation round counter

    The functions of other compilation units and the callbacks of the
    plug-ins that the price-and-cut loop reaches leave [stat->nseparounds]
    as it is. *)
Record nseparounds_untouched set : Prop := {
  nsr_SCIPlpSolveAndEval : forall a b s, nsr (SCIPlpSolveAndEval a b s).1 = nsr s;
  nsr_SCIPlpFlush : forall s, nsr (SCIPlpFlush s) = nsr s;
  nsr_SCIPlpRemoveRedundantRows : forall s, nsr (SCIPlpRemoveRedundantRows s) = nsr s;
  nsr_SCIPnodeUpdateLowerboundLP : forall s, nsr (SCIPnodeUpdateLowerboundLP s) = nsr s;
  nsr_SCIPsepastoreClearCuts : forall s, nsr (SCIPsepastoreClearCuts s) = nsr s;
  nsr_SCIPsepastoreApplyCuts : forall r s, nsr (SCIPsepastoreApplyCuts r s).1 = nsr s;
  nsr_SCIPpricestoreAddProbVars : forall s, nsr (SCIPpricestoreAddProbVars s) = nsr s;
  nsr_SCIPpricestoreApplyVars : forall s, nsr (SCIPpricestoreApplyVars s) = nsr s;
  nsr_SCIPpricestoreResetBounds : forall s, nsr (SCIPpricestoreResetBounds s) = nsr s;
  nsr_SCIPcutpoolSeparate : forall r s, nsr (SCIPcutpoolSeparate r s).1 = nsr s;
  nsr_SCIPbranchcandGetLPCands : forall s, nsr (SCIPbranchcandGetLPCands s).1 = nsr s;
  nsr_SCIPconflictAnalyzeLP : forall s, nsr (SCIPconflictAnalyzeLP s) = nsr s;
  nsr_process_LPSOLVED_event : forall s, nsr (process_LPSOLVED_event s) = nsr s;
  nsr_pricers :
    Forall (fun p => forall s, nsr (SCIPpricerExec p s).1 = nsr s) (pricers set);
  nsr_sepas :
    Forall (fun sp => forall d b o s, nsr (SCIPsepaExecLP sp d b o s).1 = nsr s) (sepas set);
  nsr_conshdlrs :
    Forall (fun h => forall d o s, nsr (SCIPconshdlrSeparateLP h d o s).1 = nsr s)
      (conshdlrs_sepa set);
  nsr_SCIPheurExec :
    Forall (fun h => forall d l t n s, nsr (SCIPheurExec h d l t n s).1.1 = nsr s)
      (SCIPsetSortHeurs env (heurs env));
  nsr_SCIPpropExec :
    Forall (fun p => forall d o s, nsr (Propagate.SCIPpropExec p d o s).1 = nsr s)
      (Propagate.props (prop_set env));
  nsr_SCIPconshdlrPropagate :
    Forall (fun h => forall d f o s, nsr (Propagate.SCIPconshdlrPropagate h d f o s).1 = nsr s)
      (Propagate.conshdlrs (prop_set env));
  nsr_SCIPnodeMarkPropagated : forall s, nsr (SCIPnodeMarkPropagated env s) = nsr s;
  nsr_SCIPnodeSetEstimate : forall e s, nsr (SCIPnodeSetEstimate env e s) = nsr s;
  nsr_SCIPsepastoreStartInitialLP :
    forall s, nsr (SCIPsepastoreStartInitialLP env s) = nsr s;
  nsr_SCIPconshdlrInitLP :
    Forall (fun h => forall s, nsr (SCIPconshdlrInitLP env h s) = nsr s) (conshdlrs env);
  nsr_SCIPsepastoreEndInitialLP : forall s, nsr (SCIPsepastoreEndInitialLP env s) = nsr s
}.

End Functions.

(** *** Collaborators built from the functions of solve.c

    [with_drivers base ...] has the callees of [base] and the six given
    functions. *)
Section Construction.
Context {E : Type}.
Variable env : Surroundings E.

Definition with_drivers (base : Collaborators E)
    (stopped : bool -> Solver E -> Solver E * bool)
    (heuristics : SCIP_HEURTIMING -> Solver E -> Solver E * bool)
    (propagate : Z -> Z -> bool -> Solver E -> Solver E * bool)
    (estimate : Solver E -> Solver E)
    (initconss : bool -> Solver E -> Solver E * bool)
    (initiallp : Solver E -> Solver E * (bool * bool)) : Collaborators E := {|
  Solve.SCIPsetIsLT := Solve.SCIPsetIsLT (Collaborators := base);
  Solve.SCIPsetIsLE := Solve.SCIPsetIsLE (Collaborators := base);
  Solve.SCIPsetIsGT := Solve.SCIPsetIsGT (Collaborators := base);
  Solve.SCIPsetIsGE := Solve.SCIPsetIsGE (Collaborators := base);
  Solve.SCIPrelDiff := Solve.SCIPrelDiff (Collaborators := base);
  Solve.SCIP_REAL_MIN := Solve.SCIP_REAL_MIN (Collaborators := base);
  Solve.SCIPlpSolveAndEval := Solve.SCIPlpSolveAndEval (Collaborators := base);
  Solve.SCIPlpFlush := Solve.SCIPlpFlush (Collaborators := base);
  Solve.SCIPlpRemoveRedundantRows := Solve.SCIPlpRemoveRedundantRows (Collaborators := base);
  Solve.SCIPlpGetObjval := Solve.SCIPlpGetObjval (Collaborators := base);
  Solve.SCIPlpGetPseudoObjval := Solve.SCIPlpGetPseudoObjval (Collaborators := base);
  Solve.SCIPlpiInfinity := Solve.SCIPlpiInfinity (Collaborators := base);
  Solve.SCIPtreeGetLowerbound := Solve.SCIPtreeGetLowerbound (Collaborators := base);
  Solve.SCIPtreeGetNNodes := Solve.SCIPtreeGetNNodes (Collaborators := base);
  Solve.SCIPtreeGetCurrentDepth := Solve.SCIPtreeGetCurrentDepth (Collaborators := base);
  Solve.SCIPtreeProbing := Solve.SCIPtreeProbing (Collaborators := base);
  Solve.SCIPnodeUpdateLowerboundLP := Solve.SCIPnodeUpdateLowerboundLP (Collaborators := base);
  Solve.SCIPnodeCreateChild := Solve.SCIPnodeCreateChild (Collaborators := base);
  Solve.SCIPsepastoreClearCuts := Solve.SCIPsepastoreClearCuts (Collaborators := base);
  Solve.SCIPsepastoreApplyCuts := Solve.SCIPsepastoreApplyCuts (Collaborators := base);
  Solve.SCIPsepastoreStartForceCuts := Solve.SCIPsepastoreStartForceCuts (Collaborators := base);
  Solve.SCIPsepastoreEndForceCuts := Solve.SCIPsepastoreEndForceCuts (Collaborators := base);
  Solve.SCIPpricestoreAddProbVars := Solve.SCIPpricestoreAddProbVars (Collaborators := base);
  Solve.SCIPpricestoreApplyVars := Solve.SCIPpricestoreApplyVars (Collaborators := base);
  Solve.SCIPpricestoreResetBounds := Solve.SCIPpricestoreResetBounds (Collaborators := base);
  Solve.SCIPcutpoolSeparate := Solve.SCIPcutpoolSeparate (Collaborators := base);
  Solve.SCIPbranchcandGetLPCands := Solve.SCIPbranchcandGetLPCands (Collaborators := base);
  Solve.SCIPbranchcandClearExternCands :=
    Solve.SCIPbranchcandClearExternCands (Collaborators := base);
  Solve.SCIPbranchcandGetNExternCands :=
    Solve.SCIPbranchcandGetNExternCands (Collaborators := base);
  Solve.SCIPbranchcandGetNPseudoCands :=
    Solve.SCIPbranchcandGetNPseudoCands (Collaborators := base);
  Solve.SCIPbranchExecLP := Solve.SCIPbranchExecLP (Collaborators := base);
  Solve.SCIPbranchExecExtern := Solve.SCIPbranchExecExtern (Collaborators := base);
  Solve.SCIPbranchExecPseudo := Solve.SCIPbranchExecPseudo (Collaborators := base);
  Solve.SCIPprobAllColsInLP := Solve.SCIPprobAllColsInLP (Collaborators := base);
  Solve.SCIPprobStoreRootSol := Solve.SCIPprobStoreRootSol (Collaborators := base);
  Solve.SCIPconflictAnalyzePseudo := Solve.SCIPconflictAnalyzePseudo (Collaborators := base);
  Solve.SCIPconflictAnalyzeLP := Solve.SCIPconflictAnalyzeLP (Collaborators := base);
  Solve.SCIPconflictFlushConss := Solve.SCIPconflictFlushConss (Collaborators := base);
  Solve.process_LPSOLVED_event := Solve.process_LPSOLVED_event (Collaborators := base);
  Solve.SCIPrelaxationSetSolValid := Solve.SCIPrelaxationSetSolValid (Collaborators := base);
  Solve.try_LP_solution := Solve.try_LP_solution (Collaborators := base);
  Solve.try_current_solution := Solve.try_current_solution (Collaborators := base);
  Solve.SCIPsolveIsStopped := stopped;
  Solve.SCIPprimalHeuristics := heuristics;
  Solve.propagateDomains := propagate;
  Solve.updateEstimate := estimate;
  Solve.initConssLP := initconss;
  Solve.solveNodeInitialLP := initiallp
|}.

(** The callees of [base] with [SCIPsolveIsStopped] of solve.c, which
    [propagateDomains] calls. *)
Definition with_stop (base : Collaborators E) : Collaborators E :=
  with_drivers base (SCIPsolveIsStopped (ops := base) env)
    (Solve.SCIPprimalHeuristics (Collaborators := base))
    (Solve.propagateDomains (Collaborators := base))
    (Solve.updateEstimate (Collaborators := base))
    (Solve.initConssLP (Collaborators := base))
    (Solve.solveNodeInitialLP (Collaborators := base)).

(** The callees of [base] with the six functions of solve.c.  The
    propagation is run on [fuel]; where that does not suffice the
    collaborator has no result of the function to give and leaves the state
    as it is. *)
Definition solve_c (fuel : nat) (base : Collaborators E) : Collaborators E :=
  with_drivers base (SCIPsolveIsStopped (ops := base) env)
    (SCIPprimalHeuristics (ops := base) env)
    (fun d m f s =>
       match Propagate.propagateDomains (ops := with_stop base)
               (SCIPnodeMarkPropagated env) fuel (prop_set env) d m f s with
       | Ok (s1, cutoff, _) => (s1, cutoff)
       | _ => (s, false)
       end)
    (updateEstimate (ops := base) env)
    (initConssLP (ops := base) env)
    (solveNodeInitialLP (ops := base) env).

End Construction.

End Drivers.

(** ** The small executable world with the functions of solve.c

    The surroundings of the scripted worlds: one heuristic and one
    propagator that find nothing, and one constraint handler whose
    [SCIPconshdlrInitLP] puts a cut into the separation store.  No limit is
    set and nothing interrupts, so that the stop monitor finds nothing to
    write; the focus node has no LP state fork, so that the pseudo costs
    stay as they are; the private data of the worlds, the count of the LP
    solves, is left alone. *)

Module DriversRun.
Import Solve.

Definition idle_heur : Drivers.Heur nat :=
  Drivers.mkHeur (fun _ _ _ ndelayedheurs s => (s, ndelayedheurs, SCIP_DIDNOTFIND)).
Definition idle_prop : Propagate.SCIP_PROP nat :=
  Propagate.mkProp 0 (fun _ => false) (fun _ _ s => (s, SCIP_DIDNOTFIND)).

Definition timing : Drivers.Timing := {|
  Drivers.BEFORENODE := 1;
  Drivers.DURINGLPLOOP := 2;
  Drivers.AFTERLPLOOP := 4;
  Drivers.AFTERNODE := 24;
  Drivers.DURINGPRICINGLOOP := 128;
  Drivers.BEFOREPRESOL := 256;
  Drivers.DURINGPRESOLLOOP := 512;
  Drivers.AFTERPROPLOOP := 1024;
  Drivers.AFTERLPNODE := 8;
  Drivers.AFTERPSEUDONODE := 16;
  Drivers.AFTERLPPLUNGE := 32;
  Drivers.AFTERPSEUDOPLUNGE := 64
|}.

Definition no_limits : Stop.SCIP_SET :=
  Stop.mkSet SCIP_STAGE_SOLVING false Run.infinity Run.infinity 0%Q 0%Q (-1) (-1) (-1) (-1).
Definition running : Stop.SCIP_STAT := Stop.mkStat SCIP_STATUS_UNKNOWN false 1 0.
Definition readings : Stop.Readings :=
  Stop.mkReadings false 0%Q 0 Run.infinity (- Run.infinity)%Q Run.infinity 0 0.

(** [SCIPnodeMarkPropagated] clears the mark of the focus node that asks for
    another propagation. *)
Definition mark_propagated (s : Solver nat) : Solver nat :=
  with_tree (fun t => mkTree (mkNode (node_lowerbound (focusnode t))
                                (node_depth (focusnode t)) false)
                        (focusnodehaslp t) (cutoffdepth t) (nchildren t)) s.

Definition env : Drivers.Surroundings nat := {|
  Drivers.stop_set := fun _ => no_limits;
  Drivers.stop_stat := fun _ => running;
  Drivers.stop_readings := fun _ => readings;
  Drivers.stop_store := fun _ _ e => e;
  Drivers.heurs := [idle_heur];
  Drivers.SCIPsetSortHeurs := fun hs => hs;
  Drivers.nbestsolsfound := fun _ => 0;
  Drivers.SCIPtreeGetFocusDepth := fun s => SCIPnodeGetDepth s;
  Drivers.focuslpstatefork_depth := fun _ => None;
  Drivers.timing := timing;
  Drivers.prop_set :=
    Propagate.mkPropSet [idle_prop] [] false 100 100 SCIP_STAGE_SOLVING;
  Drivers.SCIPnodeMarkPropagated := mark_propagated;
  Drivers.lpcands := fun _ => [];
  Drivers.SCIPvarGetPseudocost := fun _ _ _ => 0%Q;
  Drivers.SCIPnodeSetEstimate := fun _ s => s;
  Drivers.conshdlrs := [Run.answering SCIP_FEASIBLE];
  Drivers.SCIPconshdlrInitLP :=
    fun _ s => set_sepastore_ncuts (S (sepastore_ncuts s)) s;
  Drivers.prob_vars := fun _ => [];
  Drivers.SCIPvarIsInitial := fun _ => true;
  Drivers.SCIPtreeIsFocusNodeLPConstructed := fun _ => false;
  Drivers.SCIPtreeLoadLP := fun s => (s, false);
  Drivers.SCIPpricestoreStartInitialLP := fun s => s;
  Drivers.SCIPpricestoreAddVar := fun _ s => s;
  Drivers.SCIPpricestoreEndInitialLP := fun s => s;
  Drivers.SCIPsepastoreStartInitialLP := fun s => s;
  Drivers.SCIPsepastoreEndInitialLP := fun s => s;
  Drivers.SCIPtreeLoadLPState := fun s => s;
  Drivers.process_FIRSTLPSOLVED_event := fun s => s;
  Drivers.SCIPsetIsEQ := EPSEQ Run.eps;
  Drivers.pseudocost_tree := fun _ => Pseudocost.mkTree [] 0 None;
  Drivers.pseudocost_lp := fun _ => Pseudocost.mkLP false SCIP_LPSOLSTAT_NOTSOLVED 0%Q;
  Drivers.pseudocost_vars := fun _ => ∅;
  Drivers.pseudocost_store := fun _ e => e
|}.

(** A scripted world with the six functions of solve.c in the place of its
    own. *)
Definition linked (base : Collaborators nat) : Collaborators nat :=
  Drivers.solve_c env 2 base.

Definition sinking : Collaborators nat := linked Run.sinking.
Definition flat : Collaborators nat := linked Run.flat.
Definition infeasible_lp : Collaborators nat := linked Run.infeasible_lp.

(** The run of the price-and-cut loop with the separator that adds a cut
    per round and the delayed separator beside it. *)
Definition delayed_run :=
  priceAndCutLoop (ops := flat) 20 (Run.sepa_settings [Run.cutter; Run.late] 1) false
    Run.solver0 false.
Definition delayed_out : Solver nat * CutLoopVars * bool * list SepaRoundEvent :=
  Eval vm_compute in Run.value (Run.solver0, Run.cut0, false, []) delayed_run.

(** A node whose LP is infeasible. *)
Definition cutoff_run := solveNode (ops := infeasible_lp) 10 (Run.settings [] []) Run.solver0.
Definition cutoff_out : Solver nat * NodeVars :=
  Eval vm_compute in Run.value (Run.solver0, Run.nodevars0) cutoff_run.

(** The node LP and the node with the separator that adds a cut per round. *)
Definition cutting_lp_run :=
  solveNodeLP (ops := sinking) 10 (Run.sepa_settings [Run.cutter] 1) false Run.solver0
    Run.nodelp0.
Definition cutting_lp_out : Solver nat * NodeLPFlags :=
  Eval vm_compute in Run.value (Run.solver0, Run.nodelp0) cutting_lp_run.
Definition cutting_node_run :=
  solveNode (ops := sinking) 20 (Run.sepa_settings [Run.cutter] 1) Run.solver0.
Definition cutting_node_out : Solver nat * NodeVars :=
  Eval vm_compute in Run.value (Run.solver0, Run.nodevars0) cutting_node_run.

End DriversRun.

(** * The lower bound of the focus node

    solve.c changes the lower bound of the focus node through
    [SCIPnodeUpdateLowerbound] and [SCIPnodeUpdateLowerboundLP] only, which
    raise it; everything else is done by callees.  The discipline below
    says of every function of another compilation unit that solve.c calls
    and of every plug-in callback that it does not lower the bound. *)

Module Lowerbound.
Import Solve.

Section Discipline.
Context {E : Type} {ops : Collaborators E}.
Variable env : Drivers.Surroundings E.
Implicit Types (s : Solver E) (set : SCIP_SET E).

Definition keeps_bound {A} (f : Solver E -> Solver E * A) : Prop :=
  forall s, (SCIPnodeGetLowerbound s <= SCIPnodeGetLowerbound (f s).1)%Q.

Definition keeps_bound_ (f : Solver E -> Solver E) : Prop :=
  keeps_bound (fun s => (f s, tt)).

(** The lower bound in [s] is [b] at least. *)
Definition above (b : SCIP_Real) s : Prop := (b <= SCIPnodeGetLowerbound s)%Q.

Record lowerbound_discipline set : Prop := {
  lb_SCIPlpSolveAndEval : forall a b, keeps_bound (SCIPlpSolveAndEval a b);
  lb_SCIPlpFlush : keeps_bound_ SCIPlpFlush;
  lb_SCIPlpRemoveRedundantRows : keeps_bound_ SCIPlpRemoveRedundantRows;
  lb_SCIPnodeUpdateLowerboundLP : keeps_bound_ SCIPnodeUpdateLowerboundLP;
  lb_SCIPnodeCreateChild : keeps_bound_ SCIPnodeCreateChild;
  lb_SCIPsepastoreClearCuts : keeps_bound_ SCIPsepastoreClearCuts;
  lb_SCIPsepastoreApplyCuts : forall r, keeps_bound (SCIPsepastoreApplyCuts r);
  lb_SCIPsepastoreStartForceCuts : keeps_bound_ SCIPsepastoreStartForceCuts;
  lb_SCIPsepastoreEndForceCuts : keeps_bound_ SCIPsepastoreEndForceCuts;
  lb_SCIPpricestoreAddProbVars : keeps_bound_ SCIPpricestoreAddProbVars;
  lb_SCIPpricestoreApplyVars : keeps_bound_ SCIPpricestoreApplyVars;
  lb_SCIPpricestoreResetBounds : keeps_bound_ SCIPpricestoreResetBounds;
  lb_SCIPcutpoolSeparate : forall r, keeps_bound (SCIPcutpoolSeparate r);
  lb_SCIPbranchcandGetLPCands : keeps_bound SCIPbranchcandGetLPCands;
  lb_SCIPbranchcandClearExternCands : keeps_bound_ SCIPbranchcandClearExternCands;
  lb_SCIPbranchExecLP : keeps_bound SCIPbranchExecLP;
  lb_SCIPbranchExecExtern : keeps_bound SCIPbranchExecExtern;
  lb_SCIPbranchExecPseudo : keeps_bound SCIPbranchExecPseudo;
  lb_SCIPprobStoreRootSol : forall b, keeps_bound_ (SCIPprobStoreRootSol b);
  lb_SCIPconflictAnalyzePseudo : keeps_bound_ SCIPconflictAnalyzePseudo;
  lb_SCIPconflictAnalyzeLP : keeps_bound_ SCIPconflictAnalyzeLP;
  lb_SCIPconflictFlushConss : keeps_bound_ SCIPconflictFlushConss;
  lb_process_LPSOLVED_event : keeps_bound_ process_LPSOLVED_event;
  lb_SCIPrelaxationSetSolValid : forall b, keeps_bound_ (SCIPrelaxationSetSolValid b);
  lb_try_LP_solution : forall b, keeps_bound (try_LP_solution b);
  lb_try_current_solution : keeps_bound try_current_solution;
  lb_SCIPheurExec :
    Forall (fun h => forall d l t n s,
              (SCIPnodeGetLowerbound s
               <= SCIPnodeGetLowerbound (Drivers.SCIPheurExec h d l t n s).1.1)%Q)
      (Drivers.SCIPsetSortHeurs env (Drivers.heurs env));
  lb_SCIPpropExec :
    Forall (fun p => forall d o, keeps_bound (Propagate.SCIPpropExec p d o))
      (Propagate.props (Drivers.prop_set env));
  lb_SCIPconshdlrPropagate :
    Forall (fun h => forall d f o, keeps_bound (Propagate.SCIPconshdlrPropagate h d f o))
      (Propagate.conshdlrs (Drivers.prop_set env));
  lb_SCIPnodeMarkPropagated : keeps_bound_ (Drivers.SCIPnodeMarkPropagated env);
  lb_SCIPnodeSetEstimate : forall e, keeps_bound_ (Drivers.SCIPnodeSetEstimate env e);
  lb_SCIPconshdlrInitLP :
    Forall (fun h => keeps_bound_ (Drivers.SCIPconshdlrInitLP env h)) (Drivers.conshdlrs env);
  lb_SCIPtreeLoadLP : keeps_bound (Drivers.SCIPtreeLoadLP env);
  lb_SCIPpricestoreStartInitialLP : keeps_bound_ (Drivers.SCIPpricestoreStartInitialLP env);
  lb_SCIPpricestoreAddVar : forall var, keeps_bound_ (Drivers.SCIPpricestoreAddVar env var);
  lb_SCIPpricestoreEndInitialLP : keeps_bound_ (Drivers.SCIPpricestoreEndInitialLP env);
  lb_SCIPsepastoreStartInitialLP : keeps_bound_ (Drivers.SCIPsepastoreStartInitialLP env);
  lb_SCIPsepastoreEndInitialLP : keeps_bound_ (Drivers.SCIPsepastoreEndInitialLP env);
  lb_SCIPtreeLoadLPState : keeps_bound_ (Drivers.SCIPtreeLoadLPState env);
  lb_process_FIRSTLPSOLVED_event : keeps_bound_ (Drivers.process_FIRSTLPSOLVED_event env);
  lb_pricers : Forall (fun p => keeps_bound (SCIPpricerExec p)) (pricers set);
  lb_relaxs :
    Forall (fun r => keeps_bound_ (SCIPrelaxMarkUnsolved r)
                     /\ forall d, keeps_bound (SCIPrelaxExec r d)) (relaxs set);
  lb_sepas :
    Forall (fun sp => forall d b o, keeps_bound (SCIPsepaExecLP sp d b o)) (sepas set);
  lb_conshdlrs_sepa :
    Forall (fun h => forall d o, keeps_bound (SCIPconshdlrSeparateLP h d o))
      (conshdlrs_sepa set);
  lb_conshdlrs_enfo :
    Forall (fun h => (forall i, keeps_bound (SCIPconshdlrEnforceLPSol h i))
                     /\ forall i o f, keeps_bound (SCIPconshdlrEnforcePseudoSol h i o f))
      (conshdlrs_enfo set)
}.

End Discipline.

End Lowerbound.

(** * What the functions of solve.c behind the collaborators keep

    A relation between the state before and the state after a call that
    holds of every callee holds of the six functions as well: they change
    the state through their callees only, and through the data that lies
    outside the fields of [Solver]. *)

Lemma Forall_insert_sorted {A} (P : A -> Prop) before x (l : list A) :
  P x -> Forall P l -> Forall P (Solve.insert_sorted before x l).
Proof.
  intros Hx. induction 1 as [|y l Hy Hl IH]; simpl.
  - constructor; auto.
  - destruct (before y x); repeat constructor; auto.
Qed.

Lemma Forall_sort_by {A} (P : A -> Prop) before (l : list A) :
  Forall P l -> Forall P (Solve.sort_by before l).
Proof.
  unfold Solve.sort_by. induction 1; simpl; [constructor|].
  apply Forall_insert_sorted; auto.
Qed.

Section DriverFrames.
Import Solve.
Context {E : Type} {ops : Collaborators E}.
Variable env : Drivers.Surroundings E.
Variable R : Solver E -> Solver E -> Prop.
Hypothesis R_refl : forall s, R s s.
Hypothesis R_trans : forall s1 s2 s3, R s1 s2 -> R s2 s3 -> R s1 s3.
Hypothesis R_ext : forall e s, R s (set_ext e s).
Implicit Types (s : Solver E).

Lemma SCIPsolveIsStopped_frame c s : R s (Drivers.SCIPsolveIsStopped env c s).1.
Proof.
  unfold Drivers.SCIPsolveIsStopped.
  destruct (Stop.SCIPsolveIsStopped _ _ _ _ _ _) as [[answer set1] stat1]. simpl.
  apply R_ext.
Qed.

Local Abbreviation heur_framed :=
  (fun h : Drivers.Heur E => forall d l t n s, R s (Drivers.SCIPheurExec h d l t n s).1.1).

Lemma heur_loop_frame res lp d l t hs : forall s n log,
  Forall heur_framed hs ->
  R s (Heuristics.heur_loop (Solver E) (Drivers.Heur E) res Drivers.SCIPheurExec
         lp d l t hs s n log).1.1.
Proof.
  induction hs as [|h hs IH]; intros s n log Hhs; simpl; [apply R_refl|].
  inversion Hhs as [|? ? Hh Hhs']; subst.
  destruct (lp && res s); simpl; [apply R_refl|].
  specialize (Hh d l t n s).
  destruct (Drivers.SCIPheurExec h d l t n s) as [[s1 n1] r1]. simpl in Hh.
  eapply R_trans; [exact Hh|]. apply IH. exact Hhs'.
Qed.

Lemma SCIPprimalHeuristics_frame t s :
  Forall heur_framed (Drivers.SCIPsetSortHeurs env (Drivers.heurs env)) ->
  R s (Drivers.SCIPprimalHeuristics env t s).1.
Proof.
  intros Hhs. unfold Drivers.SCIPprimalHeuristics, Heuristics.SCIPprimalHeuristics.
  destruct (_ || _); simpl; [apply R_refl|].
  match goal with |- context [if ?c then (-1, -1) else ?x] =>
    destruct (if c then (-1, -1) else x) as [depth lpdepth] end.
  match goal with |- context [Heuristics.heur_loop ?W ?H ?r ?e ?lp ?d ?l ?t ?hs ?s ?n ?log] =>
    pose proof (heur_loop_frame r lp d l t hs s n log Hhs) as Hl;
    destruct (Heuristics.heur_loop W H r e lp d l t hs s n log) as [[s1 n1] log1] end.
  exact Hl.
Qed.

(** *** Propagation *)

Local Abbreviation call_framed :=
  (fun c : Propagate.PropCall E => forall s, R s (Propagate.pc_exec c s).1).

Lemma prop_loop_frame ab od cs : forall s v res,
  Forall call_framed cs -> R s (Propagate.prop_loop ab od cs s v res).1.1.1.
Proof.
  induction cs as [|c cs IH]; intros s v res Hcs; simpl; [apply R_refl|].
  inversion Hcs as [|? ? Hc Hcs']; subst.
  destruct (negb _); simpl; [apply R_refl|].
  destruct (Propagate.pc_skip c s); [apply IH; exact Hcs'|].
  specialize (Hc s). destruct (Propagate.pc_exec c s) as [s1 r]. simpl in Hc.
  destruct (od && _); simpl; [exact Hc|].
  eapply R_trans; [exact Hc|]. apply IH. exact Hcs'.
Qed.

Section Propagation.
Variable mark : Solver E -> Solver E.
Variable pset : Propagate.PROP_SET E.
Hypothesis Hstop : forall c s, R s (Solve.SCIPsolveIsStopped c s).1.
Hypothesis Hprops :
  Forall (fun p => forall d o s, R s (Propagate.SCIPpropExec p d o s).1) (Propagate.props pset).
Hypothesis Hconss :
  Forall (fun h => forall d f o s, R s (Propagate.SCIPconshdlrPropagate h d f o s).1)
    (Propagate.conshdlrs pset).
Hypothesis Hmark : forall s, R s (mark s).

Lemma prop_calls_framed nonneg depth od :
  Forall call_framed (Propagate.prop_calls pset nonneg depth od).
Proof.
  unfold Propagate.prop_calls. apply Forall_fmap. unfold Propagate.SCIPsetSortProps.
  apply Forall_sort_by. eapply Forall_impl; [exact Hprops|].
  intros p Hp s. simpl. apply Hp.
Qed.

Lemma conshdlr_prop_calls_framed depth full od :
  Forall call_framed (Propagate.conshdlr_prop_calls pset depth full od).
Proof.
  unfold Propagate.conshdlr_prop_calls. apply Forall_fmap.
  eapply Forall_impl; [exact Hconss|]. intros h Hh s. simpl. apply Hh.
Qed.

Lemma propagationRound_frame depth full od s c0 :
  R s (Propagate.propagationRound pset depth full od s c0).1.1.
Proof.
  unfold Propagate.propagationRound.
  match goal with |- context [Propagate.prop_loop ?a ?o ?cs ?s0 ?v ?r] =>
    pose proof (prop_loop_frame a o cs s0 v r (prop_calls_framed _ _ _)) as H1;
    destruct (Propagate.prop_loop a o cs s0 v r) as [[[s1 v1] r1] ret1] end.
  simpl in H1. destruct ret1; simpl; [exact H1|].
  match goal with |- context [Propagate.prop_loop ?a ?o ?cs ?s0 ?v ?r] =>
    pose proof (prop_loop_frame a o cs s0 v r (conshdlr_prop_calls_framed _ _ _)) as H2;
    destruct (Propagate.prop_loop a o cs s0 v r) as [[[s2 v2] r2] ret2] end.
  simpl in H2. destruct ret2; simpl; [eapply R_trans; eassumption|].
  match goal with |- context [Propagate.prop_loop ?a ?o ?cs ?s0 ?v ?r] =>
    pose proof (prop_loop_frame a o cs s0 v r (prop_calls_framed _ _ _)) as H3;
    destruct (Propagate.prop_loop a o cs s0 v r) as [[[s3 v3] r3] ret3] end.
  simpl in H3. simpl. eapply R_trans; [exact H1|]. eapply R_trans; eassumption.
Qed.

Lemma delayed_prop_rounds_frame depth full maxr pr fuel : forall s v tr s' v' tr',
  Propagate.delayed_prop_rounds fuel pset depth full maxr pr s v tr = Ok (s', v', tr') ->
  R s s'.
Proof.
  induction fuel as [|fuel IH]; intros s v tr s' v' tr' H; simpl in H.
  - destruct (_ && _); [discriminate|]. inversion H; subst. apply R_refl.
  - destruct (_ && _); [|inversion H; subst; apply R_refl].
    pose proof (propagationRound_frame depth full true s (Propagate.rf_cutoff v)) as H1.
    destruct (Propagate.propagationRound pset depth full true s (Propagate.rf_cutoff v))
      as [[s1 v1] results].
    simpl in H1. apply IH in H. eapply R_trans; eassumption.
Qed.

Lemma prop_rounds_frame budget depth maxr fuel : forall full s l s' l',
  Propagate.prop_rounds fuel budget pset depth full maxr s l = Ok (s', l') -> R s s'.
Proof.
  induction fuel as [|fuel IH]; intros full s l s' l' H; simpl in H.
  - destruct (_ && _); [discriminate|]. inversion H; subst. apply R_refl.
  - destruct (_ && _); [|inversion H; subst; apply R_refl].
    pose proof (Hstop false s) as H0.
    destruct (Solve.SCIPsolveIsStopped false s) as [s0 stopped]. simpl in H0.
    destruct stopped; [inversion H; subst; exact H0|].
    pose proof (propagationRound_frame depth full false s0 (Propagate.pl_cutoff l)) as H1.
    destruct (Propagate.propagationRound pset depth full false s0 (Propagate.pl_cutoff l))
      as [[s1 v1] results].
    simpl in H1.
    match type of H with context [Propagate.delayed_prop_rounds ?a ?b ?c ?d ?e ?f ?g ?h ?i] =>
      destruct (Propagate.delayed_prop_rounds a b c d e f g h i) as [[[s2 v2] tr2]| |] eqn:H2
    end; simpl in H; try discriminate.
    apply delayed_prop_rounds_frame in H2. apply IH in H.
    eapply R_trans; [exact H0|]. eapply R_trans; [exact H1|]. eapply R_trans; eassumption.
Qed.

Lemma propagateDomains_frame fuel d m f s s' c l :
  Propagate.propagateDomains mark fuel pset d m f s = Ok (s', c, l) -> R s s'.
Proof.
  unfold Propagate.propagateDomains. intros H.
  match type of H with context [Propagate.prop_rounds ?a ?b ?c ?d ?e ?f ?g ?h] =>
    destruct (Propagate.prop_rounds a b c d e f g h) as [[s1 l1]| |] eqn:H1
  end; simpl in H; try discriminate.
  apply prop_rounds_frame in H1. inversion H; subst.
  eapply R_trans; [exact H1|]. apply Hmark.
Qed.

End Propagation.

(** *** The estimate *)

Lemma updateEstimate_frame s :
  (forall s, R s (Solve.SCIPbranchcandGetLPCands s).1) ->
  (forall e s, R s (Drivers.SCIPnodeSetEstimate env e s)) ->
  R s (Drivers.updateEstimate env s).
Proof.
  intros Hc He. unfold Drivers.updateEstimate, Estimate.updateEstimate.
  destruct (_ || _); [apply R_refl|].
  specialize (Hc s). destruct (Solve.SCIPbranchcandGetLPCands s) as [s1 n]. simpl in Hc.
  eapply R_trans; [exact Hc|]. apply He.
Qed.

(** *** The initial LP *)

Lemma updatePseudocost_frame s : R s (Drivers.updatePseudocost env s).
Proof. apply R_ext. Qed.

Lemma foldl_frame {A} (f : A -> Solver E -> Solver E) (l : list A) : forall s,
  Forall (fun a => forall s, R s (f a s)) l -> R s (foldl (fun s a => f a s) s l).
Proof.
  induction l as [|a l IH]; intros s Hl; simpl; [apply R_refl|].
  inversion Hl as [|? ? Ha Hl']; subst.
  eapply R_trans; [apply Ha|]. apply IH. exact Hl'.
Qed.

Section Initial.
Hypothesis Hstart : forall s, R s (Drivers.SCIPsepastoreStartInitialLP env s).
Hypothesis Hinit :
  Forall (fun h => forall s, R s (Drivers.SCIPconshdlrInitLP env h s)) (Drivers.conshdlrs env).
Hypothesis Happly : forall r s, R s (Solve.SCIPsepastoreApplyCuts r s).1.
Hypothesis Hend : forall s, R s (Drivers.SCIPsepastoreEndInitialLP env s).

Lemma initConssLP_frame root s : R s (Drivers.initConssLP env root s).1.
Proof.
  unfold Drivers.initConssLP, InitialLP.initConssLP.
  match goal with |- context [Solve.SCIPsepastoreApplyCuts root ?x] =>
    pose proof (Happly root x) as H2;
    assert (R s x) as H1
      by (eapply R_trans; [apply Hstart|]; apply foldl_frame; exact Hinit);
    destruct (Solve.SCIPsepastoreApplyCuts root x) as [s2 cutoff] end.
  simpl in *. eapply R_trans; [exact H1|]. eapply R_trans; [exact H2|]. apply Hend.
Qed.

End Initial.

Lemma solveNodeInitialLP_frame s :
  (forall s, R s (Drivers.SCIPconstructCurrentLP env s).1) ->
  (forall s, R s (Drivers.SCIPtreeLoadLPState env s)) ->
  (forall a b s, R s (Solve.SCIPlpSolveAndEval a b s).1) ->
  (forall s, R s (Drivers.process_FIRSTLPSOLVED_event env s)) ->
  R s (Drivers.solveNodeInitialLP env s).1.
Proof.
  intros Hc Hl Hs He. unfold Drivers.solveNodeInitialLP, InitialLP.solveNodeInitialLP.
  specialize (Hc s). unfold Drivers.SCIPconstructCurrentLP in Hc.
  destruct (InitialLP.SCIPconstructCurrentLP _ _ _ _ _ _ _ _ _ _ _ _ _ _ _ _ s)
    as [[s1 cutoff] log].
  simpl in Hc. destruct cutoff; simpl; [exact Hc|].
  pose proof (Hs true false (Drivers.SCIPtreeLoadLPState env s1)) as H2.
  destruct (Solve.SCIPlpSolveAndEval true false _) as [s2 lperror]. simpl in H2.
  assert (R s s2) as H02
    by (eapply R_trans; [exact Hc|]; eapply R_trans; [apply Hl|exact H2]).
  destruct lperror; simpl; [exact H02|].
  destruct (negb (InitialLP.solstat_limit _ _ _)); simpl.
  - eapply R_trans; [exact H02|]. eapply R_trans; [apply He|]. apply updatePseudocost_frame.
  - eapply R_trans; [exact H02|]. apply updatePseudocost_frame.
Qed.

Lemma SCIPconstructCurrentLP_frame s :
  (forall s, R s (Drivers.SCIPtreeLoadLP env s).1) ->
  (forall s, R s (Drivers.SCIPpricestoreStartInitialLP env s)) ->
  (forall var s, R s (Drivers.SCIPpricestoreAddVar env var s)) ->
  (forall s, R s (Solve.SCIPpricestoreApplyVars s)) ->
  (forall s, R s (Drivers.SCIPpricestoreEndInitialLP env s)) ->
  (forall r s, R s (Drivers.initConssLP env r s).1) ->
  R s (Drivers.SCIPconstructCurrentLP env s).1.
Proof.
  intros Hload Hps Hadd Happ Hpe Hic.
  unfold Drivers.SCIPconstructCurrentLP, InitialLP.SCIPconstructCurrentLP.
  destruct (negb _); simpl; [|apply R_refl].
  specialize (Hload s). destruct (Drivers.SCIPtreeLoadLP env s) as [s1 initroot].
  simpl in Hload. unfold InitialLP.initLP.
  destruct initroot.
  - match goal with |- context [InitialLP.initConssLP ?W ?V ?C ?cs ?a ?b ?c ?d true ?x] =>
      pose proof (Hic true x) as H2;
      assert (R s1 x) as H1;
      [|unfold Drivers.initConssLP in H2;
        destruct (InitialLP.initConssLP W V C cs a b c d true x) as [[s2 cutoff] log2]]
    end.
    + eapply R_trans; [apply Hps|]. eapply R_trans; [|apply Hpe].
      eapply R_trans; [|apply Happ]. apply foldl_frame.
      apply Forall_forall. intros var _ s0. apply Hadd.
    + simpl in *. eapply R_trans; [exact Hload|]. eapply R_trans; eassumption.
  - pose proof (Hic false s1) as H2. unfold Drivers.initConssLP in H2.
    destruct (InitialLP.initConssLP _ _ _ _ _ _ _ _ false s1) as [[s2 cutoff] log2].
    simpl in *. eapply R_trans; eassumption.
Qed.

End DriverFrames.

(** ** Collaborators that are the functions of solve.c

    The callees of any set of collaborators, completed by the six functions
    over them, are collaborators whose six members are the functions of
    solve.c, as long as the propagation returns. *)

Section Linked.
Import Solve.
Context {E : Type}.
Variable env : Drivers.Surroundings E.

(** The loop of [propagateDomains] reads the collaborators through
    [SCIPsolveIsStopped] only. *)
Lemma prop_rounds_same_stop (A B : Collaborators E) budget pset depth maxr :
  (forall c s, SCIPsolveIsStopped (Collaborators := A) c s
               = SCIPsolveIsStopped (Collaborators := B) c s) ->
  forall fuel full s l,
    Propagate.prop_rounds (ops := A) fuel budget pset depth full maxr s l
    = Propagate.prop_rounds (ops := B) fuel budget pset depth full maxr s l.
Proof.
  intros Hs. induction fuel as [|fuel IH]; intros full s l; simpl; [reflexivity|].
  destruct (_ && _); [|reflexivity].
  rewrite Hs. destruct (SCIPsolveIsStopped false s) as [s0 stopped].
  destruct stopped; [reflexivity|].
  destruct (Propagate.propagationRound pset depth full false s0 (Propagate.pl_cutoff l))
    as [[s1 v1] results].
  destruct (Propagate.delayed_prop_rounds _ _ _ _ _ _ _ _ _) as [[[s2 v2] tr2]| |];
    simpl; [apply IH|reflexivity|reflexivity].
Qed.

Lemma solve_c_is_solve_c (base : Collaborators E) fuel :
  (forall d m f s, exists out,
     Propagate.propagateDomains (ops := Drivers.with_stop env base)
       (Drivers.SCIPnodeMarkPropagated env) fuel (Drivers.prop_set env) d m f s = Ok out) ->
  Drivers.solve_c_drivers (ops := Drivers.solve_c env fuel base) env.
Proof.
  intros Hp. constructor; try (intros; reflexivity).
  intros d m f s. destruct (Hp d m f s) as [[[s1 c] l] Hrun].
  exists fuel, l.
  change (Solve.propagateDomains (Collaborators := Drivers.solve_c env fuel base) d m f s)
    with (match Propagate.propagateDomains (ops := Drivers.with_stop env base)
                  (Drivers.SCIPnodeMarkPropagated env) fuel (Drivers.prop_set env) d m f s with
          | Ok (s1, cutoff, _) => (s1, cutoff)
          | _ => (s, false)
          end).
  rewrite Hrun. simpl. rewrite <- Hrun. unfold Propagate.propagateDomains.
  rewrite (prop_rounds_same_stop (Drivers.solve_c env fuel base) (Drivers.with_stop env base));
    [reflexivity|intros; reflexivity].
Qed.

End Linked.

(** In the surroundings of the scripted worlds a round of propagation finds
    nothing, and the propagation returns after one round. *)
Lemma DriversRun_propagation_returns (base : Solve.Collaborators nat) d m f s :
  exists out,
    Propagate.propagateDomains (ops := Drivers.with_stop DriversRun.env base)
      (Drivers.SCIPnodeMarkPropagated DriversRun.env) 2 (Drivers.prop_set DriversRun.env)
      d m f s = Ok out.
Proof.
  unfold Propagate.propagateDomains.
  generalize (Propagate.effective_maxproprounds (Drivers.prop_set DriversRun.env) d m).
  intros maxr. cbn [Propagate.prop_rounds Propagate.pl_propagain Propagate.pl_cutoff
                      Propagate.pl_propround Propagate.pl_trace].
  destruct (true && negb false && (0 <? maxr)); [|eexists; reflexivity].
  destruct (Solve.SCIPsolveIsStopped false s) as [s0 stopped].
  destruct stopped; [eexists; reflexivity|].
  destruct (Propagate.propagationRound _ _ _ _ _ _) as [[s1 v1] results] eqn:Hr.
  assert (Propagate.rf_delayed v1 = false /\ Propagate.rf_propagain v1 = false
          /\ Propagate.rf_cutoff v1 = false) as (Hd & Hg & Hc).
  { unfold Propagate.propagationRound in Hr. vm_compute in Hr.
    inversion Hr; subst. repeat split. }
  cbn [Propagate.delayed_prop_rounds]. rewrite Hd. simpl.
  rewrite Hg. simpl. eexists; reflexivity.
Qed.

Lemma DriversRun_linked_is_solve_c (base : Solve.Collaborators nat) :
  Drivers.solve_c_drivers (ops := DriversRun.linked base) DriversRun.env.
Proof. apply solve_c_is_solve_c. apply DriversRun_propagation_returns. Qed.

(** * Theorems *)

(** ** Stop/status monitor *)

Section StopProofs.
Import Stop.

Variable SCIPsetIsLE : SCIP_Real -> SCIP_Real -> bool.
Variable SCIPsetIsLT : SCIP_Real -> SCIP_Real -> bool.

Lemma status_set_status stat s : status (set_status stat s) = s.
Proof. reflexivity. Qed.

Lemma stop_answer_expected stat c :
  stop_answer stat c = expected_answer (status stat) c.
Proof. unfold stop_answer, status_ne. destruct c, (status stat); reflexivity. Qed.

Lemma update_status_first_matching set stat r c :
  status (update_status SCIPsetIsLT set stat r c)
  = default (status stat)
      (first_matching (limits_in_priority_order SCIPsetIsLT set stat r c)).
Proof.
  unfold update_status, limits_in_priority_order. simpl.
  repeat (match goal with
          | |- context [if ?b then _ else _] => destruct b; simpl; [reflexivity|]
          end).
  reflexivity.
Qed.

(** C2 (amended): unless the call leaves through the early exit taken when
    the bounds have met in the solving stage, the status after the call is
    the first matching limit in the priority order user interrupt, time,
    memory, gap/absgap, solutions, best solutions and, only with
    [checknodelimits], nodes and stall nodes (the previous status, reset to
    UNKNOWN if the limits changed, when no limit matches), and the call
    answers [status != UNKNOWN] with NODELIMIT and STALLNODELIMIT masked out
    when [checknodelimits] is false.  On the early exit the call answers
    false and leaves the settings and the status untouched. *)
Theorem SCIPsolveIsStopped_first_matching_limit set stat r c :
  if bounds_closed SCIPsetIsLE set r
  then SCIPsolveIsStopped SCIPsetIsLE SCIPsetIsLT set stat r c = (false, set, stat)
  else stop_contract SCIPsetIsLE SCIPsetIsLT set stat r c.
Proof.
  unfold stop_contract, SCIPsolveIsStopped, expected_status.
  destruct (bounds_closed SCIPsetIsLE set r); [reflexivity|].
  unfold reset_if_limitchanged.
  destruct (limitchanged set); simpl; split;
    try apply stop_answer_expected; apply update_status_first_matching.
Qed.

End StopProofs.

(** C2 (as stated): with the time limit exceeded but upper = lower in the
    solving stage, the call returns false and the status stays UNKNOWN,
    although TIMELIMIT is the first matching limit. *)
Lemma SCIPsolveIsStopped_early_exit_skips_limits :
  ~ Stop.stop_contract StopRun.IsLE StopRun.IsLT
      StopRun.set0 StopRun.stat0 StopRun.closed_after_timeout true.
Proof. vm_compute. intros [H _]. discriminate H. Qed.

Example SCIPsolveIsStopped_timeout_run :
  Stop.SCIPsolveIsStopped StopRun.IsLE StopRun.IsLT
    StopRun.set0 StopRun.stat0 StopRun.open_after_timeout false
  = (true, StopRun.set0, Stop.set_status StopRun.stat0 SCIP_STATUS_TIMELIMIT).
Proof. reflexivity. Qed.

(** ** Constraint enforcement *)

Section EnforceProofs.
Import Solve.
Context {E : Type} {ops : Collaborators E}.
Implicit Types (s : Solver E) (set : SCIP_SET E) (f : EnfoFlags).

Lemma enforce_verdict_spec set v s f s' f' r' :
  enforce_verdict set v s f false = Ok (s', f', r') ->
  four_flags f = (false, false, false, false) ->
  r' = resolving v
  /\ (if r' then four_flags f' = verdict_row v false /\ infeasible f' = true
      else four_flags f' = (false, false, false, false)
           /\ infeasible f' = infeasible f || raises_infeasible v).
Proof.
  unfold four_flags. intros Hv Hf. injection Hf as Hb Hc Hs Hp.
  destruct v; simpl in Hv; inversion Hv; subst; clear Hv; simpl;
    rewrite ?Hb, ?Hc, ?Hs, ?Hp, ?orb_true_r, ?orb_false_r; auto.
Qed.

Lemma enforce_handler_spec set oi forced h s f s' f' r' ev :
  enforce_handler set oi forced h s f false = Ok (s', f', r', ev) ->
  four_flags f = (false, false, false, false) ->
  r' = resolves ev
  /\ (if r' then four_flags f' = verdict_row ev.1 ev.2 /\ infeasible f' = true
      else four_flags f' = (false, false, false, false)
           /\ infeasible f' = infeasible f || raises_infeasible ev.1).
Proof.
  unfold enforce_handler, resolves. intros Hh Hf.
  set (call := if SCIPtreeHasFocusNodeLP s then _ else _) in Hh.
  destruct call as [[s1 v]| |]; simpl in Hh; try discriminate.
  destruct (enforce_verdict set v s1 f false) as [[[s2 f2] r2]| |] eqn:Hv;
    simpl in Hh; try discriminate.
  apply enforce_verdict_spec in Hv as [-> Hv]; [|exact Hf].
  destruct (lp_hit_objlimit s2); inversion Hh; subst; clear Hh; simpl.
  - rewrite orb_true_r. split; [reflexivity|].
    destruct (resolving v) eqn:Hr.
    + destruct Hv as [Hv _]. unfold four_flags, verdict_row in *.
      injection Hv as Hb Hc Hs Hp. simpl. rewrite Hb, Hs, Hp, !orb_true_r. auto.
    + destruct Hv as [Hv _]. unfold four_flags, verdict_row in *.
      injection Hv as Hb Hc Hs Hp. simpl. rewrite Hb, Hs, Hp.
      destruct v; try discriminate Hr; auto.
  - rewrite orb_false_r. split; [reflexivity|]. exact Hv.
Qed.

Lemma enforce_loop_resolved set oi forced hs s f trace :
  enforce_loop set oi forced hs s f true trace = Ok (s, f, true, trace).
Proof. destruct hs; reflexivity. Qed.

(** The loop stops after the first event that resolves; all events before
    it leave the four flags clear. *)
Lemma enforce_loop_spec set oi forced hs : forall s f trace s' f' r' trace',
  enforce_loop set oi forced hs s f false trace = Ok (s', f', r', trace') ->
  four_flags f = (false, false, false, false) ->
  exists new, trace' = trace ++ new /\
    if r' then
      exists pre ev, new = pre ++ [ev] /\ forallb (fun e => negb (resolves e)) pre = true
        /\ resolves ev = true
        /\ four_flags f' = verdict_row ev.1 ev.2 /\ infeasible f' = true
    else
      forallb (fun e => negb (resolves e)) new = true
      /\ four_flags f' = (false, false, false, false)
      /\ infeasible f' = infeasible f || existsb (fun e => raises_infeasible e.1) new.
Proof.
  induction hs as [|h hs IH]; intros s f trace s' f' r' trace' Hl Hf; simpl in Hl.
  - inversion Hl; subst. exists []. rewrite app_nil_r. simpl.
    rewrite orb_false_r. auto.
  - destruct (enforce_handler set oi forced h s f false) as [[[[s1 f1] r1] ev]| |] eqn:Hh;
      simpl in Hl; try discriminate.
    apply enforce_handler_spec in Hh as [Hr Hstep]; [|exact Hf].
    destruct r1.
    + rewrite enforce_loop_resolved in Hl. inversion Hl; subst.
      exists [ev]. split; [reflexivity|]. exists [], ev. simpl.
      destruct Hstep. auto.
    + destruct Hstep as [Hf1 Hi1].
      apply IH in Hl as (new & -> & Hnew); [|exact Hf1].
      exists (ev :: new). rewrite <- app_assoc. split; [reflexivity|].
      destruct r'.
      * destruct Hnew as (pre & ev' & -> & Hpre & Hres & Hrow & Hinf).
        exists (ev :: pre), ev'. simpl. rewrite <- Hr. simpl. auto.
      * destruct Hnew as (Hall & Hf' & Hinf). simpl. rewrite <- Hr. simpl.
        split; [exact Hall|]. split; [exact Hf'|].
        rewrite Hinf, Hi1. rewrite orb_assoc. reflexivity.
Qed.

Lemma quiet_existsb (P : EnfoEvent -> bool) (pre : list EnfoEvent) :
  (forall e, resolves e = false -> P e = false) ->
  forallb (fun e => negb (resolves e)) pre = true ->
  existsb P pre = false.
Proof.
  intros HP. induction pre as [|e pre IH]; simpl; [reflexivity|].
  intros [He Hpre]%andb_prop. apply negb_true_iff in He.
  rewrite (HP e He), (IH Hpre). reflexivity.
Qed.

Lemma quiet_existsb_ext (P Q : EnfoEvent -> bool) (pre : list EnfoEvent) :
  (forall e, resolves e = false -> P e = Q e) ->
  forallb (fun e => negb (resolves e)) pre = true ->
  existsb P pre = existsb Q pre.
Proof.
  intros HP. induction pre as [|e pre IH]; simpl; [reflexivity|].
  intros [He Hpre]%andb_prop. apply negb_true_iff in He.
  rewrite (HP e He), (IH Hpre). reflexivity.
Qed.

(** C1 (amended): at the end of every successful call that starts from the
    asserted entry state, and in which the objective limit test does not fire
    after a handler has already resolved the infeasibility without a cutoff,
    one of [branched], [cutoff], [solvelpagain], [propagateagain] is set
    exactly if some handler returned CUTOFF, CONSADDED, REDUCEDDOM, SEPARATED,
    BRANCHED or SOLVELP or the LP hit the objective limit; at most one of
    [branched], [cutoff], [solvelpagain] is set; [propagateagain] is set
    exactly after CONSADDED or REDUCEDDOM and then together with
    [solvelpagain]; and [infeasible] is its entry value raised by every
    verdict other than FEASIBLE and by the objective limit. *)
Theorem enforceConstraints_flags set s f forced s' f' trace :
  enforce_entry f ->
  enforceConstraints set s f forced = Ok (s', f', trace) ->
  existsb objlimit_after_resolution trace = false ->
  (branched f' || cutoff f' || solvelpagain f' || propagateagain f') = existsb resolves trace
  /\ ((if branched f' then 1 else 0) + (if cutoff f' then 1 else 0)
      + (if solvelpagain f' then 1 else 0) <= 1)%nat
  /\ propagateagain f' = existsb adds_constraint_or_reduces trace
  /\ (propagateagain f' = true -> solvelpagain f' = true)
  /\ infeasible f' = infeasible f || existsb (fun ev => raises_infeasible ev.1 || ev.2) trace.
Proof.
  intros (Hc & Hp & Hs & _) Hrun Hco. unfold enforceConstraints in Hrun.
  match type of Hrun with context [enforce_loop ?a ?b ?c ?d ?e ?g false []] =>
    destruct (enforce_loop a b c d e g false []) as [[[[s1 f1] r1] tr]| |] eqn:Hl
  end; simpl in Hrun; try discriminate.
  inversion Hrun; subst; clear Hrun.
  apply enforce_loop_spec in Hl as (new & Hnew & Hl);
    [|unfold four_flags; simpl; rewrite Hc, Hp, Hs; reflexivity].
  simpl in Hnew. subst new. destruct r1.
  - destruct Hl as (pre & ev & -> & Hpre & Hres & Hrow & Hinf).
    rewrite existsb_app in Hco. apply orb_false_elim in Hco as [_ Hco].
    simpl in Hco. rewrite orb_false_r in Hco.
    rewrite !existsb_app. simpl. rewrite !orb_false_r, Hres, orb_true_r.
    rewrite (quiet_existsb adds_constraint_or_reduces pre); [|
      intros [v o]; unfold resolves, adds_constraint_or_reduces; simpl;
      destruct v; simpl; auto; discriminate | exact Hpre].
    unfold four_flags, verdict_row in Hrow. injection Hrow as Hb Hcut Hsol Hprop.
    rewrite Hb, Hcut, Hsol, Hprop, Hinf.
    destruct ev as [v o]. unfold resolves, objlimit_after_resolution,
      adds_constraint_or_reduces in *. simpl in *.
    assert (raises_infeasible v || o = true) as ->
      by (destruct v, o; simpl in *; auto; discriminate).
    rewrite !orb_true_r.
    destruct v, o; simpl in *; try discriminate; repeat split; auto.
  - destruct Hl as (Hall & Hrow & Hinf). simpl in Hinf.
    rewrite (quiet_existsb resolves trace); [|auto|exact Hall].
    rewrite (quiet_existsb adds_constraint_or_reduces trace); [|
      intros [v o]; unfold resolves, adds_constraint_or_reduces; simpl;
      destruct v; simpl; auto; discriminate | exact Hall].
    unfold four_flags in Hrow. injection Hrow as Hb Hcut Hsol Hprop.
    rewrite Hb, Hcut, Hsol, Hprop. simpl. repeat split; auto; try discriminate.
    rewrite Hinf. f_equal. symmetry. apply quiet_existsb_ext; [|exact Hall].
    intros [v o]; unfold resolves; simpl; intros [_ ->]%orb_false_elim.
    apply orb_false_r.
Qed.

End EnforceProofs.

(** C1 (amended), at a concrete call: one handler answers CONSADDED on the LP
    solution; [propagateagain] and [solvelpagain] are both set. *)
Lemma enforceConstraints_flags_witness :
  Solve.enforce_entry Run.flags0
  /\ Solve.enforceConstraints (ops := Run.calm)
       (Run.settings [Run.answering SCIP_CONSADDED] []) Run.solver0 Run.flags0 false
     = Ok (Run.solver0, Solve.mkEnfo false false true true true true, [(SCIP_CONSADDED, false)])
  /\ existsb Solve.objlimit_after_resolution [(SCIP_CONSADDED, false)] = false
  /\ (false || false || true || true = existsb Solve.resolves [(SCIP_CONSADDED, false)]
      /\ (0 + 0 + 1 <= 1)%nat
      /\ true = existsb Solve.adds_constraint_or_reduces [(SCIP_CONSADDED, false)]
      /\ (true = true -> true = true)
      /\ true = false || existsb (fun ev => Solve.raises_infeasible ev.1 || ev.2)
                           [(SCIP_CONSADDED, false)]).
Proof.
  split; [repeat split|]. split; [reflexivity|]. split; [reflexivity|].
  apply (enforceConstraints_flags (ops := Run.calm)
           (Run.settings [Run.answering SCIP_CONSADDED] []) Run.solver0 Run.flags0 false
           Run.solver0 (Solve.mkEnfo false false true true true true)
           [(SCIP_CONSADDED, false)]);
    [repeat split|reflexivity|reflexivity].
Defined.

(** C1 (as stated): after a single CONSADDED verdict two of the four flags
    are set, not exactly one. *)
Lemma enforceConstraints_two_flags_after_consadded :
  match Solve.enforceConstraints (ops := Run.calm)
          (Run.settings [Run.answering SCIP_CONSADDED] []) Run.solver0 Run.flags0 false with
  | Ok (_, f, trace) => ~ Solve.exactly_one_flag_invariant f trace
  | _ => False
  end.
Proof. vm_compute. intros H. discriminate H. Qed.

(** With FEASIBLE verdicts only, no flag is set and [infeasible] stays
    false. *)
Example enforceConstraints_feasible_only :
  Solve.enforceConstraints (ops := Run.calm)
    (Run.settings [Run.answering SCIP_FEASIBLE; Run.answering SCIP_FEASIBLE] [])
    Run.solver0 Run.flags0 false
  = Ok (Run.solver0, Run.flags0, [(SCIP_FEASIBLE, false); (SCIP_FEASIBLE, false)]).
Proof. reflexivity. Qed.

(** ** Price loop *)

Section PriceProofs.
Import Solve.
Context {E : Type} {ops : Collaborators E}.
Implicit Types (s : Solver E) (set : SCIP_SET E) (v : PriceVars).

(** The pricer loop appends its calls to the log, latches [aborted] on
    DIDNOTRUN and accumulates the lower bound with [MAX]. *)
Lemma call_pricers_spec maxvars ps : forall s enough ab lb calls s' enough' ab' lb' calls',
  call_pricers maxvars ps s enough ab lb calls = (s', (enough', ab', lb'), calls') ->
  exists new, calls' = calls ++ new
    /\ ab' = ab || existsb did_not_run new
    /\ lb' = foldl MAX lb (call_lb <$> new).
Proof.
  induction ps as [|p ps IH]; intros s enough ab lb calls s' enough' ab' lb' calls' Hc;
    simpl in Hc.
  - inversion Hc; subst. exists []. rewrite app_nil_r, orb_false_r. auto.
  - destruct enough.
    + inversion Hc; subst. exists []. rewrite app_nil_r, orb_false_r. auto.
    + destruct (SCIPpricerExec p s) as [s1 [lb1 r1]]. simpl in Hc.
      apply IH in Hc as (new & -> & -> & ->).
      eexists (_ :: new). rewrite <- app_assoc. split; [reflexivity|].
      simpl. unfold did_not_run at 2. simpl. rewrite orb_assoc. auto.
Qed.

Lemma price_round_spec set pretendroot s v s' v' calls :
  price_round set pretendroot s v = (s', v', calls) ->
  aborted v' = aborted v || existsb did_not_run calls
  /\ price_rounds_done v' = price_rounds_done v + 1
  /\ lowerbound v' = foldl MAX (lowerbound v) (call_lb <$> calls).
Proof.
  unfold price_round, external_pricing. intros H.
  destruct (SCIPprimalHeuristics _ s) as [s1 ?].
  match type of H with context [call_pricers ?a ?b ?c ?d ?e ?f ?g] =>
    destruct (call_pricers a b c d e f g) as [[s2 [[en ab] lb]] cs] eqn:Hc end.
  apply call_pricers_spec in Hc as (new & Hnew & -> & ->). simpl in Hnew. subst cs.
  destruct (SCIPlpSolveAndEval true false _) as [s3 ?].
  destruct (initConssLP pretendroot _) as [s4 ?].
  destruct (SCIPlpSolveAndEval false false _) as [s5 ?].
  inversion H; subst; clear H. simpl. auto.
Qed.

Lemma executed_rounds_app t1 t2 :
  executed_rounds (t1 ++ t2) = executed_rounds t1 + executed_rounds t2.
Proof. unfold executed_rounds. rewrite filter_app, length_app. lia. Qed.

Lemma price_rounds_spec set pretendroot maxr fuel : forall s v trace s' v' trace',
  price_rounds fuel set pretendroot maxr s v trace = Ok (s', v', trace') ->
  exists new, trace' = trace ++ new
    /\ aborted v' = aborted v || (some_pricer_did_not_run new || existsb round_stopped new)
    /\ price_rounds_done v' = price_rounds_done v + executed_rounds new.
Proof.
  induction fuel as [|fuel IH]; intros s v trace s' v' trace' H; simpl in H.
  - destruct (negb (lperror v) && mustprice v && (price_rounds_done v <? maxr));
      [discriminate|]. inversion H; subst. exists []. rewrite app_nil_r. simpl.
    rewrite orb_false_r. unfold executed_rounds. simpl. split; [|split]; auto; lia.
  - destruct (negb (lperror v) && mustprice v && (price_rounds_done v <? maxr)).
    + destruct (SCIPsolveIsStopped false s) as [s1 [|]].
      * inversion H; subst. exists [RoundStopped]. simpl.
        rewrite !orb_true_r. unfold executed_rounds. simpl. split; [|split]; auto; lia.
      * destruct (price_round set pretendroot s1 v) as [[s2 v2] calls] eqn:Hr.
        apply price_round_spec in Hr as (Hab & Hdone & _).
        apply IH in H as (new & -> & Hab' & Hdone').
        exists (RoundDone calls :: new). rewrite <- app_assoc. split; [reflexivity|].
        rewrite Hab', Hab, Hdone', Hdone.
        change (RoundDone calls :: new) with ([RoundDone calls] ++ new).
        rewrite executed_rounds_app. unfold some_pricer_did_not_run. simpl.
        split; [|unfold executed_rounds; simpl; lia].
        rewrite <- !orb_assoc. reflexivity.
    + inversion H; subst. exists []. rewrite app_nil_r. simpl.
      rewrite orb_false_r. unfold executed_rounds. simpl. split; [|split]; auto; lia.
Qed.

(** C3: when the price loop returns, [aborted] is the disjunction of: some
    pricer returned DIDNOTRUN or the stop test interrupted the loop, the LP
    error flag, the LP status being NOTSOLVED or ERROR, and the number of
    executed rounds being equal to the round limit ([-1] read as no limit,
    INT_MAX); and [lp.isRelax] is the negation of [aborted]. *)
Theorem SCIPpriceLoop_aborted fuel set pretendroot displayinfo maxpricerounds
    s mustsepa0 lowerbound0 s' v' trace :
  SCIPpriceLoop fuel set pretendroot displayinfo maxpricerounds s mustsepa0 lowerbound0
    = Ok (s', v', trace) ->
  aborted v'
  = (some_pricer_did_not_run trace || existsb round_stopped trace)
    || lperror v'
    || solstat_is SCIP_LPSOLSTAT_NOTSOLVED s' || solstat_is SCIP_LPSOLSTAT_ERROR s'
    || (executed_rounds trace =? effective_maxpricerounds maxpricerounds)
  /\ SCIPlpIsRelax s' = negb (aborted v').
Proof.
  unfold SCIPpriceLoop. intros H.
  match type of H with context [price_rounds ?a ?b ?c ?d ?e ?f ?g] =>
    destruct (price_rounds a b c d e f g) as [[[s1 v1] tr]| |] eqn:Hl end;
    simpl in H; try discriminate.
  apply price_rounds_spec in Hl as (new & Hnew & Hab & Hdone). simpl in *. subst new.
  inversion H; subst; clear H. simpl. rewrite Hab, Hdone. simpl. auto.
Qed.

(** The pricing loop needs at most as many passes as the round limit allows,
    so with that much fuel it returns. *)
Lemma price_rounds_returns set pretendroot maxr fuel : forall s v trace,
  (Z.to_nat (maxr - price_rounds_done v) <= fuel)%nat ->
  price_rounds fuel set pretendroot maxr s v trace <> OutOfFuel.
Proof.
  induction fuel as [|fuel IH]; intros s v trace Hfuel; simpl.
  - destruct (negb (lperror v) && mustprice v) ; simpl; [|discriminate].
    destruct (price_rounds_done v <? maxr) eqn:Hlt; [|discriminate].
    apply Z.ltb_lt in Hlt. lia.
  - destruct (negb (lperror v) && mustprice v) ; simpl; [|discriminate].
    destruct (price_rounds_done v <? maxr) eqn:Hlt; [|discriminate].
    apply Z.ltb_lt in Hlt.
    destruct (SCIPsolveIsStopped false s) as [s1 [|]]; [discriminate|].
    destruct (price_round set pretendroot s1 v) as [[s2 v2] calls] eqn:Hr.
    apply price_round_spec in Hr as (_ & Hdone & _).
    apply IH. lia.
Qed.

Lemma SCIPpriceLoop_returns set pretendroot displayinfo maxpricerounds s mustsepa0 lowerbound0 :
  SCIPpriceLoop (Z.to_nat (effective_maxpricerounds maxpricerounds)) set pretendroot
    displayinfo maxpricerounds s mustsepa0 lowerbound0 <> OutOfFuel.
Proof.
  unfold SCIPpriceLoop.
  match goal with |- context [price_rounds ?a ?b ?c ?d ?e ?f ?g] =>
    pose proof (price_rounds_returns b c d a e f g) as Hne;
    destruct (price_rounds a b c d e f g) as [[[s1 v1] tr]| |] end; simpl; try discriminate.
  exfalso. apply Hne; [|reflexivity]. simpl. lia.
Qed.

End PriceProofs.

(** C3, at a run in which the only pricer does not run: one round is
    executed, [aborted] is set and the LP is not marked as a relaxation. *)
Lemma SCIPpriceLoop_aborted_witness :
  Run.price_run = Ok Run.price_out
  /\ Solve.aborted Run.price_out.1.2 = true
  /\ Solve.some_pricer_did_not_run Run.price_out.2 = true
  /\ Solve.SCIPlpIsRelax Run.price_out.1.1 = false.
Proof.
  assert (Run.price_run = Ok Run.price_out) as H by (vm_compute; reflexivity).
  split; [exact H|].
  destruct (SCIPpriceLoop_aborted (ops := Run.missing_columns) 5
              (Run.settings [] [Run.resting_pricer]) false false 3 Run.solver0 false
              (- Run.infinity)%Q Run.price_out.1.1 Run.price_out.1.2 Run.price_out.2 H)
    as [Ha Hr].
  split; [vm_compute; reflexivity|]. split; [vm_compute; reflexivity|].
  rewrite Hr. vm_compute; reflexivity.
Defined.

(** ** Price-and-cut loop: stall accounting *)

Section StallProofs.
Import Solve.
Context {E : Type} {ops : Collaborators E}.
Implicit Types (s : Solver E) (set : SCIP_SET E) (v : CutLoopVars) (k : CutLoopConsts).











End StallProofs.



(** ** Price-and-cut loop: the separation round counter *)

Section CounterProofs.
Import Solve.
Context {E : Type} {ops : Collaborators E}.
Implicit Types (s : Solver E) (set : SCIP_SET E) (v : CutLoopVars) (k : CutLoopConsts).

Lemma nsr_with_lp f s : nsr (with_lp f s) = nsr s.
Proof. reflexivity. Qed.
Lemma nsr_with_tree f s : nsr (with_tree f s) = nsr s.
Proof. reflexivity. Qed.
Lemma nsr_set_npricerounds n s : nsr (set_npricerounds n s) = nsr s.
Proof. reflexivity. Qed.
Lemma nsr_set_nseparounds n s : nsr (set_nseparounds n s) = n.
Proof. reflexivity. Qed.

(** From the equation of a call that returns a pair, the counter after the
    call in terms of the counter before. *)
Lemma nsr_of_call {A} (f : Solver E -> Solver E * A) s s1 a :
  (forall s, nsr (f s).1 = nsr s) -> f s = (s1, a) -> nsr s1 = nsr s.
Proof. intros Hf Hc. specialize (Hf s). rewrite Hc in Hf. exact Hf. Qed.

Section Framed.
Variable set : SCIP_SET E.
Variable env : Drivers.Surroundings E.
Hypothesis Hsolve_c : Drivers.solve_c_drivers env.
Hypothesis Hfr : Drivers.nseparounds_untouched env set.

(** The functions of solve.c that the loop calls leave the counter alone,
    as their callees do. *)
Local Abbreviation same_nsr := (fun s s' : Solver E => nsr s' = nsr s).

Lemma same_nsr_trans s1 s2 s3 : same_nsr s1 s2 -> same_nsr s2 s3 -> same_nsr s1 s3.
Proof. simpl. congruence. Qed.

Lemma SCIPsolveIsStopped_nsr c s : nsr (SCIPsolveIsStopped c s).1 = nsr s.
Proof.
  rewrite (Drivers.is_SCIPsolveIsStopped env Hsolve_c).
  apply (SCIPsolveIsStopped_frame env same_nsr). reflexivity.
Qed.

Lemma SCIPprimalHeuristics_nsr t s : nsr (SCIPprimalHeuristics t s).1 = nsr s.
Proof.
  rewrite (Drivers.is_SCIPprimalHeuristics env Hsolve_c).
  apply (SCIPprimalHeuristics_frame env same_nsr);
    [reflexivity|exact same_nsr_trans|exact (Drivers.nsr_SCIPheurExec env set Hfr)].
Qed.

Lemma propagateDomains_nsr d m f s : nsr (propagateDomains d m f s).1 = nsr s.
Proof.
  destruct (Drivers.is_propagateDomains env Hsolve_c d m f s) as (fuel & l & H).
  apply (propagateDomains_frame same_nsr) in H;
    [exact H|reflexivity|exact same_nsr_trans|exact SCIPsolveIsStopped_nsr
    |exact (Drivers.nsr_SCIPpropExec env set Hfr)
    |exact (Drivers.nsr_SCIPconshdlrPropagate env set Hfr)
    |exact (Drivers.nsr_SCIPnodeMarkPropagated env set Hfr)].
Qed.

Lemma updateEstimate_nsr s : nsr (updateEstimate s) = nsr s.
Proof.
  rewrite (Drivers.is_updateEstimate env Hsolve_c).
  apply (updateEstimate_frame env same_nsr);
    [reflexivity|exact same_nsr_trans|exact (Drivers.nsr_SCIPbranchcandGetLPCands env set Hfr)
    |exact (Drivers.nsr_SCIPnodeSetEstimate env set Hfr)].
Qed.

Lemma initConssLP_nsr r s : nsr (initConssLP r s).1 = nsr s.
Proof.
  rewrite (Drivers.is_initConssLP env Hsolve_c).
  apply (initConssLP_frame env same_nsr);
    [reflexivity|exact same_nsr_trans
    |exact (Drivers.nsr_SCIPsepastoreStartInitialLP env set Hfr)
    |exact (Drivers.nsr_SCIPconshdlrInitLP env set Hfr)
    |exact (Drivers.nsr_SCIPsepastoreApplyCuts env set Hfr)
    |exact (Drivers.nsr_SCIPsepastoreEndInitialLP env set Hfr)].
Qed.

Ltac with_frame :=
  pose proof SCIPsolveIsStopped_nsr as D1; pose proof SCIPprimalHeuristics_nsr as D2;
  pose proof propagateDomains_nsr as D3; pose proof updateEstimate_nsr as D4;
  pose proof initConssLP_nsr as D5;
  destruct Hfr as [F1 F2 F3 F4 F5 F6 F7 F8 F9 F10 F11 F12 F13 Fp Fs Fc
                   G1 G2 G3 G4 G5 G6 G7 G8].

Ltac settle :=
  unfold SCIPlpSetIsRelax, set_installing, set_solved, SCIPnodeUpdateLowerbound,
    SCIPtreeSetFocusNodeLP in *;
  repeat first
    [ rewrite nsr_with_lp | rewrite nsr_with_tree | rewrite nsr_set_npricerounds
    | rewrite nsr_set_nseparounds
    | match goal with
      | H : nsr _ = _ |- _ => rewrite H
      | F : forall s, nsr (_ s) = nsr s |- _ => rewrite F
      end ];
  try reflexivity; try lia.

Ltac call H e s1 a :=
  let Q := fresh "Hcall" in
  destruct e as [s1 a] eqn:Q; simpl in H;
  apply nsr_of_call in Q; [|solve [auto]].

Lemma call_pricers_nsr maxvars ps : forall s en ab lb cs s' out cs',
  Forall (fun p => forall s, nsr (SCIPpricerExec p s).1 = nsr s) ps ->
  call_pricers maxvars ps s en ab lb cs = (s', out, cs') -> nsr s' = nsr s.
Proof.
  induction ps as [|p ps IH]; intros s en ab lb cs s' out cs' Hps H; simpl in H.
  - inversion H; subst; reflexivity.
  - destruct en; [inversion H; subst; reflexivity|].
    inversion Hps as [|? ? Hp Hps']; subst.
    destruct (SCIPpricerExec p s) as [s1 [lb1 r1]] eqn:Hc. simpl in H.
    apply nsr_of_call in Hc; [|exact Hp].
    apply IH in H; [|exact Hps']. congruence.
Qed.

Lemma price_round_nsr pretendroot s pv s' pv' calls :
  price_round set pretendroot s pv = (s', pv', calls) -> nsr s' = nsr s.
Proof.
  with_frame. unfold price_round, external_pricing. intros H.
  destruct (SCIPprimalHeuristics SCIP_HEURTIMING_DURINGPRICINGLOOP s) as [s1 ?] eqn:H1.
  apply nsr_of_call in H1; [|solve [auto]].
  match type of H with context [call_pricers ?a ?b ?c ?d ?e ?f ?g] =>
    destruct (call_pricers a b c d e f g) as [[s2 [[en ab] lb]] cs] eqn:H2 end.
  apply call_pricers_nsr in H2;
    [|apply Forall_take; unfold SCIPsetSortPricers; apply Forall_sort_by; exact Fp].
  destruct (SCIPlpSolveAndEval true false _) as [s3 ?] eqn:H3.
  apply nsr_of_call in H3; [|solve [auto]].
  destruct (initConssLP pretendroot _) as [s4 ?] eqn:H4.
  apply nsr_of_call in H4; [|solve [auto]].
  destruct (SCIPlpSolveAndEval false false _) as [s5 ?] eqn:H5.
  apply nsr_of_call in H5; [|solve [auto]].
  inversion H; subst; clear H. settle.
Qed.

Lemma price_rounds_nsr pretendroot maxr fuel : forall s pv tr s' pv' tr',
  price_rounds fuel set pretendroot maxr s pv tr = Ok (s', pv', tr') -> nsr s' = nsr s.
Proof.
  with_frame.
  induction fuel as [|fuel IH]; intros s pv tr s' pv' tr' H; simpl in H.
  - destruct (negb (lperror pv) && mustprice pv && _); [discriminate|].
    inversion H; subst; reflexivity.
  - destruct (negb (lperror pv) && mustprice pv && _);
      [|inversion H; subst; reflexivity].
    destruct (SCIPsolveIsStopped false s) as [s1 st] eqn:H1.
    apply nsr_of_call in H1; [|solve [auto]].
    destruct st; [inversion H; subst; exact H1|].
    destruct (price_round set pretendroot s1 pv) as [[s2 pv2] calls] eqn:H2.
    apply price_round_nsr in H2. apply IH in H. congruence.
Qed.

Lemma SCIPpriceLoop_nsr fuel pretendroot displayinfo maxr s ms lb s' pv' tr' :
  SCIPpriceLoop fuel set pretendroot displayinfo maxr s ms lb = Ok (s', pv', tr') ->
  nsr s' = nsr s.
Proof.
  unfold SCIPpriceLoop. intros H.
  match type of H with context [price_rounds ?a ?b ?c ?d ?e ?f ?g] =>
    destruct (price_rounds a b c d e f g) as [[[s1 pv1] tr]| |] eqn:Hl end;
    simpl in H; try discriminate.
  apply price_rounds_nsr in Hl. inversion H; subst; clear H. settle.
Qed.

Lemma separationRoundResolveLP_nsr s sv s' sv' :
  separationRoundResolveLP s sv = (s', sv') -> nsr s' = nsr s.
Proof.
  with_frame. unfold separationRoundResolveLP. intros H.
  destruct (negb (sr_cutoff sv) && negb (flushed (lp s)));
    [|inversion H; subst; reflexivity].
  destruct (SCIPlpSolveAndEval true false s) as [s1 le] eqn:H1.
  apply nsr_of_call in H1; [|solve [auto]]. inversion H; subst; exact H1.
Qed.

Lemma sepa_call_body_nsr rt stop c s sv s' sv' ret :
  framed_call c ->
  sepa_call_body set rt stop c s sv = (s', sv', ret) -> nsr s' = nsr s.
Proof.
  unfold sepa_call_body. intros Hc H.
  destruct (sepa_exec c s) as [s1 r] eqn:H1. apply nsr_of_call in H1; [|exact Hc].
  destruct (separationRoundResolveLP s1 _) as [s2 sv2] eqn:H2.
  apply separationRoundResolveLP_nsr in H2.
  destruct (stop && found_cut r); inversion H; subst; congruence.
Qed.

Lemma sepa_loop_nsr rt stop cs : forall s sv s' sv' ret,
  Forall framed_call cs ->
  sepa_loop set rt stop cs s sv = (s', sv', ret) -> nsr s' = nsr s.
Proof.
  induction cs as [|c cs IH]; intros s sv s' sv' ret Hcs H; simpl in H.
  - inversion H; subst; reflexivity.
  - inversion Hcs as [|? ? Hc Hcs']; subst.
    destruct (negb (sepa_guard s sv)); [inversion H; subst; reflexivity|].
    destruct (sepa_skip c s); [eauto|].
    destruct (sepa_call_body set rt stop c s sv) as [[s1 sv1] r1] eqn:H1.
    apply sepa_call_body_nsr in H1; [|exact Hc].
    destruct r1; [inversion H; subst; exact H1|].
    apply IH in H; [|exact Hcs']. congruence.
Qed.

Lemma sepa_calls_framed nonneg d b o : Forall framed_call (sepa_calls set nonneg d b o).
Proof.
  with_frame. unfold sepa_calls, SCIPsetSortSepas. apply Forall_fmap.
  apply Forall_sort_by. eapply Forall_impl; [exact Fs|].
  intros sp Hsp s. apply Hsp.
Qed.

Lemma conshdlr_calls_framed d o c : Forall framed_call (conshdlr_calls set d o c).
Proof.
  with_frame. unfold conshdlr_calls. apply Forall_fmap.
  eapply Forall_impl; [exact Fc|]. intros h Hh s. apply Hh.
Qed.

Lemma consadded_loop_nsr rt d o fuel : forall s sv s' sv',
  consadded_loop fuel set rt d o s sv = Ok (s', sv') -> nsr s' = nsr s.
Proof.
  induction fuel as [|fuel IH]; intros s sv s' sv' H; simpl in H.
  - destruct (sr_consadded sv); [discriminate|]. inversion H; subst; reflexivity.
  - destruct (sr_consadded sv); [|inversion H; subst; reflexivity].
    destruct (sepa_loop set rt false _ s _) as [[s1 sv1] r1] eqn:H1.
    apply sepa_loop_nsr in H1; [|apply conshdlr_calls_framed].
    apply IH in H. congruence.
Qed.

Lemma separationRoundLP_nsr fuel d b o s c0 ms0 mp0 s' sv' :
  separationRoundLP fuel set d b o s c0 ms0 mp0 = Ok (s', sv') -> nsr s' = nsr s.
Proof.
  unfold separationRoundLP. intros H.
  destruct (sepa_loop set _ o (sepa_calls set true d b o) s _) as [[s1 sv1] r1] eqn:H1.
  apply sepa_loop_nsr in H1; [|apply sepa_calls_framed].
  destruct r1; [inversion H; subst; exact H1|].
  destruct (sepa_loop set _ o (conshdlr_calls set d o true) s1 sv1)
    as [[s2 sv2] r2] eqn:H2.
  apply sepa_loop_nsr in H2; [|apply conshdlr_calls_framed].
  destruct r2; [inversion H; subst; congruence|].
  destruct (sepa_loop set _ o (sepa_calls set false d b o) s2 sv2)
    as [[s3 sv3] r3] eqn:H3.
  apply sepa_loop_nsr in H3; [|apply sepa_calls_framed].
  destruct r3; [inversion H; subst; congruence|].
  apply consadded_loop_nsr in H. congruence.
Qed.

Lemma pricing_pass_nsr fuel k s v s' v' :
  pricing_pass fuel set k s v = Ok (s', v') -> nsr s' = nsr s.
Proof.
  with_frame. unfold pricing_pass. intros H.
  destruct (SCIPpriceLoop _ _ _ _ _ _ _ _) as [[[s1 p] tr]| |] eqn:H1; simpl in H;
    try discriminate.
  apply SCIPpriceLoop_nsr in H1.
  set (s2 := SCIPnodeUpdateLowerbound (lowerbound p) s1) in H.
  assert (nsr s2 = nsr s) as H2 by (subst s2; settle).
  set (s3 := if negb (lperror p) && negb (aborted p) then _ else s2) in H.
  assert (nsr s3 = nsr s) as H3
    by (subst s3; destruct (negb (lperror p) && negb (aborted p)); settle).
  clearbody s3. clear H2 s2 H1.
  destruct (if negb (lperror p) then _ else _) as [[[s4 c4] le4] mp4] eqn:H4.
  assert (nsr s4 = nsr s) as H4'.
  { destruct (negb (lperror p)); [|inversion H4; subst; exact H3].
    destruct (SCIPsetIsGT _ _ && SCIPsetIsLT _ _); [|inversion H4; subst; exact H3].
    destruct (propagateDomains _ 0 false s3) as [s5 c5] eqn:H5.
    apply nsr_of_call in H5; [|solve [auto]].
    destruct (negb (flushed (lp s5)) && negb c5); [|inversion H4; subst; congruence].
    destruct (SCIPlpSolveAndEval true false _) as [s6 le6] eqn:H6.
    apply nsr_of_call in H6; [|solve [auto]].
    inversion H4; subst. rewrite H6. destruct (root k); settle. }
  clear H4.
  destruct (if solstat_is SCIP_LPSOLSTAT_OPTIMAL s4 then _ else _) as [s7 le7] eqn:H7.
  assert (nsr s7 = nsr s) as H7'.
  { destruct (solstat_is SCIP_LPSOLSTAT_OPTIMAL s4); [|inversion H7; subst; exact H4'].
    destruct (SCIPprimalHeuristics SCIP_HEURTIMING_DURINGLPLOOP s4) as [s8 ?] eqn:H8.
    apply nsr_of_call in H8; [|solve [auto]]. inversion H7; subst. congruence. }
  inversion H; subst. exact H7'.
Qed.

Lemma pricing_passes_nsr budget k fuel : forall s v s' v',
  pricing_passes fuel budget set k s v = Ok (s', v') -> nsr s' = nsr s.
Proof.
  induction fuel as [|fuel IH]; intros s v s' v' H; simpl in H.
  - destruct (cl_mustprice v && negb (cl_lperror v)); [discriminate|].
    inversion H; subst; reflexivity.
  - destruct (cl_mustprice v && negb (cl_lperror v));
      [|inversion H; subst; reflexivity].
    destruct (pricing_pass budget set k s v) as [[s1 v1]| |] eqn:Hp; simpl in H;
      try discriminate.
    apply pricing_pass_nsr in Hp. apply IH in H. congruence.
Qed.

Lemma separation_decision_nsr k s v s' v' :
  separation_decision set k s v = (s', v') -> nsr s' = nsr s.
Proof.
  with_frame. unfold separation_decision. intros H.
  set (m1 := cl_mustsepa v && _ && _ && _) in H.
  set (d1 := cl_delayedsepa v && negb m1 && _) in H.
  destruct (if m1 || d1 then _ else _) as [s1 off] eqn:H1.
  assert (nsr s1 = nsr s).
  { destruct (m1 || d1); [|inversion H1; subst; reflexivity].
    destruct (negb (separate k) || _ || _); [inversion H1; subst; reflexivity|].
    destruct (root k); [|inversion H1; subst; reflexivity].
    apply nsr_of_call in H1; [exact H1|solve [auto]]. }
  inversion H; subst. assumption.
Qed.

Lemma separation_calls_nsr fuel k s v s' sv n :
  separation_calls fuel set k s v = Ok (s', sv, n) -> nsr s' = nsr s.
Proof.
  with_frame. unfold separation_calls. intros H.
  destruct (if negb _ && negb (cl_delayedsepa v) && poolfreq_matches set k then _ else _)
    as [[s1 c1] e1] eqn:H1.
  assert (nsr s1 = nsr s) as H1'.
  { destruct (negb _ && negb (cl_delayedsepa v) && poolfreq_matches set k);
      [|inversion H1; subst; reflexivity].
    destruct (SCIPcutpoolSeparate (root k) s) as [s2 r2] eqn:H2.
    apply nsr_of_call in H2; [|solve [auto]]. inversion H1; subst. exact H2. }
  clear H1.
  destruct (negb c1 && negb (cl_lperror v) && negb e1 && solved (lp s1)
            && lp_optimal_or_unbounded s1); [|inversion H; subst; exact H1'].
  destruct (separationRoundLP fuel set (actdepth k) (bounddist k) (cl_delayedsepa v) s1
              c1 false (cl_mustprice v)) as [[s3 sv3]| |] eqn:H3; simpl in H;
    try discriminate.
  apply separationRoundLP_nsr in H3.
  destruct (negb (sr_cutoff sv3) && _ && _ && _ && _ && _ && _);
    [|inversion H; subst; congruence].
  destruct (separationRoundLP fuel set (actdepth k) (bounddist k) (sr_delayed sv3) s3
              (sr_cutoff sv3) (sr_mustsepa sv3) (sr_mustprice sv3))
    as [[s4 sv4]| |] eqn:H4; simpl in H; try discriminate.
  apply separationRoundLP_nsr in H4. inversion H; subst. congruence.
Qed.

Lemma apply_separation_nsr k old s v sv s' v' stall :
  apply_separation set k old s v sv = (s', v', stall) -> nsr s' = nsr s.
Proof.
  with_frame. unfold apply_separation. intros H.
  destruct (sr_cutoff sv || sr_lperror sv || lp_stops_separation s);
    [inversion H; subst; settle|].
  destruct (SCIPsepastoreApplyCuts (root k) s) as [s1 c2] eqn:H1.
  apply nsr_of_call in H1; [|solve [auto]].
  destruct c2; [inversion H; subst; exact H1|].
  destruct (if negb (domchgcount (stat s1) =? old) then _ else _) as [s2 c3] eqn:H2.
  assert (nsr s2 = nsr s) as H2'.
  { destruct (negb (domchgcount (stat s1) =? old)); [|inversion H2; subst; exact H1].
    destruct (propagateDomains _ 0 false s1) as [s5 c5] eqn:H5.
    apply nsr_of_call in H5; [|solve [auto]].
    inversion H2; subst. destruct (root k); settle. }
  clear H2 H1.
  destruct c3; [inversion H; subst; exact H2'|].
  destruct (SCIPlpSolveAndEval true false s2) as [s3 le] eqn:H3.
  apply nsr_of_call in H3; [|solve [auto]].
  destruct (negb le && solstat_is SCIP_LPSOLSTAT_OPTIMAL s3);
    [|inversion H; subst; congruence].
  destruct (SCIPbranchcandGetLPCands s3) as [s4 nf] eqn:H4.
  apply nsr_of_call in H4; [|solve [auto]].
  destruct (stall_update _ _ _ _ _ _ _ _) as [[[n1 so1] sf1] i1].
  inversion H; subst; clear H. settle.
Qed.

(** One pass through the separation block adds one to the counter. *)
Lemma separation_block_nsr fuel k s v s' v' ev :
  separation_block fuel set k s v = Ok (s', v', ev) -> nsr s' = nsr s + 1.
Proof.
  unfold separation_block. intros H.
  destruct (separation_calls fuel set k s v) as [[[s1 sv] n]| |] eqn:H1; simpl in H;
    try discriminate.
  apply separation_calls_nsr in H1.
  destruct (apply_separation _ _ _ _ _ _) as [[s2 v2] stall] eqn:H2.
  apply apply_separation_nsr in H2. inversion H; subst; clear H.
  rewrite nsr_set_nseparounds. unfold nsr in *. lia.
Qed.

Lemma cut_loop_nsr budget k fuel : forall s v trace s' v' trace',
  cut_loop fuel budget set k s v trace = Ok (s', v', trace') ->
  exists new, trace' = trace ++ new /\ nsr s' = nsr s + Z.of_nat (length new).
Proof.
  induction fuel as [|fuel IH]; intros s v trace s' v' trace' H; simpl in H.
  - destruct (negb (cl_cutoff v) && negb (cl_lperror v) && _); [discriminate|].
    inversion H; subst. exists []. rewrite app_nil_r. simpl. split; [reflexivity|lia].
  - destruct (negb (cl_cutoff v) && negb (cl_lperror v) && _);
      [|inversion H; subst; exists []; rewrite app_nil_r; simpl;
        split; [reflexivity|lia]].
    destruct (pricing_passes budget budget set k s v) as [[s1 v1]| |] eqn:Hp;
      simpl in H; try discriminate.
    apply pricing_passes_nsr in Hp.
    destruct (separation_decision set k s1 v1) as [s2 v2] eqn:Hd.
    apply separation_decision_nsr in Hd.
    destruct (negb (cl_cutoff v2) && negb (cl_lperror v2) && cl_mustsepa v2).
    + destruct (separation_block budget set k s2 v2) as [[[s3 v3] ev]| |] eqn:Hb;
        simpl in H; try discriminate.
      apply separation_block_nsr in Hb.
      apply IH in H as (new & -> & Hn). exists (ev :: new).
      rewrite <- app_assoc. split; [reflexivity|].
      simpl length. lia.
    + apply IH in H as (new & -> & Hn). exists new. split; [reflexivity|]. lia.
Qed.

Lemma cutloop_exit_nsr k s v s' u :
  cutloop_exit set k s v = (s', u) -> nsr s' = nsr s.
Proof.
  with_frame. unfold cutloop_exit. intros H.
  destruct (cl_cutoff v); [inversion H; subst; settle|].
  destruct (negb (cl_lperror v)); [|inversion H; subst; settle].
  inversion H; subst; clear H.
  repeat match goal with |- context [if ?b then _ else _] => destruct b end; settle.
Qed.

Lemma separation_calls_at_most_two fuel k s v s' sv n :
  separation_calls fuel set k s v = Ok (s', sv, n) -> (n <= 2)%nat.
Proof.
  unfold separation_calls. intros H.
  destruct (negb _ && negb (cl_delayedsepa v) && poolfreq_matches set k).
  - destruct (SCIPcutpoolSeparate (root k) s) as [s1 r].
    destruct (negb _ && negb (cl_lperror v) && negb _ && solved (lp s1)
              && lp_optimal_or_unbounded s1); [|inversion H; lia].
    destruct (separationRoundLP _ _ _ _ _ _ _ _ _) as [[s2 sv2]| |]; simpl in H;
      try discriminate.
    destruct (negb (sr_cutoff sv2) && _ && _ && _ && _ && _ && _); [|inversion H; lia].
    destruct (separationRoundLP _ _ _ _ _ _ _ _ _) as [[s3 sv3]| |]; simpl in H;
      try discriminate.
    inversion H; lia.
  - destruct (negb _ && negb (cl_lperror v) && negb _ && solved (lp s)
              && lp_optimal_or_unbounded s); [|inversion H; lia].
    destruct (separationRoundLP _ _ _ _ _ _ _ _ _) as [[s2 sv2]| |]; simpl in H;
      try discriminate.
    destruct (negb (sr_cutoff sv2) && _ && _ && _ && _ && _ && _); [|inversion H; lia].
    destruct (separationRoundLP _ _ _ _ _ _ _ _ _) as [[s3 sv3]| |]; simpl in H;
      try discriminate.
    inversion H; lia.
Qed.

Lemma separation_block_calls fuel k s v s' v' ev :
  separation_block fuel set k s v = Ok (s', v', ev) ->
  (round_calls_of_separationRoundLP ev <= 2)%nat.
Proof.
  unfold separation_block. intros H.
  destruct (separation_calls fuel set k s v) as [[[s1 sv] n]| |] eqn:H1; simpl in H;
    try discriminate.
  apply separation_calls_at_most_two in H1.
  destruct (apply_separation _ _ _ _ _ _) as [[s2 v2] stall].
  inversion H; subst; clear H. exact H1.
Qed.

Lemma cut_loop_calls budget k fuel : forall s v trace s' v' trace',
  cut_loop fuel budget set k s v trace = Ok (s', v', trace') ->
  (separationRoundLP_calls trace <= 2 * length trace)%nat ->
  (separationRoundLP_calls trace' <= 2 * length trace')%nat.
Proof.
  induction fuel as [|fuel IH]; intros s v trace s' v' trace' H Ht; simpl in H.
  - destruct (negb (cl_cutoff v) && negb (cl_lperror v) && _); [discriminate|].
    inversion H; subst. exact Ht.
  - destruct (negb (cl_cutoff v) && negb (cl_lperror v) && _);
      [|inversion H; subst; exact Ht].
    destruct (pricing_passes budget budget set k s v) as [[s1 v1]| |];
      simpl in H; try discriminate.
    destruct (separation_decision set k s1 v1) as [s2 v2].
    destruct (negb (cl_cutoff v2) && negb (cl_lperror v2) && cl_mustsepa v2).
    + destruct (separation_block budget set k s2 v2) as [[[s3 v3] ev]| |] eqn:Hb;
        simpl in H; try discriminate.
      apply separation_block_calls in Hb.
      apply IH in H; [exact H|].
      unfold separationRoundLP_calls in *. rewrite foldr_app, length_app. simpl.
      revert Ht Hb. generalize (round_calls_of_separationRoundLP ev). intros c.
      clear. revert c. induction trace as [|e tr IHt]; intros c Ht Hb; simpl in *; [lia|].
      assert (foldr (fun ev n => (round_calls_of_separationRoundLP ev + n)%nat) 0%nat tr
              <= foldr (fun ev n => (round_calls_of_separationRoundLP ev + n)%nat) (c + 0)%nat tr
              <= foldr (fun ev n => (round_calls_of_separationRoundLP ev + n)%nat) 0%nat tr + c)%nat
        as Hm.
      { clear. induction tr as [|e tr IHt]; simpl; lia. }
      lia.
    + apply IH in H; assumption.
Qed.

(** C9 (amended).  With callees that leave [stat->nseparounds] alone, a call
    of the round function [separationRoundLP] leaves the counter as it is; a
    pass of the price-and-cut loop through its separation block adds exactly
    one to it and calls the round function at most twice; and over a whole
    run of the loop the counter grows by the number of these passes, which
    made at most twice as many calls of the round function. *)
Theorem priceAndCutLoop_counts_separation_rounds :
  (forall fuel d b o s c0 ms0 mp0 s' sv',
     separationRoundLP fuel set d b o s c0 ms0 mp0 = Ok (s', sv') ->
     nseparounds (stat s') = nseparounds (stat s))
  /\ (forall fuel k s v s' v' ev,
        separation_block fuel set k s v = Ok (s', v', ev) ->
        nseparounds (stat s') = nseparounds (stat s) + 1
        /\ (round_calls_of_separationRoundLP ev <= 2)%nat)
  /\ (forall fuel initiallpsolved s pricingaborted0 s' v' unbounded trace,
        priceAndCutLoop fuel set initiallpsolved s pricingaborted0
        = Ok (s', v', unbounded, trace) ->
        nseparounds (stat s') = nseparounds (stat s) + Z.of_nat (length trace)
        /\ (separationRoundLP_calls trace <= 2 * length trace)%nat).
Proof.
  split; [|split].
  - intros fuel d b o s c0 ms0 mp0 s' sv' H.
    exact (separationRoundLP_nsr _ _ _ _ _ _ _ _ _ _ H).
  - intros fuel k s v s' v' ev H. split.
    + exact (separation_block_nsr _ _ _ _ _ _ _ H).
    + exact (separation_block_calls _ _ _ _ _ _ _ H).
  - intros fuel initiallpsolved s pricingaborted0 s' v' unbounded trace.
    with_frame. unfold priceAndCutLoop. intros H.
    destruct (SCIPlpSolveAndEval true false s) as [s0 le0] eqn:H0.
    apply nsr_of_call in H0; [|solve [auto]].
    match type of H with context [cut_loop ?a ?b ?c ?d ?e ?f ?g] =>
      destruct (cut_loop a b c d e f g) as [[[s1 v1] tr]| |] eqn:Hloop end;
      simpl in H; try discriminate.
    pose proof (cut_loop_calls _ _ _ _ _ _ _ _ _ Hloop ltac:(simpl; lia)) as Hcalls.
    apply cut_loop_nsr in Hloop as (new & Hnew & Hloop). simpl in Hnew. subst new.
    destruct (cutloop_exit set _ s1 v1) as [s2 u] eqn:Hx.
    apply cutloop_exit_nsr in Hx. inversion H; subst; clear H.
    split; [|exact Hcalls].
    fold (nsr s') (nsr s). rewrite Hx, Hloop. settle.
Qed.

End Framed.

End CounterProofs.

(** The scripted worlds with the functions of solve.c leave the separation
    round counter alone when the plug-ins of the settings do. *)
Lemma linked_world_keeps_nseparounds lpsolve objval stopped allcols nlpcands branch set :
  Forall (fun p => forall s, Solve.nsr (Solve.SCIPpricerExec p s).1 = Solve.nsr s)
    (Solve.pricers set) ->
  Forall (fun sp => forall d b o s, Solve.nsr (Solve.SCIPsepaExecLP sp d b o s).1 = Solve.nsr s)
    (Solve.sepas set) ->
  Forall (fun h => forall d o s, Solve.nsr (Solve.SCIPconshdlrSeparateLP h d o s).1 = Solve.nsr s)
    (Solve.conshdlrs_sepa set) ->
  Drivers.nseparounds_untouched
    (ops := DriversRun.linked (Run.world lpsolve objval stopped allcols nlpcands branch))
    DriversRun.env set.
Proof.
  intros Hp Hs Hc.
  constructor; try assumption; try (intros; reflexivity);
    try (repeat constructor; fail).
  intros a b s. simpl. destruct (lpsolve (Solve.ext s)). reflexivity.
Qed.

(** C9 (amended), at the run with the delayed separator beside the one that
    adds a cut per round: six passes went through the separation block, the
    counter went from 0 to 6, and the round function was called 11 times. *)
Lemma priceAndCutLoop_counts_separation_rounds_witness :
  DriversRun.delayed_run = Ok DriversRun.delayed_out
  /\ Solve.nseparounds (Solve.stat Run.solver0) = 0
  /\ length DriversRun.delayed_out.2 = 6%nat
  /\ Solve.separationRoundLP_calls DriversRun.delayed_out.2 = 11%nat
  /\ Solve.nseparounds (Solve.stat DriversRun.delayed_out.1.1.1)
     = Solve.nseparounds (Solve.stat Run.solver0)
       + Z.of_nat (length DriversRun.delayed_out.2)
  /\ (Solve.separationRoundLP_calls DriversRun.delayed_out.2
      <= 2 * length DriversRun.delayed_out.2)%nat.
Proof.
  split; [vm_compute; reflexivity|]. split; [reflexivity|]. split; [reflexivity|].
  split; [reflexivity|].
  apply (proj2 (proj2
           (priceAndCutLoop_counts_separation_rounds (ops := DriversRun.flat)
              (Run.sepa_settings [Run.cutter; Run.late] 1) DriversRun.env
              (DriversRun_linked_is_solve_c Run.flat)
              (linked_world_keeps_nseparounds _ _ _ _ _ _
                 (Run.sepa_settings [Run.cutter; Run.late] 1)
                 ltac:(constructor)
                 ltac:(repeat constructor; intros d b o s; simpl;
                       repeat match goal with
                              | |- context [if ?c then _ else _] => destruct c
                              end;
                       reflexivity)
                 ltac:(constructor))))
           20%nat false Run.solver0 false DriversRun.delayed_out.1.1.1
           DriversRun.delayed_out.1.1.2 DriversRun.delayed_out.1.2 DriversRun.delayed_out.2).
  vm_compute; reflexivity.
Defined.

(** C9 (as stated) fails when a round is a call of the round function: in
    the run above the eleven calls of [separationRoundLP] raised the counter
    by six, and a pass through the separation block that calls the round
    function twice counts once. *)
Lemma priceAndCutLoop_rounds_claim_fails :
  DriversRun.delayed_run = Ok DriversRun.delayed_out
  /\ Solve.separationRoundLP_calls DriversRun.delayed_out.2 = 11%nat
  /\ Solve.nseparounds (Solve.stat Run.solver0) = 0
  /\ Solve.nseparounds (Solve.stat DriversRun.delayed_out.1.1.1) = 6
  /\ List.map Solve.round_calls_of_separationRoundLP DriversRun.delayed_out.2
     = [2; 2; 2; 2; 2; 1]%nat
  /\ Solve.rounds_claim Run.solver0 DriversRun.delayed_out.1.1.1 DriversRun.delayed_out.2
     = false.
Proof. repeat split; vm_compute; reflexivity. Qed.

(** ** The separation store is empty between the phases *)

Section StoreProofs.
Import Solve.
Context {E : Type} {ops : Collaborators E}.
Variable set : SCIP_SET E.
Variable env : Drivers.Surroundings E.
Hypothesis Hsolve_c : Drivers.solve_c_drivers env.
Hypothesis Hd : Drivers.sepastore_discipline env set.
Implicit Types (s : Solver E).

Local Abbreviation nc := SCIPsepastoreGetNCuts.

(** The functions of solve.c that the node solver calls leave an empty
    store empty: four of them as their callees do, and [initConssLP] and
    [solveNodeInitialLP] because they apply the cuts that
    [SCIPconshdlrInitLP] produced. *)
Local Abbreviation stays_empty := (fun s s' : Solver E => nc s = 0%nat -> nc s' = 0%nat).

Lemma stays_empty_trans s1 s2 s3 : stays_empty s1 s2 -> stays_empty s2 s3 -> stays_empty s1 s3.
Proof. simpl. auto. Qed.

Lemma SCIPsolveIsStopped_empty c : keeps_empty (SCIPsolveIsStopped c).
Proof.
  intros s. rewrite (Drivers.is_SCIPsolveIsStopped env Hsolve_c).
  apply (SCIPsolveIsStopped_frame env stays_empty). intros e s0 H. exact H.
Qed.

Lemma SCIPprimalHeuristics_empty t : keeps_empty (SCIPprimalHeuristics t).
Proof.
  intros s. rewrite (Drivers.is_SCIPprimalHeuristics env Hsolve_c).
  apply (SCIPprimalHeuristics_frame env stays_empty);
    [auto|exact stays_empty_trans|exact (Drivers.empty_SCIPheurExec env set Hd)].
Qed.

Lemma propagateDomains_empty d m f : keeps_empty (propagateDomains d m f).
Proof.
  intros s. destruct (Drivers.is_propagateDomains env Hsolve_c d m f s) as (fuel & l & H).
  eapply (propagateDomains_frame stays_empty);
    [auto|exact stays_empty_trans|exact SCIPsolveIsStopped_empty
    |exact (Drivers.empty_SCIPpropExec env set Hd)
    |exact (Drivers.empty_SCIPconshdlrPropagate env set Hd)
    |exact (Drivers.empty_SCIPnodeMarkPropagated env set Hd)
    |exact H].
Qed.

Lemma updateEstimate_empty : keeps_empty_ updateEstimate.
Proof.
  intros s. simpl. rewrite (Drivers.is_updateEstimate env Hsolve_c).
  apply (updateEstimate_frame env stays_empty);
    [auto|exact stays_empty_trans|exact (Drivers.empty_SCIPbranchcandGetLPCands env set Hd)
    |exact (Drivers.empty_SCIPnodeSetEstimate env set Hd)].
Qed.

Lemma initConssLP_applies_cuts r s : nc (Drivers.initConssLP env r s).1 = 0%nat.
Proof.
  unfold Drivers.initConssLP, InitialLP.initConssLP.
  match goal with |- context [Solve.SCIPsepastoreApplyCuts r ?x] =>
    pose proof (Drivers.cuts_applied env set Hd r x) as H;
    destruct (Solve.SCIPsepastoreApplyCuts r x) as [s2 cutoff] end.
  simpl in *. apply (Drivers.empty_SCIPsepastoreEndInitialLP env set Hd). exact H.
Qed.

Lemma initConssLP_empty r : keeps_empty (initConssLP r).
Proof.
  intros s _. rewrite (Drivers.is_initConssLP env Hsolve_c). apply initConssLP_applies_cuts.
Qed.

Lemma SCIPconstructCurrentLP_empty s :
  nc s = 0%nat -> nc (Drivers.SCIPconstructCurrentLP env s).1 = 0%nat.
Proof.
  intros Hs. unfold Drivers.SCIPconstructCurrentLP, InitialLP.SCIPconstructCurrentLP.
  destruct (negb _); simpl; [|exact Hs].
  destruct (Drivers.SCIPtreeLoadLP env s) as [s1 initroot]. unfold InitialLP.initLP.
  destruct initroot.
  - match goal with |- context [InitialLP.initConssLP ?W ?V ?C ?cs ?a ?b ?c ?d true ?x] =>
      pose proof (initConssLP_applies_cuts true x) as H2;
      unfold Drivers.initConssLP in H2;
      destruct (InitialLP.initConssLP W V C cs a b c d true x) as [[s2 cutoff] log2]
    end.
    exact H2.
  - pose proof (initConssLP_applies_cuts false s1) as H2. unfold Drivers.initConssLP in H2.
    destruct (InitialLP.initConssLP _ _ _ _ _ _ _ _ false s1) as [[s2 cutoff] log2].
    exact H2.
Qed.

Lemma solveNodeInitialLP_empty : keeps_empty solveNodeInitialLP.
Proof.
  intros s. rewrite (Drivers.is_solveNodeInitialLP env Hsolve_c).
  apply (solveNodeInitialLP_frame env stays_empty);
    [exact stays_empty_trans|intros e s0 H; exact H
    |exact SCIPconstructCurrentLP_empty
    |exact (Drivers.empty_SCIPtreeLoadLPState env set Hd)
    |exact (Drivers.empty_SCIPlpSolveAndEval env set Hd)
    |exact (Drivers.empty_process_FIRSTLPSOLVED_event env set Hd)].
Qed.

Lemma empty_call {A} (f : Solver E -> Solver E * A) s s1 a :
  keeps_empty f -> f s = (s1, a) -> nc s = 0%nat -> nc s1 = 0%nat.
Proof. intros Hf Hc Hs. specialize (Hf s Hs). rewrite Hc in Hf. exact Hf. Qed.

Lemma empty_step (f : Solver E -> Solver E) s :
  keeps_empty_ f -> nc s = 0%nat -> nc (f s) = 0%nat.
Proof. intros Hf Hs. exact (Hf s Hs). Qed.

#[local] Hint Resolve SCIPsolveIsStopped_empty SCIPprimalHeuristics_empty
  propagateDomains_empty updateEstimate_empty initConssLP_empty solveNodeInitialLP_empty : core.

Ltac discipline :=
  pose proof SCIPsolveIsStopped_empty as Dstop;
  pose proof SCIPprimalHeuristics_empty as Dheur;
  pose proof propagateDomains_empty as Dprop; pose proof updateEstimate_empty as Dest;
  pose proof initConssLP_empty as Dinit; pose proof solveNodeInitialLP_empty as Dlp;
  destruct Hd.
Ltac keep Q := eapply empty_call in Q; [|solve [eauto]|eassumption].
Ltac step := apply empty_step; [solve [eauto]|].

Lemma call_pricers_empty maxvars ps : forall s en ab lb cs s' out cs',
  Forall (fun p => keeps_empty (SCIPpricerExec p)) ps ->
  call_pricers maxvars ps s en ab lb cs = (s', out, cs') -> nc s = 0%nat -> nc s' = 0%nat.
Proof.
  induction ps as [|p ps IH]; intros s en ab lb cs s' out cs' Hps H Hs; simpl in H.
  - inversion H; subst; exact Hs.
  - destruct en; [inversion H; subst; exact Hs|].
    inversion Hps as [|? ? Hp Hps']; subst.
    destruct (SCIPpricerExec p s) as [s1 [lb1 r1]] eqn:Hc. simpl in H.
    keep Hc. eapply IH; eauto.
Qed.

Lemma price_round_empty pretendroot s pv s' pv' calls :
  price_round set pretendroot s pv = (s', pv', calls) -> nc s = 0%nat -> nc s' = 0%nat.
Proof.
  discipline. unfold price_round, external_pricing. intros H Hs.
  destruct (SCIPprimalHeuristics SCIP_HEURTIMING_DURINGPRICINGLOOP s) as [s1 ?] eqn:H1.
  keep H1.
  assert (nc (SCIPpricestoreAddProbVars s1) = 0%nat) as H1' by (step; exact H1).
  match type of H with context [call_pricers ?a ?b ?c ?d ?e ?f ?g] =>
    destruct (call_pricers a b c d e f g) as [[s2 [[en ab] lb]] cs] eqn:H2 end.
  apply call_pricers_empty in H2;
    [|apply Forall_take; unfold SCIPsetSortPricers; apply Forall_sort_by; assumption
     |exact H1'].
  assert (nc (SCIPpricestoreApplyVars s2) = 0%nat) as H2' by (step; exact H2).
  destruct (SCIPlpSolveAndEval true false _) as [s3 ?] eqn:H3. keep H3.
  assert (nc (SCIPpricestoreResetBounds s3) = 0%nat) as H3' by (step; exact H3).
  destruct (initConssLP pretendroot _) as [s4 ?] eqn:H4. keep H4.
  destruct (SCIPlpSolveAndEval false false _) as [s5 ?] eqn:H5. keep H5.
  inversion H; subst; clear H. exact H5.
Qed.

Lemma price_rounds_empty pretendroot maxr fuel : forall s pv tr s' pv' tr',
  price_rounds fuel set pretendroot maxr s pv tr = Ok (s', pv', tr') ->
  nc s = 0%nat -> nc s' = 0%nat.
Proof.
  discipline.
  induction fuel as [|fuel IH]; intros s pv tr s' pv' tr' H Hs; simpl in H.
  - destruct (negb (lperror pv) && mustprice pv && _); [discriminate|].
    inversion H; subst; exact Hs.
  - destruct (negb (lperror pv) && mustprice pv && _);
      [|inversion H; subst; exact Hs].
    destruct (SCIPsolveIsStopped false s) as [s1 st] eqn:H1. keep H1.
    destruct st; [inversion H; subst; exact H1|].
    destruct (price_round set pretendroot s1 pv) as [[s2 pv2] calls] eqn:H2.
    apply price_round_empty in H2; [|exact H1]. eauto.
Qed.

Lemma SCIPpriceLoop_empty fuel pretendroot displayinfo maxr s ms lb s' pv' tr' :
  SCIPpriceLoop fuel set pretendroot displayinfo maxr s ms lb = Ok (s', pv', tr') ->
  nc s = 0%nat -> nc s' = 0%nat.
Proof.
  unfold SCIPpriceLoop. intros H Hs.
  match type of H with context [price_rounds ?a ?b ?c ?d ?e ?f ?g] =>
    destruct (price_rounds a b c d e f g) as [[[s1 pv1] tr]| |] eqn:Hl end;
    simpl in H; try discriminate.
  apply price_rounds_empty in Hl; [|exact Hs]. inversion H; subst; clear H. exact Hl.
Qed.

Lemma pricing_pass_empty fuel k s v s' v' :
  pricing_pass fuel set k s v = Ok (s', v') -> nc s = 0%nat -> nc s' = 0%nat.
Proof.
  discipline. unfold pricing_pass. intros H Hs.
  destruct (SCIPpriceLoop _ _ _ _ _ _ _ _) as [[[s1 p] tr]| |] eqn:H1; simpl in H;
    try discriminate.
  apply SCIPpriceLoop_empty in H1; [|exact Hs].
  set (s2 := SCIPnodeUpdateLowerbound (lowerbound p) s1) in H.
  assert (nc s2 = 0%nat) as H2 by exact H1.
  set (s3 := if negb (lperror p) && negb (aborted p) then _ else s2) in H.
  assert (nc s3 = 0%nat) as H3
    by (subst s3; destruct (negb (lperror p) && negb (aborted p)); [step; step|];
        exact H2).
  clearbody s3. clear H2 s2 H1.
  destruct (if negb (lperror p) then _ else _) as [[[s4 c4] le4] mp4] eqn:H4.
  assert (nc s4 = 0%nat) as H4'.
  { destruct (negb (lperror p)); [|inversion H4; subst; exact H3].
    destruct (SCIPsetIsGT _ _ && SCIPsetIsLT _ _); [|inversion H4; subst; exact H3].
    destruct (propagateDomains _ 0 false s3) as [s5 c5] eqn:H5. keep H5.
    destruct (negb (flushed (lp s5)) && negb c5); [|inversion H4; subst; exact H5].
    destruct (SCIPlpSolveAndEval true false _) as [s6 le6] eqn:H6.
    eapply empty_call in H6; [|solve [eauto]|].
    - inversion H4; subst. exact H6.
    - destruct (root k); [step; step|]; exact H5. }
  clear H4.
  destruct (if solstat_is SCIP_LPSOLSTAT_OPTIMAL s4 then _ else _) as [s7 le7] eqn:H7.
  assert (nc s7 = 0%nat) as H7'.
  { destruct (solstat_is SCIP_LPSOLSTAT_OPTIMAL s4); [|inversion H7; subst; exact H4'].
    destruct (SCIPprimalHeuristics SCIP_HEURTIMING_DURINGLPLOOP s4) as [s8 ?] eqn:H8.
    keep H8. inversion H7; subst. exact H8. }
  inversion H; subst. exact H7'.
Qed.

Lemma pricing_passes_empty budget k fuel : forall s v s' v',
  pricing_passes fuel budget set k s v = Ok (s', v') -> nc s = 0%nat -> nc s' = 0%nat.
Proof.
  induction fuel as [|fuel IH]; intros s v s' v' H Hs; simpl in H.
  - destruct (cl_mustprice v && negb (cl_lperror v)); [discriminate|].
    inversion H; subst; exact Hs.
  - destruct (cl_mustprice v && negb (cl_lperror v));
      [|inversion H; subst; exact Hs].
    destruct (pricing_pass budget set k s v) as [[s1 v1]| |] eqn:Hp; simpl in H;
      try discriminate.
    apply pricing_pass_empty in Hp; [|exact Hs]. eauto.
Qed.

Lemma separation_decision_empty k s v s' v' :
  separation_decision set k s v = (s', v') -> nc s = 0%nat -> nc s' = 0%nat.
Proof.
  discipline. unfold separation_decision. intros H Hs.
  set (m1 := cl_mustsepa v && _ && _ && _) in H.
  set (d1 := cl_delayedsepa v && negb m1 && _) in H.
  destruct (if m1 || d1 then _ else _) as [s1 off] eqn:H1.
  assert (nc s1 = 0%nat).
  { destruct (m1 || d1); [|inversion H1; subst; exact Hs].
    destruct (negb (separate k) || _ || _); [inversion H1; subst; exact Hs|].
    destruct (root k); [|inversion H1; subst; exact Hs].
    keep H1. exact H1. }
  inversion H; subst. assumption.
Qed.

(** Whatever the separators left in the store, it is empty after the cuts
    were cleared or applied. *)
Lemma apply_separation_empty k old s v sv s' v' stall :
  apply_separation set k old s v sv = (s', v', stall) -> nc s' = 0%nat.
Proof.
  discipline. unfold apply_separation. intros H.
  destruct (sr_cutoff sv || sr_lperror sv || lp_stops_separation s);
    [inversion H; subst; auto|].
  destruct (SCIPsepastoreApplyCuts (root k) s) as [s1 c2] eqn:H1.
  assert (nc s1 = 0%nat) as H1'
    by (match goal with F : forall r s, nc (SCIPsepastoreApplyCuts r s).1 = 0%nat |- _ =>
          specialize (F (root k) s); rewrite H1 in F; exact F end).
  clear H1.
  destruct c2; [inversion H; subst; exact H1'|].
  destruct (if negb (domchgcount (stat s1) =? old) then _ else _) as [s2 c3] eqn:H2.
  assert (nc s2 = 0%nat) as H2'.
  { destruct (negb (domchgcount (stat s1) =? old)); [|inversion H2; subst; exact H1'].
    destruct (propagateDomains _ 0 false s1) as [s5 c5] eqn:H5. keep H5.
    inversion H2; subst. destruct (root k); [step; step|]; exact H5. }
  clear H2 H1'.
  destruct c3; [inversion H; subst; exact H2'|].
  destruct (SCIPlpSolveAndEval true false s2) as [s3 le] eqn:H3. keep H3.
  destruct (negb le && solstat_is SCIP_LPSOLSTAT_OPTIMAL s3);
    [|inversion H; subst; exact H3].
  destruct (SCIPbranchcandGetLPCands s3) as [s4 nf] eqn:H4. keep H4.
  destruct (stall_update _ _ _ _ _ _ _ _) as [[[n1 so1] sf1] i1].
  inversion H; subst; clear H. exact H4.
Qed.

Lemma separation_block_empty fuel k s v s' v' ev :
  separation_block fuel set k s v = Ok (s', v', ev) -> nc s' = 0%nat.
Proof.
  unfold separation_block. intros H.
  destruct (separation_calls fuel set k s v) as [[[s1 sv] n]| |] eqn:H1; simpl in H;
    try discriminate.
  destruct (apply_separation _ _ _ _ _ _) as [[s2 v2] stall] eqn:H2.
  apply apply_separation_empty in H2. inversion H; subst; clear H. exact H2.
Qed.

Lemma cut_loop_empty budget k fuel : forall s v trace s' v' trace',
  cut_loop fuel budget set k s v trace = Ok (s', v', trace') ->
  nc s = 0%nat -> nc s' = 0%nat.
Proof.
  induction fuel as [|fuel IH]; intros s v trace s' v' trace' H Hs; simpl in H.
  - destruct (negb (cl_cutoff v) && negb (cl_lperror v) && _); [discriminate|].
    inversion H; subst. exact Hs.
  - destruct (negb (cl_cutoff v) && negb (cl_lperror v) && _);
      [|inversion H; subst; exact Hs].
    destruct (pricing_passes budget budget set k s v) as [[s1 v1]| |] eqn:Hp;
      simpl in H; try discriminate.
    apply pricing_passes_empty in Hp; [|exact Hs].
    destruct (separation_decision set k s1 v1) as [s2 v2] eqn:Hdec.
    apply separation_decision_empty in Hdec; [|exact Hp].
    destruct (negb (cl_cutoff v2) && negb (cl_lperror v2) && cl_mustsepa v2).
    + destruct (separation_block budget set k s2 v2) as [[[s3 v3] ev]| |] eqn:Hb;
        simpl in H; try discriminate.
      apply separation_block_empty in Hb. eauto.
    + eauto.
Qed.

Lemma cutloop_exit_empty k s v s' u :
  cutloop_exit set k s v = (s', u) -> nc s = 0%nat -> nc s' = 0%nat.
Proof.
  discipline. unfold cutloop_exit. intros H Hs.
  destruct (cl_cutoff v); [inversion H; subst; exact Hs|].
  destruct (negb (cl_lperror v)); [|inversion H; subst; exact Hs].
  inversion H; subst; clear H.
  assert (nc (updateEstimate (SCIPnodeUpdateLowerboundLP s)) = 0%nat) as H1
    by (step; step; exact Hs).
  revert H1. generalize (updateEstimate (SCIPnodeUpdateLowerboundLP s)). intros s1 H1.
  match goal with |- context [if ?b then process_LPSOLVED_event s1 else s1] =>
    assert (nc (if b then process_LPSOLVED_event s1 else s1) = 0%nat) as H2
      by (destruct b; [step|]; exact H1);
    revert H2; generalize (if b then process_LPSOLVED_event s1 else s1)
  end.
  intros s2 H2.
  match goal with |- context [if ?b then SCIPconflictAnalyzeLP s2 else s2] =>
    destruct b; [change (nc (SCIPconflictAnalyzeLP s2) = 0%nat); step|]; exact H2
  end.
Qed.

Lemma priceAndCutLoop_empty fuel initiallpsolved s pricingaborted0 s' v' unbounded trace :
  priceAndCutLoop fuel set initiallpsolved s pricingaborted0 = Ok (s', v', unbounded, trace) ->
  nc s = 0%nat -> nc s' = 0%nat.
Proof.
  discipline. unfold priceAndCutLoop. intros H Hs.
  destruct (SCIPlpSolveAndEval true false s) as [s0 le0] eqn:H0. keep H0.
  match type of H with context [cut_loop ?a ?b ?c ?d ?e ?f ?g] =>
    destruct (cut_loop a b c d e f g) as [[[s1 v1] tr]| |] eqn:Hl end;
    simpl in H; try discriminate.
  apply cut_loop_empty in Hl; [|exact H0].
  destruct (cutloop_exit set _ s1 v1) as [s2 u] eqn:Hx.
  apply cutloop_exit_empty in Hx; [|exact Hl]. inversion H; subst; clear H. exact Hx.
Qed.

Lemma applyBounding_empty c s s' c' :
  applyBounding set c s = (s', c') -> nc s = 0%nat -> nc s' = 0%nat.
Proof.
  destruct Hd. unfold applyBounding. intros H Hs.
  destruct (negb c); [|inversion H; subst; exact Hs].
  match type of H with context [if ?b then _ else _] => destruct b end;
    [|inversion H; subst; exact Hs].
  inversion H; subst; clear H.
  match goal with |- context [if ?b then _ else _] => destruct b end; [|exact Hs].
  apply empty_step; [assumption|exact Hs].
Qed.

Lemma initial_lp_phase_empty n0 i0 s f s' f' :
  initial_lp_phase set n0 i0 s f = (s', f') -> nc s = 0%nat -> nc s' = 0%nat.
Proof.
  discipline. unfold initial_lp_phase. intros H Hs.
  destruct (solveNodeInitialLP s) as [s1 [c1 le1]] eqn:H1. keep H1.
  set (s2 := add_initlps _ _ s1) in H.
  assert (nc s2 = 0%nat) as H2 by exact H1. clearbody s2. clear H1.
  match type of H with (if ?b then _ else _) = _ => destruct b end;
    [|inversion H; subst; exact H2].
  destruct (SCIPsolveIsStopped false s2) as [s3 st] eqn:H3. keep H3.
  destruct (negb st); [|inversion H; subst; exact H3].
  destruct (try_LP_solution _ s3) as [s4 stored] eqn:H4. keep H4.
  destruct (if stored && SCIPprobAllColsInLP s4 then _ else _) as [s5 c5] eqn:H5.
  assert (nc s5 = 0%nat) as H5'.
  { destruct (stored && SCIPprobAllColsInLP s4); [|inversion H5; subst; exact H4].
    eapply applyBounding_empty; [exact H5|]. step. exact H4. }
  inversion H; subst. exact H5'.
Qed.

Lemma resolve_without_cutoffbound_empty s f s' f' :
  resolve_without_cutoffbound s f = (s', f') -> nc s = 0%nat -> nc s' = 0%nat.
Proof.
  discipline. unfold resolve_without_cutoffbound. intros H Hs.
  destruct (SCIPlpSolveAndEval false false _) as [s1 le] eqn:H1.
  eapply empty_call in H1; [|solve [eauto]|exact Hs].
  inversion H; subst. exact H1.
Qed.

(** [solveNodeLP] returns with an empty store when it was called with one
    (the assertions of lines 1703 and 2037). *)
Lemma solveNodeLP_empty fuel initiallpsolved s f s' f' :
  solveNodeLP fuel set initiallpsolved s f = Ok (s', f') -> nc s = 0%nat -> nc s' = 0%nat.
Proof.
  unfold solveNodeLP. intros H Hs.
  destruct (if negb initiallpsolved then _ else _) as [s1 f1] eqn:H1.
  assert (nc s1 = 0%nat) as H1'.
  { destruct (negb initiallpsolved); [|inversion H1; subst; exact Hs].
    eapply initial_lp_phase_empty; eauto. }
  clear H1.
  match type of H with context [mbind _ ?m] =>
    destruct m as [[s2 f2]| |] eqn:H2 end; simpl in H; try discriminate.
  assert (nc s2 = 0%nat) as H2'.
  { destruct (negb (nl_cutoff f1) && negb (nl_lperror f1));
      [|inversion H2; subst; exact H1'].
    destruct (priceAndCutLoop fuel set initiallpsolved s1 _)
      as [[[[s3 v3] u3] tr3]| |] eqn:H3; simpl in H2; try discriminate.
    apply priceAndCutLoop_empty in H3; [|exact H1']. inversion H2; subst. exact H3. }
  clear H2.
  destruct (if must_resolve_without_cutoffbound s2 f2 then _ else _) as [s4 f4] eqn:H4.
  assert (nc s4 = 0%nat) as H4'.
  { destruct (must_resolve_without_cutoffbound s2 f2); [|inversion H4; subst; exact H2'].
    eapply resolve_without_cutoffbound_empty; eauto. }
  inversion H; subst; clear H.
  destruct (SCIPnodeGetDepth _ =? 0); exact H4'.
Qed.

(** *** The node loop, for any LP solver that keeps the store empty *)

Section NodeLoop.
Variable solveLP : bool -> Solver E -> NodeLPFlags -> Res (Solver E * NodeLPFlags).
Hypothesis Hlp : forall i s f s' f',
  nc s = 0%nat -> solveLP i s f = Ok (s', f') -> nc s' = 0%nat.
Implicit Types (v : NodeVars).

Lemma bound_empty s v s' v' :
  bound set s v = (s', v') -> nc s = 0%nat -> nc s' = 0%nat.
Proof.
  unfold bound. intros H Hs.
  destruct (applyBounding set (n_cutoff v) s) as [s1 c] eqn:Hb.
  inversion H; subst. eapply applyBounding_empty; eauto.
Qed.

(** After [applyCuts] the store is empty, whatever it held before. *)
Lemma applyCuts_empty r s f s' f' :
  applyCuts r s f = (s', f') -> nc s' = 0%nat.
Proof.
  destruct Hd. unfold applyCuts. intros H.
  destruct (fl_cutoff f); [inversion H; subst; auto|].
  destruct (0 <? nc s)%nat eqn:Hn.
  - destruct (SCIPsepastoreApplyCuts r s) as [s1 c] eqn:Ha.
    inversion H; subst. specialize (cuts_applied r s). rewrite Ha in cuts_applied.
    exact cuts_applied.
  - inversion H; subst. apply Nat.ltb_ge in Hn. lia.
Qed.

Lemma cuts_bound_status_empty depth s v s' v' :
  cuts_bound_status set depth s v = (s', v') -> nc s' = 0%nat.
Proof.
  unfold cuts_bound_status. intros H.
  destruct (applyCuts _ s _) as [s1 f1] eqn:Ha. apply applyCuts_empty in Ha.
  destruct (bound set s1 _) as [s2 v2] eqn:Hb. apply bound_empty in Hb; [|exact Ha].
  inversion H; subst. exact Hb.
Qed.

Lemma markRelaxsUnsolved_empty s : nc s = 0%nat -> nc (markRelaxsUnsolved set s) = 0%nat.
Proof.
  destruct Hd. unfold markRelaxsUnsolved. intros Hs.
  assert (nc (SCIPrelaxationSetSolValid false s) = 0%nat) as H0
    by (apply empty_step; auto).
  revert H0. generalize (SCIPrelaxationSetSolValid false s).
  induction empty_SCIPrelaxMarkUnsolved as [|r rs Hr Hrs IH]; intros s0 H0; simpl;
    [exact H0|].
  apply IH. apply empty_step; assumption.
Qed.

Lemma node_propagation_empty depth s v s' v' :
  node_propagation set depth s v = (s', v') -> nc s = 0%nat -> nc s' = 0%nat.
Proof.
  unfold node_propagation. intros H Hs.
  destruct (bound set s _) as [s1 v1] eqn:Hb. apply bound_empty in Hb; [|exact Hs].
  destruct (n_propagate v1 && negb (n_cutoff v1)); [|inversion H; subst; exact Hb].
  destruct (propagateDomains _ 0 _ s1) as [s2 c] eqn:Hp.
  eapply empty_call in Hp; [|destruct Hd; auto|exact Hb].
  eapply bound_empty; eauto.
Qed.

Lemma node_heur_afterprop_empty s v s' v' :
  node_heur_afterprop s v = (s', v') -> nc s = 0%nat -> nc s' = 0%nat.
Proof.
  unfold node_heur_afterprop. intros H Hs.
  destruct (negb (n_cutoff v) && negb (SCIPtreeProbing s)); [|inversion H; subst; exact Hs].
  destruct (SCIPprimalHeuristics _ s) as [s1 fs] eqn:Hh.
  eapply empty_call in Hh; [|destruct Hd; auto|exact Hs].
  inversion H; subst. exact Hh.
Qed.

Lemma node_relax_empty depth beforelp s v s' v' :
  node_relax set depth beforelp s v = Ok (s', v') -> nc s = 0%nat -> nc s' = 0%nat.
Proof.
  unfold node_relax. intros H Hs.
  destruct (n_solverelax v && negb (n_cutoff v)); [|inversion H; subst; exact Hs].
  destruct (solveNodeRelax set depth beforelp _ _) as [[s1 f1]| |]; simpl in H;
    try discriminate.
  destruct (applyCuts _ s1 _) as [s2 f2] eqn:Ha. apply applyCuts_empty in Ha.
  destruct (bound set s2 _) as [s3 v3] eqn:Hb. apply bound_empty in Hb; [|exact Ha].
  inversion H; subst. exact Hb.
Qed.

Lemma lp_error_fallback_empty s v s' v' :
  lp_error_fallback s v = Ok (s', v') -> nc s' = nc s.
Proof.
  unfold lp_error_fallback. destruct (n_forcedlpsolve v); [discriminate|].
  intros H; inversion H; subst. reflexivity.
Qed.

Lemma node_lp_solve_empty depth s v s' v' :
  node_lp_solve solveLP set depth s v = Ok (s', v') -> nc s = 0%nat -> nc s' = 0%nat.
Proof.
  unfold node_lp_solve. intros H Hs.
  destruct (solveLP _ s _) as [[s1 f1]| |] eqn:Hl; simpl in H; try discriminate.
  apply Hlp in Hl; [|exact Hs].
  match type of H with context [mbind _ ?m] =>
    destruct m as [[s2 v2]| |] eqn:Hf end; simpl in H; try discriminate.
  assert (nc s2 = 0%nat) as H2.
  { match type of Hf with (if ?b then _ else _) = _ => destruct b end.
    - apply lp_error_fallback_empty in Hf. congruence.
    - inversion Hf; subst. exact Hl. }
  clear Hf.
  repeat match type of H with context [if ?b then _ else _] => destruct b end;
    inversion H; subst; exact H2.
Qed.

Lemma node_lp_empty depth s v s' v' :
  node_lp solveLP set depth s v = Ok (s', v') -> nc s = 0%nat -> nc s' = 0%nat.
Proof.
  unfold node_lp. intros H Hs.
  destruct (node_solves_lp s v); [|inversion H; subst; exact Hs].
  destruct (node_lp_solve solveLP set depth s v) as [[s1 v1]| |] eqn:Hl; simpl in H;
    try discriminate.
  apply node_lp_solve_empty in Hl; [|exact Hs].
  destruct (bound set s1 v1) as [s2 v2] eqn:Hb. apply bound_empty in Hb; [|exact Hl].
  inversion H; subst. exact Hb.
Qed.

Lemma node_heur_afterlp_empty depth s v s' v' :
  node_heur_afterlp set depth s v = (s', v') -> nc s = 0%nat -> nc s' = 0%nat.
Proof.
  unfold node_heur_afterlp. intros H Hs.
  match type of H with context [if ?b then _ else _] => destruct b end;
    [|inversion H; subst; exact Hs].
  match type of H with context [if ?b then let '(_, _) := _ in _ else _] =>
    destruct b end;
    destruct (SCIPprimalHeuristics _ s) as [s2 f2] eqn:Hc;
    (eapply empty_call in Hc; [|destruct Hd; auto|exact Hs]);
    eapply bound_empty; eauto.
Qed.

Lemma node_after_heur_empty s v s' v' :
  node_after_heur set s v = Ok (s', v') -> nc s = 0%nat -> nc s' = 0%nat.
Proof.
  unfold node_after_heur. intros H Hs.
  destruct (resolvelperror (lp s)).
  - destruct (lp_error_fallback s v) as [[s1 v1]| |] eqn:Hf; simpl in H; try discriminate.
    apply lp_error_fallback_empty in Hf.
    destruct (n_foundsol v1); inversion H; subst;
      [apply markRelaxsUnsolved_empty|]; congruence.
  - simpl in H. destruct (n_foundsol v); inversion H; subst;
      [apply markRelaxsUnsolved_empty|]; assumption.
Qed.

Lemma node_enforce_empty depth s v s' v' :
  node_enforce set depth s v = Ok (s', v') -> nc s = 0%nat -> nc s' = 0%nat.
Proof.
  unfold node_enforce. intros H Hs.
  match type of H with context [if ?b then _ else Ok (s, _)] => destruct b end;
    [|inversion H; subst; exact Hs].
  destruct (enforceConstraints set s _ _) as [[[s1 ef] tr]| |]; simpl in H;
    try discriminate.
  destruct (cuts_bound_status set depth s1 _) as [s2 v2] eqn:Hc.
  apply cuts_bound_status_empty in Hc. inversion H; subst. exact Hc.
Qed.

Lemma node_aborted_pricing_empty s v s' v' :
  node_aborted_pricing s v = (s', v') -> nc s = 0%nat -> nc s' = 0%nat.
Proof.
  unfold node_aborted_pricing. intros H Hs.
  match type of H with context [if ?b then _ else _] => destruct b end;
    [|inversion H; subst; exact Hs].
  destruct (try_current_solution s) as [s1 st] eqn:Ht.
  eapply empty_call in Ht; [|destruct Hd; auto|exact Hs].
  inversion H; subst. exact Ht.
Qed.

Lemma node_branch_empty depth s v s' v' :
  node_branch set depth s v = Ok (s', v') -> nc s = 0%nat -> nc s' = 0%nat.
Proof.
  unfold node_branch. intros H Hs.
  match type of H with context [if ?b then _ else Ok (s, _)] => destruct b end;
    [|inversion H; subst; exact Hs].
  destruct (node_branching_result s) as [[s1 n] r].
  match type of H with context [mbind _ ?m] =>
    destruct m as [[s2 v2]| |] end; simpl in H; try discriminate.
  destruct (cuts_bound_status set depth s2 v2) as [s3 v3] eqn:Hc.
  apply cuts_bound_status_empty in Hc. inversion H; subst. exact Hc.
Qed.

Lemma node_before_lp_empty depth s v s' v' :
  node_before_lp set depth s v = Ok (s', v') -> nc s = 0%nat -> nc s' = 0%nat.
Proof.
  unfold node_before_lp. intros H Hs.
  destruct (node_propagation set depth s v) as [s1 v1] eqn:H1.
  apply node_propagation_empty in H1; [|exact Hs].
  destruct (node_heur_afterprop s1 v1) as [s2 v2] eqn:H2.
  apply node_heur_afterprop_empty in H2; [|exact H1].
  eapply node_relax_empty; eauto.
Qed.

Lemma node_after_lp_empty depth s v s' v' :
  node_after_lp set depth s v = Ok (s', v') -> nc s = 0%nat -> nc s' = 0%nat.
Proof.
  unfold node_after_lp. intros H Hs.
  destruct (node_relax set depth false s v) as [[s5 v5]| |] eqn:H5; simpl in H;
    try discriminate.
  apply node_relax_empty in H5; [|exact Hs].
  destruct (node_heur_afterlp set depth s5 v5) as [s6 v6] eqn:H6.
  apply node_heur_afterlp_empty in H6; [|exact H5].
  destruct (node_after_heur set s6 v6) as [[s7 v7]| |] eqn:H7; simpl in H;
    try discriminate.
  apply node_after_heur_empty in H7; [|exact H6].
  destruct (node_enforce set depth s7 v7) as [[s8 v8]| |] eqn:H8; simpl in H;
    try discriminate.
  apply node_enforce_empty in H8; [|exact H7].
  destruct (node_aborted_pricing s8 v8) as [s9 v9] eqn:H9.
  apply node_aborted_pricing_empty in H9; [|exact H8].
  destruct (node_branch set depth s9 v9) as [[s10 v10]| |] eqn:H10; simpl in H;
    try discriminate.
  apply node_branch_empty in H10; [|exact H9].
  inversion H; subst. exact H10.
Qed.

(** A pass of the node loop that starts with an empty store ends with an
    empty store. *)
Lemma node_pass_empty depth s v s' v' :
  node_pass solveLP set depth s v = Ok (s', v') -> nc s = 0%nat -> nc s' = 0%nat.
Proof.
  unfold node_pass. intros H Hs.
  destruct (node_before_lp set depth s v) as [[s3 v3]| |] eqn:H3; simpl in H;
    try discriminate.
  apply node_before_lp_empty in H3; [|exact Hs].
  destruct (node_lp solveLP set depth s3 v3) as [[s4 v4]| |] eqn:H4; simpl in H;
    try discriminate.
  apply node_lp_empty in H4; [|exact H3].
  eapply node_after_lp_empty; eauto.
Qed.

Lemma node_loop_empty depth fuel : forall s v s' v',
  node_loop fuel solveLP set depth s v = Ok (s', v') -> nc s = 0%nat -> nc s' = 0%nat.
Proof.
  induction fuel as [|fuel IH]; intros s v s' v' H Hs; simpl in H.
  - destruct (node_loop_continues v); [discriminate|]. inversion H; subst; exact Hs.
  - destruct (node_loop_continues v); [|inversion H; subst; exact Hs].
    destruct (node_pass solveLP set depth s v) as [[s1 v1]| |] eqn:Hp; simpl in H;
      try discriminate.
    apply node_pass_empty in Hp; [|exact Hs]. eauto.
Qed.

Lemma node_entry_empty s s' v' :
  node_entry set s = (s', v') -> nc s = 0%nat -> nc s' = 0%nat.
Proof.
  unfold node_entry. intros H Hs.
  set (s1 := SCIPbranchcandClearExternCands (SCIPrelaxationSetSolValid false s)) in H.
  assert (nc s1 = 0%nat) as H1
    by (subst s1; destruct Hd; apply empty_step; [|apply empty_step]; auto).
  clearbody s1.
  destruct (SCIPprimalHeuristics _ _) as [s2 fs] eqn:Hh.
  eapply empty_call in Hh; [|destruct Hd; auto|exact H1].
  inversion H; subst; clear H.
  destruct (resolvelperror (lp s2)); exact Hh.
Qed.

Lemma node_exit_empty depth s v s' v' :
  node_exit set depth s v = Ok (s', v') -> nc s = 0%nat -> nc s' = 0%nat.
Proof.
  unfold node_exit. intros H Hs.
  assert (nc (SCIPconflictFlushConss s) = 0%nat) as H1
    by (destruct Hd; apply empty_step; auto).
  revert H. generalize dependent (SCIPconflictFlushConss s). intros s1 H1 H.
  destruct (MAXNLPERRORS <=? n_nlperrors v); [discriminate|].
  match type of H with context [if ?b then SCIPprobStoreRootSol ?x s1 else s1] =>
    assert (nc (if b then SCIPprobStoreRootSol x s1 else s1) = 0%nat) as H2
      by (destruct b; [destruct Hd; apply empty_step; auto|exact H1]);
    revert H; generalize dependent (if b then SCIPprobStoreRootSol x s1 else s1)
  end.
  intros s2 H2 H.
  match type of H with (if ?b then _ else _) = _ => destruct b end;
    inversion H; subst; exact H2.
Qed.

Lemma node_exit_cutoff depth s v s' v' :
  node_exit set depth s v = Ok (s', v') -> n_cutoff v' = true ->
  SCIPsetIsInfinity set (SCIPnodeGetLowerbound s') = true /\
  n_infeasible v' = true /\ n_restart v' = false.
Proof.
  unfold node_exit. intros H Hc.
  destruct (MAXNLPERRORS <=? n_nlperrors v); [discriminate|].
  match type of H with (if ?b then _ else _) = _ => destruct b eqn:Hb end;
    inversion H; subst; clear H.
  - repeat split.
    unfold SCIPsetIsInfinity, SCIPnodeGetLowerbound, SCIPnodeUpdateLowerbound; simpl.
    unfold Rge_bool, Rgt_bool.
    destruct (Qle_bool (SCIPsetInfinity set) _) eqn:Hle; simpl; [exact Hle|].
    apply Qle_bool_iff, Qle_refl.
  - simpl in *. congruence.
Qed.

Lemma solveNode_with_empty fuel s s' v' :
  solveNode_with fuel solveLP set s = Ok (s', v') -> nc s = 0%nat -> nc s' = 0%nat.
Proof.
  unfold solveNode_with. intros H Hs.
  destruct (node_entry set s) as [s1 v1] eqn:He.
  apply node_entry_empty in He; [|exact Hs].
  destruct (node_loop fuel solveLP set _ s1 v1) as [[s2 v2]| |] eqn:Hl; simpl in H;
    try discriminate.
  apply node_loop_empty in Hl; [|exact He].
  eapply node_exit_empty; eauto.
Qed.

Lemma solveNode_with_cutoff fuel s s' v' :
  solveNode_with fuel solveLP set s = Ok (s', v') -> n_cutoff v' = true ->
  SCIPsetIsInfinity set (SCIPnodeGetLowerbound s') = true /\
  n_infeasible v' = true /\ n_restart v' = false.
Proof.
  unfold solveNode_with. intros H Hc.
  destruct (node_entry set s) as [s1 v1].
  destruct (node_loop fuel solveLP set _ s1 v1) as [[s2 v2]| |]; simpl in H;
    try discriminate.
  eapply node_exit_cutoff; eauto.
Qed.

End NodeLoop.

(** C8.  Under the discipline of the separation store (clearing and applying
    cuts empty it; the functions of other compilation units and the plug-in
    callbacks after which [solve.c] does neither leave an empty store
    empty), with the six functions of solve.c behind the collaborators being
    the code's, a call of the node solver that starts with an empty
    separation store and returns with [cutoff] set leaves the lower bound of
    the focus node at [+infinity], [infeasible] set, [restart] unset and no
    cut in the separation store. *)
Theorem solveNode_cutoff_exit fuel s s' v' :
  SCIPsepastoreGetNCuts s = 0%nat ->
  solveNode fuel set s = Ok (s', v') ->
  n_cutoff v' = true ->
  SCIPsetIsInfinity set (SCIPnodeGetLowerbound s') = true /\
  n_infeasible v' = true /\ n_restart v' = false /\
  SCIPsepastoreGetNCuts s' = 0%nat.
Proof.
  unfold solveNode. intros Hs H Hc.
  pose proof (solveNode_with_cutoff _ _ _ _ _ H Hc) as (Hi & Hf & Hr).
  apply solveNode_with_empty in H;
    [auto|intros i s1 f1 s2 f2 H1 H2; eapply solveNodeLP_empty; eauto|exact Hs].
Qed.

End StoreProofs.

(** The scripted worlds with the functions of solve.c keep the discipline of
    the separation store when the pricers and relaxators do. *)
Lemma linked_world_sepastore_discipline lpsolve objval stopped allcols nlpcands branch set :
  Forall (fun p => Solve.keeps_empty (Solve.SCIPpricerExec p)) (Solve.pricers set) ->
  Forall (fun r => Solve.keeps_empty_ (Solve.SCIPrelaxMarkUnsolved r)) (Solve.relaxs set) ->
  Drivers.sepastore_discipline
    (ops := DriversRun.linked (Run.world lpsolve objval stopped allcols nlpcands branch))
    DriversRun.env set.
Proof.
  intros Hp Hr.
  constructor; try assumption; try reflexivity;
    try (intros; intros s Hs; simpl; exact Hs);
    try (repeat constructor; intros; intros s Hs; simpl; exact Hs).
  - intros a b s Hs. simpl. destruct (lpsolve (Solve.ext s)). exact Hs.
  - repeat constructor. intros d l t n s Hs. exact Hs.
Qed.

(** C8, at a node whose LP is infeasible: the node is cut off, its lower
    bound is [infinity] and the separation store is empty, although the
    constraint handler put a cut into it for the initial LP. *)
Lemma solveNode_cutoff_exit_witness :
  Solve.SCIPsetIsInfinity (Run.settings [] [])
    (Solve.SCIPnodeGetLowerbound DriversRun.cutoff_out.1) = true
  /\ Solve.n_infeasible DriversRun.cutoff_out.2 = true
  /\ Solve.n_restart DriversRun.cutoff_out.2 = false
  /\ Solve.SCIPsepastoreGetNCuts DriversRun.cutoff_out.1 = 0%nat.
Proof.
  apply (solveNode_cutoff_exit (ops := DriversRun.infeasible_lp) (Run.settings [] [])
           DriversRun.env (DriversRun_linked_is_solve_c Run.infeasible_lp)
           (linked_world_sepastore_discipline _ _ _ _ _ _ (Run.settings [] [])
              (List.Forall_nil _) (List.Forall_nil _))
           10 Run.solver0 DriversRun.cutoff_out.1 DriversRun.cutoff_out.2).
  - reflexivity.
  - vm_compute; reflexivity.
  - reflexivity.
Defined.

(** ** Node solver: LP errors *)

Section LPErrorProofs.
Import Solve.
Context {E : Type} {ops : Collaborators E}.
Variable set : SCIP_SET E.
Variable solveLP : bool -> Solver E -> NodeLPFlags -> Res (Solver E * NodeLPFlags).
Implicit Types (s : Solver E) (v : NodeVars).

Lemma Res_bind_Ok {A B} (a : A) (k : A -> Res B) : Ok a ≫= k = k a.
Proof. reflexivity. Qed.

Lemma Res_bind_Err {A B} (e : SCIP_RETCODE) (k : A -> Res B) : Err e ≫= k = Err e.
Proof. reflexivity. Qed.


(** The error counter is below the threshold whenever the node solver
    returns normally. *)
Lemma node_exit_nlperrors depth s v s' v' :
  node_exit set depth s v = Ok (s', v') -> n_nlperrors v' < MAXNLPERRORS.
Proof.
  unfold node_exit. intros H.
  destruct (MAXNLPERRORS <=? n_nlperrors v) eqn:Hn; [discriminate|].
  apply Z.leb_gt in Hn.
  match type of H with (if ?b then _ else _) = _ => destruct b end;
    inversion H; subst; simpl; exact Hn.
Qed.


Lemma node_loop_too_many_errors depth fuel s v :
  MAXNLPERRORS <= n_nlperrors v -> node_loop fuel solveLP set depth s v = Ok (s, v).
Proof.
  intros H.
  assert (node_loop_continues v = false) as Hc.
  { unfold node_loop_continues. apply Z.ltb_ge in H. rewrite H.
    rewrite andb_false_r. reflexivity. }
  destruct fuel; simpl; rewrite Hc; reflexivity.
Qed.

(** *** The error counter through the phases of a pass *)

Local Abbreviation nle := n_nlperrors.


























End LPErrorProofs.


(** ** [solveNodeLP]: the LP cutoff bound and aborted pricing *)

Section NodeLPProofs.
Import Solve.
Context {E : Type} {ops : Collaborators E}.

(** The second solve of lines 2052-2077 runs with the cutoff bound of the LP
    solver's infinity and the old cutoff bound is put back after it. *)
Lemma resolve_without_cutoffbound_restores (s : Solver E) f :
  lp_cutoffbound (lp (resolve_without_cutoffbound s f).1) = lp_cutoffbound (lp s).
Proof.
  unfold resolve_without_cutoffbound.
  destruct (SCIPlpSolveAndEval false false _) as [s1 le]. reflexivity.
Qed.

End NodeLPProofs.

(** C10, at a node whose LP is infeasible while columns are still missing and
    the solving process is stopped: [solveNodeLP] returns with
    [pricingaborted] set, the LP status [INFEASIBLE] and [cutoff] unset, so
    that the condition asserted in line 2078 is false on return.  The LP
    cutoff bound is the one of the call. *)
Theorem solveNodeLP_aborted_pricing_infeasible_lp :
  Run.abort_run = Ok Run.abort_out /\
  Solve.nl_pricingaborted Run.abort_out.2 = true /\
  Solve.SCIPlpGetSolstat Run.abort_out.1 = SCIP_LPSOLSTAT_INFEASIBLE /\
  Solve.nl_cutoff Run.abort_out.2 = false /\
  Solve.aborted_pricing_settled Run.abort_out.1 Run.abort_out.2 = false /\
  Solve.lp_cutoffbound (Solve.lp Run.abort_out.1) = Solve.lp_cutoffbound (Solve.lp Run.solver0).
Proof. repeat split; vm_compute; reflexivity. Qed.

(** C6, with [price_maxvars = 100] and two active pricers: after the first
    pricer the store holds 50 variables, which is below [100/2 + 1 = 51], the
    bound of the test before the loop (line 1372); the test inside the loop
    (line 1379) compares with [(100+1)/2 = 50], sets [enoughvars], and the
    second pricer is not called. *)
Theorem external_pricing_stops_below_half_plus_one :
  Solve.SCIPsetGetPriceMaxvars Run.pricing_settings false = 100 /\
  Solve.nactivepricers Run.pricing_settings = 2%nat /\
  Solve.external_pricing Run.pricing_settings false Run.solver0 false
    (- Run.infinity)%Q = Run.pricing_out /\
  Run.pricing_out.2 = [Solve.mkCall 0 3%Q SCIP_SUCCESS 50] /\
  Solve.SCIPpricestoreGetNVars Run.pricing_out.1.1 = 50 /\
  (Solve.SCIPpricestoreGetNVars Run.pricing_out.1.1 <? 100 ÷ 2 + 1) = true /\
  Run.pricing_out.1.2.1.1 = true.
Proof. repeat split; vm_compute; reflexivity. Qed.

(** ** Pseudo cost update *)

Section PseudocostProofs.
Import Pseudocost.
Variables SCIPsetIsLT SCIPsetIsGT SCIPsetIsEQ : SCIP_Real -> SCIP_Real -> bool.

Local Abbreviation valid := (isPseudocostUpdateValid SCIPsetIsLT SCIPsetIsGT SCIPsetIsEQ).
Local Abbreviation inv := (collect_inv SCIPsetIsLT SCIPsetIsGT SCIPsetIsEQ).
Local Abbreviation marked := (marked_update SCIPsetIsLT SCIPsetIsGT SCIPsetIsEQ).

Lemma collect_inv_start vars0 : inv vars0 (vars0, [], 0).
Proof.
  constructor; simpl.
  - constructor.
  - reflexivity.
  - intros b Hb. inversion Hb.
  - reflexivity.
Qed.

(** A variable that carries a mark is not collected again. *)
Lemma collected_is_marked vars0 st b v :
  inv vars0 st -> st.1.1 !! bc_var b = Some v -> pseudocostflag v = PSEUDOCOST_NONE ->
  bc_var b ∉ bc_var <$> st.1.2.
Proof.
  intros [_ _ Hm _] Hv Hf Hin.
  apply list_elem_of_fmap in Hin as (b' & Hk & Hb').
  destruct (Hm b' Hb') as (_ & v0 & _ & _ & Hl).
  rewrite <- Hk, Hv in Hl. inversion Hl; subst. unfold mark_of in Hf. simpl in Hf.
  destruct (valid v0 (bc_lpsolval b')); discriminate.
Qed.

Lemma collect_inv_add vars0 vars updates n b v :
  inv vars0 (vars, updates, n) ->
  boundchgtype b = SCIP_BOUNDCHGTYPE_BRANCHING ->
  vars !! bc_var b = Some v -> pseudocostflag v = PSEUDOCOST_NONE ->
  inv vars0 (<[bc_var b := set_pseudocostflag (mark_of SCIPsetIsLT SCIPsetIsGT SCIPsetIsEQ v b) v]> vars,
             updates ++ [b], if valid v (bc_lpsolval b) then n + 1 else n).
Proof.
  intros Hinv Ht Hv Hf.
  pose proof (collected_is_marked _ _ _ _ Hinv Hv Hf) as Hnew. cbn [fst snd] in Hnew.
  destruct Hinv as [Hnd Hfr Hm Hc]. cbn [fst snd] in *.
  assert (vars0 !! bc_var b = Some v) as Hv0 by (rewrite <- Hfr; assumption).
  constructor; cbn [fst snd].
  - rewrite fmap_app. apply NoDup_app. split; [exact Hnd|]. split.
    + intros i Hi Hi'. apply list_elem_of_singleton in Hi'. subst. contradiction.
    + apply NoDup_singleton.
  - intros i Hi. rewrite fmap_app in Hi. apply not_elem_of_app in Hi as [Hi Hib].
    apply not_elem_of_cons in Hib as [Hib _].
    rewrite lookup_insert_ne by congruence. apply Hfr. exact Hi.
  - intros b' Hb'. apply elem_of_app in Hb' as [Hb'|Hb'].
    + destruct (Hm b' Hb') as (Ht' & v0 & H0 & Hf0 & Hl).
      split; [exact Ht'|]. exists v0. split; [exact H0|]. split; [exact Hf0|].
      rewrite lookup_insert_ne; [exact Hl|].
      intros Heq. apply Hnew. rewrite Heq. apply list_elem_of_fmap_2. exact Hb'.
    + apply list_elem_of_singleton in Hb'. subst b'.
      split; [exact Ht|]. exists v. split; [exact Hv0|]. split; [exact Hf|].
      apply lookup_insert_eq.
  - rewrite filter_app, List.length_app.
    assert (marked vars0 b = valid v (bc_lpsolval b)) as Hmk
      by (unfold marked_update; rewrite Hv0; reflexivity).
    rewrite (filter_cons _ b []), filter_nil, Hmk.
    destruct (valid v (bc_lpsolval b)).
    + rewrite decide_True by reflexivity. simpl. rewrite Hc. lia.
    + rewrite decide_False by discriminate. simpl. rewrite Hc. lia.
Qed.

Lemma collect_boundchg_inv vars0 st b :
  inv vars0 st -> inv vars0 (collect_boundchg SCIPsetIsLT SCIPsetIsGT SCIPsetIsEQ st b).
Proof.
  destruct st as [[vars updates] n]. intros Hinv. unfold collect_boundchg.
  case_bool_decide as Ht; [|exact Hinv].
  destruct (vars !! bc_var b) as [v|] eqn:Hv; [|exact Hinv].
  case_bool_decide as Hf; [|exact Hinv].
  pose proof (collect_inv_add _ _ _ _ _ _ Hinv Ht Hv Hf) as H.
  unfold mark_of in H. destruct (valid v (bc_lpsolval b)); exact H.
Qed.

Lemma collect_inv_holds tree fork vars0 :
  inv vars0 (collect SCIPsetIsLT SCIPsetIsGT SCIPsetIsEQ tree fork vars0).
Proof.
  unfold collect. generalize (seq (node_depth fork + 1) (actdepth tree - node_depth fork)).
  intros ds. pose proof (collect_inv_start vars0) as H. revert H.
  generalize ((vars0, [], 0) : Collected). induction ds as [|d ds IH]; intros st H; simpl.
  - exact H.
  - apply IH. unfold collect_node.
    destruct (path tree !! d) as [node|]; [|exact H].
    destruct (domchg node) as [bs|]; [|exact H].
    revert st H. induction bs as [|b bs IHb]; intros st H; simpl; [exact H|].
    apply IHb. apply collect_boundchg_inv. exact H.
Qed.

Lemma apply_update_same lpgain w (vars : Vars) b :
  apply_update lpgain w vars b !! bc_var b = updated_var lpgain w b <$> vars !! bc_var b.
Proof.
  unfold apply_update. destruct (vars !! bc_var b) as [v|] eqn:Hv; simpl.
  - apply lookup_insert_eq.
  - exact Hv.
Qed.

Lemma apply_update_other lpgain w (vars : Vars) b i :
  i ≠ bc_var b -> apply_update lpgain w vars b !! i = vars !! i.
Proof.
  intros Hi. unfold apply_update. destruct (vars !! bc_var b) as [v|]; [|reflexivity].
  apply lookup_insert_ne. congruence.
Qed.

(** The second loop, on bound changes of distinct variables: every one of
    them sees its variable as the first loop left it. *)
Lemma apply_updates_lookup lpgain w updates : forall vars : Vars,
  NoDup (bc_var <$> updates) ->
  (forall b, b ∈ updates ->
     foldl (apply_update lpgain w) vars updates !! bc_var b
     = updated_var lpgain w b <$> vars !! bc_var b) /\
  (forall i, i ∉ bc_var <$> updates ->
     foldl (apply_update lpgain w) vars updates !! i = vars !! i).
Proof.
  induction updates as [|a l IH]; intros vars Hnd.
  - split; [intros b Hb; inversion Hb|reflexivity].
  - rewrite fmap_cons in Hnd. apply NoDup_cons in Hnd as [Ha Hl].
    destruct (IH (apply_update lpgain w vars a) Hl) as [IH1 IH2]. simpl. split.
    + intros b Hb. apply elem_of_cons in Hb as [->|Hb].
      * rewrite IH2 by exact Ha. apply apply_update_same.
      * rewrite IH1 by exact Hb. rewrite apply_update_other; [reflexivity|].
        intros Heq. apply Ha. rewrite <- Heq. apply list_elem_of_fmap_2. exact Hb.
    + intros i Hi. apply not_elem_of_cons in Hi as [Hia Hil].
      rewrite IH2 by exact Hil. apply apply_update_other. exact Hia.
Qed.

Lemma update_weight_pos n : (0 < update_weight n)%Q.
Proof.
  unfold update_weight. destruct (0 <? n) eqn:Hn; [|reflexivity].
  apply Z.ltb_lt in Hn. unfold Qdiv. rewrite Qmult_1_l.
  apply Qinv_lt_0_compat. unfold Qlt. simpl. lia.
Qed.

(** Line 573-574: the gain of an update is the weighted, non-negative part
    of the difference of the objective values. *)
Lemma update_lpgain_eq lp fork n :
  (update_lpgain lp fork (update_weight n)
   == update_weight n * MAX (lp_objval lp - node_lowerbound fork) 0)%Q.
Proof.
  pose proof (update_weight_pos n) as Hw. unfold update_lpgain, MAX.
  set (d := (lp_objval lp - node_lowerbound fork)%Q). set (w := update_weight n) in *.
  destruct (Qle_bool 0 (d * w)) eqn:H1; destruct (Qle_bool 0 d) eqn:H2.
  - apply Qmult_comm.
  - exfalso. apply Qle_bool_iff in H1. apply not_true_iff_false in H2. apply H2.
    apply Qle_bool_iff. apply (Qmult_lt_0_le_reg_r 0 d w Hw). rewrite Qmult_0_l. exact H1.
  - exfalso. apply Qle_bool_iff in H2. apply not_true_iff_false in H1. apply H1.
    apply Qle_bool_iff. apply Qmult_le_0_compat; [exact H2|]. apply Qlt_le_weak. exact Hw.
  - rewrite Qmult_0_r. reflexivity.
Qed.

(** C5.  In the update pass after the node's LP was solved to optimality,
    with an LP state fork: every collected branching bound change whose
    variable was marked [PSEUDOCOST_UPDATE] adds [w * max(0, lp_obj -
    fork.lower)] to the pseudo cost of its variable on the side on which the
    LP value moved and leaves the other side alone, where [w = 1 / N_valid]
    for [N_valid > 0] and [w = 1] otherwise; the variables marked
    [PSEUDOCOST_IGNORE] keep their pseudo costs; every collected variable
    ends with the flag [PSEUDOCOST_NONE]; the other variables are not
    touched. *)
Theorem updatePseudocost_attributes_gain tree lp (vars : Vars) fork :
  focuslpstatefork tree = Some fork ->
  solved lp = true ->
  lpsolstat lp = SCIP_LPSOLSTAT_OPTIMAL ->
  let updates := collected_updates SCIPsetIsLT SCIPsetIsGT SCIPsetIsEQ tree fork vars in
  let n := N_valid SCIPsetIsLT SCIPsetIsGT SCIPsetIsEQ tree fork vars in
  let w := (if 0 <? n then 1 / inject_Z n else 1)%Q in
  let gain := (w * MAX (lp_objval lp - node_lowerbound fork) 0)%Q in
  let vars' := updatePseudocost SCIPsetIsLT SCIPsetIsGT SCIPsetIsEQ tree lp vars in
  (forall b, b ∈ updates ->
     boundchgtype b = SCIP_BOUNDCHGTYPE_BRANCHING /\
     exists v v',
       vars !! bc_var b = Some v /\ vars' !! bc_var b = Some v' /\
       pseudocostflag v' = PSEUDOCOST_NONE /\
       if marked vars b
       then (pscost (moved_up v b) v' == pscost (moved_up v b) v + gain)%Q /\
            pscost (negb (moved_up v b)) v' = pscost (negb (moved_up v b)) v
       else pscost_up v' = pscost_up v /\ pscost_down v' = pscost_down v) /\
  (forall i, i ∉ bc_var <$> updates -> vars' !! i = vars !! i).
Proof.
  intros Hfork Hsolved Hopt. cbv zeta.
  unfold updatePseudocost, N_valid, collected_updates.
  rewrite Hfork, Hsolved, Hopt. rewrite bool_decide_true by reflexivity. cbn [andb].
  pose proof (collect_inv_holds tree fork vars) as Hinv.
  destruct (collect SCIPsetIsLT SCIPsetIsGT SCIPsetIsEQ tree fork vars)
    as [[vars1 ups] nv] eqn:Hc.
  destruct Hinv as [Hnd Hfr Hm Hcount]. cbn [fst snd] in *.
  rewrite <- Hcount. fold (update_weight nv).
  destruct (apply_updates_lookup (update_lpgain lp fork (update_weight nv))
              (update_weight nv) ups vars1 Hnd) as [Hup Hother].
  split.
  - intros b Hb. destruct (Hm b Hb) as (Ht & v0 & H0 & Hf0 & H1).
    split; [exact Ht|]. exists v0. eexists. split; [exact H0|].
    split; [rewrite (Hup b Hb), H1; reflexivity|]. split; [reflexivity|].
    unfold marked_update. rewrite H0. unfold mark_of, updated_var.
    destruct (valid v0 (bc_lpsolval b)); cbn [pseudocostflag set_pseudocostflag].
    + rewrite bool_decide_true by reflexivity.
      unfold SCIPvarUpdatePseudocost, moved_up. cbn [lpsol set_pseudocostflag].
      destruct (Qle_bool 0 (lpsol v0 - bc_lpsolval b)); simpl;
        (split; [|reflexivity]); apply Qplus_comp; try reflexivity;
        apply update_lpgain_eq.
    + rewrite bool_decide_false by discriminate. split; reflexivity.
  - intros i Hi. rewrite Hother by exact Hi. apply Hfr. exact Hi.
Qed.

End PseudocostProofs.

(** C5, on a path with three collected branchings of which two are valid:
    the weight is 1/2 and the gain 2. *)
Lemma updatePseudocost_attributes_gain_witness :
  Pseudocost.collected_updates (EPSLT PseudocostRun.eps) (EPSGT PseudocostRun.eps)
    (EPSEQ PseudocostRun.eps) PseudocostRun.tree0 PseudocostRun.fork0 PseudocostRun.vars0
  = [PseudocostRun.up1; PseudocostRun.down2; PseudocostRun.down4]
  /\ Pseudocost.N_valid (EPSLT PseudocostRun.eps) (EPSGT PseudocostRun.eps)
       (EPSEQ PseudocostRun.eps) PseudocostRun.tree0 PseudocostRun.fork0 PseudocostRun.vars0
     = 2
  /\ exists v',
       PseudocostRun.run !! 4%positive = Some v' /\
       Pseudocost.pseudocostflag v' = Pseudocost.PSEUDOCOST_NONE /\
       (Pseudocost.pscost_down v' == 1 + (1 # 2) * 4)%Q /\
       Pseudocost.pscost_up v' = 0%Q.
Proof.
  split; [vm_compute; reflexivity|]. split; [vm_compute; reflexivity|].
  destruct (updatePseudocost_attributes_gain (EPSLT PseudocostRun.eps)
              (EPSGT PseudocostRun.eps) (EPSEQ PseudocostRun.eps) PseudocostRun.tree0
              PseudocostRun.lp0 PseudocostRun.vars0 PseudocostRun.fork0
              eq_refl eq_refl eq_refl) as [H _].
  destruct (H PseudocostRun.down4) as (_ & v & v' & Hv & Hv' & Hf & Hg).
  { vm_compute. apply list_elem_of_In. simpl. auto. }
  exists v'. split; [exact Hv'|]. split; [exact Hf|].
  assert (v = PseudocostRun.var4) as -> by (vm_compute in Hv; injection Hv as <-; reflexivity).
  vm_compute in Hg. destruct Hg as [Hg1 Hg2]. split; [|exact Hg2].
  unfold Qeq. simpl. exact Hg1.
Defined.

(** The same run, variable by variable: variable 1 gains 2 on the up side,
    variable 4 gains 2 on the down side, variables 2 and 3 keep their pseudo
    costs, and no flag is left. *)
Example updatePseudocost_run :
  List.map
    (fun i : positive =>
       option_map
         (fun v => (Pseudocost.pseudocostflag v, Qred (Pseudocost.pscost_down v),
                    Qred (Pseudocost.pscost_up v)))
         (PseudocostRun.run !! i))
    [1; 2; 3; 4]%positive
  = [Some (Pseudocost.PSEUDOCOST_NONE, 0%Q, 2%Q); Some (Pseudocost.PSEUDOCOST_NONE, 0%Q, 0%Q);
     Some (Pseudocost.PSEUDOCOST_NONE, 0%Q, 0%Q); Some (Pseudocost.PSEUDOCOST_NONE, 3%Q, 0%Q)].
Proof. vm_compute. reflexivity. Qed.

(** * Further properties of the node solver *)

Section BoundingProofs.
Import Solve.
Context {E : Type} {ops : Collaborators E}.
Variable set : SCIP_SET E.
Implicit Types (s : Solver E).

Lemma SCIPnodeUpdateLowerbound_ge b s :
  (b <= SCIPnodeGetLowerbound (SCIPnodeUpdateLowerbound b s))%Q.
Proof.
  unfold SCIPnodeGetLowerbound, SCIPnodeUpdateLowerbound, Rgt_bool. simpl.
  destruct (Qle_bool b _) eqn:Hle; simpl.
  - apply Qle_bool_iff. exact Hle.
  - apply Qle_refl.
Qed.

Lemma SCIPnodeUpdateLowerbound_mono b s :
  (SCIPnodeGetLowerbound s <= SCIPnodeGetLowerbound (SCIPnodeUpdateLowerbound b s))%Q.
Proof.
  unfold SCIPnodeGetLowerbound, SCIPnodeUpdateLowerbound, Rgt_bool. simpl.
  destruct (Qle_bool b _) eqn:Hle; simpl.
  - apply Qle_refl.
  - apply Qlt_le_weak. apply Qnot_le_lt. intros H. apply Qle_bool_iff in H. congruence.
Qed.

(** [applyBounding] (lines 1883-1932) never lowers the lower bound of the
    focus node: a node that is already cut off is left as it is; otherwise
    the bound is raised to the pseudo objective value at least, and to
    infinity when the cutoff is found.  The pseudo conflict analysis is
    taken to leave the lower bound alone. *)
Theorem applyBounding_raises_lowerbound c s s' c' :
  (forall s, SCIPnodeGetLowerbound (SCIPconflictAnalyzePseudo s) = SCIPnodeGetLowerbound s) ->
  applyBounding set c s = (s', c') ->
  (c = true -> s' = s /\ c' = true) /\
  (c = false ->
     (SCIPlpGetPseudoObjval s <= SCIPnodeGetLowerbound s')%Q /\
     (SCIPnodeGetLowerbound s <= SCIPnodeGetLowerbound s')%Q /\
     (c' = true -> SCIPsetIsInfinity set (SCIPnodeGetLowerbound s') = true) /\
     (c' = false -> s' = SCIPnodeUpdateLowerbound (SCIPlpGetPseudoObjval s) s)).
Proof.
  intros Hfr H. unfold applyBounding in H. destruct c; simpl in H.
  - inversion H; subst. split; [auto|discriminate].
  - split; [discriminate|]. intros _.
    set (p := SCIPlpGetPseudoObjval s) in *.
    pose proof (SCIPnodeUpdateLowerbound_ge p s) as Hp.
    pose proof (SCIPnodeUpdateLowerbound_mono p s) as Hm.
    set (s1 := SCIPnodeUpdateLowerbound p s) in *.
    match type of H with (if ?b then _ else _) = _ => destruct b end.
    + pose proof (SCIPnodeUpdateLowerbound_ge (SCIPsetInfinity set) s1) as Hi.
      pose proof (SCIPnodeUpdateLowerbound_mono (SCIPsetInfinity set) s1) as Hm1.
      set (s2 := SCIPnodeUpdateLowerbound (SCIPsetInfinity set) s1) in *.
      assert (SCIPnodeGetLowerbound s' = SCIPnodeGetLowerbound s2) as Heq
        by (match type of H with context [if ?b then _ else _] => destruct b end;
            inversion H; subst; [apply Hfr|reflexivity]).
      assert (c' = true) as -> by
        (match type of H with context [if ?b then _ else _] => destruct b end;
         inversion H; reflexivity).
      rewrite Heq.
      split; [eapply Qle_trans; eauto|]. split; [eapply Qle_trans; eauto|].
      split; [|discriminate]. intros _. unfold SCIPsetIsInfinity, Rge_bool.
      apply Qle_bool_iff. exact Hi.
    + inversion H; subst; clear H. split; [exact Hp|]. split; [exact Hm|].
      split; [discriminate|]. reflexivity.
Qed.

End BoundingProofs.

Section RelaxProofs.
Import Solve SolveMore.
Context {E : Type} {ops : Collaborators E}.
Implicit Types (s : Solver E) (f : LoopFlags).

Lemma relax_verdict_raises result f f' :
  relax_verdict result f = Ok f' ->
  raised (fl_cutoff f) (fl_cutoff f') /\
  raised (fl_propagateagain f) (fl_propagateagain f') /\
  raised (fl_solvelpagain f) (fl_solvelpagain f') /\
  raised (fl_solverelaxagain f) (fl_solverelaxagain f').
Proof.
  unfold raised. destruct result; simpl; intros H; inversion H; subst; simpl; auto.
Qed.

Lemma relax_loop_raises depth beforelp rs : forall s f s' f',
  relax_loop depth beforelp rs s f = Ok (s', f') ->
  (fl_cutoff f = true -> s' = s /\ f' = f) /\
  raised (fl_cutoff f) (fl_cutoff f') /\
  raised (fl_propagateagain f) (fl_propagateagain f') /\
  raised (fl_solvelpagain f) (fl_solvelpagain f') /\
  raised (fl_solverelaxagain f) (fl_solverelaxagain f').
Proof.
  induction rs as [|r rs IH]; intros s f s' f' H; simpl in H.
  - inversion H; subst. unfold raised. auto.
  - destruct (fl_cutoff f) eqn:Hc.
    + inversion H; subst. unfold raised. auto 6.
    + destruct (negb (eqb beforelp (0 <=? relax_priority r))).
      * apply IH in H. rewrite Hc in H. destruct H as (_ & H). split; [discriminate|exact H].
      * destruct (SCIPrelaxExec r depth s) as [s1 [lb result]].
        destruct (relax_verdict result f) as [f1| |] eqn:Hv; simpl in H; try discriminate.
        apply relax_verdict_raises in Hv as (V1 & V2 & V3 & V4).
        apply IH in H as (_ & H1 & H2 & H3 & H4). split; [discriminate|].
        unfold raised in *. rewrite Hc in *. auto 7.
Qed.

(** [solveNodeRelax] (lines 2095-2181) only raises the flags [cutoff],
    [propagateagain], [solvelpagain] and [solverelaxagain] that it receives
    by pointer, and with [cutoff] already set it calls no relaxator. *)
Theorem solveNodeRelax_raises_flags set depth beforelp s f s' f' :
  solveNodeRelax set depth beforelp s f = Ok (s', f') ->
  (fl_cutoff f = true -> s' = s /\ f' = f) /\
  raised (fl_cutoff f) (fl_cutoff f') /\
  raised (fl_propagateagain f) (fl_propagateagain f') /\
  raised (fl_solvelpagain f) (fl_solvelpagain f') /\
  raised (fl_solverelaxagain f) (fl_solverelaxagain f').
Proof. unfold solveNodeRelax. apply relax_loop_raises. Qed.

End RelaxProofs.

Section EnforceMoreProofs.
Import Solve SolveMore.
Context {E : Type} {ops : Collaborators E}.
Implicit Types (s : Solver E) (f : EnfoFlags).

Lemma enforce_handler_cases set oi forced h s f r :
  match enforce_handler set oi forced h s f r with
  | Ok (s', f', r', ev) =>
      ev.1 = (enforce_call oi forced h (infeasible f) s).2
      /\ enforce_result_known ev.1 = true /\ r' = r || resolves ev
  | Err rc =>
      rc = SCIP_INVALIDRESULT
      /\ (enforce_result_known (enforce_call oi forced h (infeasible f) s).2 = false
          \/ (SCIPtreeHasFocusNodeLP s = false
              /\ SCIPsepastoreGetNCuts (enforce_call oi forced h (infeasible f) s).1 <> 0%nat))
  | OutOfFuel => False
  end.
Proof.
  unfold enforce_handler, enforce_call, resolves.
  destruct (SCIPtreeHasFocusNodeLP s) eqn:Hlp.
  - destruct (SCIPconshdlrEnforceLPSol h (infeasible f) s) as [s1 result]. simpl.
    destruct result; simpl; auto;
      match goal with |- context [lp_hit_objlimit ?x] => destruct (lp_hit_objlimit x) end;
      simpl; rewrite ?orb_true_r, ?orb_false_r; auto.
  - destruct (SCIPconshdlrEnforcePseudoSol h (infeasible f) oi forced s) as [s1 result].
    simpl. destruct (SCIPsepastoreGetNCuts s1 =? 0)%nat eqn:Hn; simpl.
    + destruct result; simpl; auto;
        match goal with |- context [lp_hit_objlimit ?x] => destruct (lp_hit_objlimit x) end;
        simpl; rewrite ?orb_true_r, ?orb_false_r; auto.
    + apply Nat.eqb_neq in Hn. auto.
Qed.

(** The loop calls the handlers in order and stops after the first call
    that resolves; it fails exactly through a failing call. *)
Lemma enforce_loop_calls set oi forced hs : forall s f trace,
  match enforce_loop set oi forced hs s f false trace with
  | Ok (s', f', r', trace') =>
      exists called rest new,
        hs = called ++ rest /\ trace' = trace ++ new
        /\ Forall2 (answer_of oi forced) called new
        /\ Forall (fun ev => enforce_result_known ev.1 = true) new
        /\ (forall pre ev post, new = pre ++ ev :: post -> post <> [] -> resolves ev = false)
        /\ (r' = true -> exists pre ev, new = pre ++ [ev] /\ resolves ev = true)
        /\ (r' = false -> rest = [])
  | Err rc => rc = SCIP_INVALIDRESULT /\ exists h, h ∈ hs /\ failing_call oi forced h
  | OutOfFuel => False
  end.
Proof.
  induction hs as [|h hs IH]; intros s f trace; simpl.
  - exists [], [], []. split; [reflexivity|]. split; [symmetry; apply app_nil_r|].
    split; [constructor|]. split; [constructor|]. split; [|split; [discriminate|reflexivity]].
    intros pre ev post Hnil. destruct pre; discriminate.
  - pose proof (enforce_handler_cases set oi forced h s f false) as Hh.
    destruct (enforce_handler set oi forced h s f false) as [[[[s1 f1] r1] ev]| |]; simpl.
    + destruct Hh as (Hev & Hk & Hr). simpl in Hr. destruct r1.
      * rewrite enforce_loop_resolved.
        exists [h], hs, [ev]. split; [reflexivity|]. split; [reflexivity|].
        split; [constructor; [exists (infeasible f), s; exact Hev|constructor]|].
        split; [constructor; [exact Hk|constructor]|].
        split; [|split; [intros _; exists [], ev; auto|discriminate]].
        intros pre ev' post Heq Hpost. destruct pre as [|x pre].
        -- inversion Heq; subst. contradiction.
        -- inversion Heq as [[Hx Hrest]]. destruct pre; discriminate.
      * specialize (IH s1 f1 (trace ++ [ev])).
        destruct (enforce_loop set oi forced hs s1 f1 false (trace ++ [ev]))
          as [[[[s2 f2] r2] tr2]| |].
        -- destruct IH as (called & rest & new & -> & -> & Hans & Hkn & Honly & Hres & Hrest).
           exists (h :: called), rest, (ev :: new).
           split; [reflexivity|]. split; [rewrite <- app_assoc; reflexivity|].
           split; [constructor; [exists (infeasible f), s; exact Hev|exact Hans]|].
           split; [constructor; [exact Hk|exact Hkn]|].
           split; [|split; [|exact Hrest]].
           ++ intros pre ev' post Heq Hpost. destruct pre as [|x pre].
              ** inversion Heq; subst. symmetry. exact Hr.
              ** inversion Heq as [[Hx Hrest']]. eapply Honly; eauto.
           ++ intros Hr2. destruct (Hres Hr2) as (pre & ev' & -> & Hev').
              exists (ev :: pre), ev'. auto.
        -- destruct IH as (-> & h' & Hin & Hf). split; [reflexivity|].
           exists h'. split; [right; exact Hin|exact Hf].
        -- exact IH.
    + destruct Hh as (-> & Hf). split; [reflexivity|].
      exists h. split; [left|exists (infeasible f), s; exact Hf].
    + exact Hh.
Qed.

(** [enforceConstraints] (lines 2203-2410) calls the handlers of
    [set->conshdlrs_enfo] in their order, each at most once: the log pairs
    off with an initial piece of the array.  No call but the last resolves
    the infeasibility, and handlers are left uncalled only after a call that
    resolved it.  The function returns [SCIP_OKAY] only if every result is
    one of the nine of the [switch]; every failure is [SCIP_INVALIDRESULT]
    and comes from a call whose result is none of them or whose pseudo
    enforcement left cuts in the separation store. *)
Theorem enforceConstraints_known_results set s f forced :
  match enforceConstraints set s f forced with
  | Ok (s', f', trace) =>
      exists called rest,
        conshdlrs_enfo set = called ++ rest
        /\ Forall2 (answer_of (enforce_objinfeasible s) forced) called trace
        /\ Forall (fun ev => enforce_result_known ev.1 = true) trace
        /\ (forall pre ev post, trace = pre ++ ev :: post -> post <> [] -> resolves ev = false)
        /\ (rest <> [] -> exists pre ev, trace = pre ++ [ev] /\ resolves ev = true)
  | Err rc =>
      rc = SCIP_INVALIDRESULT
      /\ exists h, h ∈ conshdlrs_enfo set /\ failing_call (enforce_objinfeasible s) forced h
  | OutOfFuel => False
  end.
Proof.
  unfold enforceConstraints. fold (enforce_objinfeasible s).
  match goal with |- context [enforce_loop ?a ?b ?c ?d ?e ?g false []] =>
    pose proof (enforce_loop_calls a b c d e g []) as Hl;
    destruct (enforce_loop a b c d e g false []) as [[[[s1 f1] r1] tr]| |]
  end; simpl.
  - destruct Hl as (called & rest & new & Hhs & Hnew & Hans & Hkn & Honly & Hres & Hrest).
    simpl in Hnew. subst tr. exists called, rest.
    split; [exact Hhs|]. split; [exact Hans|]. split; [exact Hkn|]. split; [exact Honly|].
    intros Hne. destruct r1; [auto|]. elim Hne. auto.
  - exact Hl.
  - exact Hl.
Qed.

End EnforceMoreProofs.

Section PriceMoreProofs.
Import Solve SolveMore.
Context {E : Type} {ops : Collaborators E}.
Implicit Types (s : Solver E) (v : PriceVars).

Lemma price_round_counts set pretendroot s v s' v' calls :
  price_round set pretendroot s v = (s', v', calls) ->
  price_rounds_done v' = price_rounds_done v + 1.
Proof. intros H. apply price_round_spec in H. tauto. Qed.

Lemma price_rounds_limit set pretendroot maxr fuel : forall s v trace s' v' trace',
  price_rounds fuel set pretendroot maxr s v trace = Ok (s', v', trace') ->
  price_rounds_done v' <= Z.max (price_rounds_done v) maxr.
Proof.
  induction fuel as [|fuel IH]; intros s v trace s' v' trace' H; simpl in H.
  - destruct (negb (lperror v) && mustprice v && _); [discriminate|].
    inversion H; subst. lia.
  - destruct (negb (lperror v) && mustprice v && (price_rounds_done v <? maxr)) eqn:Hc;
      [|inversion H; subst; lia].
    apply andb_prop in Hc as [_ Hlt]. apply Z.ltb_lt in Hlt.
    destruct (SCIPsolveIsStopped false s) as [s1 stopped].
    destruct stopped; [inversion H; subst; simpl; lia|].
    destruct (price_round set pretendroot s1 v) as [[s2 v2] calls] eqn:Hr.
    apply price_round_counts in Hr. apply IH in H. lia.
Qed.

(** [SCIPpriceLoop] (lines 1278-1450) executes at most [maxpricerounds]
    pricing rounds ([INT_MAX] for [-1], none for a limit below 1); the
    count of rounds it keeps is the number of rounds it carried out. *)
Theorem SCIPpriceLoop_round_limit fuel set pretendroot displayinfo maxpricerounds
    s mustsepa0 lowerbound0 s' v' trace :
  SCIPpriceLoop fuel set pretendroot displayinfo maxpricerounds s mustsepa0 lowerbound0
    = Ok (s', v', trace) ->
  price_rounds_done v' = executed_rounds trace /\
  0 <= executed_rounds trace <= Z.max 0 (effective_maxpricerounds maxpricerounds).
Proof.
  unfold SCIPpriceLoop. intros H.
  match type of H with context [price_rounds ?a ?b ?c ?d ?e ?f ?g] =>
    destruct (price_rounds a b c d e f g) as [[[s1 v1] tr]| |] eqn:Hl end;
    simpl in H; try discriminate.
  pose proof (price_rounds_limit _ _ _ _ _ _ _ _ _ _ Hl) as Hlim.
  apply price_rounds_spec in Hl as (new & Hnew & _ & Hdone). simpl in *. subst new.
  inversion H; subst; clear H. simpl. rewrite Hdone in *. split; [reflexivity|].
  split; [|exact Hlim]. unfold executed_rounds. lia.
Qed.

End PriceMoreProofs.

Section CutLoopMoreProofs.
Import Solve SolveMore.
Context {E : Type} {ops : Collaborators E}.
Implicit Types (s : Solver E).

(** [priceAndCutLoop] (lines 1454-1877) returns with [lp->installing]
    unset; a cutoff leaves the lower bound of the focus node at infinity and
    is never reported together with [unbounded]; [unbounded] is reported
    only without cutoff and LP error and with the LP status
    [UNBOUNDEDRAY]. *)
Theorem priceAndCutLoop_exit_state fuel set initiallpsolved s pricingaborted0
    s' v' unbounded trace :
  priceAndCutLoop fuel set initiallpsolved s pricingaborted0 = Ok (s', v', unbounded, trace) ->
  installing (lp s') = false /\
  (cl_cutoff v' = true ->
     SCIPsetIsInfinity set (SCIPnodeGetLowerbound s') = true /\ unbounded = false) /\
  (unbounded = true ->
     cl_cutoff v' = false /\ cl_lperror v' = false /\
     SCIPlpGetSolstat s' = SCIP_LPSOLSTAT_UNBOUNDEDRAY).
Proof.
  unfold priceAndCutLoop. intros H.
  destruct (SCIPlpSolveAndEval true false s) as [s0 le0].
  match type of H with context [cut_loop ?a ?b ?c ?d ?e ?f ?g] =>
    destruct (cut_loop a b c d e f g) as [[[s1 v1] tr]| |] end;
    simpl in H; try discriminate.
  destruct (cutloop_exit set _ s1 v1) as [s2 u] eqn:Hx. inversion H; subst; clear H.
  unfold cutloop_exit in Hx.
  match type of Hx with context [if cl_cutoff v' then ?a else ?b] =>
    destruct (if cl_cutoff v' then a else b) as [s3 u3] eqn:Hy end.
  inversion Hx; subst; clear Hx. split; [reflexivity|].
  destruct (cl_cutoff v').
  - inversion Hy; subst. split; [|discriminate]. intros _. split; [|reflexivity].
    unfold SCIPsetIsInfinity, Rge_bool. apply Qle_bool_iff.
    apply (SCIPnodeUpdateLowerbound_ge (SCIPsetInfinity set) s1).
  - split; [discriminate|]. intros ->. split; [reflexivity|].
    destruct (cl_lperror v'); simpl in Hy; [inversion Hy|].
    split; [reflexivity|]. inversion Hy as [[Hs Hu]]. clear Hy.
    unfold solstat_is in Hu. apply bool_decide_eq_true in Hu. exact Hu.
Qed.

End CutLoopMoreProofs.

Section StoreMoreProofs.
Import Solve SolveMore.
Context {E : Type} {ops : Collaborators E}.
Variable set : SCIP_SET E.
Variable env : Drivers.Surroundings E.
Hypothesis Hsolve_c : Drivers.solve_c_drivers env.
Hypothesis Hd : Drivers.sepastore_discipline env set.

(** [solveNodeLP] (lines 1936-2091), with the initial LP and the
    price-and-cut loop inside, returns with an empty separation store when
    it is called with one (the assertions of lines 1703 and 2037), whatever
    cuts the separators and constraint handlers produced in between,
    provided that the functions of other compilation units and the plug-in
    callbacks keep the discipline of the store. *)
Theorem solveNodeLP_sepastore_empty fuel initiallpsolved (s : Solver E) f s' f' :
  SCIPsepastoreGetNCuts s = 0%nat ->
  solveNodeLP fuel set initiallpsolved s f = Ok (s', f') ->
  SCIPsepastoreGetNCuts s' = 0%nat.
Proof. intros Hs H. exact (solveNodeLP_empty set env Hsolve_c Hd _ _ _ _ _ _ H Hs). Qed.

(** [solveNode] (lines 2498-3104) returns with an empty separation store
    when it is called with one (the assertions of lines 2544 and 3067),
    with or without cutoff, provided that the functions of other
    compilation units and the plug-in callbacks keep the discipline of the
    store. *)
Theorem solveNode_sepastore_empty fuel (s : Solver E) s' v' :
  SCIPsepastoreGetNCuts s = 0%nat ->
  solveNode fuel set s = Ok (s', v') ->
  SCIPsepastoreGetNCuts s' = 0%nat.
Proof.
  intros Hs H. unfold solveNode in H.
  refine (solveNode_with_empty set env Hsolve_c Hd _ _ _ _ _ _ H Hs).
  intros i s1 f1 s2 f2 H1 H2.
  exact (solveNodeLP_empty set env Hsolve_c Hd _ _ _ _ _ _ H2 H1).
Qed.

End StoreMoreProofs.

Section SeparationMoreProofs.
Import Solve SolveMore.
Context {E : Type} {ops : Collaborators E}.
Implicit Types (s : Solver E) (v : SepaVars).

Lemma sepa_kept_refl s v : sepa_kept s v s v.
Proof. unfold sepa_kept, raised. auto. Qed.

Lemma sepa_kept_trans s v s1 v1 s2 v2 :
  sepa_kept s v s1 v1 -> sepa_kept s1 v1 s2 v2 -> sepa_kept s v s2 v2.
Proof.
  unfold sepa_kept, raised. intros (A1 & A2 & A3 & A4) (B1 & B2 & B3 & B4).
  split; [auto|]. split; [auto|]. split; [auto|].
  intros Hc. destruct (A4 Hc) as [-> <-]. destruct (B4 (A1 Hc)) as [-> <-]. auto.
Qed.

Lemma separationRoundResolveLP_raises s v s' v' :
  separationRoundResolveLP s v = (s', v') ->
  sr_cutoff v' = sr_cutoff v /\ sr_delayed v' = sr_delayed v /\
  raised (sr_mustsepa v) (sr_mustsepa v') /\ raised (sr_mustprice v) (sr_mustprice v').
Proof.
  unfold separationRoundResolveLP, raised. intros H.
  destruct (negb (sr_cutoff v) && negb (flushed (lp s))); [|inversion H; subst; auto].
  destruct (SCIPlpSolveAndEval true false s) as [s1 le]. inversion H; subst; simpl. auto.
Qed.

Lemma sepa_loop_kept set rt stop cs : forall s v s' v' ret,
  sepa_loop set rt stop cs s v = (s', v', ret) -> sepa_kept s v s' v'.
Proof.
  induction cs as [|c cs IH]; intros s v s' v' ret H; simpl in H.
  - inversion H; subst. apply sepa_kept_refl.
  - destruct (negb (sepa_guard s v)) eqn:Hg; [inversion H; subst; apply sepa_kept_refl|].
    assert (sr_cutoff v = false) as Hc.
    { apply negb_false_iff in Hg. unfold sepa_guard in Hg.
      destruct (sr_cutoff v); [discriminate|reflexivity]. }
    destruct (sepa_skip c s); [eauto|].
    destruct (sepa_call_body set rt stop c s v) as [[s1 v1] r1] eqn:Hb.
    assert (sepa_kept s v s1 v1) as Hk.
    { unfold sepa_call_body in Hb. destruct (sepa_exec c s) as [s0 result].
      destruct (separationRoundResolveLP s0 _) as [s2 v2] eqn:Hr.
      apply separationRoundResolveLP_raises in Hr as (R1 & R2 & R3 & R4). simpl in *.
      unfold sepa_kept, raised in *. rewrite Hc.
      destruct (stop && found_cut result); inversion Hb; subst; simpl;
        (split; [rewrite R1; simpl; discriminate|]); (split; [auto|]);
        (split; [auto|discriminate]). }
    destruct r1; [inversion H; subst; exact Hk|].
    eapply sepa_kept_trans; [exact Hk|eauto].
Qed.

Lemma consadded_loop_kept set rt d o fuel : forall s v s' v',
  consadded_loop fuel set rt d o s v = Ok (s', v') -> sepa_kept s v s' v'.
Proof.
  induction fuel as [|fuel IH]; intros s v s' v' H; simpl in H.
  - destruct (sr_consadded v); [discriminate|]. inversion H; subst. apply sepa_kept_refl.
  - destruct (sr_consadded v); [|inversion H; subst; apply sepa_kept_refl].
    destruct (sepa_loop set rt false _ s _) as [[s1 v1] r1] eqn:H1.
    apply sepa_loop_kept in H1. apply IH in H.
    eapply sepa_kept_trans; [|exact H]. exact H1.
Qed.

(** [separationRoundLP] (lines 902-1084) only raises its in/out flags
    [cutoff], [mustsepa] and [mustprice], and called for a node that is
    already cut off it calls no separator and no constraint handler:
    the state stays as it is and nothing is reported as delayed. *)
Theorem separationRoundLP_raises_flags fuel set d b o s c0 ms0 mp0 s' sv' :
  separationRoundLP fuel set d b o s c0 ms0 mp0 = Ok (s', sv') ->
  raised c0 (sr_cutoff sv') /\ raised ms0 (sr_mustsepa sv') /\
  raised mp0 (sr_mustprice sv') /\
  (c0 = true -> s' = s /\ sr_delayed sv' = false).
Proof.
  unfold separationRoundLP. intros H.
  match type of H with context [sepa_loop _ _ _ _ s ?v0] => set (v := v0) in H end.
  assert (forall s1 v1, sepa_kept s v s1 v1 ->
            raised c0 (sr_cutoff v1) /\ raised ms0 (sr_mustsepa v1) /\
            raised mp0 (sr_mustprice v1) /\ (c0 = true -> s1 = s /\ sr_delayed v1 = false))
    as Hfin by (intros s1 v1 Hk; exact Hk).
  destruct (sepa_loop set _ o (sepa_calls set true d b o) s v) as [[s1 v1] r1] eqn:H1.
  apply sepa_loop_kept in H1.
  destruct r1; [inversion H; subst; auto|].
  destruct (sepa_loop set _ o (conshdlr_calls set d o true) s1 v1) as [[s2 v2] r2] eqn:H2.
  apply sepa_loop_kept in H2. pose proof (sepa_kept_trans _ _ _ _ _ _ H1 H2) as H12.
  destruct r2; [inversion H; subst; auto|].
  destruct (sepa_loop set _ o (sepa_calls set false d b o) s2 v2) as [[s3 v3] r3] eqn:H3.
  apply sepa_loop_kept in H3. pose proof (sepa_kept_trans _ _ _ _ _ _ H12 H3) as H123.
  destruct r3; [inversion H; subst; auto|].
  apply consadded_loop_kept in H. apply Hfin. eapply sepa_kept_trans; eauto.
Qed.

End SeparationMoreProofs.

Section PseudocostMoreProofs.
Import Pseudocost.
Variables SCIPsetIsLT SCIPsetIsGT SCIPsetIsEQ : SCIP_Real -> SCIP_Real -> bool.

Lemma updated_var_fields lpgain w b v :
  lb_local (updated_var lpgain w b v) = lb_local v /\
  ub_local (updated_var lpgain w b v) = ub_local v /\
  lpsol (updated_var lpgain w b v) = lpsol v /\
  pseudocostflag (updated_var lpgain w b v) = PSEUDOCOST_NONE.
Proof.
  unfold updated_var, SCIPvarUpdatePseudocost.
  destruct (bool_decide _); [destruct (Qle_bool _ _)|]; simpl; auto.
Qed.

(** [updatePseudocost] (lines 494-610) changes nothing of a variable but
    its pseudo costs and its flag: no variable appears or disappears, the
    local bounds and LP values stay, and a variable whose flag was
    [PSEUDOCOST_NONE] before the pass has the flag [PSEUDOCOST_NONE] after
    it, whether it was collected or not. *)
Theorem updatePseudocost_keeps_variables tree lp (vars : Vars) i :
  match vars !! i,
        updatePseudocost SCIPsetIsLT SCIPsetIsGT SCIPsetIsEQ tree lp vars !! i with
  | Some v, Some v' =>
      lb_local v' = lb_local v /\ ub_local v' = ub_local v /\ lpsol v' = lpsol v /\
      (pseudocostflag v = PSEUDOCOST_NONE -> pseudocostflag v' = PSEUDOCOST_NONE)
  | None, None => True
  | _, _ => False
  end.
Proof.
  assert (match vars !! i, vars !! i with
          | Some v, Some v' =>
              lb_local v' = lb_local v /\ ub_local v' = ub_local v /\ lpsol v' = lpsol v /\
              (pseudocostflag v = PSEUDOCOST_NONE -> pseudocostflag v' = PSEUDOCOST_NONE)
          | None, None => True
          | _, _ => False
          end) as Hsame by (destruct (vars !! i); auto).
  unfold updatePseudocost.
  destruct (focuslpstatefork tree) as [fork|]; [|exact Hsame].
  destruct (solved lp && bool_decide (lpsolstat lp = SCIP_LPSOLSTAT_OPTIMAL));
    [|exact Hsame].
  pose proof (collect_inv_holds SCIPsetIsLT SCIPsetIsGT SCIPsetIsEQ tree fork vars) as Hinv.
  destruct (collect SCIPsetIsLT SCIPsetIsGT SCIPsetIsEQ tree fork vars)
    as [[vars1 ups] nv].
  destruct Hinv as [Hnd Hfr Hm _]. cbn [fst snd] in *.
  destruct (apply_updates_lookup (update_lpgain lp fork (update_weight nv))
              (update_weight nv) ups vars1 Hnd) as [Hup Hother].
  destruct (decide (i ∈ bc_var <$> ups)) as [Hin|Hout].
  - apply list_elem_of_fmap in Hin as (b & -> & Hb).
    destruct (Hm b Hb) as (_ & v0 & H0 & Hf0 & H1).
    rewrite (Hup b Hb), H1, H0. cbn [fmap option_fmap option_map].
    destruct (updated_var_fields (update_lpgain lp fork (update_weight nv))
                (update_weight nv) b
                (set_pseudocostflag (mark_of SCIPsetIsLT SCIPsetIsGT SCIPsetIsEQ v0 b) v0))
      as (F1 & F2 & F3 & F4).
    rewrite F1, F2, F3, F4. simpl. auto.
  - rewrite (Hother i Hout), (Hfr i Hout). exact Hsame.
Qed.

End PseudocostMoreProofs.

(** ** Domain propagation *)

Section PropagateProofs.
Import Solve Propagate.
Context {E : Type} {ops : Collaborators E}.
Variable SCIPnodeMarkPropagated : Solver E -> Solver E.
Implicit Types (s : Solver E) (set : PROP_SET E) (v : RoundFlags).

Lemma only_last_snoc x results r :
  existsb (is_result x) results = false -> only_last x (results ++ [r]).
Proof.
  intros Hno pre post Heq.
  destruct post as [|y post] using rev_ind; [reflexivity|]. exfalso.
  rewrite app_comm_cons, app_assoc in Heq. apply app_inj_tail in Heq as [Heq _].
  subst results. rewrite existsb_app in Hno. simpl in Hno.
  unfold is_result in Hno. rewrite bool_decide_true in Hno by reflexivity.
  rewrite orb_true_r in Hno. discriminate.
Qed.

Lemma round_inv_start cutoff0 abort od :
  round_inv cutoff0 abort od (mkRoundFlags false false cutoff0) [] false.
Proof.
  unfold round_inv. simpl. rewrite orb_false_r, andb_false_r.
  repeat split; auto.
  - intros _ pre post H. destruct pre; discriminate.
  - intros _. destruct cutoff0; [reflexivity|].
    intros pre post H. destruct pre; discriminate.
Qed.

Lemma prop_loop_inv cutoff0 abort od cs : forall s v rs s' v' rs' ret,
  round_inv cutoff0 abort od v rs false ->
  prop_loop abort od cs s v rs = (s', v', rs', ret) ->
  round_inv cutoff0 abort od v' rs' ret.
Proof.
  induction cs as [|c cs IH]; intros s v rs s' v' rs' ret Hinv H; simpl in H.
  - inversion H; subst. exact Hinv.
  - destruct (negb (negb (rf_cutoff v) || negb abort)) eqn:Hg;
      [inversion H; subst; exact Hinv|].
    destruct (pc_skip c s); [eauto|].
    destruct (pc_exec c s) as [s1 r].
    destruct Hinv as (Hp & Hc & Hd & Hr & Hod & Hab).
    assert (od && existsb (is_result SCIP_REDUCEDDOM) rs = false) as Hnr by auto.
    assert (abort = true -> cutoff0 = false /\ existsb (is_result SCIP_CUTOFF) rs = false)
      as Hnc.
    { intros ->. rewrite Hc in Hg. simpl in Hg. rewrite orb_false_r, negb_involutive in Hg.
      apply orb_false_iff in Hg. exact Hg. }
    assert (round_inv cutoff0 abort od
              (mkRoundFlags (rf_delayed v || bool_decide (r = SCIP_DELAYED)
                             || od && bool_decide (r = SCIP_REDUCEDDOM))
                 (rf_propagain v || bool_decide (r = SCIP_REDUCEDDOM))
                 (rf_cutoff v || bool_decide (r = SCIP_CUTOFF)))
              (rs ++ [r]) (od && bool_decide (r = SCIP_REDUCEDDOM))) as Hnew.
    { unfold round_inv. cbn [rf_delayed rf_propagain rf_cutoff].
      rewrite !existsb_app. cbn [existsb]. rewrite !orb_false_r.
      rewrite Hp, Hc, Hd.
      split; [reflexivity|]. split; [rewrite orb_assoc; reflexivity|].
      split.
      { unfold is_result in *.
        destruct od; cbn [andb] in *; [rewrite Hnr|]; rewrite ?orb_false_r; reflexivity. }
      split.
      { unfold is_result in *.
        destruct od; cbn [andb] in *; [rewrite Hnr|]; reflexivity. }
      split.
      { intros ->. cbn [andb] in Hnr. apply only_last_snoc. exact Hnr. }
      intros Ha. destruct (Hnc Ha) as [-> Hno]. apply only_last_snoc. exact Hno. }
    destruct (od && bool_decide (r = SCIP_REDUCEDDOM)) eqn:Hret.
    + inversion H; subst; clear H.
      apply andb_prop in Hret as [-> Hrd]. simpl in Hnew.
      rewrite Hrd in Hnew. rewrite !orb_true_r in Hnew. rewrite Hrd. simpl.
      rewrite !orb_true_r. exact Hnew.
    + rewrite orb_false_r in Hnew. eapply IH; [exact Hnew|exact H].
Qed.

(** [propagationRound] (lines 239-352): [propagain] tells that some
    propagator or constraint handler returned [REDUCEDDOM], [cutoff] is the
    entry value raised by every [CUTOFF], and [delayed] tells that one asked
    to be delayed or, in a round for the delayed ones, found a reduction.
    Such a round ends with its first [REDUCEDDOM]; when propagation aborts
    on cutoff, a round ends with its first [CUTOFF] and calls nothing for a
    node that is cut off already. *)
Theorem propagationRound_accounting set depth full od s cutoff0 s' v' results :
  propagationRound set depth full od s cutoff0 = (s', v', results) ->
  rf_propagain v' = existsb (is_result SCIP_REDUCEDDOM) results /\
  rf_cutoff v' = cutoff0 || existsb (is_result SCIP_CUTOFF) results /\
  rf_delayed v' = existsb (is_result SCIP_DELAYED) results
                  || (od && existsb (is_result SCIP_REDUCEDDOM) results) /\
  (od = true -> only_last SCIP_REDUCEDDOM results) /\
  (abortoncutoff set = true ->
     if cutoff0 then results = [] else only_last SCIP_CUTOFF results).
Proof.
  unfold propagationRound. intros H.
  pose proof (round_inv_start cutoff0 (abortoncutoff set) od) as H0.
  assert (forall v r ret, round_inv cutoff0 (abortoncutoff set) od v r ret ->
            rf_propagain v = existsb (is_result SCIP_REDUCEDDOM) r /\
            rf_cutoff v = cutoff0 || existsb (is_result SCIP_CUTOFF) r /\
            rf_delayed v = existsb (is_result SCIP_DELAYED) r
                           || (od && existsb (is_result SCIP_REDUCEDDOM) r) /\
            (od = true -> only_last SCIP_REDUCEDDOM r) /\
            (abortoncutoff set = true ->
               if cutoff0 then r = [] else only_last SCIP_CUTOFF r)) as Hfin
    by (intros v r ret (A & B & C & _ & D & F); auto).
  destruct (prop_loop _ od (prop_calls set true depth od) s _ []) as [[[s1 v1] r1] ret1] eqn:H1.
  eapply prop_loop_inv in H1; [|exact H0].
  destruct ret1; [inversion H; subst; eauto|].
  destruct (prop_loop _ od (conshdlr_prop_calls set depth full od) s1 v1 r1)
    as [[[s2 v2] r2] ret2] eqn:H2.
  eapply prop_loop_inv in H2; [|exact H1].
  destruct ret2; [inversion H; subst; eauto|].
  destruct (prop_loop _ od (prop_calls set false depth od) s2 v2 r2)
    as [[[s3 v3] r3] ret3] eqn:H3.
  eapply prop_loop_inv in H3; [|exact H2].
  inversion H; subst; eauto.
Qed.

Lemma ordinary_rounds_snoc trace od results :
  ordinary_rounds (trace ++ [mkPropRound od results])
  = ordinary_rounds trace + (if od then 0 else 1).
Proof.
  unfold ordinary_rounds. rewrite filter_app, List.length_app.
  destruct od.
  - rewrite filter_cons_False by (simpl; discriminate). simpl. lia.
  - rewrite filter_cons_True by reflexivity. simpl. lia.
Qed.

Lemma ordinary_rounds_nonneg trace : 0 <= ordinary_rounds trace.
Proof. unfold ordinary_rounds. lia. Qed.

(** What a round leaves in the three flags, read from its entry in the log;
    the round is entered with [cutoff] unset. *)
Lemma propagationRound_flags set depth full od s s' v' results :
  propagationRound set depth full od s false = (s', v', results) ->
  rf_propagain v' = found_reduction (mkPropRound od results) /\
  rf_cutoff v' = found_cutoff (mkPropRound od results) /\
  rf_delayed v' = round_delayed (mkPropRound od results).
Proof.
  unfold propagationRound. intros H.
  pose proof (round_inv_start false (abortoncutoff set) od) as H0.
  assert (forall v r ret, round_inv false (abortoncutoff set) od v r ret ->
            rf_propagain v = found_reduction (mkPropRound od r) /\
            rf_cutoff v = found_cutoff (mkPropRound od r) /\
            rf_delayed v = round_delayed (mkPropRound od r)) as Hfin
    by (intros v r ret (A & B & C & _); auto).
  destruct (prop_loop _ od (prop_calls set true depth od) s _ []) as [[[s1 v1] r1] ret1] eqn:H1.
  eapply prop_loop_inv in H1; [|exact H0].
  destruct ret1; [inversion H; subst; eauto|].
  destruct (prop_loop _ od (conshdlr_prop_calls set depth full od) s1 v1 r1)
    as [[[s2 v2] r2] ret2] eqn:H2.
  eapply prop_loop_inv in H2; [|exact H1].
  destruct ret2; [inversion H; subst; eauto|].
  destruct (prop_loop _ od (prop_calls set false depth od) s2 v2 r2)
    as [[[s3 v3] r3] ret3] eqn:H3.
  eapply prop_loop_inv in H3; [|exact H2].
  inversion H; subst; eauto.
Qed.

Lemma delayed_prop_rounds_spec set depth full maxr propround fuel :
  forall s v trace r0 s' v' trace',
  last trace = Some r0 ->
  rf_propagain v = found_reduction r0 -> rf_cutoff v = found_cutoff r0 ->
  rf_delayed v = round_delayed r0 ->
  delayed_prop_rounds fuel set depth full maxr propround s v trace = Ok (s', v', trace') ->
  exists r1, last trace' = Some r1 /\
    rf_propagain v' = found_reduction r1 /\ rf_cutoff v' = found_cutoff r1 /\
    rf_delayed v' = round_delayed r1 /\
    ordinary_rounds trace' = ordinary_rounds trace /\
    rf_delayed v' && (negb (rf_propagain v') || (maxr <=? propround))
      && negb (rf_cutoff v') = false.
Proof.
  induction fuel as [|fuel IH]; intros s v trace r0 s' v' trace' Hl Hp Hc Hd H;
    cbn [delayed_prop_rounds] in H;
    destruct (rf_delayed v && (negb (rf_propagain v) || (maxr <=? propround))
              && negb (rf_cutoff v)) eqn:Hcond; try discriminate.
  - inversion H; subst. exists r0. rewrite Hcond. repeat (split; [assumption || reflexivity|]). reflexivity.
  - assert (rf_cutoff v = false) as Hcf.
    { apply andb_prop in Hcond as [_ Hn]. destruct (rf_cutoff v); [discriminate|reflexivity]. }
    rewrite Hcf in H.
    destruct (propagationRound set depth full true s false) as [[s1 v1] results] eqn:Hr.
    apply propagationRound_flags in Hr as (Hp1 & Hc1 & Hd1).
    eapply IH in H; [| apply last_snoc | exact Hp1 | exact Hc1 | exact Hd1].
    destruct H as (r1 & ? & ? & ? & ? & Ho & ?). exists r1.
    rewrite Ho, ordinary_rounds_snoc, Z.add_0_r.
    repeat (split; [assumption || reflexivity|]). assumption.
  - inversion H; subst. exists r0. rewrite Hcond. repeat (split; [assumption || reflexivity|]). reflexivity.
Qed.

Lemma rounds_inv_start maxr : rounds_inv maxr (mkPropLoop true false 0 [] false).
Proof. unfold rounds_inv. simpl. auto. Qed.

Lemma prop_rounds_inv set depth maxr budget fuel : forall full s l s' l',
  rounds_inv maxr l -> pl_stopped l = false ->
  prop_rounds fuel budget set depth full maxr s l = Ok (s', l') ->
  rounds_inv maxr l' /\
  (pl_stopped l' = false ->
   pl_propagain l' && negb (pl_cutoff l') && (pl_propround l' <? maxr) = false).
Proof.
  induction fuel as [|fuel IH]; intros full s l s' l' Hinv Hst H;
    cbn [prop_rounds] in H;
    destruct (pl_propagain l && negb (pl_cutoff l) && (pl_propround l <? maxr)) eqn:Hcond;
    try discriminate.
  - inversion H; subst. auto.
  - destruct (SCIPsolveIsStopped false s) as [s0 stopped].
    destruct stopped.
    { inversion H; subst; clear H. split; [|discriminate]. exact Hinv. }
    apply andb_prop in Hcond as [Hcond Hlt]. apply andb_prop in Hcond as [Hpa Hcf].
    apply Z.ltb_lt in Hlt.
    assert (pl_cutoff l = false) as Hcf' by (destruct (pl_cutoff l); [discriminate|reflexivity]).
    rewrite Hcf' in H.
    destruct (propagationRound set depth full false s0 false) as [[s1 v1] results] eqn:Hr.
    apply propagationRound_flags in Hr as (Hp1 & Hc1 & Hd1).
    destruct (delayed_prop_rounds budget set depth full maxr (pl_propround l + 1) s1 v1
                (pl_trace l ++ [mkPropRound false results])) as [[[s2 v2] trace2]| |] eqn:Hdel;
      rewrite ?Res_bind_Ok, ?Res_bind_Err in H; try discriminate.
    eapply delayed_prop_rounds_spec in Hdel;
      [| apply last_snoc | exact Hp1 | exact Hc1 | exact Hd1].
    destruct Hdel as (r1 & Hl1 & Hp2 & Hc2 & Hd2 & Ho & Hex).
    eapply IH in H; [exact H| |reflexivity].
    destruct Hinv as [Hcount _].
    unfold rounds_inv. cbn [pl_propround pl_trace pl_propagain pl_cutoff].
    rewrite Ho, ordinary_rounds_snoc, Hl1, <- Hcount.
    split; [reflexivity|]. split; [exact Hp2|]. split; [exact Hc2|]. split; [lia|].
    intros Hrd. rewrite Hd2, Hrd in Hex. cbn [andb] in Hex.
    destruct (rf_cutoff v2); [left; reflexivity|right].
    rewrite andb_true_r in Hex. apply orb_false_iff in Hex as [Hp3 Hle].
    split; [destruct (rf_propagain v2); [reflexivity|discriminate]|].
    apply Z.leb_gt in Hle. lia.
  - inversion H; subst. auto.
Qed.

Lemma propagateDomains_rounds fuel set depth maxproprounds full s s' cutoff l :
  propagateDomains SCIPnodeMarkPropagated fuel set depth maxproprounds full s
    = Ok (s', cutoff, l) ->
  pl_propround l = ordinary_rounds (pl_trace l) /\
  0 <= ordinary_rounds (pl_trace l)
    <= Z.max 0 (effective_maxproprounds set depth maxproprounds).
Proof.
  unfold propagateDomains. intros H.
  destruct (prop_rounds fuel fuel set depth full _ s _) as [[s1 l1]| |] eqn:Hr;
    rewrite ?Res_bind_Ok, ?Res_bind_Err in H; try discriminate.
  inversion H; subst; clear H.
  apply prop_rounds_inv in Hr as [[Hcount Hlast] _]; [|apply rounds_inv_start|reflexivity].
  split; [exact Hcount|]. split; [apply ordinary_rounds_nonneg|].
  rewrite <- Hcount.
  destruct (last (pl_trace l)) as [r|] eqn:Hl.
  - destruct Hlast as (_ & _ & Hle & _). lia.
  - destruct (pl_trace l) as [|x tr] eqn:Htr.
    + rewrite Hcount. unfold ordinary_rounds. simpl. lia.
    + apply last_None in Hl. discriminate.
Qed.

(** [SCIPpropagateDomains] (lines 425-440), through [propagateDomains]
    (lines 356-421), runs at most [maxproprounds] ordinary rounds, where 0
    stands for the setting of the depth and -1 for no limit; [propround]
    counts exactly these rounds, the rounds for the delayed propagators are
    not counted. *)
Theorem SCIPpropagateDomains_round_limit fuel set depth maxproprounds s s' cutoff l :
  SCIPpropagateDomains SCIPnodeMarkPropagated fuel set depth maxproprounds s
    = Ok (s', cutoff, l) ->
  pl_propround l = ordinary_rounds (pl_trace l) /\
  0 <= ordinary_rounds (pl_trace l)
    <= Z.max 0 (effective_maxproprounds set depth maxproprounds).
Proof.
  unfold SCIPpropagateDomains. intros H.
  destruct (propagateDomains SCIPnodeMarkPropagated fuel set depth maxproprounds true s)
    as [[[s1 c1] l1]| |] eqn:Hp;
    rewrite ?Res_bind_Ok, ?Res_bind_Err in H; try discriminate.
  inversion H; subst; clear H. exact (propagateDomains_rounds _ _ _ _ _ _ _ _ _ Hp).
Qed.

(** [propagateDomains] (lines 356-421) reports the cutoff of its last round,
    and none if no round was run.  If it ends without a cutoff, without the
    stop test and below the round limit, it ends at a fixpoint: in the last
    round no propagator or constraint handler reduced a domain and none
    asked to be delayed.  It runs no round only if the stop test fires
    first or the limit is not positive. *)
Theorem propagateDomains_fixpoint fuel set depth maxproprounds full s s' cutoff l :
  propagateDomains SCIPnodeMarkPropagated fuel set depth maxproprounds full s
    = Ok (s', cutoff, l) ->
  match last (pl_trace l) with
  | None =>
      cutoff = false /\
      (pl_stopped l = true \/ effective_maxproprounds set depth maxproprounds <= 0)
  | Some r =>
      cutoff = found_cutoff r /\
      (cutoff = false -> pl_stopped l = false ->
       ordinary_rounds (pl_trace l) < effective_maxproprounds set depth maxproprounds ->
       found_reduction r = false /\ found_delay r = false)
  end.
Proof.
  unfold propagateDomains. intros H.
  destruct (prop_rounds fuel fuel set depth full _ s _) as [[s1 l1]| |] eqn:Hr;
    rewrite ?Res_bind_Ok, ?Res_bind_Err in H; try discriminate.
  inversion H; subst; clear H.
  apply prop_rounds_inv in Hr as [[Hcount Hlast] Hexit]; [|apply rounds_inv_start|reflexivity].
  destruct (last (pl_trace l)) as [r|] eqn:Hl.
  - destruct Hlast as (Hp & Hc & Hle & Hd). split; [exact Hc|].
    intros Hnc Hns Hlt. specialize (Hexit Hns).
    rewrite Hnc in Hexit. rewrite <- Hcount in Hlt.
    apply Z.ltb_lt in Hlt. rewrite Hlt, !andb_true_r in Hexit.
    rewrite <- Hp. split; [exact Hexit|].
    destruct (found_delay r) eqn:Hfd; [|reflexivity].
    destruct Hd as [Hd|[Hd _]]; [unfold round_delayed; rewrite Hfd; reflexivity| |];
      congruence.
  - destruct Hlast as [Hp Hc]. split; [exact Hc|].
    destruct (pl_stopped l) eqn:Hs; [left; reflexivity|right].
    specialize (Hexit eq_refl). rewrite Hp, Hc in Hexit. cbn [andb negb] in Hexit.
    apply Z.ltb_ge in Hexit.
    apply last_None in Hl. rewrite Hl in Hcount. unfold ordinary_rounds in Hcount.
    simpl in Hcount. lia.
Qed.

End PropagateProofs.

(** ** The further properties at concrete runs *)

(** A node with lower bound -5 and pseudo objective value 0 under a cutoff
    bound of -1 is cut off with an infinite lower bound. *)
Lemma applyBounding_raises_lowerbound_witness :
  Solve.applyBounding (ops := Run.calm) (Run.settings [] []) false RunMore.low_node
    = RunMore.bounding_out
  /\ RunMore.bounding_out.2 = true
  /\ (Solve.SCIPnodeGetLowerbound RunMore.low_node
        <= Solve.SCIPnodeGetLowerbound RunMore.bounding_out.1)%Q
  /\ Solve.SCIPsetIsInfinity (Run.settings [] [])
       (Solve.SCIPnodeGetLowerbound RunMore.bounding_out.1) = true.
Proof.
  assert (Solve.applyBounding (ops := Run.calm) (Run.settings [] []) false RunMore.low_node
          = RunMore.bounding_out) as H by (vm_compute; reflexivity).
  split; [exact H|]. split; [reflexivity|].
  destruct (applyBounding_raises_lowerbound (ops := Run.calm) (Run.settings [] []) false
              RunMore.low_node RunMore.bounding_out.1 RunMore.bounding_out.2
              (fun s => eq_refl) H) as [_ Hb].
  destruct (Hb eq_refl) as (_ & Hlb & Hinf & _).
  split; [exact Hlb|]. apply Hinf. reflexivity.
Defined.

(** A relaxator that reports a reduced domain leaves [solverelaxagain] set
    and sets [propagateagain] and [solvelpagain]. *)
Lemma solveNodeRelax_raises_flags_witness :
  RunMore.relax_run = Ok RunMore.relax_out
  /\ Solve.fl_solverelaxagain RunMore.relax_out.2 = true.
Proof.
  assert (RunMore.relax_run = Ok RunMore.relax_out) as H by (vm_compute; reflexivity).
  split; [exact H|].
  destruct (solveNodeRelax_raises_flags (RunMore.relax_settings [RunMore.tightening]) 1 true
              Run.solver0 RunMore.relax_flags0 RunMore.relax_out.1 RunMore.relax_out.2 H)
    as (_ & _ & _ & _ & Hr).
  apply Hr. reflexivity.
Defined.

(** A pricing loop of at most three rounds whose only pricer does not run:
    one round is carried out. *)
Lemma SCIPpriceLoop_round_limit_witness :
  Run.price_run = Ok Run.price_out
  /\ Solve.price_rounds_done Run.price_out.1.2 = Solve.executed_rounds Run.price_out.2
  /\ 0 <= Solve.executed_rounds Run.price_out.2
       <= Z.max 0 (Solve.effective_maxpricerounds 3).
Proof.
  split; [vm_compute; reflexivity|].
  apply (SCIPpriceLoop_round_limit (ops := Run.missing_columns) 5
           (Run.settings [] [Run.resting_pricer]) false false 3 Run.solver0 false
           (- Run.infinity)%Q Run.price_out.1.1 Run.price_out.1.2 Run.price_out.2).
  vm_compute; reflexivity.
Defined.

(** A separator finds the cutoff: the loop ends with an infinite lower
    bound and does not report [unbounded]. *)
Lemma priceAndCutLoop_exit_state_witness :
  RunMore.axe_run = Ok RunMore.axe_out
  /\ Solve.cl_cutoff RunMore.axe_out.1.1.2 = true
  /\ Solve.installing (Solve.lp RunMore.axe_out.1.1.1) = false
  /\ Solve.SCIPsetIsInfinity (Run.sepa_settings [RunMore.axe] 1)
       (Solve.SCIPnodeGetLowerbound RunMore.axe_out.1.1.1) = true
  /\ RunMore.axe_out.1.2 = false.
Proof.
  assert (RunMore.axe_run = Ok RunMore.axe_out) as H by (vm_compute; reflexivity).
  split; [exact H|]. split; [reflexivity|].
  destruct (priceAndCutLoop_exit_state (ops := Run.flat) 10
              (Run.sepa_settings [RunMore.axe] 1) false Run.solver0 false
              RunMore.axe_out.1.1.1 RunMore.axe_out.1.1.2 RunMore.axe_out.1.2
              RunMore.axe_out.2 H) as (Hi & Hc & _).
  split; [exact Hi|]. apply Hc. reflexivity.
Defined.

(** The node LP with a constraint handler that adds a cut for the initial
    LP and a separator that adds a cut in each of its two rounds ends with
    an empty separation store. *)
Lemma solveNodeLP_sepastore_empty_witness :
  Solve.SCIPsepastoreGetNCuts Run.solver0 = 0%nat
  /\ DriversRun.cutting_lp_run = Ok DriversRun.cutting_lp_out
  /\ Solve.SCIPsepastoreGetNCuts DriversRun.cutting_lp_out.1 = 0%nat.
Proof.
  split; [reflexivity|]. split; [vm_compute; reflexivity|].
  apply (solveNodeLP_sepastore_empty (ops := DriversRun.sinking)
           (Run.sepa_settings [Run.cutter] 1) DriversRun.env
           (DriversRun_linked_is_solve_c Run.sinking)
           (linked_world_sepastore_discipline _ _ _ _ _ _ (Run.sepa_settings [Run.cutter] 1)
              (List.Forall_nil _) (List.Forall_nil _))
           10%nat false Run.solver0 Run.nodelp0 DriversRun.cutting_lp_out.1
           DriversRun.cutting_lp_out.2).
  - reflexivity.
  - vm_compute; reflexivity.
Defined.

(** The same separator in a whole node: the node ends with an empty
    separation store. *)
Lemma solveNode_sepastore_empty_witness :
  Solve.SCIPsepastoreGetNCuts Run.solver0 = 0%nat
  /\ DriversRun.cutting_node_run = Ok DriversRun.cutting_node_out
  /\ Solve.SCIPsepastoreGetNCuts DriversRun.cutting_node_out.1 = 0%nat.
Proof.
  split; [reflexivity|]. split; [vm_compute; reflexivity|].
  apply (solveNode_sepastore_empty (ops := DriversRun.sinking)
           (Run.sepa_settings [Run.cutter] 1) DriversRun.env
           (DriversRun_linked_is_solve_c Run.sinking)
           (linked_world_sepastore_discipline _ _ _ _ _ _ (Run.sepa_settings [Run.cutter] 1)
              (List.Forall_nil _) (List.Forall_nil _))
           20%nat Run.solver0 DriversRun.cutting_node_out.1 DriversRun.cutting_node_out.2).
  - reflexivity.
  - vm_compute; reflexivity.
Defined.

(** A separation round for a node that is cut off: the separator is not
    called, [cutoff] and [mustsepa] stay set. *)
Lemma separationRoundLP_raises_flags_witness :
  RunMore.cutoff_round = Ok RunMore.cutoff_round_out
  /\ Solve.sr_cutoff RunMore.cutoff_round_out.2 = true
  /\ Solve.sr_mustsepa RunMore.cutoff_round_out.2 = true
  /\ RunMore.cutoff_round_out.1 = Run.solver0
  /\ Solve.sr_delayed RunMore.cutoff_round_out.2 = false.
Proof.
  assert (RunMore.cutoff_round = Ok RunMore.cutoff_round_out) as H
    by (vm_compute; reflexivity).
  split; [exact H|].
  destruct (separationRoundLP_raises_flags (ops := Run.calm) 5
              (Run.sepa_settings [Run.cutter] 1) 1 1%Q false Run.solver0 true true false
              RunMore.cutoff_round_out.1 RunMore.cutoff_round_out.2 H)
    as (Hc & Hm & _ & Hs).
  split; [apply Hc; reflexivity|]. split; [apply Hm; reflexivity|].
  exact (Hs eq_refl).
Defined.

(** A round with a reducing propagator, a constraint handler that asks to
    be delayed and a propagator that finds the cutoff: all three flags are
    set, and the cutoff is the last result. *)
Lemma propagationRound_accounting_witness :
  Propagate.propagationRound PropagateRun.round_set 1 true false Run.solver0 false
    = PropagateRun.round_out
  /\ PropagateRun.round_out.2 = [SCIP_REDUCEDDOM; SCIP_DELAYED; SCIP_CUTOFF]
  /\ Propagate.rf_propagain PropagateRun.round_out.1.2 = true
  /\ Propagate.rf_cutoff PropagateRun.round_out.1.2 = true
  /\ Propagate.rf_delayed PropagateRun.round_out.1.2 = true
  /\ Propagate.only_last SCIP_CUTOFF PropagateRun.round_out.2.
Proof.
  assert (Propagate.propagationRound PropagateRun.round_set 1 true false Run.solver0 false
          = PropagateRun.round_out) as H by (vm_compute; reflexivity).
  split; [exact H|]. split; [reflexivity|].
  destruct (propagationRound_accounting PropagateRun.round_set 1 true false Run.solver0 false
              PropagateRun.round_out.1.1 PropagateRun.round_out.1.2 PropagateRun.round_out.2 H)
    as (Hp & Hc & Hd & _ & Ha).
  split; [rewrite Hp; reflexivity|]. split; [rewrite Hc; reflexivity|].
  split; [rewrite Hd; reflexivity|]. exact (Ha eq_refl).
Defined.

(** A propagator that reduces a domain twice: three ordinary rounds and one
    round for the delayed constraint handler, under a limit of 100. *)
Lemma SCIPpropagateDomains_round_limit_witness :
  PropagateRun.public_run = Ok PropagateRun.public_out
  /\ Propagate.pl_propround PropagateRun.public_out.2 = 3
  /\ length (Propagate.pl_trace PropagateRun.public_out.2) = 4%nat
  /\ 0 <= Propagate.ordinary_rounds (Propagate.pl_trace PropagateRun.public_out.2)
       <= Z.max 0 (Propagate.effective_maxproprounds PropagateRun.loop_set 1 0).
Proof.
  split; [vm_compute; reflexivity|]. split; [reflexivity|]. split; [reflexivity|].
  destruct (SCIPpropagateDomains_round_limit (ops := Run.calm)
              PropagateRun.SCIPnodeMarkPropagated 10 PropagateRun.loop_set 1 0
              Run.solver0 PropagateRun.public_out.1.1 PropagateRun.public_out.1.2
              PropagateRun.public_out.2 ltac:(vm_compute; reflexivity)) as [_ Hl].
  exact Hl.
Defined.

(** The same run ends at a fixpoint: its last round, the one for the
    delayed constraint handler, found no reduction and no delay. *)
Lemma propagateDomains_fixpoint_witness :
  PropagateRun.loop_run = Ok PropagateRun.loop_out
  /\ PropagateRun.loop_out.1.2 = false
  /\ last (Propagate.pl_trace PropagateRun.loop_out.2)
     = Some (Propagate.mkPropRound true [SCIP_DIDNOTFIND])
  /\ Propagate.found_reduction (Propagate.mkPropRound true [SCIP_DIDNOTFIND]) = false
  /\ Propagate.found_delay (Propagate.mkPropRound true [SCIP_DIDNOTFIND]) = false.
Proof.
  assert (PropagateRun.loop_run = Ok PropagateRun.loop_out) as H
    by (vm_compute; reflexivity).
  split; [exact H|]. split; [reflexivity|]. split; [reflexivity|].
  pose proof (propagateDomains_fixpoint (ops := Run.calm)
                PropagateRun.SCIPnodeMarkPropagated 10 PropagateRun.loop_set 1 0 false
                Run.solver0 PropagateRun.loop_out.1.1 PropagateRun.loop_out.1.2
                PropagateRun.loop_out.2 H) as Hf.
  change (last (Propagate.pl_trace PropagateRun.loop_out.2))
    with (Some (Propagate.mkPropRound true [SCIP_DIDNOTFIND])) in Hf.
  destruct Hf as [_ Hfix]. apply Hfix; [reflexivity|reflexivity|].
  vm_compute. reflexivity.
Defined.

(** ** The stop monitor over several calls *)

Section StopMoreProofs.
Import Stop.
Variable SCIPsetIsLE : SCIP_Real -> SCIP_Real -> bool.
Variable SCIPsetIsLT : SCIP_Real -> SCIP_Real -> bool.





End StopMoreProofs.


(** ** Estimate of the focus node *)

Section EstimateProofs.
Import Solve Estimate.
Context {E : Type}.
Variable VAR : Type.
Variable SCIPbranchcandGetLPCands : Solver E -> Solver E * list (VAR * SCIP_Real).
Variable SCIPvarGetPseudocost : Solver E -> VAR -> SCIP_Real -> SCIP_Real.
Variable SCIPnodeSetEstimate : SCIP_Real -> Solver E -> Solver E.
Implicit Types (s : Solver E).

Local Abbreviation gain := (estimate_gain VAR SCIPvarGetPseudocost).

Lemma MIN_le_l x y : (MIN x y <= x)%Q.
Proof.
  unfold MIN. destruct (Qle_bool x y) eqn:H; [apply Qle_refl|].
  apply Qlt_le_weak, Qnot_le_lt. intros Hle. apply Qle_bool_iff in Hle. congruence.
Qed.

Lemma MIN_nonneg x y : (0 <= x)%Q -> (0 <= y)%Q -> (0 <= MIN x y)%Q.
Proof. unfold MIN. destruct (Qle_bool x y); auto. Qed.

Lemma estimate_sum_bounds s (cs : list (VAR * SCIP_Real)) : forall e : SCIP_Real,
  pseudocosts_nonnegative VAR SCIPvarGetPseudocost s cs ->
  (e <= foldl (fun (estimate : SCIP_Real) c => (estimate + gain s c)%Q) e cs)%Q.
Proof.
  unfold pseudocosts_nonnegative.
  induction cs as [|c cs IH]; intros e Hall; simpl.
  - apply Qle_refl.
  - inversion Hall as [|? ? [Hd Hu] Hrest]; subst.
    eapply Qle_trans; [|apply (IH _ Hrest)].
    rewrite <- (Qplus_0_r e) at 1. apply Qplus_le_r.
    apply MIN_nonneg; assumption.
Qed.

Lemma estimate_sum_below s (cs : list (VAR * SCIP_Real)) : forall e d : SCIP_Real,
  (e <= d)%Q ->
  (foldl (fun (estimate : SCIP_Real) c => (estimate + gain s c)%Q) e cs
   <= foldl (fun (sum : SCIP_Real) (c : VAR * SCIP_Real) =>
               (sum + SCIPvarGetPseudocost s c.1 (0 - c.2))%Q) d cs)%Q.
Proof.
  induction cs as [|c cs IH]; intros e d Hle; simpl; [exact Hle|].
  apply IH. apply Qplus_le_compat; [exact Hle|]. apply MIN_le_l.
Qed.

Lemma foldl_plus_shift (f : VAR * SCIP_Real -> SCIP_Real) (cs : list (VAR * SCIP_Real)) :
  forall a b : SCIP_Real,
  (foldl (fun (sum : SCIP_Real) c => (sum + f c)%Q) (a + b)%Q cs
   == a + foldl (fun (sum : SCIP_Real) c => (sum + f c)%Q) b cs)%Q.
Proof.
  induction cs as [|c cs IH]; intros a b; simpl; [reflexivity|].
  rewrite <- IH.
  assert (forall x y : SCIP_Real, (x == y)%Q ->
            (foldl (fun (sum : SCIP_Real) c => (sum + f c)%Q) x cs
             == foldl (fun (sum : SCIP_Real) c => (sum + f c)%Q) y cs)%Q) as Hext.
  { clear. induction cs as [|c cs IH]; intros x y Hxy; simpl; [exact Hxy|].
    apply IH. rewrite Hxy. reflexivity. }
  apply Hext. ring.
Qed.

(** [updateEstimate] (lines 612-656) leaves everything as it is unless the
    LP is solved to optimality and is a relaxation.  Then it changes the
    state through its callees [SCIPbranchcandGetLPCands] and
    [SCIPnodeSetEstimate] only: whatever the two leave alone is as before.
    The estimate that it hands to [SCIPnodeSetEstimate] is, with pseudo
    costs that are not negative, the lower bound of the node at least, and
    at most the lower bound plus the cost of rounding every fractional
    variable down. *)
Theorem updateEstimate_bounds s :
  let s' := updateEstimate VAR SCIPbranchcandGetLPCands SCIPvarGetPseudocost
              SCIPnodeSetEstimate s in
  let s1 := (SCIPbranchcandGetLPCands s).1 in
  let lpcands := (SCIPbranchcandGetLPCands s).2 in
  let estimate := new_estimate VAR SCIPvarGetPseudocost s1 lpcands in
  (SCIPlpGetSolstat s <> SCIP_LPSOLSTAT_OPTIMAL \/ SCIPlpIsRelax s = false -> s' = s) /\
  (SCIPlpGetSolstat s = SCIP_LPSOLSTAT_OPTIMAL -> SCIPlpIsRelax s = true ->
   s' = SCIPnodeSetEstimate estimate s1) /\
  (forall (A : Type) (reading : Solver E -> A),
     (forall s0, reading (SCIPbranchcandGetLPCands s0).1 = reading s0) ->
     (forall e s0, reading (SCIPnodeSetEstimate e s0) = reading s0) ->
     reading s' = reading s) /\
  (pseudocosts_nonnegative VAR SCIPvarGetPseudocost s1 lpcands ->
   (SCIPnodeGetLowerbound s1 <= estimate)%Q /\
   (estimate
    <= SCIPnodeGetLowerbound s1 + rounding_down_cost VAR SCIPvarGetPseudocost s1 lpcands)%Q).
Proof.
  intros s' s1 lpcands estimate. subst s' s1 lpcands estimate.
  unfold updateEstimate, solstat_is.
  destruct (SCIPbranchcandGetLPCands s) as [s1 lpcands] eqn:Hc. cbn [fst snd].
  split; [|split; [|split]].
  - intros [Hn|Hn].
    + rewrite (bool_decide_eq_false_2 _ Hn). reflexivity.
    + rewrite Hn, orb_true_r. reflexivity.
  - intros Ho Hr. rewrite (bool_decide_eq_true_2 _ Ho), Hr. reflexivity.
  - intros A reading Hg Hs.
    destruct (negb (bool_decide _) || negb (SCIPlpIsRelax s)); [reflexivity|].
    rewrite Hs. specialize (Hg s). rewrite Hc in Hg. exact Hg.
  - intros Hnn. unfold new_estimate, rounding_down_cost. split.
    + apply (estimate_sum_bounds _ _ _ Hnn).
    + rewrite <- (foldl_plus_shift (fun c => SCIPvarGetPseudocost s1 c.1 (0 - c.2)%Q)).
      apply estimate_sum_below. rewrite Qplus_0_r. apply Qle_refl.
Qed.

End EstimateProofs.

(** Two fractional variables with pseudo costs 2 and 4 per unit at
    fractionalities 1/4 and 1/2 under a lower bound of 10: the estimate is
    10 + 1/2 + 2, and the lower bound of the node is as before. *)
Lemma updateEstimate_bounds_witness :
  Estimate.pseudocosts_nonnegative Z EstimateRun.pseudocost
    (EstimateRun.GetLPCands EstimateRun.state0).1 (EstimateRun.GetLPCands EstimateRun.state0).2
  /\ (Solve.ext EstimateRun.state1 == 25 # 2)%Q
  /\ Solve.SCIPnodeGetLowerbound EstimateRun.state1
     = Solve.SCIPnodeGetLowerbound EstimateRun.state0
  /\ (10 <= Estimate.new_estimate Z EstimateRun.pseudocost
              (EstimateRun.GetLPCands EstimateRun.state0).1
              (EstimateRun.GetLPCands EstimateRun.state0).2)%Q.
Proof.
  assert (Estimate.pseudocosts_nonnegative Z EstimateRun.pseudocost
            (EstimateRun.GetLPCands EstimateRun.state0).1
            (EstimateRun.GetLPCands EstimateRun.state0).2) as Hnn.
  { repeat constructor; vm_compute; discriminate. }
  split; [exact Hnn|]. split; [vm_compute; reflexivity|]. split; [reflexivity|].
  destruct (updateEstimate_bounds Z EstimateRun.GetLPCands EstimateRun.pseudocost
              EstimateRun.SetEstimate EstimateRun.state0) as (_ & _ & _ & Hb).
  exact (proj1 (Hb Hnn)).
Defined.

(** ** Separation of a primal solution *)

Section SeparateSolProofs.
Import Solve SeparateSol.
Context {E : Type} {ops : Collaborators E}.
Variable SOL : Type.
Variable SCIPsepaWasSolDelayed : Sepa E -> Solver E -> bool.
Variable SCIPsepaExecSol : Sepa E -> SOL -> Z -> bool -> Solver E -> Solver E * SCIP_RESULT.
Variable SCIPconshdlrWasSolSeparationDelayed : Conshdlr E -> Solver E -> bool.
Variable SCIPconshdlrSeparateSol :
  Conshdlr E -> SOL -> Z -> bool -> Solver E -> Solver E * SCIP_RESULT.
Implicit Types (s : Solver E) (set : SCIP_SET E) (v : SolVars).

Lemma last_only_nil P : last_only P [].
Proof. intros pre x post H. destruct pre; discriminate. Qed.

Lemma last_only_snoc P log r : existsb P log = false -> last_only P (log ++ [r]).
Proof.
  intros Hno pre x post Heq HP.
  destruct post as [|y post] using rev_ind; [reflexivity|]. exfalso.
  rewrite app_comm_cons, app_assoc in Heq. apply app_inj_tail in Heq as [Heq _].
  subst log. rewrite existsb_app in Hno. simpl in Hno.
  rewrite HP, orb_true_r in Hno. discriminate.
Qed.

Lemma found_cut_consadded r : is_consadded r = true -> found_cut r = true.
Proof. unfold is_consadded. intros H. apply bool_decide_eq_true in H. subst. reflexivity. Qed.

Lemma sol_inv_start cutoff0 od : sol_inv cutoff0 od (mkSolVars false false cutoff0 false) [] false.
Proof.
  unfold sol_inv. simpl. rewrite orb_false_r, andb_false_r.
  repeat (split; [first [reflexivity | discriminate | intros _; apply last_only_nil]|]).
  destruct cutoff0; [reflexivity|apply last_only_nil].
Qed.

(** With [consadded] set, the round is not one for the delayed separators
    (the assertion of line 1205). *)
Lemma sol_inv_consadded cutoff0 od v log :
  sol_inv cutoff0 od v log false -> so_consadded v = true -> od = false.
Proof.
  intros (_ & _ & Hr & Hc & _) Hca. destruct od; [|reflexivity].
  specialize (Hc Hca). simpl in Hr.
  assert (existsb found_cut log = true) as Hf.
  { apply existsb_exists in Hc as (r & Hin & Hr'). apply existsb_exists.
    exists r. split; [exact Hin|]. apply found_cut_consadded. exact Hr'. }
  congruence.
Qed.

Lemma sol_inv_reset cutoff0 od v log :
  sol_inv cutoff0 od v log false ->
  sol_inv cutoff0 od (mkSolVars (so_delayed v) (so_enoughcuts v) (so_cutoff v) false) log false.
Proof.
  intros (Hc & Hd & Hr & _ & Ho & Hl). unfold sol_inv. simpl.
  repeat (split; [first [assumption | discriminate]|]). exact Hl.
Qed.

Lemma sol_loop_inv set root cutoff0 od cs : forall s v log s' v' log' ret,
  sol_inv cutoff0 od v log false ->
  sol_loop set root od cs s v log = (s', v', log', ret) ->
  sol_inv cutoff0 od v' log' ret.
Proof.
  induction cs as [|c cs IH]; intros s v log s' v' log' ret Hinv H; simpl in H.
  - inversion H; subst. exact Hinv.
  - destruct (so_cutoff v || so_enoughcuts v) eqn:Hg; [inversion H; subst; exact Hinv|].
    destruct (SCIPsolveIsStopped false s) as [s0 stopped].
    destruct stopped; [inversion H; subst; exact Hinv|].
    destruct (sepa_skip c s0); [eauto|].
    destruct (sepa_exec c s0) as [s1 r].
    destruct Hinv as (Hc & Hd & Hr & Hca & Hod & Hl).
    apply orb_false_iff in Hg as [Hcf _].
    rewrite Hcf in Hc. symmetry in Hc. apply orb_false_iff in Hc as [-> Hnc].
    assert (od && existsb found_cut log = false) as Hnr by auto.
    assert (sol_inv false od
              (mkSolVars (so_delayed v || bool_decide (r = SCIP_DELAYED)
                          || od && found_cut r)
                 (so_enoughcuts v || enough_cuts set root s1)
                 (so_cutoff v || bool_decide (r = SCIP_CUTOFF))
                 (so_consadded v || bool_decide (r = SCIP_CONSADDED)))
              (log ++ [r]) (od && found_cut r)) as Hnew.
    { unfold sol_inv. cbn [so_delayed so_cutoff so_consadded].
      rewrite !existsb_app. cbn [existsb]. rewrite !orb_false_r.
      rewrite Hcf, Hd, Hnc. cbn [orb].
      split; [reflexivity|].
      split.
      { unfold is_delayed.
        destruct od; cbn [andb] in *; [rewrite Hnr|]; rewrite ?orb_false_r; reflexivity. }
      split.
      { destruct od; cbn [andb] in *; [rewrite Hnr|]; reflexivity. }
      split.
      { intros Hor. apply orb_true_iff in Hor as [Ht|Ht].
        - rewrite (Hca Ht). reflexivity.
        - unfold is_consadded. rewrite Ht. apply orb_true_r. }
      split.
      { intros ->. cbn [andb] in Hnr. apply last_only_snoc. exact Hnr. }
      apply last_only_snoc. exact Hnc. }
    destruct (od && found_cut r) eqn:Hret.
    + inversion H; subst; clear H.
      cbn [so_enoughcuts so_cutoff so_consadded].
      unfold sol_inv in *. cbn [so_delayed so_cutoff so_consadded] in *.
      destruct Hnew as (A & B & C & D & F & G).
      rewrite orb_true_r in B.
      repeat (split; [assumption|]). exact G.
    + rewrite orb_false_r in Hnew. eapply IH; [exact Hnew|exact H].
Qed.

Lemma sol_consadded_loop_inv set root sol d cutoff0 od fuel : forall s v log s' v' log',
  sol_inv cutoff0 od v log false ->
  sol_consadded_loop SOL SCIPconshdlrWasSolSeparationDelayed SCIPconshdlrSeparateSol
    fuel set root sol d od s v log = Ok (s', v', log') ->
  sol_inv cutoff0 od v' log' false.
Proof.
  induction fuel as [|fuel IH]; intros s v log s' v' log' Hinv H;
    cbn [sol_consadded_loop] in H; destruct (so_consadded v) eqn:Hca; try discriminate.
  - inversion H; subst. exact Hinv.
  - pose proof (sol_inv_consadded _ _ _ _ Hinv Hca) as ->.
    match type of H with context [sol_loop ?a ?b ?c ?l ?e ?f ?g] =>
      destruct (sol_loop a b c l e f g) as [[[s1 v1] log1] ret1] eqn:Hl end.
    apply sol_loop_inv with (cutoff0 := cutoff0) in Hl; [|apply sol_inv_reset; exact Hinv].
    assert (ret1 = false) as -> by (destruct Hl as (_ & _ & Hr & _); exact Hr).
    eapply IH; [exact Hl|exact H].
  - inversion H; subst. exact Hinv.
Qed.

Lemma separationRoundSol_inv fuel set sol d od s cutoff0 s' v' log :
  separationRoundSol SOL SCIPsepaWasSolDelayed SCIPsepaExecSol
    SCIPconshdlrWasSolSeparationDelayed SCIPconshdlrSeparateSol
    fuel set sol d od s cutoff0 = Ok (s', v', log) ->
  exists ret, sol_inv cutoff0 od v' log ret.
Proof.
  unfold separationRoundSol. intros H.
  pose proof (sol_inv_start cutoff0 od) as H0.
  match type of H with context [sol_loop ?a ?b ?c ?l ?e ?f ?g] =>
    destruct (sol_loop a b c l e f g) as [[[s1 v1] log1] ret1] eqn:H1 end.
  apply sol_loop_inv with (cutoff0 := cutoff0) in H1; [|exact H0].
  destruct ret1; [inversion H; subst; eauto|].
  match type of H with context [sol_loop ?a ?b ?c ?l ?e ?f ?g] =>
    destruct (sol_loop a b c l e f g) as [[[s2 v2] log2] ret2] eqn:H2 end.
  apply sol_loop_inv with (cutoff0 := cutoff0) in H2; [|exact H1].
  destruct ret2; [inversion H; subst; eauto|].
  match type of H with context [sol_loop ?a ?b ?c ?l ?e ?f ?g] =>
    destruct (sol_loop a b c l e f g) as [[[s3 v3] log3] ret3] eqn:H3 end.
  apply sol_loop_inv with (cutoff0 := cutoff0) in H3; [|exact H2].
  destruct ret3; [inversion H; subst; eauto|].
  apply sol_consadded_loop_inv with (cutoff0 := cutoff0) in H; [eauto|exact H3].
Qed.

(** [SCIPseparationRound] (lines 1230-1275) on a primal solution, with
    [separationRoundSol] (lines 1088-1228): [cutoff] is reported exactly if
    a separator or constraint handler returned [CUTOFF], and that call is
    the last one of the round; [delayed] is reported exactly if one asked
    to be delayed or, in a round for the delayed ones, one found a cut, a
    constraint or a reduction, and such a round ends with that call. *)
Theorem SCIPseparationRound_sol_accounting fuel set sol d od s s' delayed cutoff log :
  SCIPseparationRound SOL SCIPsepaWasSolDelayed SCIPsepaExecSol
    SCIPconshdlrWasSolSeparationDelayed SCIPconshdlrSeparateSol
    fuel set (Some sol) d od s = Ok (s', delayed, cutoff, log) ->
  cutoff = existsb is_cutoff log /\
  delayed = existsb is_delayed log || (od && existsb found_cut log) /\
  last_only is_cutoff log /\
  (od = true -> last_only found_cut log).
Proof.
  unfold SCIPseparationRound. intros H.
  match type of H with context [separationRoundSol ?a ?b ?c ?x ?e ?f ?g ?h ?i ?j ?k ?l] =>
    destruct (separationRoundSol a b c x e f g h i j k l) as [[[s1 v1] log1]| |] eqn:Hr end;
    rewrite ?Res_bind_Ok, ?Res_bind_Err in H; try discriminate.
  inversion H; subst; clear H.
  apply separationRoundSol_inv in Hr as (ret & Hc & Hd & _ & _ & Ho & Hl).
  auto.
Qed.

End SeparateSolProofs.

(** A round on a solution with a separator that asks to be delayed, a
    constraint handler that separates and a separator that finds the
    cutoff. *)
Lemma SCIPseparationRound_sol_accounting_witness :
  SeparateSolRun.sol_run = Ok SeparateSolRun.sol_out
  /\ SeparateSolRun.sol_out.2 = [SCIP_DELAYED; SCIP_SEPARATED; SCIP_CUTOFF]
  /\ SeparateSolRun.sol_out.1.2 = true
  /\ SeparateSolRun.sol_out.1.1.2 = true
  /\ SeparateSol.last_only SeparateSol.is_cutoff SeparateSolRun.sol_out.2.
Proof.
  split; [vm_compute; reflexivity|]. split; [reflexivity|].
  destruct (SCIPseparationRound_sol_accounting (ops := Run.calm) nat
              SeparateSolRun.WasSolDelayed SeparateSolRun.ExecSol
              SeparateSolRun.WasSolSeparationDelayed SeparateSolRun.SeparateSol
              5 SeparateSolRun.sol_settings 7%nat 1 false Run.solver0
              SeparateSolRun.sol_out.1.1.1 SeparateSolRun.sol_out.1.1.2
              SeparateSolRun.sol_out.1.2 SeparateSolRun.sol_out.2
              ltac:(vm_compute; reflexivity)) as (Hc & Hd & Hl & _).
  split; [rewrite Hc; reflexivity|]. split; [rewrite Hd; reflexivity|]. exact Hl.
Defined.

(** ** Primal heuristics *)

Section HeuristicsProofs.
Import Heuristics.
Variable W : Type.
Variable HEUR : Type.
Variable resolvelperror : W -> bool.
Variable nbestsolsfound : W -> Z.
Variable SCIPtreeHasFocusNodeLP : W -> bool.
Variable SCIPtreeGetCurrentDepth : W -> Z.
Variable SCIPtreeGetFocusDepth : W -> Z.
Variable focuslpstatefork_depth : W -> option Z.
Variable SCIPheurExec : HEUR -> Z -> Z -> Z -> Z -> W -> W * Z * SCIP_RESULT.
Variable SCIPsetSortHeurs : list HEUR -> list HEUR.
Variables BEFOREPRESOL DURINGPRESOLLOOP AFTERNODE AFTERLPNODE AFTERPSEUDONODE
  AFTERLPPLUNGE AFTERPSEUDOPLUNGE : Z.

Lemma heur_loop_calls lp depth fork timing hs : forall w n log w' n' log',
  heur_loop W HEUR resolvelperror SCIPheurExec lp depth fork timing hs w n log
    = (w', n', log') ->
  exists new rest,
    log' = log ++ new /\ hs = (hc_heur HEUR <$> new) ++ rest /\
    Forall (fun c => hc_depth HEUR c = depth /\ hc_lpstateforkdepth HEUR c = fork
                     /\ hc_timing HEUR c = timing
                     /\ (lp = true -> hc_resolvelperror HEUR c = false)) new /\
    (rest <> [] -> lp = true /\ resolvelperror w' = true).
Proof.
  induction hs as [|h hs IH]; intros w n log w' n' log' H; simpl in H.
  - inversion H; subst. exists [], []. rewrite app_nil_r.
    split; [reflexivity|]. split; [reflexivity|]. split; [constructor|].
    intros Hne. contradiction.
  - destruct (lp && resolvelperror w) eqn:Hb.
    + inversion H; subst. exists [], (h :: hs). rewrite app_nil_r.
      apply andb_prop in Hb as [-> Hr].
      split; [reflexivity|]. split; [reflexivity|]. split; [constructor|].
      intros _. split; [reflexivity|exact Hr].
    + destruct (SCIPheurExec h depth fork timing n w) as [[w1 n1] result].
      apply IH in H as (new & rest & -> & -> & Hall & Hrest).
      exists (mkHeurCall HEUR h depth fork timing (resolvelperror w) :: new), rest.
      rewrite <- app_assoc.
      split; [reflexivity|]. split; [reflexivity|]. split; [|exact Hrest].
      constructor; [|exact Hall]. cbn.
      split; [reflexivity|]. split; [reflexivity|]. split; [reflexivity|].
      intros ->. exact Hb.
Qed.

(** [SCIPprimalHeuristics] (lines 121-236) calls the heuristics in the order
    of [set->heurs] after sorting, each at most once and all with the same
    specialised timing; with the LP data given it calls none while
    [lp->resolvelperror] is set, and it leaves heuristics out only at the
    early exit (no state change) or because [lp->resolvelperror] is set on
    return.  [foundsol] tells whether [nbestsolsfound] has grown. *)
Theorem SCIPprimalHeuristics_calls heurs lp nextnode heurtiming w w' foundsol log :
  SCIPprimalHeuristics W HEUR resolvelperror nbestsolsfound SCIPtreeHasFocusNodeLP
    SCIPtreeGetCurrentDepth SCIPtreeGetFocusDepth focuslpstatefork_depth SCIPheurExec
    SCIPsetSortHeurs BEFOREPRESOL DURINGPRESOLLOOP AFTERNODE AFTERLPNODE AFTERPSEUDONODE
    AFTERLPPLUNGE AFTERPSEUDOPLUNGE heurs lp nextnode heurtiming w = (w', foundsol, log) ->
  foundsol = (nbestsolsfound w <? nbestsolsfound w') /\
  Forall (fun c =>
            hc_timing HEUR c
            = specialize_timing W SCIPtreeHasFocusNodeLP SCIPtreeGetCurrentDepth AFTERNODE
                AFTERLPNODE AFTERPSEUDONODE AFTERLPPLUNGE AFTERPSEUDOPLUNGE
                w nextnode heurtiming
            /\ (lp = true -> hc_resolvelperror HEUR c = false)) log /\
  exists rest,
    SCIPsetSortHeurs heurs = (hc_heur HEUR <$> log) ++ rest /\
    (rest <> [] -> (log = [] /\ w' = w) \/ (lp = true /\ resolvelperror w' = true)).
Proof.
  unfold SCIPprimalHeuristics. intros H.
  match type of H with (if ?b then _ else _) = _ => destruct b end.
  - inversion H; subst. rewrite Z.ltb_irrefl. split; [reflexivity|].
    split; [constructor|]. exists (SCIPsetSortHeurs heurs). split; [reflexivity|].
    intros _. left. split; reflexivity.
  - match type of H with context [if ?b then (-1, -1) else ?e] =>
      destruct (if b then (-1, -1) else e) as [depth fork] end.
    match type of H with context [heur_loop _ _ _ _ ?a ?b ?c ?d ?e ?f ?g ?h] =>
      destruct (heur_loop W HEUR resolvelperror SCIPheurExec a b c d e f g h)
        as [[w1 n1] log1] eqn:Hl end.
    inversion H; subst; clear H.
    apply heur_loop_calls in Hl as (new & rest & Hlog & Hhs & Hall & Hrest).
    simpl in Hlog. subst new. split; [reflexivity|]. split.
    + eapply Forall_impl; [exact Hall|]. intros c (_ & _ & Ht & Hr). auto.
    + exists rest. split; [exact Hhs|]. intros Hne. right. auto.
Qed.

(** The specialisation of the timing, bit by bit. *)
Lemma specialize_timing_bits w nextnode t :
  timing_flags AFTERNODE AFTERLPNODE AFTERPSEUDONODE AFTERLPPLUNGE AFTERPSEUDOPLUNGE ->
  Z.land t AFTERNODE = AFTERNODE ->
  let t' := specialize_timing W SCIPtreeHasFocusNodeLP SCIPtreeGetCurrentDepth AFTERNODE
              AFTERLPNODE AFTERPSEUDONODE AFTERLPPLUNGE AFTERPSEUDOPLUNGE w nextnode t in
  Z.land t' AFTERNODE
    = (if SCIPtreeHasFocusNodeLP w then AFTERLPNODE else AFTERPSEUDONODE) /\
  Z.land t' AFTERLPPLUNGE
    = (if negb (plunging_below_root W SCIPtreeGetCurrentDepth w nextnode)
          && SCIPtreeHasFocusNodeLP w
       then AFTERLPPLUNGE else Z.land t AFTERLPPLUNGE) /\
  Z.land t' AFTERPSEUDOPLUNGE
    = (if negb (plunging_below_root W SCIPtreeGetCurrentDepth w nextnode)
          && negb (SCIPtreeHasFocusNodeLP w)
       then AFTERPSEUDOPLUNGE else Z.land t AFTERPSEUDOPLUNGE) /\
  (forall m, Z.land m AFTERNODE = 0 -> Z.land m AFTERLPPLUNGE = 0 ->
             Z.land m AFTERPSEUDOPLUNGE = 0 -> Z.land t' m = Z.land t m).
Proof.
  intros [Han H1 H2 H3 H4 H5 H6] Ht t'. subst t'. unfold specialize_timing.
  rewrite (proj2 (Z.eqb_eq _ _) Ht). unfold plunging_below_root.
  set (plunging := match nextnode with
                   | Some type => negb (bool_decide (type = SCIP_NODETYPE_LEAF))
                   | None => false
                   end).
  subst AFTERNODE.
  assert (forall n, Z.testbit AFTERLPNODE n && Z.testbit AFTERPSEUDONODE n = false) as B1
    by (intros n; rewrite <- Z.land_spec, H1; apply Z.bits_0).
  assert (forall n, Z.testbit AFTERLPNODE n && Z.testbit AFTERLPPLUNGE n = false) as B2
    by (intros n; rewrite <- Z.land_spec, H2; apply Z.bits_0).
  assert (forall n, Z.testbit AFTERLPNODE n && Z.testbit AFTERPSEUDOPLUNGE n = false) as B3
    by (intros n; rewrite <- Z.land_spec, H3; apply Z.bits_0).
  assert (forall n, Z.testbit AFTERPSEUDONODE n && Z.testbit AFTERLPPLUNGE n = false) as B4
    by (intros n; rewrite <- Z.land_spec, H4; apply Z.bits_0).
  assert (forall n, Z.testbit AFTERPSEUDONODE n && Z.testbit AFTERPSEUDOPLUNGE n = false)
    as B5 by (intros n; rewrite <- Z.land_spec, H5; apply Z.bits_0).
  assert (forall n, Z.testbit AFTERLPPLUNGE n && Z.testbit AFTERPSEUDOPLUNGE n = false) as B6
    by (intros n; rewrite <- Z.land_spec, H6; apply Z.bits_0).
  assert (forall n, Z.testbit t n
                    && (Z.testbit AFTERLPNODE n || Z.testbit AFTERPSEUDONODE n)
                    = Z.testbit AFTERLPNODE n || Z.testbit AFTERPSEUDONODE n) as Bt
    by (intros n; rewrite <- Z.lor_spec, <- Z.land_spec, Ht; reflexivity).
  assert (forall a b : Z, (forall n, 0 <= n -> Z.testbit a n = Z.testbit b n) -> a = b)
    as Hinj by (intros a b; apply Z.bits_inj').
  split; [|split; [|split]].
  - destruct (plunging && (0 <? SCIPtreeGetCurrentDepth w)),
      (SCIPtreeHasFocusNodeLP w); cbn [negb];
      apply Hinj; intros n Hn;
      rewrite ?Z.land_spec, ?Z.lor_spec, ?Z.land_spec, ?Z.lnot_spec, ?Z.lor_spec by exact Hn;
      specialize (B1 n); specialize (B2 n); specialize (B3 n); specialize (B4 n);
      specialize (B5 n); specialize (B6 n); specialize (Bt n);
      destruct (Z.testbit t n), (Z.testbit AFTERLPNODE n), (Z.testbit AFTERPSEUDONODE n),
        (Z.testbit AFTERLPPLUNGE n), (Z.testbit AFTERPSEUDOPLUNGE n);
      simpl in *; congruence.
  - destruct (plunging && (0 <? SCIPtreeGetCurrentDepth w)),
      (SCIPtreeHasFocusNodeLP w); cbn [negb andb];
      apply Hinj; intros n Hn;
      rewrite ?Z.land_spec, ?Z.lor_spec, ?Z.land_spec, ?Z.lnot_spec, ?Z.lor_spec by exact Hn;
      specialize (B1 n); specialize (B2 n); specialize (B3 n); specialize (B4 n);
      specialize (B5 n); specialize (B6 n); specialize (Bt n);
      destruct (Z.testbit t n), (Z.testbit AFTERLPNODE n), (Z.testbit AFTERPSEUDONODE n),
        (Z.testbit AFTERLPPLUNGE n), (Z.testbit AFTERPSEUDOPLUNGE n);
      simpl in *; congruence.
  - destruct (plunging && (0 <? SCIPtreeGetCurrentDepth w)),
      (SCIPtreeHasFocusNodeLP w); cbn [negb andb];
      apply Hinj; intros n Hn;
      rewrite ?Z.land_spec, ?Z.lor_spec, ?Z.land_spec, ?Z.lnot_spec, ?Z.lor_spec by exact Hn;
      specialize (B1 n); specialize (B2 n); specialize (B3 n); specialize (B4 n);
      specialize (B5 n); specialize (B6 n); specialize (Bt n);
      destruct (Z.testbit t n), (Z.testbit AFTERLPNODE n), (Z.testbit AFTERPSEUDONODE n),
        (Z.testbit AFTERLPPLUNGE n), (Z.testbit AFTERPSEUDOPLUNGE n);
      simpl in *; congruence.
  - intros m M1 M2 M3.
    assert (forall n, Z.testbit m n
                      && (Z.testbit AFTERLPNODE n || Z.testbit AFTERPSEUDONODE n) = false)
      as C1 by (intros n; rewrite <- Z.lor_spec, <- Z.land_spec, M1; apply Z.bits_0).
    assert (forall n, Z.testbit m n && Z.testbit AFTERLPPLUNGE n = false) as C2
      by (intros n; rewrite <- Z.land_spec, M2; apply Z.bits_0).
    assert (forall n, Z.testbit m n && Z.testbit AFTERPSEUDOPLUNGE n = false) as C3
      by (intros n; rewrite <- Z.land_spec, M3; apply Z.bits_0).
    destruct (plunging && (0 <? SCIPtreeGetCurrentDepth w)),
      (SCIPtreeHasFocusNodeLP w); cbn [negb andb];
      apply Hinj; intros n Hn;
      rewrite ?Z.land_spec, ?Z.lor_spec, ?Z.land_spec, ?Z.lnot_spec, ?Z.lor_spec by exact Hn;
      specialize (C1 n); specialize (C2 n); specialize (C3 n);
      destruct (Z.testbit t n), (Z.testbit m n), (Z.testbit AFTERLPNODE n),
        (Z.testbit AFTERPSEUDONODE n), (Z.testbit AFTERLPPLUNGE n),
        (Z.testbit AFTERPSEUDOPLUNGE n);
      simpl in *; congruence.
Qed.

(** [SCIPprimalHeuristics] (lines 121-236), called with a timing that
    contains [AFTERNODE]: every heuristic sees exactly one flavour of it,
    [AFTERLPNODE] if the focus node has an LP and [AFTERPSEUDONODE]
    otherwise; the plunge flag of that flavour is added unless the next node
    continues a plunge below the root, and no other flag is changed. *)
Theorem SCIPprimalHeuristics_afternode_timing heurs lp nextnode heurtiming w w' foundsol log :
  timing_flags AFTERNODE AFTERLPNODE AFTERPSEUDONODE AFTERLPPLUNGE AFTERPSEUDOPLUNGE ->
  Z.land heurtiming AFTERNODE = AFTERNODE ->
  SCIPprimalHeuristics W HEUR resolvelperror nbestsolsfound SCIPtreeHasFocusNodeLP
    SCIPtreeGetCurrentDepth SCIPtreeGetFocusDepth focuslpstatefork_depth SCIPheurExec
    SCIPsetSortHeurs BEFOREPRESOL DURINGPRESOLLOOP AFTERNODE AFTERLPNODE AFTERPSEUDONODE
    AFTERLPPLUNGE AFTERPSEUDOPLUNGE heurs lp nextnode heurtiming w = (w', foundsol, log) ->
  Forall (fun c =>
    let t' := hc_timing HEUR c in
    Z.land t' AFTERNODE
      = (if SCIPtreeHasFocusNodeLP w then AFTERLPNODE else AFTERPSEUDONODE) /\
    Z.land t' AFTERLPPLUNGE
      = (if negb (plunging_below_root W SCIPtreeGetCurrentDepth w nextnode)
            && SCIPtreeHasFocusNodeLP w
         then AFTERLPPLUNGE else Z.land heurtiming AFTERLPPLUNGE) /\
    Z.land t' AFTERPSEUDOPLUNGE
      = (if negb (plunging_below_root W SCIPtreeGetCurrentDepth w nextnode)
            && negb (SCIPtreeHasFocusNodeLP w)
         then AFTERPSEUDOPLUNGE else Z.land heurtiming AFTERPSEUDOPLUNGE) /\
    (forall m, Z.land m AFTERNODE = 0 -> Z.land m AFTERLPPLUNGE = 0 ->
               Z.land m AFTERPSEUDOPLUNGE = 0 -> Z.land t' m = Z.land heurtiming m)) log.
Proof.
  intros Hfl Ht H. unfold SCIPprimalHeuristics in H.
  match type of H with (if ?b then _ else _) = _ => destruct b end.
  - inversion H; subst. constructor.
  - match type of H with context [if ?b then (-1, -1) else ?e] =>
      destruct (if b then (-1, -1) else e) as [depth fork] end.
    match type of H with context [heur_loop _ _ _ _ ?a ?b ?c ?d ?e ?f ?g ?h] =>
      destruct (heur_loop W HEUR resolvelperror SCIPheurExec a b c d e f g h)
        as [[w1 n1] log1] eqn:Hl end.
    inversion H; subst; clear H.
    apply heur_loop_calls in Hl as (new & rest & Hlog & _ & Hall & _).
    simpl in Hlog. subst new.
    eapply Forall_impl; [exact Hall|]. intros c (_ & _ & Hc & _). cbv zeta. rewrite Hc.
    exact (specialize_timing_bits w nextnode heurtiming Hfl Ht).
Qed.

End HeuristicsProofs.

(** Three heuristics of which the second dives and leaves
    [lp->resolvelperror] set: the third is not called, and a solution is
    reported. *)
Lemma SCIPprimalHeuristics_calls_witness :
  HeuristicsRun.primalHeuristics [1; 2; 3] true (Some Heuristics.SCIP_NODETYPE_CHILD)
    (Z.lor HeuristicsRun.AFTERLPLOOP HeuristicsRun.AFTERNODE) (false, 0)
  = HeuristicsRun.dive_out
  /\ HeuristicsRun.dive_out.1.2 = true
  /\ Heuristics.hc_heur Z <$> HeuristicsRun.dive_out.2 = [1; 2]
  /\ exists rest, [1; 2; 3] = (Heuristics.hc_heur Z <$> HeuristicsRun.dive_out.2) ++ rest.
Proof.
  split; [vm_compute; reflexivity|].
  destruct (SCIPprimalHeuristics_calls HeuristicsRun.World Z fst snd (fun _ => true)
              (fun _ => 2) (fun _ => 2) (fun _ => Some 1) HeuristicsRun.exec (fun hs => hs)
              HeuristicsRun.BEFOREPRESOL HeuristicsRun.DURINGPRESOLLOOP
              HeuristicsRun.AFTERNODE HeuristicsRun.AFTERLPNODE
              HeuristicsRun.AFTERPSEUDONODE HeuristicsRun.AFTERLPPLUNGE
              HeuristicsRun.AFTERPSEUDOPLUNGE
              [1; 2; 3] true (Some Heuristics.SCIP_NODETYPE_CHILD)
              (Z.lor HeuristicsRun.AFTERLPLOOP HeuristicsRun.AFTERNODE) (false, 0)
              HeuristicsRun.dive_out.1.1 HeuristicsRun.dive_out.1.2 HeuristicsRun.dive_out.2
              ltac:(vm_compute; reflexivity)) as (Hf & _ & rest & Hrest & _).
  split; [rewrite Hf; reflexivity|]. split; [reflexivity|].
  exists rest. exact Hrest.
Defined.

(** The same call is made with [AFTERLPLOOP | AFTERNODE] at a node with an
    LP whose next node is a child below the root: the heuristics see
    [AFTERLPNODE] only, and no plunge flag. *)
Lemma SCIPprimalHeuristics_afternode_timing_witness :
  Heuristics.timing_flags HeuristicsRun.AFTERNODE HeuristicsRun.AFTERLPNODE
    HeuristicsRun.AFTERPSEUDONODE HeuristicsRun.AFTERLPPLUNGE HeuristicsRun.AFTERPSEUDOPLUNGE
  /\ Forall (fun c : Heuristics.HeurCall Z =>
               Z.land (Heuristics.hc_timing Z c) HeuristicsRun.AFTERNODE
               = HeuristicsRun.AFTERLPNODE
               /\ Z.land (Heuristics.hc_timing Z c) HeuristicsRun.AFTERLPPLUNGE = 0)
       HeuristicsRun.dive_out.2.
Proof.
  assert (Heuristics.timing_flags HeuristicsRun.AFTERNODE HeuristicsRun.AFTERLPNODE
            HeuristicsRun.AFTERPSEUDONODE HeuristicsRun.AFTERLPPLUNGE
            HeuristicsRun.AFTERPSEUDOPLUNGE) as Hfl by (constructor; reflexivity).
  split; [exact Hfl|].
  eapply Forall_impl.
  - apply (SCIPprimalHeuristics_afternode_timing HeuristicsRun.World Z fst snd
             (fun _ => true) (fun _ => 2) (fun _ => 2) (fun _ => Some 1) HeuristicsRun.exec
             (fun hs => hs) HeuristicsRun.BEFOREPRESOL HeuristicsRun.DURINGPRESOLLOOP
             HeuristicsRun.AFTERNODE HeuristicsRun.AFTERLPNODE
             HeuristicsRun.AFTERPSEUDONODE HeuristicsRun.AFTERLPPLUNGE
             HeuristicsRun.AFTERPSEUDOPLUNGE
             [1; 2; 3] true (Some Heuristics.SCIP_NODETYPE_CHILD)
             (Z.lor HeuristicsRun.AFTERLPLOOP HeuristicsRun.AFTERNODE) (false, 0)
             HeuristicsRun.dive_out.1.1 HeuristicsRun.dive_out.1.2 HeuristicsRun.dive_out.2
             Hfl).
    + reflexivity.
    + vm_compute; reflexivity.
  - intros c (Ha & Hp & _). split; [exact Ha|exact Hp].
Defined.

(** ** The initial LP of a node *)

Section InitialLPProofs.
Import InitialLP.
Variable W : Type.
Variable VAR : Type.
Variable CONSHDLR : Type.
Variable conshdlrs : list CONSHDLR.
Variable prob_vars : W -> list VAR.
Variable SCIPvarIsInitial : VAR -> bool.
Variable SCIPtreeIsFocusNodeLPConstructed : W -> bool.
Variable SCIPtreeLoadLP : W -> W * bool.
Variable SCIPpricestoreStartInitialLP : W -> W.
Variable SCIPpricestoreAddVar : VAR -> W -> W.
Variable SCIPpricestoreApplyVars : W -> W.
Variable SCIPpricestoreEndInitialLP : W -> W.
Variable SCIPsepastoreStartInitialLP : W -> W.
Variable SCIPconshdlrInitLP : CONSHDLR -> W -> W.
Variable SCIPsepastoreApplyCuts : bool -> W -> W * bool.
Variable SCIPsepastoreEndInitialLP : W -> W.
Variable SCIPtreeLoadLPState : W -> W.
Variable SCIPlpSolveAndEval : W -> W * bool.
Variable SCIPlpGetSolstat : W -> SCIP_LPSOLSTAT.
Variable process_FIRSTLPSOLVED_event : W -> W.
Variable updatePseudocost : W -> W.

Lemma initConssLP_log root w w' cutoff log :
  initConssLP W VAR CONSHDLR conshdlrs SCIPsepastoreStartInitialLP SCIPconshdlrInitLP
    SCIPsepastoreApplyCuts SCIPsepastoreEndInitialLP root w = (w', cutoff, log) ->
  Forall (build_call SCIPvarIsInitial root) log.
Proof.
  unfold initConssLP. intros H.
  destruct (SCIPsepastoreApplyCuts root _) as [w1 c1]. inversion H; subst; clear H.
  assert (forall c : Call VAR CONSHDLR,
            builds_lp c = true -> adds_initial_var SCIPvarIsInitial c = true ->
            adds_columns c = false -> build_call SCIPvarIsInitial root c) as Hb.
  { intros c H1 H2 H3. split; [exact H1|]. split; [exact H2|]. rewrite H3. discriminate. }
  constructor; [apply Hb; reflexivity|].
  apply Forall_app. split.
  - apply Forall_fmap. apply Forall_true. intros h. apply Hb; reflexivity.
  - constructor; [apply Hb; reflexivity|]. constructor; [apply Hb; reflexivity|constructor].
Qed.

Lemma initLP_log root w w' cutoff log :
  initLP W VAR CONSHDLR conshdlrs prob_vars SCIPvarIsInitial SCIPpricestoreStartInitialLP
    SCIPpricestoreAddVar SCIPpricestoreApplyVars SCIPpricestoreEndInitialLP
    SCIPsepastoreStartInitialLP SCIPconshdlrInitLP SCIPsepastoreApplyCuts
    SCIPsepastoreEndInitialLP root w = (w', cutoff, log) ->
  Forall (build_call SCIPvarIsInitial root) log.
Proof.
  unfold initLP. intros H.
  match type of H with context [if root then ?a else ?b] =>
    destruct (if root then a else b) as [w1 log1] eqn:H1 end.
  match type of H with context [initConssLP ?a ?b ?c ?d ?e ?f ?g ?h ?i ?j] =>
    destruct (initConssLP a b c d e f g h i j) as [[w2 c2] log2] eqn:H2 end.
  inversion H; subst; clear H. apply initConssLP_log in H2.
  apply Forall_app. split; [|exact H2].
  destruct root; inversion H1; subst; clear H1; [|constructor].
  assert (forall c : Call VAR CONSHDLR,
            adds_initial_var SCIPvarIsInitial c = true -> builds_lp c = true ->
            build_call SCIPvarIsInitial true c) as Hb.
  { intros c H1 H3. split; [exact H3|]. split; [exact H1|]. reflexivity. }
  constructor; [apply Hb; reflexivity|].
  apply Forall_app. split.
  - apply Forall_fmap. apply Forall_forall. intros var Hin.
    apply list_elem_of_filter in Hin as [Hi _]. apply Hb; [exact Hi|reflexivity].
  - constructor; [apply Hb; reflexivity|]. constructor; [apply Hb; reflexivity|constructor].
Qed.

Lemma SCIPconstructCurrentLP_log w w' cutoff log :
  SCIPconstructCurrentLP W VAR CONSHDLR conshdlrs prob_vars SCIPvarIsInitial
    SCIPtreeIsFocusNodeLPConstructed SCIPtreeLoadLP SCIPpricestoreStartInitialLP
    SCIPpricestoreAddVar SCIPpricestoreApplyVars SCIPpricestoreEndInitialLP
    SCIPsepastoreStartInitialLP SCIPconshdlrInitLP SCIPsepastoreApplyCuts
    SCIPsepastoreEndInitialLP w = (w', cutoff, log) ->
  Forall (build_call SCIPvarIsInitial (SCIPtreeLoadLP w).2) log /\
  (SCIPtreeIsFocusNodeLPConstructed w = true -> log = [] /\ cutoff = false /\ w' = w) /\
  (SCIPtreeIsFocusNodeLPConstructed w = false -> exists log', log = TreeLoadLP :: log').
Proof.
  unfold SCIPconstructCurrentLP. intros H.
  destruct (SCIPtreeIsFocusNodeLPConstructed w); cbn [negb] in H.
  - inversion H; subst. split; [constructor|]. split; [auto|discriminate].
  - destruct (SCIPtreeLoadLP w) as [w1 initroot].
    match type of H with context [initLP ?a ?b ?c ?d ?e ?f ?g ?h ?i ?j ?k ?l ?m ?n ?o ?p] =>
      destruct (initLP a b c d e f g h i j k l m n o p) as [[w2 c2] log2] eqn:H2 end.
    inversion H; subst; clear H. apply initLP_log in H2.
    split; [|split; [discriminate|eauto]].
    constructor; [|exact H2]. split; [reflexivity|]. split; [reflexivity|]. discriminate.
Qed.

Lemma build_calls_only initroot (P : Call VAR CONSHDLR -> bool) log :
  Forall (build_call SCIPvarIsInitial initroot) log ->
  (forall c, P c = true -> builds_lp c = false) ->
  filter (fun c => P c = true) log = [] /\ existsb P log = false.
Proof.
  intros Hall HP. induction Hall as [|c log [Hb _] _ [IH1 IH2]]; [split; reflexivity|].
  assert (P c = false) as Hc.
  { destruct (P c) eqn:Hc; [|reflexivity]. apply HP in Hc. congruence. }
  split.
  - rewrite filter_cons_False by (rewrite Hc; discriminate). exact IH1.
  - simpl. rewrite Hc. exact IH2.
Qed.

(** The log of [solveNodeInitialLP] is the log of the construction followed
    by calls that do not build the LP. *)
Lemma initial_log_tail initroot log1 tail :
  Forall (build_call SCIPvarIsInitial initroot) log1 ->
  Forall (fun c : Call VAR CONSHDLR => builds_lp c = false) tail ->
  length (filter (fun c => is_solve c = true) (log1 ++ tail))
    = length (filter (fun c => is_solve c = true) tail) /\
  existsb is_pseudocost_update (log1 ++ tail) = existsb is_pseudocost_update tail /\
  existsb is_event (log1 ++ tail) = existsb is_event tail /\
  existsb adds_columns (log1 ++ tail) = existsb adds_columns log1 /\
  forallb (adds_initial_var SCIPvarIsInitial) (log1 ++ tail) = true /\
  (log1 = [] -> existsb builds_lp (log1 ++ tail) = false).
Proof.
  intros Hall Htail.
  destruct (build_calls_only _ is_solve _ Hall) as [Fs _];
    [intros c; destruct c; simpl; congruence|].
  destruct (build_calls_only _ is_pseudocost_update _ Hall) as [_ Ep];
    [intros c; destruct c; simpl; congruence|].
  destruct (build_calls_only _ is_event _ Hall) as [_ Ee];
    [intros c; destruct c; simpl; congruence|].
  assert (forall P : Call VAR CONSHDLR -> bool,
            (forall c, builds_lp c = false -> P c = false) -> existsb P tail = false) as Hno.
  { intros P HP. induction Htail as [|c tail Hc _ IH]; [reflexivity|].
    simpl. rewrite (HP c Hc). exact IH. }
  rewrite filter_app, List.length_app, Fs, !existsb_app, Ep, Ee, forallb_app.
  split; [reflexivity|]. split; [reflexivity|]. split; [reflexivity|].
  split; [|split].
  - rewrite (Hno adds_columns), orb_false_r; [reflexivity|].
    intros c; destruct c; simpl; congruence.
  - apply andb_true_iff. split.
    + apply forallb_forall. intros c Hin. apply list_elem_of_In in Hin.
      rewrite Forall_forall in Hall. apply (Hall c Hin).
    + apply forallb_forall. intros c Hin. apply list_elem_of_In in Hin.
      rewrite Forall_forall in Htail. specialize (Htail c Hin).
      destruct c; simpl in *; congruence.
  - intros ->. simpl. apply Hno. auto.
Qed.

(** [solveNodeInitialLP] (lines 801-861) with [SCIPconstructCurrentLP],
    [initLP] and [initConssLP] (lines 659-797): a cutoff found while the LP
    is built is reported without LP error, and then the LP is neither
    solved nor are pseudo costs updated; otherwise the LP is solved exactly
    once.  The pseudo costs are updated exactly if the LP was solved
    without error, and the FIRSTLPSOLVED event is issued only then.  An LP
    that is constructed already is not built again; initial columns are
    added only when the tree asks for the initial root LP, and only
    variables marked initial are added. *)
Theorem solveNodeInitialLP_calls w w' cutoff lperror log :
  solveNodeInitialLP W VAR CONSHDLR conshdlrs prob_vars SCIPvarIsInitial
    SCIPtreeIsFocusNodeLPConstructed SCIPtreeLoadLP SCIPpricestoreStartInitialLP
    SCIPpricestoreAddVar SCIPpricestoreApplyVars SCIPpricestoreEndInitialLP
    SCIPsepastoreStartInitialLP SCIPconshdlrInitLP SCIPsepastoreApplyCuts
    SCIPsepastoreEndInitialLP SCIPtreeLoadLPState SCIPlpSolveAndEval SCIPlpGetSolstat
    process_FIRSTLPSOLVED_event updatePseudocost w = (w', cutoff, lperror, log) ->
  (cutoff = true -> lperror = false) /\
  length (filter (fun c => is_solve c = true) log) = (if cutoff then 0%nat else 1%nat) /\
  existsb is_pseudocost_update log = negb cutoff && negb lperror /\
  (existsb is_event log = true -> cutoff = false /\ lperror = false) /\
  (SCIPtreeIsFocusNodeLPConstructed w = true ->
   cutoff = false /\ existsb builds_lp log = false) /\
  (existsb adds_columns log = true ->
   SCIPtreeIsFocusNodeLPConstructed w = false /\ (SCIPtreeLoadLP w).2 = true) /\
  forallb (adds_initial_var SCIPvarIsInitial) log = true.
Proof.
  unfold solveNodeInitialLP. intros H.
  match type of H with
    context [SCIPconstructCurrentLP ?a ?b ?c ?d ?e ?f ?g ?h ?i ?j ?k ?l ?m ?n ?o ?p ?q] =>
    destruct (SCIPconstructCurrentLP a b c d e f g h i j k l m n o p q)
      as [[w1 c1] log1] eqn:Hc end.
  apply SCIPconstructCurrentLP_log in Hc as (Hall & Hdone & Hbuilt).
  assert (existsb adds_columns log1 = true ->
          SCIPtreeIsFocusNodeLPConstructed w = false /\ (SCIPtreeLoadLP w).2 = true) as Hcols.
  { intros Hex. apply existsb_exists in Hex as (c & Hin & Hc).
    apply list_elem_of_In in Hin. rewrite Forall_forall in Hall.
    destruct (Hall c Hin) as (_ & _ & Hroot). split; [|auto].
    destruct (SCIPtreeIsFocusNodeLPConstructed w); [|reflexivity].
    destruct (Hdone eq_refl) as (-> & _). inversion Hin. }
  assert (exists tail,
            log = log1 ++ tail /\
            Forall (fun c : Call VAR CONSHDLR => builds_lp c = false) tail /\
            length (filter (fun c => is_solve c = true) tail)
              = (if cutoff then 0%nat else 1%nat) /\
            existsb is_pseudocost_update tail = negb cutoff && negb lperror /\
            (existsb is_event tail = true -> cutoff = false /\ lperror = false) /\
            (cutoff = true -> lperror = false) /\ cutoff = c1) as (tail & -> & Ht & T).
  { destruct c1.
    - inversion H; subst; clear H. exists []. rewrite app_nil_r.
      split; [reflexivity|]. split; [constructor|]. split; [reflexivity|].
      split; [reflexivity|]. split; [discriminate|]. split; reflexivity.
    - destruct (SCIPlpSolveAndEval (SCIPtreeLoadLPState w1)) as [w2 le].
      destruct le; cbn [negb] in H.
      + inversion H; subst; clear H. exists [TreeLoadLPState; LpSolveAndEval].
        split; [reflexivity|]. split; [repeat constructor|]. split; [reflexivity|].
        split; [reflexivity|]. split; [discriminate|]. split; [discriminate|reflexivity].
      + destruct (solstat_limit W SCIPlpGetSolstat w2); cbn [negb] in H;
          inversion H; subst; clear H.
        * exists [TreeLoadLPState; LpSolveAndEval; UpdatePseudocost].
          rewrite <- app_assoc.
          split; [reflexivity|]. split; [repeat constructor|]. split; [reflexivity|].
          split; [reflexivity|]. split; [discriminate|]. split; [discriminate|reflexivity].
        * exists [TreeLoadLPState; LpSolveAndEval; EventFirstLPSolved; UpdatePseudocost].
          rewrite <- !app_assoc.
          split; [reflexivity|]. split; [repeat constructor|]. split; [reflexivity|].
          split; [reflexivity|]. split; [auto|]. split; [discriminate|reflexivity]. }
  destruct T as (Tsolve & Tupd & Tev & Tcut & ->).
  destruct (initial_log_tail _ _ _ Hall Ht) as (Ls & Lp & Le & Lc & Li & Lb).
  rewrite Ls, Lp, Le, Lc, Li.
  split; [exact Tcut|]. split; [exact Tsolve|]. split; [exact Tupd|]. split; [exact Tev|].
  split; [|split; [exact Hcols|reflexivity]].
  intros Hd. destruct (Hdone Hd) as (Hl & Hcf & _). split; [exact Hcf|]. apply Lb. exact Hl.
Qed.

End InitialLPProofs.

(** The initial LP of a root node: the two initial variables are added, the
    LP is solved once and the pseudo costs are updated. *)
Lemma solveNodeInitialLP_calls_witness :
  InitialLPRun.solveNodeInitialLP 0%nat = InitialLPRun.root_out
  /\ InitialLPRun.root_out.2
     = [InitialLP.TreeLoadLP; InitialLP.PricestoreStartInitialLP;
        InitialLP.PricestoreAddVar 1; InitialLP.PricestoreAddVar 3;
        InitialLP.PricestoreApplyVars; InitialLP.PricestoreEndInitialLP;
        InitialLP.SepastoreStartInitialLP; InitialLP.ConshdlrInitLP 1;
        InitialLP.ConshdlrInitLP 2; InitialLP.SepastoreApplyCuts true;
        InitialLP.SepastoreEndInitialLP; InitialLP.TreeLoadLPState;
        InitialLP.LpSolveAndEval; InitialLP.EventFirstLPSolved;
        InitialLP.UpdatePseudocost]
  /\ length (filter (fun c => InitialLP.is_solve c = true) InitialLPRun.root_out.2) = 1%nat
  /\ existsb InitialLP.is_pseudocost_update InitialLPRun.root_out.2 = true
  /\ forallb (InitialLP.adds_initial_var Z.odd) InitialLPRun.root_out.2 = true.
Proof.
  split; [vm_compute; reflexivity|]. split; [reflexivity|].
  destruct (solveNodeInitialLP_calls nat Z Z [1; 2] (fun _ => [1; 2; 3]) Z.odd
              (fun _ => false) (fun w => (S w, true)) S (fun _ => S) S S S (fun _ => S)
              (fun _ w => (S w, false)) S S (fun w => (S w, false))
              (fun _ => SCIP_LPSOLSTAT_OPTIMAL) S S 0%nat
              InitialLPRun.root_out.1.1.1 InitialLPRun.root_out.1.1.2
              InitialLPRun.root_out.1.2 InitialLPRun.root_out.2
              ltac:(vm_compute; reflexivity)) as (_ & Hs & Hu & _ & _ & _ & Hi).
  split; [exact Hs|]. split; [exact Hu|]. exact Hi.
Defined.

(** ** The lower bound of the focus node is never lowered *)

Section LowerboundProofs.
Import Solve Lowerbound.
Context {E : Type} {ops : Collaborators E}.
Variable set : SCIP_SET E.
Variable env : Drivers.Surroundings E.
Hypothesis Hsolve_c : Drivers.solve_c_drivers env.
Hypothesis Hd : lowerbound_discipline env set.
Variable b : SCIP_Real.
Implicit Types (s : Solver E).

Local Abbreviation ab := (above b).

(** The functions of solve.c that the node solver calls do not lower the
    bound, as their callees do not. *)
Local Abbreviation not_lowered :=
  (fun s s' : Solver E => (SCIPnodeGetLowerbound s <= SCIPnodeGetLowerbound s')%Q).

Lemma not_lowered_refl s : not_lowered s s.
Proof. apply Qle_refl. Qed.

Lemma not_lowered_trans s1 s2 s3 : not_lowered s1 s2 -> not_lowered s2 s3 -> not_lowered s1 s3.
Proof. apply Qle_trans. Qed.

Lemma not_lowered_ext (e : E) s : not_lowered s (set_ext e s).
Proof. apply Qle_refl. Qed.

Lemma SCIPsolveIsStopped_bound c : keeps_bound (SCIPsolveIsStopped c).
Proof.
  intros s. rewrite (Drivers.is_SCIPsolveIsStopped env Hsolve_c).
  apply (SCIPsolveIsStopped_frame env not_lowered). exact not_lowered_ext.
Qed.

Lemma SCIPprimalHeuristics_bound t : keeps_bound (SCIPprimalHeuristics t).
Proof.
  intros s. rewrite (Drivers.is_SCIPprimalHeuristics env Hsolve_c).
  apply (SCIPprimalHeuristics_frame env not_lowered);
    [exact not_lowered_refl|exact not_lowered_trans|exact (lb_SCIPheurExec env set Hd)].
Qed.

Lemma propagateDomains_bound d m f : keeps_bound (propagateDomains d m f).
Proof.
  intros s. destruct (Drivers.is_propagateDomains env Hsolve_c d m f s) as (fuel & l & H).
  eapply (propagateDomains_frame not_lowered);
    [exact not_lowered_refl|exact not_lowered_trans|exact SCIPsolveIsStopped_bound
    |exact (lb_SCIPpropExec env set Hd)
    |exact (lb_SCIPconshdlrPropagate env set Hd)
    |exact (lb_SCIPnodeMarkPropagated env set Hd)
    |exact H].
Qed.

Lemma updateEstimate_bound : keeps_bound_ updateEstimate.
Proof.
  intros s. simpl. rewrite (Drivers.is_updateEstimate env Hsolve_c).
  apply (updateEstimate_frame env not_lowered);
    [exact not_lowered_refl|exact not_lowered_trans
    |exact (lb_SCIPbranchcandGetLPCands env set Hd)
    |exact (lb_SCIPnodeSetEstimate env set Hd)].
Qed.

Lemma initConssLP_model_bound r s : not_lowered s (Drivers.initConssLP env r s).1.
Proof.
  apply (initConssLP_frame env not_lowered);
    [exact not_lowered_refl|exact not_lowered_trans
    |exact (lb_SCIPsepastoreStartInitialLP env set Hd)
    |exact (lb_SCIPconshdlrInitLP env set Hd)
    |exact (lb_SCIPsepastoreApplyCuts env set Hd)
    |exact (lb_SCIPsepastoreEndInitialLP env set Hd)].
Qed.

Lemma initConssLP_bound r : keeps_bound (initConssLP r).
Proof.
  intros s. rewrite (Drivers.is_initConssLP env Hsolve_c). apply initConssLP_model_bound.
Qed.

Lemma solveNodeInitialLP_bound : keeps_bound solveNodeInitialLP.
Proof.
  intros s. rewrite (Drivers.is_solveNodeInitialLP env Hsolve_c).
  apply (solveNodeInitialLP_frame env not_lowered);
    [exact not_lowered_trans|exact not_lowered_ext
    |
    |exact (lb_SCIPtreeLoadLPState env set Hd)
    |exact (lb_SCIPlpSolveAndEval env set Hd)
    |exact (lb_process_FIRSTLPSOLVED_event env set Hd)].
  intros s0.
  apply (SCIPconstructCurrentLP_frame env not_lowered);
    [exact not_lowered_refl|exact not_lowered_trans
    |exact (lb_SCIPtreeLoadLP env set Hd)
    |exact (lb_SCIPpricestoreStartInitialLP env set Hd)
    |exact (lb_SCIPpricestoreAddVar env set Hd)
    |exact (lb_SCIPpricestoreApplyVars env set Hd)
    |exact (lb_SCIPpricestoreEndInitialLP env set Hd)
    |exact initConssLP_model_bound].
Qed.

#[local] Hint Resolve SCIPsolveIsStopped_bound SCIPprimalHeuristics_bound
  propagateDomains_bound updateEstimate_bound initConssLP_bound solveNodeInitialLP_bound : core.

Lemma above_call {A} (f : Solver E -> Solver E * A) s s1 a :
  keeps_bound f -> f s = (s1, a) -> ab s -> ab s1.
Proof.
  intros Hf Hc Hs. specialize (Hf s). rewrite Hc in Hf.
  unfold above in *. eapply Qle_trans; [exact Hs|exact Hf].
Qed.

Lemma above_step (f : Solver E -> Solver E) s : keeps_bound_ f -> ab s -> ab (f s).
Proof. intros Hf Hs. unfold above in *. eapply Qle_trans; [exact Hs|exact (Hf s)]. Qed.

Lemma above_update x s : ab s -> ab (SCIPnodeUpdateLowerbound x s).
Proof.
  unfold above, SCIPnodeGetLowerbound, SCIPnodeUpdateLowerbound. simpl. intros Hs.
  unfold Rgt_bool. destruct (Qle_bool x (node_lowerbound (focusnode (tree s)))) eqn:Hle;
    simpl; [exact Hs|].
  eapply Qle_trans; [exact Hs|]. apply Qlt_le_weak, Qnot_le_lt. intros H.
  apply Qle_bool_iff in H. congruence.
Qed.

Ltac discipline :=
  pose proof SCIPsolveIsStopped_bound as Dstop;
  pose proof SCIPprimalHeuristics_bound as Dheur;
  pose proof propagateDomains_bound as Dprop; pose proof updateEstimate_bound as Dest;
  pose proof initConssLP_bound as Dinit; pose proof solveNodeInitialLP_bound as Dlp;
  destruct Hd.
Ltac keep Q := eapply above_call in Q; [|solve [eauto]|eassumption].
Ltac step := apply above_step; [solve [eauto]|].

Lemma call_pricers_above maxvars ps : forall s en ab0 lb cs s' out cs',
  Forall (fun p => keeps_bound (SCIPpricerExec p)) ps ->
  call_pricers maxvars ps s en ab0 lb cs = (s', out, cs') -> ab s -> ab s'.
Proof.
  induction ps as [|p ps IH]; intros s en ab0 lb cs s' out cs' Hps H Hs; simpl in H.
  - inversion H; subst; exact Hs.
  - destruct en; [inversion H; subst; exact Hs|].
    inversion Hps as [|? ? Hp Hps']; subst.
    destruct (SCIPpricerExec p s) as [s1 [lb1 r1]] eqn:Hc. simpl in H.
    keep Hc. eapply IH; eauto.
Qed.

Lemma price_round_above pretendroot s pv s' pv' calls :
  price_round set pretendroot s pv = (s', pv', calls) -> ab s -> ab s'.
Proof.
  discipline. unfold price_round, external_pricing. intros H Hs.
  destruct (SCIPprimalHeuristics SCIP_HEURTIMING_DURINGPRICINGLOOP s) as [s1 ?] eqn:H1.
  keep H1.
  assert (ab (SCIPpricestoreAddProbVars s1)) as H1' by (step; exact H1).
  match type of H with context [call_pricers ?a ?b ?c ?d ?e ?f ?g] =>
    destruct (call_pricers a b c d e f g) as [[s2 [[en ab0] lb]] cs] eqn:H2 end.
  apply call_pricers_above in H2;
    [|apply Forall_take; unfold SCIPsetSortPricers; apply Forall_sort_by; assumption
     |exact H1'].
  assert (ab (SCIPpricestoreApplyVars s2)) as H2' by (step; exact H2).
  destruct (SCIPlpSolveAndEval true false _) as [s3 ?] eqn:H3. keep H3.
  assert (ab (SCIPpricestoreResetBounds s3)) as H3' by (step; exact H3).
  destruct (initConssLP pretendroot _) as [s4 ?] eqn:H4. keep H4.
  destruct (SCIPlpSolveAndEval false false _) as [s5 ?] eqn:H5. keep H5.
  inversion H; subst; clear H. exact H5.
Qed.

Lemma price_rounds_above pretendroot maxr fuel : forall s pv tr s' pv' tr',
  price_rounds fuel set pretendroot maxr s pv tr = Ok (s', pv', tr') -> ab s -> ab s'.
Proof.
  discipline.
  induction fuel as [|fuel IH]; intros s pv tr s' pv' tr' H Hs; simpl in H.
  - destruct (negb (lperror pv) && mustprice pv && _); [discriminate|].
    inversion H; subst; exact Hs.
  - destruct (negb (lperror pv) && mustprice pv && _);
      [|inversion H; subst; exact Hs].
    destruct (SCIPsolveIsStopped false s) as [s1 st] eqn:H1. keep H1.
    destruct st; [inversion H; subst; exact H1|].
    destruct (price_round set pretendroot s1 pv) as [[s2 pv2] calls] eqn:H2.
    apply price_round_above in H2; [|exact H1]. eauto.
Qed.

Lemma SCIPpriceLoop_above fuel pretendroot displayinfo maxr s ms lb s' pv' tr' :
  SCIPpriceLoop fuel set pretendroot displayinfo maxr s ms lb = Ok (s', pv', tr') ->
  ab s -> ab s'.
Proof.
  unfold SCIPpriceLoop. intros H Hs.
  match type of H with context [price_rounds ?a ?b ?c ?d ?e ?f ?g] =>
    destruct (price_rounds a b c d e f g) as [[[s1 pv1] tr]| |] eqn:Hl end;
    simpl in H; try discriminate.
  apply price_rounds_above in Hl; [|exact Hs]. inversion H; subst; clear H. exact Hl.
Qed.

Lemma separationRoundResolveLP_above s sv s' sv' :
  separationRoundResolveLP s sv = (s', sv') -> ab s -> ab s'.
Proof.
  discipline. unfold separationRoundResolveLP. intros H Hs.
  destruct (negb (sr_cutoff sv) && negb (flushed (lp s)));
    [|inversion H; subst; exact Hs].
  destruct (SCIPlpSolveAndEval true false s) as [s1 le] eqn:H1. keep H1.
  inversion H; subst; exact H1.
Qed.

Lemma sepa_call_body_above rt stop c s sv s' sv' ret :
  keeps_bound (sepa_exec c) ->
  sepa_call_body set rt stop c s sv = (s', sv', ret) -> ab s -> ab s'.
Proof.
  unfold sepa_call_body. intros Hc H Hs.
  destruct (sepa_exec c s) as [s1 r] eqn:H1.
  eapply above_call in H1; [|exact Hc|exact Hs].
  destruct (separationRoundResolveLP s1 _) as [s2 sv2] eqn:H2.
  apply separationRoundResolveLP_above in H2; [|exact H1].
  destruct (stop && found_cut r); inversion H; subst; exact H2.
Qed.

Lemma sepa_loop_above rt stop cs : forall s sv s' sv' ret,
  Forall (fun c => keeps_bound (sepa_exec c)) cs ->
  sepa_loop set rt stop cs s sv = (s', sv', ret) -> ab s -> ab s'.
Proof.
  induction cs as [|c cs IH]; intros s sv s' sv' ret Hcs H Hs; simpl in H.
  - inversion H; subst; exact Hs.
  - inversion Hcs as [|? ? Hc Hcs']; subst.
    destruct (negb (sepa_guard s sv)); [inversion H; subst; exact Hs|].
    destruct (sepa_skip c s); [eauto|].
    destruct (sepa_call_body set rt stop c s sv) as [[s1 sv1] r1] eqn:H1.
    apply sepa_call_body_above in H1; [|exact Hc|exact Hs].
    destruct r1; [inversion H; subst; exact H1|]. eauto.
Qed.

Lemma sepa_calls_keep nonneg d bd o :
  Forall (fun c => keeps_bound (sepa_exec c)) (sepa_calls set nonneg d bd o).
Proof.
  unfold sepa_calls, SCIPsetSortSepas. apply Forall_fmap.
  apply Forall_sort_by. eapply Forall_impl; [exact (lb_sepas env set Hd)|].
  intros sp Hsp. apply Hsp.
Qed.

Lemma conshdlr_calls_keep d o c :
  Forall (fun c => keeps_bound (sepa_exec c)) (conshdlr_calls set d o c).
Proof.
  unfold conshdlr_calls. apply Forall_fmap.
  eapply Forall_impl; [exact (lb_conshdlrs_sepa env set Hd)|]. intros h Hh. apply Hh.
Qed.

Lemma consadded_loop_above rt d o fuel : forall s sv s' sv',
  consadded_loop fuel set rt d o s sv = Ok (s', sv') -> ab s -> ab s'.
Proof.
  induction fuel as [|fuel IH]; intros s sv s' sv' H Hs; simpl in H.
  - destruct (sr_consadded sv); [discriminate|]. inversion H; subst; exact Hs.
  - destruct (sr_consadded sv); [|inversion H; subst; exact Hs].
    destruct (sepa_loop set rt false _ s _) as [[s1 sv1] r1] eqn:H1.
    apply sepa_loop_above in H1; [|apply conshdlr_calls_keep|exact Hs]. eauto.
Qed.

Lemma separationRoundLP_above fuel d bd o s c0 ms0 mp0 s' sv' :
  separationRoundLP fuel set d bd o s c0 ms0 mp0 = Ok (s', sv') -> ab s -> ab s'.
Proof.
  unfold separationRoundLP. intros H Hs.
  destruct (sepa_loop set _ o (sepa_calls set true d bd o) s _) as [[s1 sv1] r1] eqn:H1.
  apply sepa_loop_above in H1; [|apply sepa_calls_keep|exact Hs].
  destruct r1; [inversion H; subst; exact H1|].
  destruct (sepa_loop set _ o (conshdlr_calls set d o true) s1 sv1)
    as [[s2 sv2] r2] eqn:H2.
  apply sepa_loop_above in H2; [|apply conshdlr_calls_keep|exact H1].
  destruct r2; [inversion H; subst; exact H2|].
  destruct (sepa_loop set _ o (sepa_calls set false d bd o) s2 sv2)
    as [[s3 sv3] r3] eqn:H3.
  apply sepa_loop_above in H3; [|apply sepa_calls_keep|exact H2].
  destruct r3; [inversion H; subst; exact H3|].
  eapply consadded_loop_above; eauto.
Qed.

Lemma pricing_pass_above fuel k s v s' v' :
  pricing_pass fuel set k s v = Ok (s', v') -> ab s -> ab s'.
Proof.
  discipline. unfold pricing_pass. intros H Hs.
  destruct (SCIPpriceLoop _ _ _ _ _ _ _ _) as [[[s1 p] tr]| |] eqn:H1; simpl in H;
    try discriminate.
  apply SCIPpriceLoop_above in H1; [|exact Hs].
  set (s2 := SCIPnodeUpdateLowerbound (lowerbound p) s1) in H.
  assert (ab s2) as H2 by (apply above_update; exact H1).
  set (s3 := if negb (lperror p) && negb (aborted p) then _ else s2) in H.
  assert (ab s3) as H3
    by (subst s3; destruct (negb (lperror p) && negb (aborted p)); [step; step|];
        exact H2).
  clearbody s3. clear H2 s2 H1.
  destruct (if negb (lperror p) then _ else _) as [[[s4 c4] le4] mp4] eqn:H4.
  assert (ab s4) as H4'.
  { destruct (negb (lperror p)); [|inversion H4; subst; exact H3].
    destruct (SCIPsetIsGT _ _ && SCIPsetIsLT _ _); [|inversion H4; subst; exact H3].
    destruct (propagateDomains _ 0 false s3) as [s5 c5] eqn:H5. keep H5.
    destruct (negb (flushed (lp s5)) && negb c5); [|inversion H4; subst; exact H5].
    destruct (SCIPlpSolveAndEval true false _) as [s6 le6] eqn:H6.
    eapply above_call in H6; [|solve [eauto]|].
    - inversion H4; subst. exact H6.
    - destruct (root k); [step; step|]; exact H5. }
  clear H4.
  destruct (if solstat_is SCIP_LPSOLSTAT_OPTIMAL s4 then _ else _) as [s7 le7] eqn:H7.
  assert (ab s7) as H7'.
  { destruct (solstat_is SCIP_LPSOLSTAT_OPTIMAL s4); [|inversion H7; subst; exact H4'].
    destruct (SCIPprimalHeuristics SCIP_HEURTIMING_DURINGLPLOOP s4) as [s8 ?] eqn:H8.
    keep H8. inversion H7; subst. exact H8. }
  inversion H; subst. exact H7'.
Qed.

Lemma pricing_passes_above budget k fuel : forall s v s' v',
  pricing_passes fuel budget set k s v = Ok (s', v') -> ab s -> ab s'.
Proof.
  induction fuel as [|fuel IH]; intros s v s' v' H Hs; simpl in H.
  - destruct (cl_mustprice v && negb (cl_lperror v)); [discriminate|].
    inversion H; subst; exact Hs.
  - destruct (cl_mustprice v && negb (cl_lperror v));
      [|inversion H; subst; exact Hs].
    destruct (pricing_pass budget set k s v) as [[s1 v1]| |] eqn:Hp; simpl in H;
      try discriminate.
    apply pricing_pass_above in Hp; [|exact Hs]. eauto.
Qed.

Lemma separation_decision_above k s v s' v' :
  separation_decision set k s v = (s', v') -> ab s -> ab s'.
Proof.
  discipline. unfold separation_decision. intros H Hs.
  set (m1 := cl_mustsepa v && _ && _ && _) in H.
  set (d1 := cl_delayedsepa v && negb m1 && _) in H.
  destruct (if m1 || d1 then _ else _) as [s1 off] eqn:H1.
  assert (ab s1).
  { destruct (m1 || d1); [|inversion H1; subst; exact Hs].
    destruct (negb (separate k) || _ || _); [inversion H1; subst; exact Hs|].
    destruct (root k); [|inversion H1; subst; exact Hs].
    keep H1. exact H1. }
  inversion H; subst. assumption.
Qed.

Lemma separation_calls_above fuel k s v s' sv n :
  separation_calls fuel set k s v = Ok (s', sv, n) -> ab s -> ab s'.
Proof.
  discipline. unfold separation_calls. intros H Hs.
  destruct (if negb _ && negb (cl_delayedsepa v) && poolfreq_matches set k then _ else _)
    as [[s1 c1] e1] eqn:H1.
  assert (ab s1) as H1'.
  { destruct (negb _ && negb (cl_delayedsepa v) && poolfreq_matches set k);
      [|inversion H1; subst; exact Hs].
    destruct (SCIPcutpoolSeparate (root k) s) as [s2 r2] eqn:H2. keep H2.
    inversion H1; subst. exact H2. }
  clear H1.
  destruct (negb c1 && negb (cl_lperror v) && negb e1 && solved (lp s1)
            && lp_optimal_or_unbounded s1); [|inversion H; subst; exact H1'].
  destruct (separationRoundLP fuel set (actdepth k) (bounddist k) (cl_delayedsepa v) s1
              c1 false (cl_mustprice v)) as [[s3 sv3]| |] eqn:H3; simpl in H;
    try discriminate.
  apply separationRoundLP_above in H3; [|exact H1'].
  destruct (negb (sr_cutoff sv3) && _ && _ && _ && _ && _ && _);
    [|inversion H; subst; exact H3].
  destruct (separationRoundLP fuel set (actdepth k) (bounddist k) (sr_delayed sv3) s3
              (sr_cutoff sv3) (sr_mustsepa sv3) (sr_mustprice sv3))
    as [[s4 sv4]| |] eqn:H4; simpl in H; try discriminate.
  apply separationRoundLP_above in H4; [|exact H3]. inversion H; subst. exact H4.
Qed.

Lemma apply_separation_above k old s v sv s' v' stall :
  apply_separation set k old s v sv = (s', v', stall) -> ab s -> ab s'.
Proof.
  discipline. unfold apply_separation. intros H Hs.
  destruct (sr_cutoff sv || sr_lperror sv || lp_stops_separation s);
    [inversion H; subst; step; exact Hs|].
  destruct (SCIPsepastoreApplyCuts (root k) s) as [s1 c2] eqn:H1. keep H1.
  destruct c2; [inversion H; subst; exact H1|].
  destruct (if negb (domchgcount (stat s1) =? old) then _ else _) as [s2 c3] eqn:H2.
  assert (ab s2) as H2'.
  { destruct (negb (domchgcount (stat s1) =? old)); [|inversion H2; subst; exact H1].
    destruct (propagateDomains _ 0 false s1) as [s5 c5] eqn:H5. keep H5.
    inversion H2; subst. destruct (root k); [step; step|]; exact H5. }
  clear H2 H1.
  destruct c3; [inversion H; subst; exact H2'|].
  destruct (SCIPlpSolveAndEval true false s2) as [s3 le] eqn:H3. keep H3.
  destruct (negb le && solstat_is SCIP_LPSOLSTAT_OPTIMAL s3);
    [|inversion H; subst; exact H3].
  destruct (SCIPbranchcandGetLPCands s3) as [s4 nf] eqn:H4. keep H4.
  destruct (stall_update _ _ _ _ _ _ _ _) as [[[n1 so1] sf1] i1].
  inversion H; subst; clear H. exact H4.
Qed.

Lemma separation_block_above fuel k s v s' v' ev :
  separation_block fuel set k s v = Ok (s', v', ev) -> ab s -> ab s'.
Proof.
  unfold separation_block. intros H Hs.
  destruct (separation_calls fuel set k s v) as [[[s1 sv] n]| |] eqn:H1; simpl in H;
    try discriminate.
  apply separation_calls_above in H1; [|exact Hs].
  destruct (apply_separation _ _ _ _ _ _) as [[s2 v2] stall] eqn:H2.
  apply apply_separation_above in H2; [|exact H1]. inversion H; subst; clear H. exact H2.
Qed.

Lemma cut_loop_above budget k fuel : forall s v trace s' v' trace',
  cut_loop fuel budget set k s v trace = Ok (s', v', trace') -> ab s -> ab s'.
Proof.
  induction fuel as [|fuel IH]; intros s v trace s' v' trace' H Hs; simpl in H.
  - destruct (negb (cl_cutoff v) && negb (cl_lperror v) && _); [discriminate|].
    inversion H; subst. exact Hs.
  - destruct (negb (cl_cutoff v) && negb (cl_lperror v) && _);
      [|inversion H; subst; exact Hs].
    destruct (pricing_passes budget budget set k s v) as [[s1 v1]| |] eqn:Hp;
      simpl in H; try discriminate.
    apply pricing_passes_above in Hp; [|exact Hs].
    destruct (separation_decision set k s1 v1) as [s2 v2] eqn:Hdec.
    apply separation_decision_above in Hdec; [|exact Hp].
    destruct (negb (cl_cutoff v2) && negb (cl_lperror v2) && cl_mustsepa v2).
    + destruct (separation_block budget set k s2 v2) as [[[s3 v3] ev]| |] eqn:Hb;
        simpl in H; try discriminate.
      apply separation_block_above in Hb; [|exact Hdec]. eauto.
    + eauto.
Qed.

Lemma cutloop_exit_above k s v s' u :
  cutloop_exit set k s v = (s', u) -> ab s -> ab s'.
Proof.
  discipline. unfold cutloop_exit. intros H Hs.
  destruct (cl_cutoff v); [inversion H; subst; apply (above_update _ _ Hs)|].
  destruct (negb (cl_lperror v)); [|inversion H; subst; exact Hs].
  inversion H; subst; clear H.
  assert (ab (updateEstimate (SCIPnodeUpdateLowerboundLP s))) as H1
    by (step; step; exact Hs).
  revert H1. generalize (updateEstimate (SCIPnodeUpdateLowerboundLP s)). intros s1 H1.
  match goal with |- context [if ?c then process_LPSOLVED_event s1 else s1] =>
    assert (ab (if c then process_LPSOLVED_event s1 else s1)) as H2
      by (destruct c; [step|]; exact H1);
    revert H2; generalize (if c then process_LPSOLVED_event s1 else s1)
  end.
  intros s2 H2.
  match goal with |- context [if ?c then SCIPconflictAnalyzeLP s2 else s2] =>
    destruct c; [change (ab (SCIPconflictAnalyzeLP s2)); step|]; exact H2
  end.
Qed.

Lemma priceAndCutLoop_above fuel initiallpsolved s pricingaborted0 s' v' unbounded trace :
  priceAndCutLoop fuel set initiallpsolved s pricingaborted0 = Ok (s', v', unbounded, trace) ->
  ab s -> ab s'.
Proof.
  discipline. unfold priceAndCutLoop. intros H Hs.
  destruct (SCIPlpSolveAndEval true false s) as [s0 le0] eqn:H0. keep H0.
  match type of H with context [cut_loop ?a ?c ?d ?e ?f ?g ?h] =>
    destruct (cut_loop a c d e f g h) as [[[s1 v1] tr]| |] eqn:Hl end;
    simpl in H; try discriminate.
  apply cut_loop_above in Hl; [|exact H0].
  destruct (cutloop_exit set _ s1 v1) as [s2 u] eqn:Hx.
  apply cutloop_exit_above in Hx; [|exact Hl]. inversion H; subst; clear H. exact Hx.
Qed.

Lemma applyBounding_above c s s' c' :
  applyBounding set c s = (s', c') -> ab s -> ab s'.
Proof.
  destruct Hd. unfold applyBounding. intros H Hs.
  destruct (negb c); [|inversion H; subst; exact Hs].
  pose proof (above_update (SCIPlpGetPseudoObjval s) s Hs) as H1.
  match type of H with context [if ?c then _ else _] => destruct c end;
    [|inversion H; subst; exact H1].
  inversion H; subst; clear H.
  pose proof (above_update (SCIPsetInfinity set) _ H1) as H2.
  match goal with |- context [if ?c then _ else _] => destruct c end; [|exact H2].
  apply above_step; [assumption|exact H2].
Qed.

Lemma initial_lp_phase_above n0 i0 s f s' f' :
  initial_lp_phase set n0 i0 s f = (s', f') -> ab s -> ab s'.
Proof.
  discipline. unfold initial_lp_phase. intros H Hs.
  destruct (solveNodeInitialLP s) as [s1 [c1 le1]] eqn:H1. keep H1.
  set (s2 := add_initlps _ _ s1) in H.
  assert (ab s2) as H2 by exact H1. clearbody s2. clear H1.
  match type of H with (if ?c then _ else _) = _ => destruct c end;
    [|inversion H; subst; exact H2].
  destruct (SCIPsolveIsStopped false s2) as [s3 st] eqn:H3. keep H3.
  destruct (negb st); [|inversion H; subst; exact H3].
  destruct (try_LP_solution _ s3) as [s4 stored] eqn:H4. keep H4.
  destruct (if stored && SCIPprobAllColsInLP s4 then _ else _) as [s5 c5] eqn:H5.
  assert (ab s5) as H5'.
  { destruct (stored && SCIPprobAllColsInLP s4); [|inversion H5; subst; exact H4].
    eapply applyBounding_above; [exact H5|]. step. exact H4. }
  inversion H; subst. exact H5'.
Qed.

Lemma resolve_without_cutoffbound_above s f s' f' :
  resolve_without_cutoffbound s f = (s', f') -> ab s -> ab s'.
Proof.
  discipline. unfold resolve_without_cutoffbound. intros H Hs.
  destruct (SCIPlpSolveAndEval false false _) as [s1 le] eqn:H1.
  eapply above_call in H1; [|solve [eauto]|exact Hs].
  inversion H; subst. exact H1.
Qed.

Lemma solveNodeLP_above fuel initiallpsolved s f s' f' :
  solveNodeLP fuel set initiallpsolved s f = Ok (s', f') -> ab s -> ab s'.
Proof.
  unfold solveNodeLP. intros H Hs.
  destruct (if negb initiallpsolved then _ else _) as [s1 f1] eqn:H1.
  assert (ab s1) as H1'.
  { destruct (negb initiallpsolved); [|inversion H1; subst; exact Hs].
    eapply initial_lp_phase_above; eauto. }
  clear H1.
  match type of H with context [mbind _ ?m] =>
    destruct m as [[s2 f2]| |] eqn:H2 end; simpl in H; try discriminate.
  assert (ab s2) as H2'.
  { destruct (negb (nl_cutoff f1) && negb (nl_lperror f1));
      [|inversion H2; subst; exact H1'].
    destruct (priceAndCutLoop fuel set initiallpsolved s1 _)
      as [[[[s3 v3] u3] tr3]| |] eqn:H3; simpl in H2; try discriminate.
    apply priceAndCutLoop_above in H3; [|exact H1']. inversion H2; subst. exact H3. }
  clear H2.
  destruct (if must_resolve_without_cutoffbound s2 f2 then _ else _) as [s4 f4] eqn:H4.
  assert (ab s4) as H4'.
  { destruct (must_resolve_without_cutoffbound s2 f2); [|inversion H4; subst; exact H2'].
    eapply resolve_without_cutoffbound_above; eauto. }
  inversion H; subst; clear H.
  destruct (SCIPnodeGetDepth _ =? 0); exact H4'.
Qed.

(** *** The node loop, for any LP solver that does not lower the bound *)

Section NodeLoop.
Variable solveLP : bool -> Solver E -> NodeLPFlags -> Res (Solver E * NodeLPFlags).
Hypothesis Hlp : forall i s f s' f', ab s -> solveLP i s f = Ok (s', f') -> ab s'.
Implicit Types (v : NodeVars).

Lemma bound_above s v s' v' : bound set s v = (s', v') -> ab s -> ab s'.
Proof.
  unfold bound. intros H Hs.
  destruct (applyBounding set (n_cutoff v) s) as [s1 c] eqn:Hb.
  inversion H; subst. eapply applyBounding_above; eauto.
Qed.

Lemma applyCuts_above r s f s' f' : applyCuts r s f = (s', f') -> ab s -> ab s'.
Proof.
  destruct Hd. unfold applyCuts. intros H Hs.
  destruct (fl_cutoff f); [inversion H; subst; apply above_step; assumption|].
  destruct (0 <? SCIPsepastoreGetNCuts s)%nat.
  - destruct (SCIPsepastoreApplyCuts r s) as [s1 c] eqn:Ha.
    eapply above_call in Ha; [|solve [eauto]|exact Hs]. inversion H; subst. exact Ha.
  - inversion H; subst. exact Hs.
Qed.

Lemma cuts_bound_status_above depth s v s' v' :
  cuts_bound_status set depth s v = (s', v') -> ab s -> ab s'.
Proof.
  unfold cuts_bound_status. intros H Hs.
  destruct (applyCuts _ s _) as [s1 f1] eqn:Ha. apply applyCuts_above in Ha; [|exact Hs].
  destruct (bound set s1 _) as [s2 v2] eqn:Hb. apply bound_above in Hb; [|exact Ha].
  inversion H; subst. exact Hb.
Qed.

Lemma markRelaxsUnsolved_above s : ab s -> ab (markRelaxsUnsolved set s).
Proof.
  pose proof (lb_relaxs env set Hd) as Hr. unfold markRelaxsUnsolved. intros Hs.
  assert (ab (SCIPrelaxationSetSolValid false s)) as H0
    by (apply above_step; [exact (lb_SCIPrelaxationSetSolValid env set Hd false)|exact Hs]).
  revert H0. generalize (SCIPrelaxationSetSolValid false s).
  induction Hr as [|r rs [Hm _] Hrs IH]; intros s0 H0; simpl; [exact H0|].
  apply IH. apply (above_step (SCIPrelaxMarkUnsolved r)); assumption.
Qed.

Lemma relax_loop_above depth beforelp rs : forall s f s' f',
  Forall (fun r => keeps_bound_ (SCIPrelaxMarkUnsolved r)
                   /\ forall d, keeps_bound (SCIPrelaxExec r d)) rs ->
  relax_loop depth beforelp rs s f = Ok (s', f') -> ab s -> ab s'.
Proof.
  induction rs as [|r rs IH]; intros s f s' f' Hrs H Hs; simpl in H.
  - inversion H; subst. exact Hs.
  - inversion Hrs as [|? ? [_ Hr] Hrs']; subst.
    destruct (fl_cutoff f); [inversion H; subst; exact Hs|].
    destruct (negb (eqb beforelp (0 <=? relax_priority r))); [eauto|].
    destruct (SCIPrelaxExec r depth s) as [s1 [lowerbound result]] eqn:Hc.
    eapply above_call in Hc; [|apply Hr|exact Hs].
    destruct (relax_verdict result f) as [f1| |]; simpl in H; try discriminate.
    eapply IH; [exact Hrs'|exact H|].
    destruct (updates_relax_bound result); [apply above_update|]; exact Hc.
Qed.

Lemma solveNodeRelax_above depth beforelp s f s' f' :
  solveNodeRelax set depth beforelp s f = Ok (s', f') -> ab s -> ab s'.
Proof.
  unfold solveNodeRelax. apply relax_loop_above.
  unfold SCIPsetSortRelaxs. apply Forall_sort_by. exact (lb_relaxs env set Hd).
Qed.

Lemma node_propagation_above depth s v s' v' :
  node_propagation set depth s v = (s', v') -> ab s -> ab s'.
Proof.
  unfold node_propagation. intros H Hs.
  destruct (bound set s _) as [s1 v1] eqn:Hb. apply bound_above in Hb; [|exact Hs].
  destruct (n_propagate v1 && negb (n_cutoff v1)); [|inversion H; subst; exact Hb].
  destruct (propagateDomains _ 0 _ s1) as [s2 c] eqn:Hp.
  eapply above_call in Hp; [|destruct Hd; auto|exact Hb].
  eapply bound_above; eauto.
Qed.

Lemma node_heur_afterprop_above s v s' v' :
  node_heur_afterprop s v = (s', v') -> ab s -> ab s'.
Proof.
  unfold node_heur_afterprop. intros H Hs.
  destruct (negb (n_cutoff v) && negb (SCIPtreeProbing s)); [|inversion H; subst; exact Hs].
  destruct (SCIPprimalHeuristics _ s) as [s1 fs] eqn:Hh.
  eapply above_call in Hh; [|destruct Hd; auto|exact Hs].
  inversion H; subst. exact Hh.
Qed.

Lemma node_relax_above depth beforelp s v s' v' :
  node_relax set depth beforelp s v = Ok (s', v') -> ab s -> ab s'.
Proof.
  unfold node_relax. intros H Hs.
  destruct (n_solverelax v && negb (n_cutoff v)); [|inversion H; subst; exact Hs].
  match type of H with context [solveNodeRelax set depth beforelp ?x ?y] =>
    assert (ab x) as H0
      by (destruct beforelp; [apply above_step; [destruct Hd; assumption|]|]; exact Hs);
    destruct (solveNodeRelax set depth beforelp x y) as [[s1 f1]| |] eqn:Hr end;
    simpl in H; try discriminate.
  apply solveNodeRelax_above in Hr; [|exact H0].
  destruct (applyCuts _ s1 _) as [s2 f2] eqn:Ha. apply applyCuts_above in Ha; [|exact Hr].
  destruct (bound set s2 _) as [s3 v3] eqn:Hb. apply bound_above in Hb; [|exact Ha].
  inversion H; subst. exact Hb.
Qed.

Lemma lp_error_fallback_above s v s' v' :
  lp_error_fallback s v = Ok (s', v') -> ab s -> ab s'.
Proof.
  unfold lp_error_fallback. destruct (n_forcedlpsolve v); [discriminate|].
  intros H Hs; inversion H; subst. exact Hs.
Qed.

Lemma node_lp_solve_above depth s v s' v' :
  node_lp_solve solveLP set depth s v = Ok (s', v') -> ab s -> ab s'.
Proof.
  unfold node_lp_solve. intros H Hs.
  destruct (solveLP _ s _) as [[s1 f1]| |] eqn:Hl; simpl in H; try discriminate.
  apply Hlp in Hl; [|exact Hs].
  match type of H with context [mbind _ ?m] =>
    destruct m as [[s2 v2]| |] eqn:Hf end; simpl in H; try discriminate.
  assert (ab s2) as H2.
  { match type of Hf with (if ?c then _ else _) = _ => destruct c end.
    - eapply lp_error_fallback_above; eauto.
    - inversion Hf; subst. exact Hl. }
  clear Hf.
  repeat match type of H with context [if ?c then _ else _] => destruct c end;
    inversion H; subst; exact H2.
Qed.

Lemma node_lp_above depth s v s' v' :
  node_lp solveLP set depth s v = Ok (s', v') -> ab s -> ab s'.
Proof.
  unfold node_lp. intros H Hs.
  destruct (node_solves_lp s v); [|inversion H; subst; exact Hs].
  destruct (node_lp_solve solveLP set depth s v) as [[s1 v1]| |] eqn:Hl; simpl in H;
    try discriminate.
  apply node_lp_solve_above in Hl; [|exact Hs].
  destruct (bound set s1 v1) as [s2 v2] eqn:Hb. apply bound_above in Hb; [|exact Hl].
  inversion H; subst. exact Hb.
Qed.

Lemma node_heur_afterlp_above depth s v s' v' :
  node_heur_afterlp set depth s v = (s', v') -> ab s -> ab s'.
Proof.
  unfold node_heur_afterlp. intros H Hs.
  match type of H with context [if ?c then _ else _] => destruct c end;
    [|inversion H; subst; exact Hs].
  match type of H with context [if ?c then let '(_, _) := _ in _ else _] =>
    destruct c end;
    destruct (SCIPprimalHeuristics _ s) as [s2 f2] eqn:Hc;
    (eapply above_call in Hc; [|destruct Hd; auto|exact Hs]);
    eapply bound_above; eauto.
Qed.

Lemma node_after_heur_above s v s' v' :
  node_after_heur set s v = Ok (s', v') -> ab s -> ab s'.
Proof.
  unfold node_after_heur. intros H Hs.
  destruct (resolvelperror (lp s)).
  - destruct (lp_error_fallback s v) as [[s1 v1]| |] eqn:Hf; simpl in H; try discriminate.
    apply lp_error_fallback_above in Hf; [|exact Hs].
    destruct (n_foundsol v1); inversion H; subst;
      [apply markRelaxsUnsolved_above|]; exact Hf.
  - simpl in H. destruct (n_foundsol v); inversion H; subst;
      [apply markRelaxsUnsolved_above|]; assumption.
Qed.

Lemma enforce_verdict_above result s f r s' f' r' :
  enforce_verdict set result s f r = Ok (s', f', r') -> ab s -> ab s'.
Proof.
  unfold enforce_verdict. intros H Hs.
  destruct result; try discriminate; inversion H; subst;
    first [exact Hs | apply markRelaxsUnsolved_above; exact Hs].
Qed.

Lemma enforce_handler_above oi forced h s f r s' f' r' ev :
  (forall i, keeps_bound (SCIPconshdlrEnforceLPSol h i)) ->
  (forall i o fo, keeps_bound (SCIPconshdlrEnforcePseudoSol h i o fo)) ->
  enforce_handler set oi forced h s f r = Ok (s', f', r', ev) -> ab s -> ab s'.
Proof.
  unfold enforce_handler. intros Hl Hp H Hs.
  match type of H with context [mbind _ ?m] =>
    destruct m as [[s1 result]| |] eqn:H1 end; simpl in H; try discriminate.
  assert (ab s1) as H1'.
  { destruct (SCIPtreeHasFocusNodeLP s).
    - inversion H1 as [Hc]. eapply above_call; [apply Hl| |exact Hs].
      rewrite Hc. reflexivity.
    - destruct (SCIPconshdlrEnforcePseudoSol h _ oi forced s) as [s2 r2] eqn:Hc.
      eapply above_call in Hc; [|apply Hp|exact Hs].
      destruct (negb _); [discriminate|]. inversion H1; subst. exact Hc. }
  clear H1.
  destruct (enforce_verdict set result s1 f r) as [[[s2 f2] r2]| |] eqn:H2; simpl in H;
    try discriminate.
  apply enforce_verdict_above in H2; [|exact H1'].
  destruct (lp_hit_objlimit s2); inversion H; subst; exact H2.
Qed.

Lemma enforce_loop_above oi forced hs : forall s f r trace s' f' r' trace',
  Forall (fun h => (forall i, keeps_bound (SCIPconshdlrEnforceLPSol h i))
                   /\ forall i o fo, keeps_bound (SCIPconshdlrEnforcePseudoSol h i o fo)) hs ->
  enforce_loop set oi forced hs s f r trace = Ok (s', f', r', trace') -> ab s -> ab s'.
Proof.
  induction hs as [|h hs IH]; intros s f r trace s' f' r' trace' Hhs H Hs; simpl in H.
  - inversion H; subst. exact Hs.
  - inversion Hhs as [|? ? [Hl Hp] Hhs']; subst.
    destruct r; [inversion H; subst; exact Hs|].
    destruct (enforce_handler set oi forced h s f false) as [[[[s1 f1] r1] ev]| |] eqn:Hh;
      simpl in H; try discriminate.
    apply enforce_handler_above in Hh; [|exact Hl|exact Hp|exact Hs].
    eapply IH; eauto.
Qed.

Lemma enforceConstraints_above s f forced s' f' trace :
  enforceConstraints set s f forced = Ok (s', f', trace) -> ab s -> ab s'.
Proof.
  unfold enforceConstraints. intros H Hs.
  match type of H with context [enforce_loop ?a ?c ?d ?e ?g ?h ?i ?j] =>
    destruct (enforce_loop a c d e g h i j) as [[[[s1 f1] r1] tr]| |] eqn:Hl end;
    simpl in H; try discriminate.
  apply enforce_loop_above in Hl;
    [|exact (lb_conshdlrs_enfo env set Hd)|apply above_step; [destruct Hd; assumption|exact Hs]].
  inversion H; subst. apply above_step; [destruct Hd; assumption|exact Hl].
Qed.

Lemma node_enforce_above depth s v s' v' :
  node_enforce set depth s v = Ok (s', v') -> ab s -> ab s'.
Proof.
  unfold node_enforce. intros H Hs.
  match type of H with context [if ?c then _ else Ok (s, _)] => destruct c end;
    [|inversion H; subst; exact Hs].
  destruct (enforceConstraints set s _ _) as [[[s1 ef] tr]| |] eqn:He; simpl in H;
    try discriminate.
  apply enforceConstraints_above in He; [|exact Hs].
  destruct (cuts_bound_status set depth s1 _) as [s2 v2] eqn:Hc.
  apply cuts_bound_status_above in Hc; [|exact He]. inversion H; subst. exact Hc.
Qed.

Lemma node_aborted_pricing_above s v s' v' :
  node_aborted_pricing s v = (s', v') -> ab s -> ab s'.
Proof.
  unfold node_aborted_pricing. intros H Hs.
  match type of H with context [if ?c then _ else _] => destruct c end;
    [|inversion H; subst; exact Hs].
  destruct (try_current_solution s) as [s1 st] eqn:Ht.
  eapply above_call in Ht; [|destruct Hd; auto|exact Hs].
  inversion H; subst. exact Ht.
Qed.

Lemma node_branching_result_above s s' n r :
  node_branching_result s = (s', n, r) -> ab s -> ab s'.
Proof.
  discipline. unfold node_branching_result. intros H Hs.
  destruct (if SCIPtreeHasFocusNodeLP s then _ else _) as [s1 n1] eqn:H1.
  assert (ab s1) as H1'.
  { destruct (SCIPtreeHasFocusNodeLP s); [keep H1; exact H1|].
    inversion H1; subst. exact Hs. }
  clear H1.
  destruct (0 <? n1).
  - destruct (SCIPbranchExecLP s1) as [s2 r2] eqn:H2. keep H2.
    inversion H; subst. exact H2.
  - destruct (if 0 <? SCIPbranchcandGetNExternCands s1 then _ else _) as [s2 r2] eqn:H2.
    assert (ab s2) as H2'.
    { destruct (0 <? SCIPbranchcandGetNExternCands s1); [keep H2; exact H2|].
      inversion H2; subst. exact H1'. }
    clear H2.
    destruct (if bool_decide (r2 = SCIP_DIDNOTRUN) then _ else _) as [s3 r3] eqn:H3.
    assert (ab s3) as H3'.
    { destruct (bool_decide (r2 = SCIP_DIDNOTRUN)); [keep H3; exact H3|].
      inversion H3; subst. exact H2'. }
    inversion H; subst. exact H3'.
Qed.

Lemma node_branching_didnotrun_above s v s' v' :
  node_branching_didnotrun set s v = Ok (s', v') -> ab s -> ab s'.
Proof.
  discipline. unfold node_branching_didnotrun. intros H Hs.
  match type of H with (if ?c then _ else _) = _ => destruct c end;
    [inversion H; subst; exact Hs|].
  destruct (if _ || _ then _ else _) as [s1 stop] eqn:H1.
  assert (ab s1) as H1'.
  { match type of H1 with (if ?c then _ else _) = _ => destruct c end;
      [inversion H1; subst; exact Hs|]. keep H1. exact H1. }
  clear H1.
  destruct stop; [inversion H; subst; step; exact H1'|].
  destruct (n_pricingaborted v); [discriminate|]. inversion H; subst. exact H1'.
Qed.

Lemma node_branch_above depth s v s' v' :
  node_branch set depth s v = Ok (s', v') -> ab s -> ab s'.
Proof.
  unfold node_branch. intros H Hs.
  match type of H with context [if ?c then _ else Ok (s, _)] => destruct c end;
    [|inversion H; subst; exact Hs].
  destruct (node_branching_result s) as [[s1 n] r] eqn:Hr.
  apply node_branching_result_above in Hr; [|exact Hs].
  match type of H with context [mbind _ ?m] =>
    destruct m as [[s2 v2]| |] eqn:Hm end; simpl in H; try discriminate.
  assert (ab s2) as H2.
  { destruct r; try discriminate;
      try (inversion Hm; subst; first [exact Hr | apply markRelaxsUnsolved_above; exact Hr]).
    - eapply node_branching_didnotrun_above; eauto.
    - destruct (0 <? n); [discriminate|]. inversion Hm; subst.
      apply markRelaxsUnsolved_above; exact Hr. }
  destruct (cuts_bound_status set depth s2 v2) as [s3 v3] eqn:Hc.
  apply cuts_bound_status_above in Hc; [|exact H2]. inversion H; subst. exact Hc.
Qed.

Lemma node_before_lp_above depth s v s' v' :
  node_before_lp set depth s v = Ok (s', v') -> ab s -> ab s'.
Proof.
  unfold node_before_lp. intros H Hs.
  destruct (node_propagation set depth s v) as [s1 v1] eqn:H1.
  apply node_propagation_above in H1; [|exact Hs].
  destruct (node_heur_afterprop s1 v1) as [s2 v2] eqn:H2.
  apply node_heur_afterprop_above in H2; [|exact H1].
  eapply node_relax_above; eauto.
Qed.

Lemma node_after_lp_above depth s v s' v' :
  node_after_lp set depth s v = Ok (s', v') -> ab s -> ab s'.
Proof.
  unfold node_after_lp. intros H Hs.
  destruct (node_relax set depth false s v) as [[s5 v5]| |] eqn:H5; simpl in H;
    try discriminate.
  apply node_relax_above in H5; [|exact Hs].
  destruct (node_heur_afterlp set depth s5 v5) as [s6 v6] eqn:H6.
  apply node_heur_afterlp_above in H6; [|exact H5].
  destruct (node_after_heur set s6 v6) as [[s7 v7]| |] eqn:H7; simpl in H;
    try discriminate.
  apply node_after_heur_above in H7; [|exact H6].
  destruct (node_enforce set depth s7 v7) as [[s8 v8]| |] eqn:H8; simpl in H;
    try discriminate.
  apply node_enforce_above in H8; [|exact H7].
  destruct (node_aborted_pricing s8 v8) as [s9 v9] eqn:H9.
  apply node_aborted_pricing_above in H9; [|exact H8].
  destruct (node_branch set depth s9 v9) as [[s10 v10]| |] eqn:H10; simpl in H;
    try discriminate.
  apply node_branch_above in H10; [|exact H9].
  inversion H; subst. exact H10.
Qed.

Lemma node_pass_above depth s v s' v' :
  node_pass solveLP set depth s v = Ok (s', v') -> ab s -> ab s'.
Proof.
  unfold node_pass. intros H Hs.
  destruct (node_before_lp set depth s v) as [[s3 v3]| |] eqn:H3; simpl in H;
    try discriminate.
  apply node_before_lp_above in H3; [|exact Hs].
  destruct (node_lp solveLP set depth s3 v3) as [[s4 v4]| |] eqn:H4; simpl in H;
    try discriminate.
  apply node_lp_above in H4; [|exact H3].
  eapply node_after_lp_above; eauto.
Qed.

Lemma node_loop_above depth fuel : forall s v s' v',
  node_loop fuel solveLP set depth s v = Ok (s', v') -> ab s -> ab s'.
Proof.
  induction fuel as [|fuel IH]; intros s v s' v' H Hs; simpl in H.
  - destruct (node_loop_continues v); [discriminate|]. inversion H; subst; exact Hs.
  - destruct (node_loop_continues v); [|inversion H; subst; exact Hs].
    destruct (node_pass solveLP set depth s v) as [[s1 v1]| |] eqn:Hp; simpl in H;
      try discriminate.
    apply node_pass_above in Hp; [|exact Hs]. eauto.
Qed.

Lemma node_entry_above s s' v' : node_entry set s = (s', v') -> ab s -> ab s'.
Proof.
  unfold node_entry. intros H Hs.
  set (s1 := SCIPbranchcandClearExternCands (SCIPrelaxationSetSolValid false s)) in H.
  assert (ab s1) as H1
    by (subst s1; destruct Hd; apply above_step; [|apply above_step]; auto).
  clearbody s1.
  destruct (SCIPprimalHeuristics _ _) as [s2 fs] eqn:Hh.
  eapply above_call in Hh; [|destruct Hd; auto|exact H1].
  inversion H; subst; clear H.
  destruct (resolvelperror (lp s2)); exact Hh.
Qed.

Lemma node_exit_above depth s v s' v' :
  node_exit set depth s v = Ok (s', v') -> ab s -> ab s'.
Proof.
  unfold node_exit. intros H Hs.
  assert (ab (SCIPconflictFlushConss s)) as H1
    by (destruct Hd; apply above_step; auto).
  revert H. generalize dependent (SCIPconflictFlushConss s). intros s1 H1 H.
  destruct (MAXNLPERRORS <=? n_nlperrors v); [discriminate|].
  match type of H with context [if ?c then SCIPprobStoreRootSol ?x s1 else s1] =>
    assert (ab (if c then SCIPprobStoreRootSol x s1 else s1)) as H2
      by (destruct c; [destruct Hd; apply above_step; auto|exact H1]);
    revert H; generalize dependent (if c then SCIPprobStoreRootSol x s1 else s1)
  end.
  intros s2 H2 H.
  match type of H with (if ?c then _ else _) = _ => destruct c end;
    inversion H; subst; [apply above_update|]; exact H2.
Qed.

Lemma solveNode_with_above fuel s s' v' :
  solveNode_with fuel solveLP set s = Ok (s', v') -> ab s -> ab s'.
Proof.
  unfold solveNode_with. intros H Hs.
  destruct (node_entry set s) as [s1 v1] eqn:He.
  apply node_entry_above in He; [|exact Hs].
  destruct (node_loop fuel solveLP set _ s1 v1) as [[s2 v2]| |] eqn:Hl; simpl in H;
    try discriminate.
  apply node_loop_above in Hl; [|exact He].
  eapply node_exit_above; eauto.
Qed.

End NodeLoop.

End LowerboundProofs.

Section LowerboundTheorems.
Import Solve Lowerbound.
Context {E : Type} {ops : Collaborators E}.
Variable set : SCIP_SET E.
Variable env : Drivers.Surroundings E.
Hypothesis Hsolve_c : Drivers.solve_c_drivers env.
Hypothesis Hd : lowerbound_discipline env set.

(** [solveNodeLP] (lines 1936-2091), with the initial LP, the price-and-cut
    loop, the pricing rounds and the separation rounds inside, never lowers
    the lower bound of the focus node, provided that no callee outside
    solve.c and no plug-in callback lowers it. *)
Theorem solveNodeLP_keeps_lowerbound fuel initiallpsolved (s : Solver E) f s' f' :
  solveNodeLP fuel set initiallpsolved s f = Ok (s', f') ->
  (SCIPnodeGetLowerbound s <= SCIPnodeGetLowerbound s')%Q.
Proof.
  intros H.
  exact (solveNodeLP_above set env Hsolve_c Hd (SCIPnodeGetLowerbound s) fuel initiallpsolved s f s' f' H
           (Qle_refl _)).
Qed.

(** [solveNode] (lines 2498-3104) never lowers the lower bound of the focus
    node, through bounding, propagation, relaxators, the LP, heuristics,
    enforcement and branching, provided that no callee outside solve.c and
    no plug-in callback lowers it. *)
Theorem solveNode_keeps_lowerbound fuel (s : Solver E) s' v' :
  solveNode fuel set s = Ok (s', v') ->
  (SCIPnodeGetLowerbound s <= SCIPnodeGetLowerbound s')%Q.
Proof.
  intros H. unfold solveNode in H.
  refine (solveNode_with_above set env Hsolve_c Hd (SCIPnodeGetLowerbound s) (solveNodeLP fuel set) _
            fuel s s' v' H (Qle_refl _)).
  intros i s1 f1 s2 f2 H1 H2.
  exact (solveNodeLP_above set env Hsolve_c Hd _ fuel i s1 f1 s2 f2 H2 H1).
Qed.

End LowerboundTheorems.

Lemma keeps_bound_update {E} (x : Solve.Solver E -> SCIP_Real) :
  Lowerbound.keeps_bound_ (fun s => Solve.SCIPnodeUpdateLowerbound (x s) s).
Proof.
  intros s. simpl.
  unfold Solve.SCIPnodeGetLowerbound, Solve.SCIPnodeUpdateLowerbound. simpl.
  unfold Rgt_bool.
  destruct (Qle_bool (x s) (Solve.node_lowerbound (Solve.focusnode (Solve.tree s))))
    eqn:Hle; simpl; [apply Qle_refl|].
  apply Qlt_le_weak, Qnot_le_lt. intros H. apply Qle_bool_iff in H. congruence.
Qed.

(** The scripted worlds with the functions of solve.c never lower the bound
    when the plug-ins of the settings do not. *)
Lemma linked_world_lowerbound_discipline lpsolve objval stopped allcols nlpcands branch set :
  Forall (fun p => Lowerbound.keeps_bound (Solve.SCIPpricerExec p)) (Solve.pricers set) ->
  Forall (fun r => Lowerbound.keeps_bound_ (Solve.SCIPrelaxMarkUnsolved r)
                   /\ forall d, Lowerbound.keeps_bound (Solve.SCIPrelaxExec r d))
    (Solve.relaxs set) ->
  Forall (fun sp => forall d b o, Lowerbound.keeps_bound (Solve.SCIPsepaExecLP sp d b o))
    (Solve.sepas set) ->
  Forall (fun h => forall d o, Lowerbound.keeps_bound (Solve.SCIPconshdlrSeparateLP h d o))
    (Solve.conshdlrs_sepa set) ->
  Forall (fun h => (forall i, Lowerbound.keeps_bound (Solve.SCIPconshdlrEnforceLPSol h i))
                   /\ forall i o f,
                        Lowerbound.keeps_bound (Solve.SCIPconshdlrEnforcePseudoSol h i o f))
    (Solve.conshdlrs_enfo set) ->
  Lowerbound.lowerbound_discipline
    (ops := DriversRun.linked (Run.world lpsolve objval stopped allcols nlpcands branch))
    DriversRun.env set.
Proof.
  intros Hp Hr Hs Hc He.
  constructor; try assumption;
    try (intros; intros s; simpl; apply Qle_refl);
    try (repeat constructor; intros; intros s; simpl; apply Qle_refl).
  - intros a b s. simpl. destruct (lpsolve (Solve.ext s)). simpl. apply Qle_refl.
  - apply (keeps_bound_update (fun s => objval (Solve.ext s))).
  - repeat constructor. intros d l t n s. apply Qle_refl.
Qed.

(** The world with the sinking objective and the separator that adds a cut
    per round keeps the discipline. *)
Lemma sinking_lowerbound_discipline :
  Lowerbound.lowerbound_discipline (ops := DriversRun.sinking) DriversRun.env
    (Run.sepa_settings [Run.cutter] 1).
Proof.
  apply linked_world_lowerbound_discipline; repeat constructor.
  intros d b o s. apply Qle_refl.
Qed.

(** The node LP with a separator that adds a cut per round: the LP bound of
    10 raises the lower bound of the node, which was 0. *)
Lemma solveNodeLP_keeps_lowerbound_witness :
  DriversRun.cutting_lp_run = Ok DriversRun.cutting_lp_out
  /\ (Solve.SCIPnodeGetLowerbound Run.solver0 == 0)%Q
  /\ (Solve.SCIPnodeGetLowerbound DriversRun.cutting_lp_out.1 == 10)%Q
  /\ (Solve.SCIPnodeGetLowerbound Run.solver0
      <= Solve.SCIPnodeGetLowerbound DriversRun.cutting_lp_out.1)%Q.
Proof.
  split; [vm_compute; reflexivity|].
  split; [reflexivity|]. split; [reflexivity|].
  apply (solveNodeLP_keeps_lowerbound (ops := DriversRun.sinking)
           (Run.sepa_settings [Run.cutter] 1) DriversRun.env
           (DriversRun_linked_is_solve_c Run.sinking) sinking_lowerbound_discipline
           10%nat false Run.solver0 Run.nodelp0 DriversRun.cutting_lp_out.1
           DriversRun.cutting_lp_out.2).
  vm_compute; reflexivity.
Defined.

(** The same separator in a whole node. *)
Lemma solveNode_keeps_lowerbound_witness :
  DriversRun.cutting_node_run = Ok DriversRun.cutting_node_out
  /\ (Solve.SCIPnodeGetLowerbound DriversRun.cutting_node_out.1 == 10)%Q
  /\ (Solve.SCIPnodeGetLowerbound Run.solver0
      <= Solve.SCIPnodeGetLowerbound DriversRun.cutting_node_out.1)%Q.
Proof.
  split; [vm_compute; reflexivity|].
  split; [reflexivity|].
  apply (solveNode_keeps_lowerbound (ops := DriversRun.sinking)
           (Run.sepa_settings [Run.cutter] 1) DriversRun.env
           (DriversRun_linked_is_solve_c Run.sinking) sinking_lowerbound_discipline
           20%nat Run.solver0 DriversRun.cutting_node_out.1 DriversRun.cutting_node_out.2).
  vm_compute; reflexivity.
Defined.
